(** * AlgoPlus graph engine: [graph<T>] and [weighted_graph<T>]

    A shallow embedding of the two graph classes of AlgoPlus and of the
    algorithms running over them, together with the properties of the
    design document that can be settled on that embedding.

    Conventions of the embedding.
    - [std::unordered_map] and [std::unordered_set] are lists without
      repeated keys; the list order stands for the iteration order of the
      container.  C++ leaves that order unspecified, so every statement
      about a concrete graph is made for all permutations of the stored
      lists.
    - [m[k]] on an [unordered_map] inserts a value-initialised entry when [k]
      is absent.  For the member [adj] that insertion survives the call and
      is threaded through the operations ([um_touch]); maps local to one
      call that are never iterated ([indeg], [dist] of shortest_path, [in],
      [out]) are total functions with the value-initialised default.
    - Integers of the code are [Z].  [int64_t] accumulators wrap
      ([wrap64]).  Edge weights and distances are [double]s; every one the
      code computes holds an integer and is modelled by that integer, with
      the rounding of the conversion from [int64_t] and of [+] written out
      ([double_round]); the two infinities of [bellman_ford] are explicit
      constructors.
    - Loops whose termination depends on the graph take a [fuel] bound on
      the number of iterations and return [None] when it runs out. *)

From Stdlib Require Import List ZArith String Bool Lia Permutation Arith.
Import ListNotations.

Local Open Scope Z_scope.

(** ** Vertex types *)

(** The template parameter [T]: equality-comparable (and hashable). *)
Class Vertex (T : Type) := {
  vertex_eq_dec : forall x y : T, {x = y} + {x <> y}
}.

(** What [prim], [bridge] and the priority queues need in addition: an
    order on [T], the conversion [T(n)] from an integer literal and the
    conversion of a vertex to [int64_t]. *)
Class NumericVertex (T : Type) `{Vertex T} := {
  vertex_ltb : T -> T -> bool;
  vertex_of_int : Z -> T;
  vertex_to_int64 : T -> Z
}.

#[export] Instance Z_Vertex : Vertex Z := {| vertex_eq_dec := Z.eq_dec |}.

#[export] Instance Z_NumericVertex : NumericVertex Z := {|
  vertex_ltb := Z.ltb;
  vertex_of_int := fun n => n;
  vertex_to_int64 := fun n => n
|}.

(** Two's-complement wrap-around of an [int64_t] result. *)
Definition wrap64 (z : Z) : Z := (z + 2 ^ 63) mod 2 ^ 64 - 2 ^ 63.

(** ** [double] *)

(** The multiple of [q] nearest to [m], a tie going to the even multiple. *)
Definition nearest_multiple (q m : Z) : Z :=
  if 2 * (m mod q) <? q then m / q * q
  else if q <? 2 * (m mod q) then m / q * q + q
  else if Z.odd (m / q) then m / q * q + q else m / q * q.

(** The [double] nearest to the integer [z], a tie going to the even
    significand: the rounding mode of the conversions and of [+].  Every
    integer up to 2^53 is a [double]; from 2^k on, for [k >= 53], the
    [double]s are the multiples of 2^(k-52). *)
Definition double_round (z : Z) : Z :=
  let m := Z.abs z in
  if m <=? 2 ^ 53 then z
  else Z.sgn z * nearest_multiple (2 ^ (Z.log2 m - 52)) m.

(** The conversion of an [int64_t] to [double]. *)
Definition double_of_int64 (w : Z) : Z := double_round w.

(** [a + b] on two [double]s holding integers: the exact sum, rounded.
    The sums of the graph code stay far below the largest [double]: a
    distance of magnitude 2^120 absorbs every weight that comes from an
    [int64_t]. *)
Definition double_add (a b : Z) : Z := double_round (a + b).

(** The conversion of a [double] holding an integer to [int64_t].  A
    stored weight lies between -2^63 and 2^63; 2^63 itself is out of the
    range of [int64_t], where the conversion is undefined in C++ and
    yields the least [int64_t] on x86-64. *)
Definition double_to_int64 (d : Z) : Z :=
  if d =? 2 ^ 63 then - 2 ^ 63 else d.

(** ** Containers *)

Section Containers.
Context {K : Type} `{Vertex K}.

(** [std::unordered_set<K>] *)
Definition set_mem (k : K) (s : list K) : bool :=
  if in_dec vertex_eq_dec k s then true else false.

Definition set_insert (k : K) (s : list K) : list K :=
  if set_mem k s then s else s ++ [k].

(** A map local to one call, read and written through [operator[]]
    only. *)
Definition fupd {V : Type} (f : K -> V) (k : K) (v : V) : K -> V :=
  fun x => if vertex_eq_dec x k then v else f x.

Context {V : Type}.
Variable dflt : V.

(** [std::unordered_map<K,V>]: [m.find(k)]. *)
Fixpoint um_find (k : K) (m : list (K * V)) : option V :=
  match m with
  | [] => None
  | (k', v) :: m' => if vertex_eq_dec k k' then Some v else um_find k m'
  end.

(** The value [m[k]] evaluates to. *)
Definition um_get (k : K) (m : list (K * V)) : V :=
  match um_find k m with
  | Some v => v
  | None => dflt
  end.

(** [f] applied to the entry [m[k]], inserted first when absent. *)
Fixpoint um_modify (k : K) (f : V -> V) (m : list (K * V)) : list (K * V) :=
  match m with
  | [] => [(k, f dflt)]
  | (k', v) :: m' =>
      if vertex_eq_dec k k' then (k', f v) :: m'
      else (k', v) :: um_modify k f m'
  end.

(** The effect on [m] of evaluating [m[k]] without writing to it. *)
Definition um_touch (k : K) (m : list (K * V)) : list (K * V) :=
  um_modify k (fun v => v) m.

Definition um_keys (m : list (K * V)) : list K := map fst m.
End Containers.

(** ** Exceptions and the error stream *)

Inductive exception : Type :=
| invalid_argument (what : string).

(** What a constructor call leaves behind: the object, the text written to
    [std::cerr] and the exception that leaves the call, if any. *)
Record constructed (G : Type) : Type := {
  object : G;
  cerr : list string;
  propagated : option exception
}.
Arguments object {G} _.
Arguments cerr {G} _.
Arguments propagated {G} _.

Definition newline : string := String (Ascii.ascii_of_nat 10) EmptyString.

(** * The unweighted graph *)

Module Graph.
Section WithVertex.
Context {T : Type} `{Vertex T}.

Record graph : Type := {
  adj : list (T * list T);
  _elements : list T;
  _type : string
}.

(** The members before the constructor body runs. *)
Definition default_members : graph :=
  {| adj := []; _elements := []; _type := EmptyString |}.

Definition add_edge (g : graph) (u v : T) : graph :=
  let adj' :=
    if (_type g =? "undirected")%string then
      um_modify [] v (fun l => l ++ [u])
        (um_modify [] u (fun l => l ++ [v]) (adj g))
    else
      um_modify [] u (fun l => l ++ [v]) (adj g) in
  {| adj := adj';
     _elements := set_insert v (set_insert u (_elements g));
     _type := _type g |}.

(** The [try] block of the constructor: the state of the object when the
    block is left, and the exception that left it. *)
Definition ctor_try (type_ : string) (adj_ : list (T * list T))
    (this : graph) : graph * option exception :=
  if ((type_ =? "directed") || (type_ =? "undirected"))%string then
    let this1 :=
      {| adj := adj this; _elements := _elements this; _type := type_ |} in
    (fold_left
       (fun g entry => fold_left (fun g neigh => add_edge g (fst entry) neigh)
                         (snd entry) g)
       adj_ this1, None)
  else
    (this, Some (invalid_argument "Can't recognize the type of graph")).

(** [graph(std::string _type, vector<pair<T, vector<T>>> _adj)] *)
Definition graph_ctor (type_ : string) (adj_ : list (T * list T))
    : constructed graph :=
  match ctor_try type_ adj_ default_members with
  | (this, None) => {| object := this; cerr := []; propagated := None |}
  | (this, Some (invalid_argument what)) =>
      (* catch (std::invalid_argument& e) { cerr << e.what() << '\n'; return; } *)
      {| object := this; cerr := [what; newline]; propagated := None |}
  end.

(** [has_edge]: the answer and the graph after the call. *)
Definition has_edge (g : graph) (start end_ : T) : bool * graph :=
  if negb (set_mem start (_elements g)) then (false, g)
  else
    let g' := {| adj := um_touch [] start (adj g);
                 _elements := _elements g; _type := _type g |} in
    (existsb (fun x => if vertex_eq_dec x end_ then true else false)
       (um_get [] start (adj g')), g').

Definition clear (g : graph) : graph :=
  {| adj := []; _elements := []; _type := _type g |}.

Definition empty (g : graph) : bool :=
  match _elements g with [] => true | _ => false end.

Definition size (g : graph) : nat := List.length (_elements g).

(** The neighbour loop shared by the traversals: every unvisited neighbour
    is added to the work list by [push] and marked visited. *)
Definition visit_neighbours (push : T -> list T -> list T)
    (neigh : list T) (work visited : list T) : list T * list T :=
  fold_left
    (fun '(work, visited) x =>
       if set_mem x visited then (work, visited)
       else (push x work, x :: visited))
    neigh (work, visited).

Definition stack_push (x : T) (s : list T) : list T := x :: s.
Definition queue_push (x : T) (q : list T) : list T := q ++ [x].

(** The [while (!s.empty())] loop of [dfs]; the head of [s] is the top of
    the stack. *)
Fixpoint dfs_loop (fuel : nat) (a : list (T * list T))
    (s visited path : list T) : option (list T * list (T * list T)) :=
  match fuel with
  | O => None
  | S fuel' =>
      match s with
      | [] => Some (path, a)
      | current :: s' =>
          let a' := um_touch [] current a in
          let '(s'', visited') :=
            visit_neighbours stack_push (um_get [] current a') s' visited in
          dfs_loop fuel' a' s'' visited' (path ++ [current])
      end
  end.

Definition dfs (fuel : nat) (g : graph) (start : T)
    : option (list T * graph) :=
  if empty g || negb (set_mem start (_elements g)) then Some ([], g)
  else
    match dfs_loop fuel (adj g) [start] [start] [] with
    | None => None
    | Some (path, a) =>
        Some (path, {| adj := a; _elements := _elements g; _type := _type g |})
    end.

(** The inner [for] of [bfs]: [size] elements are taken from the front of
    the queue.  The queue holds at least [size] elements throughout (one
    is removed per round), so the second branch is never taken. *)
Fixpoint bfs_level (size : nat) (a : list (T * list T))
    (q visited path : list T)
    : list (T * list T) * list T * list T * list T :=
  match size with
  | O => (a, q, visited, path)
  | S size' =>
      match q with
      | [] => (a, q, visited, path)
      | current :: q' =>
          let a' := um_touch [] current a in
          let '(q'', visited') :=
            visit_neighbours queue_push (um_get [] current a') q' visited in
          bfs_level size' a' q'' visited' (path ++ [current])
      end
  end.

Fixpoint bfs_loop (fuel : nat) (a : list (T * list T))
    (q visited path : list T) : option (list T * list (T * list T)) :=
  match fuel with
  | O => None
  | S fuel' =>
      match q with
      | [] => Some (path, a)
      | _ :: _ =>
          let '(a', q', visited', path') :=
            bfs_level (List.length q) a q visited path in
          bfs_loop fuel' a' q' visited' path'
      end
  end.

Definition bfs (fuel : nat) (g : graph) (start : T)
    : option (list T * graph) :=
  if empty g || negb (set_mem start (_elements g)) then Some ([], g)
  else
    match bfs_loop fuel (adj g) [start] [start] [] with
    | None => None
    | Some (path, a) =>
        Some (path, {| adj := a; _elements := _elements g; _type := _type g |})
    end.

(** The first loop of [cycle] and [topological_sort]:
    [for x in _elements: for y in adj[x]: indeg[y]++]. *)
Definition indegrees (a : list (T * list T)) (elements : list T)
    : (T -> Z) * list (T * list T) :=
  fold_left
    (fun '(indeg, a) x =>
       let a' := um_touch [] x a in
       (fold_left (fun indeg y => fupd indeg y (indeg y + 1))
          (um_get [] x a') indeg, a'))
    elements (fun _ => 0, a).

(** The [while (!q.empty())] loop of [cycle]; [visited] counts the
    vertices taken from the queue. *)
Fixpoint cycle_loop (fuel : nat) (a : list (T * list T)) (indeg : T -> Z)
    (q : list T) (visited : nat) : option (nat * list (T * list T)) :=
  match fuel with
  | O => None
  | S fuel' =>
      match q with
      | [] => Some (visited, a)
      | current :: q' =>
          let a' := um_touch [] current a in
          let '(indeg', q'') :=
            fold_left
              (fun '(indeg, q) x =>
                 let d := indeg x - 1 in
                 (fupd indeg x d, if d =? 0 then q ++ [x] else q))
              (um_get [] current a') (indeg, q') in
          cycle_loop fuel' a' indeg' q'' (S visited)
      end
  end.

(** The value of the counter [visited] when the loop of [cycle] ends:
    the number of vertices Kahn's algorithm removes. *)
Definition kahn_removed (fuel : nat) (g : graph) : option (nat * graph) :=
  let '(indeg, a) := indegrees (adj g) (_elements g) in
  let q := filter (fun x => indeg x =? 0) (_elements g) in
  match cycle_loop fuel a indeg q 0 with
  | None => None
  | Some (visited, a') =>
      Some (visited,
            {| adj := a'; _elements := _elements g; _type := _type g |})
  end.

(** [cycle]: [return visited == 0;] *)
Definition cycle (fuel : nat) (g : graph) : option (bool * graph) :=
  match kahn_removed fuel g with
  | None => None
  | Some (visited, g') => Some (Nat.eqb visited 0, g')
  end.

Fixpoint topological_loop (fuel : nat) (a : list (T * list T))
    (indeg : T -> Z) (q visited top_sort : list T)
    : option (list T * list (T * list T)) :=
  match fuel with
  | O => None
  | S fuel' =>
      match q with
      | [] => Some (top_sort, a)
      | current :: q' =>
          let a' := um_touch [] current a in
          let '(indeg', q'', visited') :=
            fold_left
              (fun '(indeg, q, visited) x =>
                 if set_mem x visited then (indeg, q, visited)
                 else
                   let d := indeg x - 1 in
                   if d =? 0 then (fupd indeg x d, q ++ [x], x :: visited)
                   else (fupd indeg x d, q, visited))
              (um_get [] current a') (indeg, q', visited) in
          topological_loop fuel' a' indeg' q'' visited' (top_sort ++ [current])
      end
  end.

Definition topological_sort (fuel : nat) (g : graph)
    : option (list T * graph) :=
  let '(indeg, a) := indegrees (adj g) (_elements g) in
  let q := filter (fun x => indeg x =? 0) (_elements g) in
  match topological_loop fuel a indeg q q [] with
  | None => None
  | Some (top_sort, a') =>
      Some (top_sort,
            {| adj := a'; _elements := _elements g; _type := _type g |})
  end.

(** The locals [dfs_bridge] receives by reference, and the member [adj]. *)
Record bridge_state : Type := {
  b_adj : list (T * list T);
  b_time : Z;
  b_visited : list T;
  b_in : T -> Z;
  b_out : T -> Z;
  b_bridges : list (list T)
}.

Definition with_bridge (st : bridge_state) (b : list T) : bridge_state :=
  {| b_adj := b_adj st; b_time := b_time st; b_visited := b_visited st;
     b_in := b_in st; b_out := b_out st; b_bridges := b_bridges st ++ [b] |}.

Definition with_out (st : bridge_state) (k : T) (v : Z) : bridge_state :=
  {| b_adj := b_adj st; b_time := b_time st; b_visited := b_visited st;
     b_in := b_in st; b_out := fupd (b_out st) k v; b_bridges := b_bridges st |}.

(** The loop [for (T& x : adj[start])] of [dfs_bridge] over the neighbours
    [xs]; [child x] is the recursive call [dfs_bridge(x, start, ...)]. *)
Fixpoint bridge_neighbours (child : T -> bridge_state -> option bridge_state)
    (start parent : T) (xs : list T) (st : bridge_state)
    : option bridge_state :=
  match xs with
  | [] => Some st
  | x :: xs' =>
      if vertex_eq_dec x parent then
        bridge_neighbours child start parent xs' st
      else
        let after_child :=
          if set_mem x (b_visited st) then Some st
          else
            match child x st with
            | None => None
            | Some st' =>
                if b_out st' x >? b_in st' start
                then Some (with_bridge st' [x; start])
                else Some st'
            end in
        match after_child with
        | None => None
        | Some st2 =>
            bridge_neighbours child start parent xs'
              (with_out st2 start (Z.min (b_out st2 start) (b_out st2 x)))
        end
  end.

(** [dfs_bridge]; [fuel] bounds the depth of the recursion. *)
Fixpoint dfs_bridge (fuel : nat) (start parent : T) (st : bridge_state)
    : option bridge_state :=
  match fuel with
  | O => None
  | S fuel' =>
      let st1 :=
        {| b_adj := um_touch [] start (b_adj st);
           b_time := wrap64 (b_time st + 1);
           b_visited := set_insert start (b_visited st);
           b_in := fupd (b_in st) start (b_time st);
           b_out := fupd (b_out st) start (b_time st);
           b_bridges := b_bridges st |} in
      bridge_neighbours (fun x st => dfs_bridge fuel' x start st)
        start parent (um_get [] start (b_adj st1)) st1
  end.

(** [bridge(start)]: the call [dfs_bridge(start, -1, ...)]. *)
Definition bridge `{!NumericVertex T} (fuel : nat) (g : graph) (start : T)
    : option (list (list T) * graph) :=
  let st0 :=
    {| b_adj := adj g; b_time := 0; b_visited := [];
       b_in := fun _ => 0; b_out := fun _ => 0; b_bridges := [] |} in
  match dfs_bridge fuel start (vertex_of_int (-1)) st0 with
  | None => None
  | Some st =>
      Some (b_bridges st,
            {| adj := b_adj st; _elements := _elements g; _type := _type g |})
  end.

(** The marking loop of [connected_components] and [connected]: a vertex
    is taken from the work list and its unvisited neighbours are marked
    and added by [push]. *)
Fixpoint mark_loop (push : T -> list T -> list T) (fuel : nat)
    (a : list (T * list T)) (work visited : list T)
    : option (list T * list (T * list T)) :=
  match fuel with
  | O => None
  | S fuel' =>
      match work with
      | [] => Some (visited, a)
      | current :: work' =>
          let a' := um_touch [] current a in
          let '(work'', visited') :=
            visit_neighbours push (um_get [] current a') work' visited in
          mark_loop push fuel' a' work'' visited'
      end
  end.

(** The lambda [explore] of [connected_components]; its work list is a
    queue. *)
Definition explore (fuel : nat) (a : list (T * list T)) (visited : list T)
    (element : T) : option (list T * list (T * list T)) :=
  mark_loop queue_push fuel a [element] (element :: visited).

(** [for (T x : _elements)] of [connected_components]. *)
Fixpoint components_loop (fuel : nat) (elements : list T)
    (a : list (T * list T)) (visited : list T) (cc : Z)
    : option (Z * list (T * list T)) :=
  match elements with
  | [] => Some (cc, a)
  | x :: rest =>
      if set_mem x visited then components_loop fuel rest a visited cc
      else
        match explore fuel a visited x with
        | None => None
        | Some (visited', a') =>
            components_loop fuel rest a' visited' (cc + 1)
        end
  end.

(** [connected_components()]; the counter stays below the number of
    vertices, far from the end of [int64_t]. *)
Definition connected_components (fuel : nat) (g : graph)
    : option (Z * graph) :=
  match components_loop fuel (_elements g) (adj g) [] 0 with
  | None => None
  | Some (cc, a) =>
      Some (cc, {| adj := a; _elements := _elements g; _type := _type g |})
  end.

(** The first loop of [connected]: the first key of [adj], in iteration
    order, whose neighbour list is not empty. *)
Definition first_with_edges (a : list (T * list T)) : option T :=
  option_map fst
    (find (fun ele => negb (Nat.eqb (List.length (um_get [] (fst ele) a)) 0))
       a).

(** The last loop of [connected]:
    [if (visited.find(x) == visited.end() && adj[x].size() > 0) return false]. *)
Fixpoint all_marked (elements : list T) (a : list (T * list T))
    (visited : list T) : bool * list (T * list T) :=
  match elements with
  | [] => (true, a)
  | x :: rest =>
      if set_mem x visited then all_marked rest a visited
      else
        let a' := um_touch [] x a in
        if Nat.ltb 0 (List.length (um_get [] x a')) then (false, a')
        else all_marked rest a' visited
  end.

(** [connected()]; the work list of its loop is a stack. *)
Definition connected (fuel : nat) (g : graph) : option (bool * graph) :=
  match first_with_edges (adj g) with
  | None => Some (false, g)
  | Some start =>
      match mark_loop stack_push fuel (adj g) [start] [start] with
      | None => None
      | Some (visited, a) =>
          let '(b, a') := all_marked (_elements g) a visited in
          Some (b, {| adj := a'; _elements := _elements g; _type := _type g |})
      end
  end.

(** [eulerian()]: 0 ([false]) when the graph is not connected or more than
    two adjacency lists have an odd size, else 1 when some have, else 2. *)
Definition eulerian (fuel : nat) (g : graph) : option (Z * graph) :=
  match connected fuel g with
  | None => None
  | Some (false, g') => Some (0, g')
  | Some (true, g') =>
      let odd :=
        Z.of_nat
          (List.length
             (filter (fun el => Nat.odd (List.length (um_get [] (fst el) (adj g'))))
                (adj g'))) in
      Some (if odd >? 2 then 0 else if odd =? 0 then 2 else 1, g')
  end.

(** The loop of [bipartite] over the neighbours of a vertex coloured
    [col]; [None] stands for [return false]. *)
Fixpoint colour_neighbours (col : Z) (neigh : list T) (q : list (T * Z))
    (color : T -> option Z) : option (list (T * Z) * (T -> option Z)) :=
  match neigh with
  | [] => Some (q, color)
  | x :: rest =>
      match color x with
      | Some c =>
          if c =? col then None else colour_neighbours col rest q color
      | None =>
          let c := if col =? 0 then 1 else 0 in
          colour_neighbours col rest (q ++ [(x, c)]) (fupd color x (Some c))
      end
  end.

(** The [while (!q.empty())] loop of [bipartite]; the colouring is [None]
    when the loop has returned [false]. *)
Fixpoint colour_loop (fuel : nat) (a : list (T * list T)) (q : list (T * Z))
    (color : T -> option Z)
    : option (option (T -> option Z) * list (T * list T)) :=
  match fuel with
  | O => None
  | S fuel' =>
      match q with
      | [] => Some (Some color, a)
      | (v, col) :: q' =>
          let a' := um_touch [] v a in
          match colour_neighbours col (um_get [] v a') q' color with
          | None => Some (None, a')
          | Some (q'', color') => colour_loop fuel' a' q'' color'
          end
      end
  end.

(** [for (T x : _elements)] of [bipartite]; the second component is the
    colouring built, kept for the statements about it. *)
Fixpoint colour_elements (fuel : nat) (elements : list T)
    (a : list (T * list T)) (color : T -> option Z)
    : option (bool * (T -> option Z) * list (T * list T)) :=
  match elements with
  | [] => Some (true, color, a)
  | x :: rest =>
      match color x with
      | Some _ => colour_elements fuel rest a color
      | None =>
          match colour_loop fuel a [(x, 0)] (fupd color x (Some 0)) with
          | None => None
          | Some (None, a') => Some (false, color, a')
          | Some (Some color', a') => colour_elements fuel rest a' color'
          end
      end
  end.

(** [bipartite()] *)
Definition bipartite (fuel : nat) (g : graph) : option (bool * graph) :=
  match colour_elements fuel (_elements g) (adj g) (fun _ => None) with
  | None => None
  | Some (b, _, a) =>
      Some (b, {| adj := a; _elements := _elements g; _type := _type g |})
  end.

End WithVertex.
Arguments graph T : clear implicits.
End Graph.

(** * The weighted graph *)

(** Distances of [bellman_ford]: a [double] that is an integer or one of
    the two infinities. *)
Inductive dval : Type :=
| NegInf
| Fin (z : Z)
| PosInf.

(** [d + w] for an edge weight [w]. *)
Definition dval_add (d : dval) (w : Z) : dval :=
  match d with
  | NegInf => NegInf
  | Fin z => Fin (double_add z w)
  | PosInf => PosInf
  end.

(** [a < b] *)
Definition dval_ltb (a b : dval) : bool :=
  match a, b with
  | NegInf, NegInf => false
  | NegInf, _ => true
  | Fin _, NegInf => false
  | Fin x, Fin y => x <? y
  | Fin _, PosInf => true
  | PosInf, _ => false
  end.

(** [std::priority_queue] with [std::greater]: the queue is a bag, [top]
    is its least element for the order [lt] of the elements. *)
Section PriorityQueue.
Context {A : Type}.
Variable lt : A -> A -> bool.

(** The least element of [x :: l] and the others. *)
Fixpoint pq_extract (x : A) (l : list A) : A * list A :=
  match l with
  | [] => (x, [])
  | y :: l' =>
      if lt y x then let '(m, r) := pq_extract y l' in (m, x :: r)
      else let '(m, r) := pq_extract x l' in (m, y :: r)
  end.

(** [top()] followed by [pop()]. *)
Definition pq_pop (q : list A) : option (A * list A) :=
  match q with
  | [] => None
  | x :: l => Some (pq_extract x l)
  end.
End PriorityQueue.

Module WeightedGraph.
Section WithVertex.
Context {T : Type} `{Vertex T}.

Record weighted_graph : Type := {
  adj : list (T * list (T * Z));
  _type : string;
  _elements : list T
}.

Definition default_members : weighted_graph :=
  {| adj := []; _type := EmptyString; _elements := [] |}.

Definition with_adj (g : weighted_graph) (a : list (T * list (T * Z)))
    : weighted_graph :=
  {| adj := a; _type := _type g; _elements := _elements g |}.

(** [add_edge(u, v, w)]: the [int64_t] weight is stored as a [double]. *)
Definition add_edge (g : weighted_graph) (u v : T) (w : Z)
    : weighted_graph :=
  let adj' :=
    if (_type g =? "undirected")%string then
      um_modify [] v (fun l => l ++ [(u, double_of_int64 w)])
        (um_modify [] u (fun l => l ++ [(v, double_of_int64 w)]) (adj g))
    else if (_type g =? "directed")%string then
      um_modify [] u (fun l => l ++ [(v, double_of_int64 w)]) (adj g)
    else adj g in
  {| adj := adj';
     _type := _type g;
     _elements := set_insert v (set_insert u (_elements g)) |}.

Definition ctor_try (type_ : string) (adj_ : list ((T * T) * Z))
    (this : weighted_graph) : weighted_graph * option exception :=
  if ((type_ =? "directed") || (type_ =? "undirected"))%string then
    let this1 :=
      {| adj := adj this; _type := type_; _elements := _elements this |} in
    (fold_left
       (fun g e => add_edge g (fst (fst e)) (snd (fst e)) (snd e))
       adj_ this1, None)
  else
    (this, Some (invalid_argument "Can't recognize the type of graph")).

(** [weighted_graph(std::string _type,
                    vector<pair<pair<T,T>, int64_t>> _adj)] *)
Definition weighted_graph_ctor (type_ : string) (adj_ : list ((T * T) * Z))
    : constructed weighted_graph :=
  match ctor_try type_ adj_ default_members with
  | (this, None) => {| object := this; cerr := []; propagated := None |}
  | (this, Some (invalid_argument what)) =>
      {| object := this; cerr := [what; newline]; propagated := None |}
  end.

Definition has_edge (g : weighted_graph) (start end_ : T)
    : bool * weighted_graph :=
  if negb (set_mem start (_elements g)) then (false, g)
  else
    let g' := with_adj g (um_touch [] start (adj g)) in
    (existsb (fun x => if vertex_eq_dec (fst x) end_ then true else false)
       (um_get [] start (adj g')), g').

Definition clear (g : weighted_graph) : weighted_graph :=
  {| adj := []; _type := _type g; _elements := [] |}.

Definition empty (g : weighted_graph) : bool :=
  match _elements g with [] => true | _ => false end.

Definition size (g : weighted_graph) : nat := List.length (_elements g).

Definition visit_neighbours (push : T -> list T -> list T)
    (neigh : list (T * Z)) (work visited : list T) : list T * list T :=
  fold_left
    (fun '(work, visited) x =>
       if set_mem (fst x) visited then (work, visited)
       else (push (fst x) work, fst x :: visited))
    neigh (work, visited).

(** The inner [for] of [dfs] and of [bfs]: [size] elements are taken from
    the work list, which holds at least [size] elements throughout. *)
Fixpoint traverse_level (push : T -> list T -> list T) (size : nat)
    (a : list (T * list (T * Z))) (work visited path : list T)
    : list (T * list (T * Z)) * list T * list T * list T :=
  match size with
  | O => (a, work, visited, path)
  | S size' =>
      match work with
      | [] => (a, work, visited, path)
      | current :: work' =>
          let a' := um_touch [] current a in
          let '(work'', visited') :=
            visit_neighbours push (um_get [] current a') work' visited in
          traverse_level push size' a' work'' visited' (path ++ [current])
      end
  end.

Fixpoint traverse_loop (push : T -> list T -> list T) (fuel : nat)
    (a : list (T * list (T * Z))) (work visited path : list T)
    : option (list T * list (T * list (T * Z))) :=
  match fuel with
  | O => None
  | S fuel' =>
      match work with
      | [] => Some (path, a)
      | _ :: _ =>
          let '(a', work', visited', path') :=
            traverse_level push (List.length work) a work visited path in
          traverse_loop push fuel' a' work' visited' path'
      end
  end.

Definition traverse (push : T -> list T -> list T) (fuel : nat)
    (g : weighted_graph) (start : T) : option (list T * weighted_graph) :=
  if empty g || negb (set_mem start (_elements g)) then Some ([], g)
  else
    match traverse_loop push fuel (adj g) [start] [start] [] with
    | None => None
    | Some (path, a) => Some (path, with_adj g a)
    end.

(** [dfs]: the work list is a stack. *)
Definition dfs : nat -> weighted_graph -> T -> option (list T * weighted_graph) :=
  traverse (fun x s => x :: s).

(** [bfs]: the work list is a queue. *)
Definition bfs : nat -> weighted_graph -> T -> option (list T * weighted_graph) :=
  traverse (fun x q => q ++ [x]).

Definition indegrees (a : list (T * list (T * Z))) (elements : list T)
    : (T -> Z) * list (T * list (T * Z)) :=
  fold_left
    (fun '(indeg, a) x =>
       let a' := um_touch [] x a in
       (fold_left (fun indeg y => fupd indeg (fst y) (indeg (fst y) + 1))
          (um_get [] x a') indeg, a'))
    elements (fun _ => 0, a).

Fixpoint cycle_loop (fuel : nat) (a : list (T * list (T * Z)))
    (indeg : T -> Z) (q : list T) (visited : nat)
    : option (nat * list (T * list (T * Z))) :=
  match fuel with
  | O => None
  | S fuel' =>
      match q with
      | [] => Some (visited, a)
      | current :: q' =>
          let a' := um_touch [] current a in
          let '(indeg', q'') :=
            fold_left
              (fun '(indeg, q) x =>
                 let d := indeg (fst x) - 1 in
                 (fupd indeg (fst x) d, if d =? 0 then q ++ [fst x] else q))
              (um_get [] current a') (indeg, q') in
          cycle_loop fuel' a' indeg' q'' (S visited)
      end
  end.

Definition kahn_removed (fuel : nat) (g : weighted_graph)
    : option (nat * weighted_graph) :=
  let '(indeg, a) := indegrees (adj g) (_elements g) in
  let q := filter (fun x => indeg x =? 0) (_elements g) in
  match cycle_loop fuel a indeg q 0 with
  | None => None
  | Some (visited, a') => Some (visited, with_adj g a')
  end.

(** [cycle]: [return visited == 0;] *)
Definition cycle (fuel : nat) (g : weighted_graph)
    : option (bool * weighted_graph) :=
  match kahn_removed fuel g with
  | None => None
  | Some (visited, g') => Some (Nat.eqb visited 0, g')
  end.

Fixpoint topological_loop (fuel : nat) (a : list (T * list (T * Z)))
    (indeg : T -> Z) (q visited top_sort : list T)
    : option (list T * list (T * list (T * Z))) :=
  match fuel with
  | O => None
  | S fuel' =>
      match q with
      | [] => Some (top_sort, a)
      | current :: q' =>
          let a' := um_touch [] current a in
          let '(indeg', q'', visited') :=
            fold_left
              (fun '(indeg, q, visited) x =>
                 if set_mem (fst x) visited then (indeg, q, visited)
                 else
                   let d := indeg (fst x) - 1 in
                   if d =? 0
                   then (fupd indeg (fst x) d, q ++ [fst x], fst x :: visited)
                   else (fupd indeg (fst x) d, q, visited))
              (um_get [] current a') (indeg, q', visited) in
          topological_loop fuel' a' indeg' q'' visited' (top_sort ++ [current])
      end
  end.

Definition topological_sort (fuel : nat) (g : weighted_graph)
    : option (list T * weighted_graph) :=
  let '(indeg, a) := indegrees (adj g) (_elements g) in
  let q := filter (fun x => indeg x =? 0) (_elements g) in
  match topological_loop fuel a indeg q q [] with
  | None => None
  | Some (top_sort, a') => Some (top_sort, with_adj g a')
  end.

(** The marking loop of [connected_components] and [connected]. *)
Fixpoint mark_loop (push : T -> list T -> list T) (fuel : nat)
    (a : list (T * list (T * Z))) (work visited : list T)
    : option (list T * list (T * list (T * Z))) :=
  match fuel with
  | O => None
  | S fuel' =>
      match work with
      | [] => Some (visited, a)
      | current :: work' =>
          let a' := um_touch [] current a in
          let '(work'', visited') :=
            visit_neighbours push (um_get [] current a') work' visited in
          mark_loop push fuel' a' work'' visited'
      end
  end.

(** The lambda [explore] of [connected_components]; its work list is a
    stack. *)
Definition explore (fuel : nat) (a : list (T * list (T * Z)))
    (visited : list T) (element : T)
    : option (list T * list (T * list (T * Z))) :=
  mark_loop (fun x s => x :: s) fuel a [element] (element :: visited).

(** [for (T x : _elements)] of [connected_components]. *)
Fixpoint components_loop (fuel : nat) (elements : list T)
    (a : list (T * list (T * Z))) (visited : list T) (cc : Z)
    : option (Z * list (T * list (T * Z))) :=
  match elements with
  | [] => Some (cc, a)
  | x :: rest =>
      if set_mem x visited then components_loop fuel rest a visited cc
      else
        match explore fuel a visited x with
        | None => None
        | Some (visited', a') =>
            components_loop fuel rest a' visited' (cc + 1)
        end
  end.

(** [connected_components()] *)
Definition connected_components (fuel : nat) (g : weighted_graph)
    : option (Z * weighted_graph) :=
  match components_loop fuel (_elements g) (adj g) [] 0 with
  | None => None
  | Some (cc, a) => Some (cc, with_adj g a)
  end.

(** The first loop of [connected]. *)
Definition first_with_edges (a : list (T * list (T * Z))) : option T :=
  option_map fst
    (find (fun ele => negb (Nat.eqb (List.length (um_get [] (fst ele) a)) 0))
       a).

(** The last loop of [connected]. *)
Fixpoint all_marked (elements : list T) (a : list (T * list (T * Z)))
    (visited : list T) : bool * list (T * list (T * Z)) :=
  match elements with
  | [] => (true, a)
  | x :: rest =>
      if set_mem x visited then all_marked rest a visited
      else
        let a' := um_touch [] x a in
        if Nat.ltb 0 (List.length (um_get [] x a')) then (false, a')
        else all_marked rest a' visited
  end.

(** [connected()] *)
Definition connected (fuel : nat) (g : weighted_graph)
    : option (bool * weighted_graph) :=
  match first_with_edges (adj g) with
  | None => Some (false, g)
  | Some start =>
      match mark_loop (fun x s => x :: s) fuel (adj g) [start] [start] with
      | None => None
      | Some (visited, a) =>
          let '(b, a') := all_marked (_elements g) a visited in
          Some (b, with_adj g a')
      end
  end.

(** [eulerian()] *)
Definition eulerian (fuel : nat) (g : weighted_graph)
    : option (Z * weighted_graph) :=
  match connected fuel g with
  | None => None
  | Some (false, g') => Some (0, g')
  | Some (true, g') =>
      let odd :=
        Z.of_nat
          (List.length
             (filter (fun el => Nat.odd (List.length (um_get [] (fst el) (adj g'))))
                (adj g'))) in
      Some (if odd >? 2 then 0 else if odd =? 0 then 2 else 1, g')
  end.

(** The loop of [bipartite] over the neighbours of a vertex coloured
    [col]; [None] stands for [return false]. *)
Fixpoint colour_neighbours (col : Z) (neigh : list (T * Z))
    (q : list (T * Z)) (color : T -> option Z)
    : option (list (T * Z) * (T -> option Z)) :=
  match neigh with
  | [] => Some (q, color)
  | x :: rest =>
      match color (fst x) with
      | Some c =>
          if c =? col then None else colour_neighbours col rest q color
      | None =>
          let c := if col =? 0 then 1 else 0 in
          colour_neighbours col rest (q ++ [(fst x, c)])
            (fupd color (fst x) (Some c))
      end
  end.

Fixpoint colour_loop (fuel : nat) (a : list (T * list (T * Z)))
    (q : list (T * Z)) (color : T -> option Z)
    : option (option (T -> option Z) * list (T * list (T * Z))) :=
  match fuel with
  | O => None
  | S fuel' =>
      match q with
      | [] => Some (Some color, a)
      | (v, col) :: q' =>
          let a' := um_touch [] v a in
          match colour_neighbours col (um_get [] v a') q' color with
          | None => Some (None, a')
          | Some (q'', color') => colour_loop fuel' a' q'' color'
          end
      end
  end.

Fixpoint colour_elements (fuel : nat) (elements : list T)
    (a : list (T * list (T * Z))) (color : T -> option Z)
    : option (bool * (T -> option Z) * list (T * list (T * Z))) :=
  match elements with
  | [] => Some (true, color, a)
  | x :: rest =>
      match color x with
      | Some _ => colour_elements fuel rest a color
      | None =>
          match colour_loop fuel a [(x, 0)] (fupd color x (Some 0)) with
          | None => None
          | Some (None, a') => Some (false, color, a')
          | Some (Some color', a') => colour_elements fuel rest a' color'
          end
      end
  end.

(** [bipartite()] *)
Definition bipartite (fuel : nat) (g : weighted_graph)
    : option (bool * weighted_graph) :=
  match colour_elements fuel (_elements g) (adj g) (fun _ => None) with
  | None => None
  | Some (b, _, a) => Some (b, with_adj g a)
  end.

End WithVertex.
Arguments weighted_graph T : clear implicits.

Section WithNumericVertex.
Context {T : Type} `{NumericVertex T}.

(** [(double) std::numeric_limits<int64_t>::max()]: 2^63 - 1 is not a
    [double], the conversion rounds to 2^63. *)
Definition dist_unset : Z := 2 ^ 63.

(** [operator<] of [std::pair<double, T>] *)
Definition dist_vertex_ltb (p q : Z * T) : bool :=
  (fst p <? fst q) || (negb (fst q <? fst p) && vertex_ltb (snd p) (snd q)).

(** [operator<] of [std::pair<T, int64_t>] *)
Definition vertex_weight_ltb (p q : T * Z) : bool :=
  vertex_ltb (fst p) (fst q)
  || (negb (vertex_ltb (fst q) (fst p)) && (snd p <? snd q)).

(** [dist[x] = max] for every vertex, then [dist[start] = 0]. *)
Definition initial_dist (elements : list T) (start : T) : T -> Z :=
  fupd (fold_left (fun dist x => fupd dist x dist_unset) elements
          (fun _ => 0))
       start 0.

(** The loop of the branch [!cycle() && _type == "directed"].  The vector
    [top_sort] has been reversed and is used from its back: the head of
    the list is [top_sort.back()]. *)
Fixpoint dag_loop (fuel : nat) (a : list (T * list (T * Z)))
    (top_sort : list T) (dist : T -> Z)
    : option ((T -> Z) * list (T * list (T * Z))) :=
  match fuel with
  | O => None
  | S fuel' =>
      match top_sort with
      | [] => Some (dist, a)
      | current :: rest =>
          if dist current =? dist_unset then dag_loop fuel' a rest dist
          else
            let a' := um_touch [] current a in
            let '(dist', top_sort') :=
              fold_left
                (fun '(dist, top_sort) x =>
                   if dist (fst x) >? double_add (dist current) (snd x)
                   then (fupd dist (fst x) (double_add (dist current) (snd x)),
                         fst x :: top_sort)
                   else (dist, top_sort))
                (um_get [] current a') (dist, rest) in
            dag_loop fuel' a' top_sort' dist'
      end
  end.

(** The loop of the other branch (Dijkstra). *)
Fixpoint dijkstra_loop (fuel : nat) (a : list (T * list (T * Z)))
    (pq : list (Z * T)) (dist : T -> Z)
    : option ((T -> Z) * list (T * list (T * Z))) :=
  match fuel with
  | O => None
  | S fuel' =>
      match pq_pop dist_vertex_ltb pq with
      | None => Some (dist, a)
      | Some ((currentDist, currentNode), pq') =>
          let a' := um_touch [] currentNode a in
          let '(dist', pq'') :=
            fold_left
              (fun '(dist, pq) edge =>
                 if double_add currentDist (snd edge) <? dist (fst edge)
                 then (fupd dist (fst edge) (double_add currentDist (snd edge)),
                       (double_add currentDist (snd edge), fst edge) :: pq)
                 else (dist, pq))
              (um_get [] currentNode a') (dist, pq') in
          dijkstra_loop fuel' a' pq'' dist'
      end
  end.

(** [return (dist[end] != max) ? dist[end] : -1;] *)
Definition dist_result (dist : T -> Z) (end_ : T) : Z :=
  if dist end_ =? dist_unset then -1 else dist end_.

(** The branch taken when [!cycle() && _type == "directed"]: relaxation
    along the topological order. *)
Definition relax_in_topological_order (fuel : nat) (g : weighted_graph T)
    (start end_ : T) : option (Z * weighted_graph T) :=
  match topological_sort fuel g with
  | None => None
  | Some (top_sort, g') =>
      match dag_loop fuel (adj g') top_sort
              (initial_dist (_elements g') start) with
      | None => None
      | Some (dist, a) => Some (dist_result dist end_, with_adj g' a)
      end
  end.

(** The [else] branch. *)
Definition dijkstra (fuel : nat) (g : weighted_graph T) (start end_ : T)
    : option (Z * weighted_graph T) :=
  match dijkstra_loop fuel (adj g) [(0, start)]
          (initial_dist (_elements g) start) with
  | None => None
  | Some (dist, a) => Some (dist_result dist end_, with_adj g a)
  end.

(** [shortest_path(start, end)]; the two messages written to [std::cout]
    are left out.  [fuel] bounds each of the loops run by the call. *)
Definition shortest_path (fuel : nat) (g : weighted_graph T) (start end_ : T)
    : option (Z * weighted_graph T) :=
  if negb (set_mem start (_elements g)) then Some (-1, g)
  else if negb (set_mem end_ (_elements g)) then Some (-1, g)
  else
    match cycle fuel g with
    | None => None
    | Some (has_cycle, g1) =>
        if negb has_cycle && (_type g1 =? "directed")%string
        then relax_in_topological_order fuel g1 start end_
        else dijkstra fuel g1 start end_
    end.

(** The loop of [prim]; the queue holds [std::pair<T, int64_t>], to which
    the [std::pair<T, double>] of [adj] is converted by [q.push(x)]. *)
Fixpoint prim_loop (fuel : nat) (a : list (T * list (T * Z)))
    (q : list (T * Z)) (visited : list T) (cost : Z)
    : option (Z * list (T * list (T * Z))) :=
  match fuel with
  | O => None
  | S fuel' =>
      match pq_pop vertex_weight_ltb q with
      | None => Some (cost, a)
      | Some (current, q') =>
          if set_mem (fst current) visited then
            prim_loop fuel' a q' visited cost
          else
            let cost' := wrap64 (cost + snd current) in
            let visited' := fst current :: visited in
            let a' := um_touch [] (fst current) a in
            let q'' :=
              fold_left
                (fun q x =>
                   if set_mem (fst x) visited' then q
                   else (fst x, double_to_int64 (snd x)) :: q)
                (um_get [] (fst current) a') q' in
            prim_loop fuel' a' q'' visited' cost'
      end
  end.

(** [prim(_temp)].  The queue is seeded with [std::make_pair(0, _temp)],
    a [pair<int, T>] that converts to the element type [pair<T, int64_t>]
    component by component: the first component is the vertex [T(0)], the
    second the start vertex as an [int64_t]. *)
Definition prim (fuel : nat) (g : weighted_graph T) (_temp : T)
    : option (Z * weighted_graph T) :=
  match prim_loop fuel (adj g)
          [(vertex_of_int 0, vertex_to_int64 _temp)] [] 0 with
  | None => None
  | Some (cost, a) => Some (cost, with_adj g a)
  end.
End WithNumericVertex.

Section BellmanFord.
Context {T : Type} `{Vertex T}.

(** The value [dist[k]] evaluates to; a missing entry is inserted as
    [0.0]. *)
Definition dist_get (dist : T -> option dval) (k : T) : dval :=
  match dist k with
  | Some d => d
  | None => Fin 0
  end.

Definition dist_touch (dist : T -> option dval) (k : T) : T -> option dval :=
  fupd dist k (Some (dist_get dist k)).

(** The body of the innermost loop for the edge [j -> edge.first]:
    [if (dist[j] + edge.second < dist[edge.first]) dist[edge.first] = ...],
    where the value written is [improved] of the left-hand side. *)
Definition relax (improved : dval -> dval) (j : T)
    (dist : T -> option dval) (edge : T * Z) : T -> option dval :=
  let dist1 := dist_touch (dist_touch dist j) (fst edge) in
  let candidate := dval_add (dist_get dist1 j) (snd edge) in
  if dval_ltb candidate (dist_get dist1 (fst edge))
  then fupd dist1 (fst edge) (Some (improved candidate))
  else dist1.

(** One pass over all edges: [for j in adj: for edge in adj[j.first]]. *)
Definition relax_all (improved : dval -> dval)
    (a : list (T * list (T * Z))) (dist : T -> option dval)
    : T -> option dval :=
  fold_left
    (fun dist j => fold_left (relax improved (fst j)) (um_get [] (fst j) a) dist)
    a dist.

Fixpoint rounds (n : nat) (improved : dval -> dval)
    (a : list (T * list (T * Z))) (dist : T -> option dval)
    : T -> option dval :=
  match n with
  | O => dist
  | S n' => rounds n' improved a (relax_all improved a dist)
  end.

(** [dist[it.first] = infinity] for every key of [adj], then
    [dist[start] = 0]. *)
Definition bellman_ford_init (a : list (T * list (T * Z))) (start : T)
    : T -> option dval :=
  fupd (fold_left (fun dist it => fupd dist (fst it) (Some PosInf)) a
          (fun _ => None))
       start (Some (Fin 0)).

(** [bellman_ford(start)]: the returned map.  [v = adj.size()], and each
    of the two phases runs [v - 1] passes. *)
Definition bellman_ford (g : weighted_graph T) (start : T)
    : T -> option dval :=
  let v := Z.of_nat (List.length (adj g)) in
  let passes := Z.to_nat (v - 1) in
  rounds passes (fun _ => NegInf) (adj g)
    (rounds passes (fun d => d) (adj g)
       (bellman_ford_init (adj g) start)).
End BellmanFord.
End WeightedGraph.

(** * Specification vocabulary *)

(** ** Iteration orders *)

Section Orders.
Context {A : Type}.

Fixpoint insert_everywhere (x : A) (l : list A) : list (list A) :=
  match l with
  | [] => [[x]]
  | y :: l' => (x :: l) :: map (cons y) (insert_everywhere x l')
  end.

(** Every order in which a container holding [l] can be iterated. *)
Fixpoint orders (l : list A) : list (list A) :=
  match l with
  | [] => [[]]
  | x :: l' => flat_map (insert_everywhere x) (orders l')
  end.
End Orders.

(** How many of the vertices [U] still have a positive in-degree counter:
    with the length of the queue, the measure that bounds Kahn's loop. *)
Definition count_pos {T : Type} (indeg : T -> Z) (U : list T) : nat :=
  List.length (filter (fun v => 0 <? indeg v) U).

(** [u] comes before [v] in the sequence [l]. *)
Definition precedes {T : Type} (u v : T) (l : list T) : Prop :=
  exists l1 l2 l3, l = l1 ++ u :: l2 ++ v :: l3.

Module GraphSpec.
Import Graph.
Section WithVertex.
Context {T : Type} `{Vertex T}.

(** The same graph held in containers that iterate in another order. *)
Definition same_graph (g g' : graph T) : Prop :=
  Permutation (adj g) (adj g')
  /\ Permutation (_elements g) (_elements g')
  /\ _type g = _type g'.

(** [(u, v)] is stored as an edge. *)
Definition edge (g : graph T) (u v : T) : Prop :=
  In v (um_get [] u (adj g)).

(** The invariant of the data model: [vertices] is a superset of the keys
    and of the neighbour values of [adjacency]. *)
Definition vertices_cover_adjacency (g : graph T) : Prop :=
  (forall k, In k (um_keys (adj g)) -> In k (_elements g))
  /\ (forall k l v, In (k, l) (adj g) -> In v l -> In v (_elements g)).

(** The public operations that change or may change the stored graph. *)
Inductive operation : Type :=
| op_add_edge (u v : T)
| op_has_edge (start end_ : T)
| op_clear
| op_dfs (start : T)
| op_bfs (start : T).

(** The graph after an operation; [None] when a loop runs out of
    [fuel]. *)
Definition run (fuel : nat) (g : graph T) (o : operation)
    : option (graph T) :=
  match o with
  | op_add_edge u v => Some (add_edge g u v)
  | op_has_edge start end_ => Some (snd (has_edge g start end_))
  | op_clear => Some (clear g)
  | op_dfs start => option_map snd (dfs fuel g start)
  | op_bfs start => option_map snd (bfs fuel g start)
  end.
(** [v] can be reached from [u] along stored edges. *)
Inductive reachable (g : graph T) (u : T) : T -> Prop :=
| reachable_here : reachable g u u
| reachable_step : forall v x,
    reachable g u v -> edge g v x -> reachable g u x.

(** Two states of [adj] in which every [adj[x]] reads the same neighbour
    list. *)
Definition same_edges (a a0 : list (T * list T)) : Prop :=
  forall x, um_get [] x a = um_get [] x a0.

(** Every vertex read as a neighbour from some [adj[k]]. *)
Definition targets (a0 : list (T * list T)) : list T :=
  flat_map (fun k => um_get [] k a0) (um_keys a0).

(** The number of stored edges into [x] that start in [sources]. *)
Definition in_edges (a0 : list (T * list T)) (sources : list T) (x : T) : Z :=
  fold_right
    (fun u acc => Z.of_nat (count_occ vertex_eq_dec (um_get [] u a0) x) + acc)
    0 sources.

(** The vertices of [E] not yet output. *)
Definition unprocessed (E done : list T) : list T :=
  filter (fun u => negb (set_mem u done)) E.

(** The state of the loop of [topological_sort] while the neighbours [rest]
    of the vertex just output are still to be handled. *)
Record kahn_invariant (a0 : list (T * list T)) (E rest q visited : list T)
    (indeg : T -> Z) (top_sort : list T) : Prop := {
  kahn_nodup : NoDup (top_sort ++ q);
  kahn_visited : forall x, In x visited <-> In x (top_sort ++ q);
  kahn_known : forall x, In x q -> In x E;
  kahn_indeg : forall x,
      ~ In x visited ->
      indeg x = in_edges a0 (unprocessed E top_sort) x
                + Z.of_nat (count_occ vertex_eq_dec rest x);
  kahn_queue : forall x u,
      In x q -> In u E -> In x (um_get [] u a0) -> In u top_sort;
  kahn_order : forall x u,
      In x top_sort -> In u E -> In x (um_get [] u a0) ->
      precedes u x top_sort
}.

(** The sum of the sizes of all adjacency lists. *)
Definition degree_sum (a : list (T * list T)) : nat :=
  fold_right (fun e acc => (List.length (snd e) + acc)%nat) 0%nat a.

(** [x] has an odd number of neighbours. *)
Definition odd_degree (g : graph T) (x : T) : Prop :=
  Nat.odd (List.length (um_get [] x (adj g))) = true.

(** [a'] is [a] after some evaluations of [adj[k]] that write nothing. *)
Inductive touched (a : list (T * list T)) : list (T * list T) -> Prop :=
| touched_here : touched a a
| touched_step : forall a' k, touched a a' -> touched a (um_touch [] k a').

(** [c] gives the two ends of every stored edge different colours. *)
Definition two_colouring (g : graph T) (c : T -> bool) : Prop :=
  forall u v, edge g u v -> c u <> c v.

(** The vertices of [U] that [color] has not coloured. *)
Definition uncoloured (color : T -> option Z) (U : list T) : list T :=
  filter (fun u => match color u with None => true | Some _ => false end) U.

(** [color'] keeps the colours of [color]. *)
Definition extends (color color' : T -> option Z) : Prop :=
  forall u cu, color u = Some cu -> color' u = Some cu.

(** The state of the loop of [bipartite]: a queued vertex has the colour
    it was queued with, a coloured vertex that is not queued has all its
    neighbours coloured the other way, and the colours are 0 and 1. *)
Record coloured (g : graph T) (q : list (T * Z)) (color : T -> option Z)
    : Prop := {
  col_queue : forall v col, In (v, col) q -> color v = Some col;
  col_done : forall u cu,
      color u = Some cu ->
      (exists col, In (u, col) q)
      \/ (forall v, edge g u v -> exists cv, color v = Some cv /\ cv <> cu);
  col_bit : forall u cu, color u = Some cu -> cu = 0 \/ cu = 1
}.

(** The same loop seen against a two-colouring [c] of the graph, while it
    colours from one start vertex: [color0] holds the colours given before
    this start, and the vertices coloured since all differ from [c] in the
    same way [k]. *)
Record phase (g : graph T) (c : T -> bool) (color0 : T -> option Z)
    (k : bool) (q : list (T * Z)) (color : T -> option Z) : Prop := {
  ph_closed : forall u v, color0 u <> None -> edge g u v -> color0 v <> None;
  ph_extends : extends color0 color;
  ph_queue : forall v col, In (v, col) q -> color0 v = None;
  ph_side : forall u cu,
      color u = Some cu -> color0 u = None -> Bool.eqb (cu =? 0) (c u) = k
}.

(** The graph after a sequence of operations. *)
Fixpoint run_all (fuel : nat) (g : graph T) (ops : list operation)
    : option (graph T) :=
  match ops with
  | [] => Some g
  | o :: ops' =>
      match run fuel g o with
      | None => None
      | Some g' => run_all fuel g' ops'
      end
  end.
End WithVertex.
End GraphSpec.

Module WeightedSpec.
Import WeightedGraph.
Section WithVertex.
Context {T : Type} `{Vertex T}.

Definition same_graph (g g' : weighted_graph T) : Prop :=
  Permutation (adj g) (adj g')
  /\ Permutation (_elements g) (_elements g')
  /\ _type g = _type g'.

(** [(u, v)] is stored as an edge of weight [w]. *)
Definition edge (g : weighted_graph T) (u v : T) (w : Z) : Prop :=
  In (v, w) (um_get [] u (adj g)).

(** [v] can be reached from [u] along stored edges. *)
Inductive reachable (g : weighted_graph T) (u : T) : T -> Prop :=
| reachable_here : reachable g u u
| reachable_step : forall v x w,
    reachable g u v -> edge g v x w -> reachable g u x.

(** Every neighbour is a known vertex: the part of the data-model
    invariant that [add_edge] and [clear] maintain. *)
Definition neighbours_known (g : weighted_graph T) : Prop :=
  forall u v w, edge g u v w -> In v (_elements g).

(** No key of [adj] has an empty edge list: the shape of [adj] as long as
    only [add_edge] has written to it. *)
Definition no_empty_entry (g : weighted_graph T) : Prop :=
  forall k l, In (k, l) (adj g) -> l <> [].

(** [v] has an outgoing edge. *)
Definition has_outgoing (g : weighted_graph T) (v : T) : Prop :=
  um_get [] v (adj g) <> [].

(** [a <= b] on distances. *)
Definition dval_le (a b : dval) : Prop := dval_ltb b a = false.

(** Two states of [adj] in which every [adj[x]] reads the same edge list:
    what [um_touch] preserves. *)
Definition same_edges (a a0 : list (T * list (T * Z))) : Prop :=
  forall x, um_get [] x a = um_get [] x a0.

(** Every vertex read as a neighbour from some [adj[k]]. *)
Definition targets (a0 : list (T * list (T * Z))) : list T :=
  flat_map (fun k => map fst (um_get [] k a0)) (um_keys a0).

(** The total distance of [dist] above the lower bound [lb] on the vertices
    [E]: the measure that bounds the relaxation loops. *)
Definition slack (lb dist : T -> Z) (E : list T) : nat :=
  fold_right (fun v acc => (Z.to_nat (dist v - lb v) + acc)%nat) 0%nat E.

(** The least stored weight, 0 when none is negative. *)
Definition least_weight (a : list (T * list (T * Z))) : Z :=
  fold_right (fun e m => Z.min (snd e) m) 0 (flat_map snd a).

(** The binary order of magnitude of the stored weights below 0: each is
    at least -2^[weight_order]. *)
Definition weight_order (a : list (T * list (T * Z))) : Z :=
  Z.log2 (- least_weight a) + 1.

(** A distance so far below 0 that adding a stored weight to it rounds
    back to it: the lower bound of the distances that bounds the
    relaxation loops. *)
Definition dist_floor (a : list (T * list (T * Z))) : T -> Z :=
  fun _ => - 2 ^ (weight_order a + 57).

(** A number of iterations that is enough for every loop of a call of
    [shortest_path] from [start]. *)
Definition enough_fuel (g : weighted_graph T) (start : T) : nat :=
  S (2 * slack (dist_floor (adj g)) (initial_dist (_elements g) start)
           (_elements g)
     + List.length (_elements g) + List.length (targets (adj g)) + 1).

(** A walk from [u] along stored edges, with the sum of its weights. *)
Inductive walk (g : weighted_graph T) (u : T) : T -> Z -> Prop :=
| walk_here : walk g u u 0
| walk_step : forall v x d w,
    walk g u v d -> edge g v x w -> walk g u x (d + w).

(** No stored edge has a negative weight. *)
Definition weights_non_negative (g : weighted_graph T) : Prop :=
  forall u v w, edge g u v w -> 0 <= w.

(** What a call of [shortest_path(start, end)] is expected to return: the
    least weight of a walk from [start] to [end], or -1 when no walk has a
    weight below the value that marks an unset distance. *)
Definition shortest_distance (unset : Z) (g : weighted_graph T)
    (start end_ : T) (r : Z) : Prop :=
  (r = -1 /\ forall d, walk g start end_ d -> unset <= d)
  \/ (0 <= r < unset /\ walk g start end_ r
      /\ forall d, walk g start end_ d -> r <= d).

(** Every vertex with a stored edge out of it is a known vertex: the other
    part of the invariant, which [add_edge] maintains as well. *)
Definition sources_known (g : weighted_graph T) : Prop :=
  forall u v w, edge g u v w -> In u (_elements g).

(** The data-model invariant of the weighted graph. *)
Definition well_formed (g : weighted_graph T) : Prop :=
  NoDup (_elements g) /\ neighbours_known g /\ sources_known g.

(** The adjacency map with the weights dropped. *)
Definition forget (a : list (T * list (T * Z))) : list (T * list T) :=
  map (fun e => (fst e, map fst (snd e))) a.

(** The unweighted graph under a weighted one. *)
Definition skeleton (g : weighted_graph T) : Graph.graph T :=
  {| Graph.adj := forget (adj g);
     Graph._elements := _elements g;
     Graph._type := _type g |}.

(** The state of the relaxation loops of [shortest_path]: the distances
    set so far are weights of walks from [start], and so are the queued
    ones. *)
Record labels (g : weighted_graph T) (start : T) (dist : T -> Z)
    (pq : list (Z * T)) : Prop := {
  labels_walk : forall v, In v (_elements g) ->
                          dist v = dist_unset \/ walk g start v (dist v);
  labels_queue : forall p, In p pq -> walk g start (snd p) (fst p);
  labels_bound : forall v, In v (_elements g) -> dist v <= dist_unset;
  labels_start : dist start <= 0
}.

(** The number of edges one pass of [bellman_ford] relaxes. *)
Definition edge_count (a : list (T * list (T * Z))) : nat :=
  List.length (flat_map (fun j => um_get [] (fst j) a) a).

(** The number of vertices of [E] with a set distance. *)
Definition known_count (dist : T -> Z) (E : list T) : nat :=
  List.length (filter (fun v => negb (dist v =? dist_unset)) E).

(** [W] times the number of vertices with a set distance, less one. *)
Definition label_bound (W : Z) (dist : T -> Z) (E : list T) : Z :=
  (Z.of_nat (known_count dist E) - 1) * W.

(** The state of the relaxation loops on a graph whose weights lie between
    0 and [W]: the distances set so far lie between 0 and [label_bound],
    and so do the queued ones. *)
Record within (W : Z) (E : list T) (dist : T -> Z) (pq : list (Z * T))
    : Prop := {
  within_dist : forall v, In v E ->
                  dist v = dist_unset \/ 0 <= dist v <= label_bound W dist E;
  within_queue : forall p, In p pq -> 0 <= fst p <= label_bound W dist E
}.
End WithVertex.
End WeightedSpec.

(** ** The graphs of the scenarios *)

Module Scenario.
(** The vertices [A], [B], [C] as [char]. *)
Definition A : Z := 65.
Definition B : Z := 66.
Definition C : Z := 67.

(** Directed, 1 -> 2, 2 -> 3, 3 -> 2: a cycle behind a source. *)
Definition tail_into_cycle : Graph.graph Z :=
  object (Graph.graph_ctor "directed" [(1, [2]); (2, [3]); (3, [2])]).

Definition weighted_tail_into_cycle : WeightedGraph.weighted_graph Z :=
  object (WeightedGraph.weighted_graph_ctor "directed"
            [((1, 2), 1); ((2, 3), 1); ((3, 2), 1)]).

(** Undirected triangle with weights A-B 1, B-C 2, A-C 3. *)
Definition triangle : WeightedGraph.weighted_graph Z :=
  object (WeightedGraph.weighted_graph_ctor "undirected"
            [((A, B), 1); ((B, C), 2); ((A, C), 3)]).

(** Directed acyclic, 1 -> 2 (1), 1 -> 3 (4), 2 -> 4 (2), 3 -> 4 (1). *)
Definition diamond : WeightedGraph.weighted_graph Z :=
  object (WeightedGraph.weighted_graph_ctor "directed"
            [((1, 2), 1); ((1, 3), 4); ((2, 4), 2); ((3, 4), 1)]).

(** Undirected, the single edge A-B of weight -5. *)
Definition negative_edge : WeightedGraph.weighted_graph Z :=
  object (WeightedGraph.weighted_graph_ctor "undirected" [((A, B), -5)]).

(** Directed, A -> B (5), B -> C (5). *)
Definition chain : WeightedGraph.weighted_graph Z :=
  object (WeightedGraph.weighted_graph_ctor "directed"
            [((A, B), 5); ((B, C), 5)]).

(** Directed, A -> B (-5), C -> A (1). *)
Definition negative_chain : WeightedGraph.weighted_graph Z :=
  object (WeightedGraph.weighted_graph_ctor "directed"
            [((A, B), -5); ((C, A), 1)]).

(** Undirected, A-B of weight -5 and, apart from it, C-D of weight 1. *)
Definition negative_edge_apart : WeightedGraph.weighted_graph Z :=
  object (WeightedGraph.weighted_graph_ctor "undirected"
            [((A, B), -5); ((C, 68), 1)]).

(** Undirected, the single edge 1-2. *)
Definition one_edge : Graph.graph Z :=
  object (Graph.graph_ctor "undirected" [(1, [2])]).
End Scenario.

(** * Properties *)

(** ** Rounding to [double] *)

Section DoubleFacts.

(** Up to 2^53 nothing is rounded. *)
Lemma double_round_exact (z : Z) :
  - 2 ^ 53 <= z <= 2 ^ 53 -> double_round z = z.
Proof.
  intros B. unfold double_round.
  destruct (Z.leb_spec (Z.abs z) (2 ^ 53)) as [L|L]; [reflexivity|lia].
Qed.

Lemma double_round_opp (z : Z) : double_round (- z) = - double_round z.
Proof.
  unfold double_round. rewrite Z.abs_opp, Z.sgn_opp.
  destruct (Z.abs z <=? 2 ^ 53); [reflexivity|]. lia.
Qed.

Lemma double_round_nearest (z : Z) :
  2 ^ 53 < z -> double_round z = nearest_multiple (2 ^ (Z.log2 z - 52)) z.
Proof.
  intros B. unfold double_round.
  rewrite (Z.abs_eq z) by lia. rewrite (Z.sgn_pos z) by lia.
  destruct (Z.leb_spec z (2 ^ 53)) as [L|L]; lia.
Qed.

Lemma nearest_multiple_monotone (q x y : Z) :
  0 < q -> x <= y -> nearest_multiple q x <= nearest_multiple q y.
Proof.
  intros Q L. unfold nearest_multiple.
  pose proof (Z.div_mod x q ltac:(lia)) as Dx.
  pose proof (Z.div_mod y q ltac:(lia)) as Dy.
  pose proof (Z.mod_pos_bound x q Q) as Mx.
  pose proof (Z.mod_pos_bound y q Q) as My.
  assert (A : x / q <= y / q) by (apply Z.div_le_mono; lia).
  destruct (Z.eq_dec (x / q) (y / q)) as [E|N].
  - rewrite <- E in *.
    assert (R : x mod q <= y mod q) by lia.
    destruct (Z.ltb_spec (2 * (x mod q)) q), (Z.ltb_spec (2 * (y mod q)) q),
      (Z.ltb_spec q (2 * (x mod q))), (Z.ltb_spec q (2 * (y mod q)));
      destruct (Z.odd (x / q)); lia.
  - assert (S : (x / q + 1) * q <= y / q * q) by nia.
    destruct (Z.ltb_spec (2 * (x mod q)) q), (Z.ltb_spec (2 * (y mod q)) q),
      (Z.ltb_spec q (2 * (x mod q))), (Z.ltb_spec q (2 * (y mod q)));
      destruct (Z.odd (x / q)), (Z.odd (y / q)); lia.
Qed.

Lemma nearest_multiple_fixed (q n : Z) :
  0 < q -> nearest_multiple q (n * q) = n * q.
Proof.
  intros Q. unfold nearest_multiple. rewrite Z.mod_mul, Z.div_mul by lia.
  destruct (Z.ltb_spec (2 * 0) q); lia.
Qed.

(** The rounding of a number between 2^k and 2^(k+1) stays between
    them. *)
Lemma double_round_binade (z : Z) :
  2 ^ 53 < z ->
  2 ^ Z.log2 z <= double_round z <= 2 ^ (Z.log2 z + 1).
Proof.
  intros B. rewrite double_round_nearest by exact B.
  assert (P : 0 < z) by lia.
  pose proof (Z.log2_spec z P) as [Lo Hi].
  assert (K : 53 <= Z.log2 z).
  { change 53 with (Z.log2 (2 ^ 53)). apply Z.log2_le_mono. lia. }
  set (k := Z.log2 z) in *. set (q := 2 ^ (k - 52)).
  assert (Q : 0 < q) by (apply Z.pow_pos_nonneg; lia).
  assert (E1 : 2 ^ k = 2 ^ 52 * q).
  { unfold q. rewrite <- Z.pow_add_r by lia. f_equal. lia. }
  assert (E2 : 2 ^ (k + 1) = 2 ^ 53 * q).
  { unfold q. rewrite <- Z.pow_add_r by lia. f_equal. lia. }
  replace (Z.succ k) with (k + 1) in Hi by lia.
  split.
  - rewrite E1. rewrite <- (nearest_multiple_fixed q (2 ^ 52) Q).
    apply nearest_multiple_monotone; lia.
  - rewrite E2. rewrite <- (nearest_multiple_fixed q (2 ^ 53) Q).
    apply nearest_multiple_monotone; lia.
Qed.

Lemma double_round_monotone_pos (x y : Z) :
  0 <= x -> x <= y -> double_round x <= double_round y.
Proof.
  intros P L.
  destruct (Z.le_gt_cases y (2 ^ 53)) as [By|By].
  - rewrite !double_round_exact by lia. exact L.
  - pose proof (double_round_binade y By) as [Ly Hy].
    assert (Ky : 2 ^ 53 <= 2 ^ Z.log2 y).
    { apply Z.pow_le_mono_r; [lia|].
      change 53 with (Z.log2 (2 ^ 53)). apply Z.log2_le_mono. lia. }
    destruct (Z.le_gt_cases x (2 ^ 53)) as [Bx|Bx].
    + rewrite (double_round_exact x) by lia. lia.
    + pose proof (double_round_binade x Bx) as [Lx Hx].
      assert (M : Z.log2 x <= Z.log2 y) by (apply Z.log2_le_mono; lia).
      destruct (Z.eq_dec (Z.log2 x) (Z.log2 y)) as [E|N].
      * rewrite !double_round_nearest by assumption. rewrite E.
        apply nearest_multiple_monotone; [|exact L].
        apply Z.pow_pos_nonneg; [lia|].
        assert (53 <= Z.log2 y)
          by (change 53 with (Z.log2 (2 ^ 53)); apply Z.log2_le_mono; lia).
        lia.
      * assert (2 ^ (Z.log2 x + 1) <= 2 ^ Z.log2 y)
          by (apply Z.pow_le_mono_r; lia).
        lia.
Qed.

Lemma double_round_sign (x : Z) : 0 <= x -> 0 <= double_round x.
Proof.
  intros P. exact (double_round_monotone_pos 0 x ltac:(lia) P).
Qed.

(** Rounding keeps the order. *)
Lemma double_round_monotone (x y : Z) :
  x <= y -> double_round x <= double_round y.
Proof.
  intros L. destruct (Z.le_gt_cases 0 x) as [Px|Nx].
  - now apply double_round_monotone_pos.
  - destruct (Z.le_gt_cases 0 y) as [Py|Ny].
    + pose proof (double_round_sign y Py).
      pose proof (double_round_sign (- x) ltac:(lia)) as S.
      rewrite double_round_opp in S. lia.
    + pose proof (double_round_monotone_pos (- y) (- x) ltac:(lia) ltac:(lia))
        as S.
      rewrite !double_round_opp in S. lia.
Qed.

(** A sum of magnitude up to 2^53 is exact. *)
Lemma double_add_exact (a b : Z) :
  - 2 ^ 53 <= a + b <= 2 ^ 53 -> double_add a b = a + b.
Proof. apply double_round_exact. Qed.

(** A distance of magnitude 2^(j+57) absorbs a weight of magnitude 2^j. *)
Lemma double_round_absorbs (j : Z) :
  0 <= j -> double_round (- 2 ^ (j + 57) - 2 ^ j) = - 2 ^ (j + 57).
Proof.
  intros J.
  replace (- 2 ^ (j + 57) - 2 ^ j) with (- (2 ^ (j + 57) + 2 ^ j)) by lia.
  rewrite double_round_opp. f_equal.
  assert (Pj : 0 < 2 ^ j) by (apply Z.pow_pos_nonneg; lia).
  assert (E5 : 2 ^ (j + 5) = 32 * 2 ^ j).
  { rewrite Z.pow_add_r by lia. change (2 ^ 5) with 32. lia. }
  assert (E57 : 2 ^ (j + 57) = 144115188075855872 * 2 ^ j).
  { rewrite Z.pow_add_r by lia. change (2 ^ 57) with 144115188075855872. lia. }
  assert (E58 : 2 ^ (j + 58) = 288230376151711744 * 2 ^ j).
  { rewrite Z.pow_add_r by lia. change (2 ^ 58) with 288230376151711744. lia. }
  assert (B53 : 2 ^ 53 = 9007199254740992) by reflexivity.
  assert (L : Z.log2 (2 ^ (j + 57) + 2 ^ j) = j + 57).
  { apply Z.log2_unique; [lia|].
    replace (Z.succ (j + 57)) with (j + 58) by lia. lia. }
  rewrite double_round_nearest by lia.
  rewrite L. replace (j + 57 - 52) with (j + 5) by lia.
  unfold nearest_multiple.
  assert (D : (2 ^ (j + 57) + 2 ^ j) / 2 ^ (j + 5) = 4503599627370496).
  { symmetry. apply Z.div_unique with (r := 2 ^ j); lia. }
  assert (M : (2 ^ (j + 57) + 2 ^ j) mod 2 ^ (j + 5) = 2 ^ j).
  { symmetry. apply Z.mod_unique with (q := 4503599627370496); lia. }
  rewrite D, M.
  destruct (Z.ltb_spec (2 * 2 ^ j) (2 ^ (j + 5))); lia.
Qed.

(** No sum with such a weight goes below such a distance. *)
Lemma double_add_floor (j d w : Z) :
  0 <= j -> - 2 ^ (j + 57) <= d -> - 2 ^ j <= w ->
  - 2 ^ (j + 57) <= double_add d w.
Proof.
  intros J D W. unfold double_add.
  rewrite <- (double_round_absorbs j J) at 1.
  apply double_round_monotone. lia.
Qed.
End DoubleFacts.

(** ** Containers *)

Section ContainerFacts.
Context {K : Type} `{Vertex K}.

Lemma set_mem_true (k : K) (s : list K) : set_mem k s = true <-> In k s.
Proof. unfold set_mem. destruct (in_dec vertex_eq_dec k s); intuition congruence. Qed.

Lemma set_mem_false (k : K) (s : list K) : set_mem k s = false <-> ~ In k s.
Proof. unfold set_mem. destruct (in_dec vertex_eq_dec k s); intuition congruence. Qed.

Lemma set_insert_in (k x : K) (s : list K) :
  In x (set_insert k s) <-> x = k \/ In x s.
Proof.
  unfold set_insert. destruct (set_mem k s) eqn:E.
  - apply set_mem_true in E. intuition congruence.
  - rewrite in_app_iff. simpl. intuition congruence.
Qed.

Lemma fupd_same {V} (f : K -> V) k v : fupd f k v k = v.
Proof. unfold fupd. destruct (vertex_eq_dec k k); congruence. Qed.

Lemma fupd_other {V} (f : K -> V) k v x : x <> k -> fupd f k v x = f x.
Proof. unfold fupd. destruct (vertex_eq_dec x k); congruence. Qed.

Context {V : Type}.
Variable dflt : V.

Lemma um_find_in (k : K) (m : list (K * V)) (v : V) :
  um_find k m = Some v -> In (k, v) m.
Proof.
  induction m as [|[k' v'] m IH]; simpl; [discriminate|].
  destruct (vertex_eq_dec k k'); intros E.
  - left. congruence.
  - right. auto.
Qed.

Lemma um_find_keys (k : K) (m : list (K * V)) :
  um_find k m = None <-> ~ In k (um_keys m).
Proof.
  induction m as [|[k' v'] m IH]; simpl; [tauto|].
  destruct (vertex_eq_dec k k'); split; intros E.
  - discriminate.
  - exfalso. apply E. left. congruence.
  - intros [E'|E']; [congruence|]. apply IH in E. contradiction.
  - apply IH. tauto.
Qed.

Lemma um_find_modify_same (k : K) (f : V -> V) (m : list (K * V)) :
  um_find k (um_modify dflt k f m) = Some (f (um_get dflt k m)).
Proof.
  unfold um_get. induction m as [|[k' v'] m IH]; simpl.
  - destruct (vertex_eq_dec k k); congruence.
  - destruct (vertex_eq_dec k k') as [E|E]; simpl.
    + destruct (vertex_eq_dec k k'); congruence.
    + destruct (vertex_eq_dec k k'); [congruence|]. exact IH.
Qed.

Lemma um_find_modify_other (k x : K) (f : V -> V) (m : list (K * V)) :
  x <> k -> um_find x (um_modify dflt k f m) = um_find x m.
Proof.
  intros N. induction m as [|[k' v'] m IH]; simpl.
  - destruct (vertex_eq_dec x k); congruence.
  - destruct (vertex_eq_dec k k') as [E|E]; simpl.
    + subst k'. destruct (vertex_eq_dec x k); congruence.
    + destruct (vertex_eq_dec x k'); [reflexivity|]. exact IH.
Qed.

(** Reading [m[k]] does not change what any later read returns. *)
Lemma um_get_touch (k x : K) (m : list (K * V)) :
  um_get dflt x (um_touch dflt k m) = um_get dflt x m.
Proof.
  unfold um_touch. destruct (vertex_eq_dec x k) as [E|E].
  - subst x. unfold um_get at 1. now rewrite um_find_modify_same.
  - unfold um_get. now rewrite um_find_modify_other.
Qed.

Lemma um_get_modify (k x : K) (f : V -> V) (m : list (K * V)) :
  um_get dflt x (um_modify dflt k f m)
  = if vertex_eq_dec x k then f (um_get dflt k m) else um_get dflt x m.
Proof.
  destruct (vertex_eq_dec x k) as [->|N].
  - unfold um_get at 1. now rewrite um_find_modify_same.
  - unfold um_get. now rewrite um_find_modify_other.
Qed.

Lemma um_keys_modify (k : K) (f : V -> V) (m : list (K * V)) (x : K) :
  In x (um_keys (um_modify dflt k f m)) <-> x = k \/ In x (um_keys m).
Proof.
  unfold um_keys. induction m as [|[k' v'] m IH]; simpl.
  - intuition congruence.
  - destruct (vertex_eq_dec k k') as [E|E]; simpl.
    + subst k'. intuition congruence.
    + rewrite IH. intuition congruence.
Qed.

(** The entries of a map after [m[k]] has been modified. *)
Lemma um_modify_in (k : K) (f : V -> V) (m : list (K * V)) (x : K) (v : V) :
  In (x, v) (um_modify dflt k f m) ->
  In (x, v) m \/ (x = k /\ v = f (um_get dflt k m)).
Proof.
  unfold um_get. induction m as [|[k' v'] m IH]; simpl.
  - intros [E|[]]. right. split; congruence.
  - destruct (vertex_eq_dec k k') as [E|E]; simpl.
    + intros [E'|E']; [right; split; congruence|left; now right].
    + intros [E'|E']; [left; now left|].
      apply IH in E'. destruct E' as [E'|E']; [left; now right|now right].
Qed.

Lemma um_get_in (k : K) (m : list (K * V)) :
  um_get dflt k m = dflt \/ In (k, um_get dflt k m) m.
Proof.
  unfold um_get. destruct (um_find k m) eqn:E; [right|now left].
  now apply um_find_in.
Qed.
End ContainerFacts.

(** ** Iteration orders *)

Section OrderFacts.
Context {A : Type}.

Lemma insert_everywhere_in (x : A) (l1 l2 : list A) :
  In (l1 ++ x :: l2) (insert_everywhere x (l1 ++ l2)).
Proof.
  induction l1 as [|y l1 IH]; simpl.
  - destruct l2; simpl; now left.
  - right. apply in_map. exact IH.
Qed.

(** [orders l] lists every permutation of [l]. *)
Lemma orders_complete (l l' : list A) :
  Permutation l l' -> In l' (orders l).
Proof.
  revert l'. induction l as [|x l IH]; intros l' P.
  - apply Permutation_nil in P. subst. now left.
  - assert (I : In x l') by (eapply Permutation_in; [exact P|now left]).
    apply in_split in I. destruct I as (l1 & l2 & ->).
    apply Permutation_cons_app_inv in P.
    simpl. apply in_flat_map. exists (l1 ++ l2). split.
    + now apply IH.
    + apply insert_everywhere_in.
Qed.
End OrderFacts.

(** A proof obligation over all iteration orders, one order at a time. *)
Ltac each_order tac :=
  repeat lazymatch goal with
         | |- Forall _ [] => apply Forall_nil
         | |- Forall _ (_ :: _) => apply Forall_cons
         | |- _ => tac
         end.

Ltac list_orders :=
  repeat match goal with
         | |- context [orders ?l] =>
             let r := eval vm_compute in (orders l) in
             change (orders l) with r
         end.

Module GraphFacts.
Import Graph GraphSpec.
Section WithVertex.
Context {T : Type} `{Vertex T}.

Lemma graph_same_refl (g : graph T) : same_graph g g.
Proof. repeat split; apply Permutation_refl. Qed.

(** A property checked on every order of the two containers holds of
    every graph with the same content. *)
Lemma graph_every_order (P : graph T -> Prop) (g0 : graph T) :
  Forall (fun a =>
            Forall (fun e => P {| adj := a; _elements := e; _type := _type g0 |})
              (orders (_elements g0)))
    (orders (adj g0)) ->
  forall g, same_graph g0 g -> P g.
Proof.
  intros F [a e t] (Pa & Pe & Pt). simpl in *. subst t.
  rewrite Forall_forall in F.
  specialize (F a (orders_complete _ _ Pa)).
  rewrite Forall_forall in F. exact (F e (orders_complete _ _ Pe)).
Qed.
End WithVertex.
End GraphFacts.

Module WeightedFacts.
Import WeightedGraph WeightedSpec.
Section WithVertex.
Context {T : Type} `{Vertex T}.

Lemma weighted_same_refl (g : weighted_graph T) : same_graph g g.
Proof. repeat split; apply Permutation_refl. Qed.

Lemma weighted_every_order (P : weighted_graph T -> Prop) (g0 : weighted_graph T) :
  Forall (fun a =>
            Forall (fun e => P {| adj := a; _type := _type g0; _elements := e |})
              (orders (_elements g0)))
    (orders (adj g0)) ->
  forall g, same_graph g0 g -> P g.
Proof.
  intros F [a t e] (Pa & Pe & Pt). simpl in *. subst t.
  rewrite Forall_forall in F.
  specialize (F a (orders_complete _ _ Pa)).
  rewrite Forall_forall in F. exact (F e (orders_complete _ _ Pe)).
Qed.
End WithVertex.
End WeightedFacts.

(** ** Traversal from an unknown start *)

(** C9.  [dfs(start)] and [bfs(start)], of the unweighted and of the weighted
    graph, return the empty sequence, for any bound on the loop and without
    touching the graph, whenever the graph is empty or [start] is not one of
    its vertices. *)
Theorem traversal_from_unknown_start :
  forall (T : Type) `(Vertex T),
    (forall (fuel : nat) (g : Graph.graph T) (start : T),
        Graph.empty g = true \/ ~ In start (Graph._elements g) ->
        Graph.dfs fuel g start = Some ([], g)
        /\ Graph.bfs fuel g start = Some ([], g))
    /\ (forall (fuel : nat) (g : WeightedGraph.weighted_graph T) (start : T),
        WeightedGraph.empty g = true \/ ~ In start (WeightedGraph._elements g) ->
        WeightedGraph.dfs fuel g start = Some ([], g)
        /\ WeightedGraph.bfs fuel g start = Some ([], g)).
Proof.
  intros T VT. split; intros fuel g start [E|N].
  - unfold Graph.dfs, Graph.bfs. rewrite E. now split.
  - unfold Graph.dfs, Graph.bfs. apply set_mem_false in N. rewrite N.
    rewrite orb_true_r. now split.
  - unfold WeightedGraph.dfs, WeightedGraph.bfs, WeightedGraph.traverse.
    rewrite E. now split.
  - unfold WeightedGraph.dfs, WeightedGraph.bfs, WeightedGraph.traverse.
    apply set_mem_false in N. rewrite N. rewrite orb_true_r. now split.
Qed.

Lemma traversal_from_unknown_start_witness :
  (Graph.dfs 0 Scenario.one_edge 7 = Some ([], Scenario.one_edge)
   /\ Graph.bfs 0 Scenario.one_edge 7 = Some ([], Scenario.one_edge))
  /\ (WeightedGraph.dfs 0 Scenario.chain 7 = Some ([], Scenario.chain)
      /\ WeightedGraph.bfs 0 Scenario.chain 7 = Some ([], Scenario.chain)).
Proof.
  split.
  - apply (proj1 (traversal_from_unknown_start Z Z_Vertex)).
    right. vm_compute. intuition discriminate.
  - apply (proj2 (traversal_from_unknown_start Z Z_Vertex)).
    right. vm_compute. intuition discriminate.
Defined.

(** ** Construction with an unknown mode *)

(** C7, as the code has it.  For a mode string that is neither "directed"
    nor "undirected" the constructor throws [std::invalid_argument] and
    catches it itself: no exception reaches the caller, the message goes to
    [std::cerr], the initial edges are not replayed and the object is left
    with its value-initialised members, the mode being the empty string. *)
Theorem construction_with_unknown_mode :
  forall (T : Type) `(Vertex T) (mode : string),
    mode <> "directed"%string -> mode <> "undirected"%string ->
    (forall adj_ : list (T * list T),
        Graph.graph_ctor mode adj_ =
        {| object := Graph.default_members;
           cerr := ["Can't recognize the type of graph"%string; newline];
           propagated := None |})
    /\ (forall adj_ : list ((T * T) * Z),
        WeightedGraph.weighted_graph_ctor mode adj_ =
        {| object := WeightedGraph.default_members;
           cerr := ["Can't recognize the type of graph"%string; newline];
           propagated := None |}).
Proof.
  intros T VT mode Nd Nu.
  apply String.eqb_neq in Nd. apply String.eqb_neq in Nu.
  split; intros adj_.
  - unfold Graph.graph_ctor, Graph.ctor_try. now rewrite Nd, Nu.
  - unfold WeightedGraph.weighted_graph_ctor, WeightedGraph.ctor_try.
    now rewrite Nd, Nu.
Qed.

Lemma construction_with_unknown_mode_witness :
  Graph.graph_ctor (T:=Z) "mixed" [(1, [2])] =
  {| object := Graph.default_members;
     cerr := ["Can't recognize the type of graph"%string; newline];
     propagated := None |}.
Proof.
  apply (proj1 (construction_with_unknown_mode Z Z_Vertex "mixed"
                  ltac:(discriminate) ltac:(discriminate))).
Defined.

(** The claim of C7 as stated fails: constructing with the mode "mixed"
    returns normally, no error is raised to the caller. *)
Lemma construction_raises_nothing :
  ~ (exists e, propagated (Graph.graph_ctor (T:=Z) "mixed" [(1, [2])]) = Some e)
  /\ ~ (exists e, propagated
                    (WeightedGraph.weighted_graph_ctor (T:=Z) "mixed"
                       [((1, 2), 1)]) = Some e).
Proof. split; intros [e E]; vm_compute in E; discriminate. Qed.

(** A constructor never lets an exception out, whatever the mode. *)
Lemma construction_never_propagates (T : Type) `(Vertex T) (mode : string) :
  (forall adj_, propagated (Graph.graph_ctor (T:=T) mode adj_) = None)
  /\ (forall adj_,
         propagated (WeightedGraph.weighted_graph_ctor (T:=T) mode adj_) = None).
Proof.
  split; intros adj_.
  - unfold Graph.graph_ctor, Graph.ctor_try.
    now destruct ((mode =? "directed") || (mode =? "undirected"))%string.
  - unfold WeightedGraph.weighted_graph_ctor, WeightedGraph.ctor_try.
    now destruct ((mode =? "directed") || (mode =? "undirected"))%string.
Qed.

(** What the object left by a failed construction does with [add_edge]: the
    unweighted graph stores the edge as a directed one, the weighted graph
    records the two vertices and no edge. *)
Lemma add_edge_after_failed_construction (T : Type) `(Vertex T) (u v : T) (w : Z) :
  Graph.adj (Graph.add_edge Graph.default_members u v) = [(u, [v])]
  /\ WeightedGraph.adj
       (WeightedGraph.add_edge WeightedGraph.default_members u v w) = [].
Proof. split; reflexivity. Qed.

(** ** The data-model invariant of the unweighted graph *)

Module InvariantFacts.
Import Graph GraphSpec.
Section WithVertex.
Context {T : Type} `{Vertex T}.

(** The keys and the neighbours of [a] are among [E]. *)
Local Abbreviation adj_within E a :=
  ((forall k, In k (um_keys a) -> In k E)
   /\ (forall k l v, In (k, l) a -> In v l -> In v E)).

Lemma touch_within (E : list T) (a : list (T * list T)) (k : T) :
  adj_within E a -> In k E -> adj_within E (um_touch [] k a).
Proof.
  intros [K V] I. split.
  - intros x Ix. apply um_keys_modify in Ix. destruct Ix as [->|Ix]; auto.
  - intros x l v Il Iv. apply um_modify_in in Il. destruct Il as [Il|[-> ->]].
    + eapply V; eauto.
    + destruct (um_get_in [] k a) as [N|J].
      * rewrite N in Iv. destruct Iv.
      * eapply V; eauto.
Qed.

Lemma get_within (E : list T) (a : list (T * list T)) (k v : T) :
  adj_within E a -> In v (um_get [] k a) -> In v E.
Proof.
  intros [_ V] I. destruct (um_get_in [] k a) as [N|J].
  - rewrite N in I. destruct I.
  - eapply V; eauto.
Qed.

Lemma push_back_within (E : list T) (a : list (T * list T)) (u v : T) :
  adj_within E a -> In u E -> In v E ->
  adj_within E (um_modify [] u (fun l => l ++ [v]) a).
Proof.
  intros [K V] Iu Iv. split.
  - intros x Ix. apply um_keys_modify in Ix. destruct Ix as [->|Ix]; auto.
  - intros x l y Il Iy. apply um_modify_in in Il. destruct Il as [Il|[-> ->]].
    + eapply V; eauto.
    + apply in_app_or in Iy. destruct Iy as [Iy|[<-|[]]]; [|exact Iv].
      eapply get_within; [split; eassumption|exact Iy].
Qed.

Lemma within_more (E E' : list T) (a : list (T * list T)) :
  (forall x, In x E -> In x E') -> adj_within E a -> adj_within E' a.
Proof. intros S [K V]. split; eauto. Qed.

Lemma default_covered : vertices_cover_adjacency (default_members (T:=T)).
Proof. split; [intros k []|intros k l v []]. Qed.

Lemma add_edge_covered (g : graph T) (u v : T) :
  vertices_cover_adjacency g -> vertices_cover_adjacency (add_edge g u v).
Proof.
  intros C. unfold vertices_cover_adjacency, add_edge. simpl.
  assert (C' : adj_within (set_insert v (set_insert u (_elements g))) (adj g)).
  { eapply within_more; [|exact C]. intros x I. rewrite !set_insert_in. tauto. }
  assert (Iu : In u (set_insert v (set_insert u (_elements g))))
    by (rewrite !set_insert_in; tauto).
  assert (Iv : In v (set_insert v (set_insert u (_elements g))))
    by (rewrite !set_insert_in; tauto).
  destruct (_type g =? "undirected")%string.
  - apply push_back_within; auto. apply push_back_within; auto.
  - apply push_back_within; auto.
Qed.

Lemma clear_covered (g : graph T) : vertices_cover_adjacency (clear g).
Proof. split; [intros k []|intros k l v []]. Qed.

Lemma has_edge_covered (g : graph T) (start end_ : T) :
  vertices_cover_adjacency g ->
  vertices_cover_adjacency (snd (has_edge g start end_)).
Proof.
  intros C. unfold has_edge.
  destruct (set_mem start (_elements g)) eqn:M; simpl; [|exact C].
  apply set_mem_true in M. unfold vertices_cover_adjacency. simpl.
  now apply touch_within.
Qed.

(** Every constructed graph satisfies the invariant. *)
Lemma ctor_covered (mode : string) (adj_ : list (T * list T)) :
  vertices_cover_adjacency (object (graph_ctor mode adj_)).
Proof.
  unfold graph_ctor, ctor_try.
  destruct ((mode =? "directed") || (mode =? "undirected"))%string; simpl.
  - match goal with
    | |- vertices_cover_adjacency (fold_left ?f adj_ ?g0) =>
        assert (C0 : vertices_cover_adjacency g0)
          by (split; [intros k []|intros k l v []]);
        revert C0; generalize g0
    end.
    induction adj_ as [|[u l] adj_ IH]; intros g0 C0; simpl; [exact C0|].
    apply IH. clear IH. revert g0 C0.
    induction l as [|v l IHl]; intros g0 C0; simpl; [exact C0|].
    apply IHl. now apply add_edge_covered.
  - apply default_covered.
Qed.

Lemma covered_same_graph (g g' : graph T) :
  same_graph g g' -> vertices_cover_adjacency g -> vertices_cover_adjacency g'.
Proof.
  intros (Pa & Pe & _) [K V]. split.
  - intros k I. apply (Permutation_in _ Pe). apply K.
    unfold um_keys in *. eapply Permutation_in; [|exact I].
    apply Permutation_map. now apply Permutation_sym.
  - intros k l v I J. apply (Permutation_in _ Pe).
    eapply V; [|exact J]. eapply Permutation_in; [|exact I].
    now apply Permutation_sym.
Qed.

Lemma visit_neighbours_within (push : T -> list T -> list T) (E : list T) :
  (forall x w y, In y (push x w) -> y = x \/ In y w) ->
  forall neigh work visited work' visited',
    (forall x, In x neigh -> In x E) ->
    (forall y, In y work -> In y E) ->
    visit_neighbours push neigh work visited = (work', visited') ->
    forall y, In y work' -> In y E.
Proof.
  intros P. unfold visit_neighbours.
  induction neigh as [|x neigh IH]; intros work visited work' visited' N W F;
    simpl in F.
  - inversion F. now subst.
  - assert (N' : forall y, In y neigh -> In y E) by (intros y I; apply N; now right).
    destruct (set_mem x visited).
    + eapply IH; [exact N'|exact W|exact F].
    + eapply IH; [exact N'| |exact F].
      intros y I. apply P in I. destruct I as [->|I]; auto. apply N. now left.
Qed.

Lemma stack_push_in (x : T) (w : list T) (y : T) :
  In y (stack_push x w) -> y = x \/ In y w.
Proof. intros [<-|I]; auto. Qed.

Lemma queue_push_in (x : T) (w : list T) (y : T) :
  In y (queue_push x w) -> y = x \/ In y w.
Proof. unfold queue_push. intros I. apply in_app_or in I. destruct I as [I|[<-|[]]]; auto. Qed.

Lemma dfs_loop_within (E : list T) :
  forall (fuel : nat) a s visited path path' a',
    adj_within E a ->
    (forall y, In y s -> In y E) ->
    dfs_loop fuel a s visited path = Some (path', a') ->
    adj_within E a'.
Proof.
  induction fuel as [|fuel IH]; intros a s visited path path' a' A S D;
    [discriminate|].
  destruct s as [|current s]; simpl in D.
  - inversion D. now subst.
  - assert (Ic : In current E) by (apply S; now left).
    assert (A' : adj_within E (um_touch [] current a)) by now apply touch_within.
    destruct (visit_neighbours stack_push (um_get [] current (um_touch [] current a))
                s visited) as [s' visited'] eqn:V.
    eapply IH; [exact A'| |exact D].
    eapply visit_neighbours_within; [apply stack_push_in| | |exact V].
    + intros x I. eapply get_within; [exact A'|exact I].
    + intros y I. apply S. now right.
Qed.

Lemma bfs_level_within (E : list T) :
  forall (n : nat) a q visited path a' q' visited' path',
    adj_within E a ->
    (forall y, In y q -> In y E) ->
    bfs_level n a q visited path = (a', q', visited', path') ->
    adj_within E a' /\ (forall y, In y q' -> In y E).
Proof.
  induction n as [|n IH]; intros a q visited path a' q' visited' path' A Q B;
    simpl in B.
  - inversion B. subst. now split.
  - destruct q as [|current q].
    + inversion B. subst. now split.
    + assert (Ic : In current E) by (apply Q; now left).
      assert (A' : adj_within E (um_touch [] current a)) by now apply touch_within.
      destruct (visit_neighbours queue_push
                  (um_get [] current (um_touch [] current a)) q visited)
        as [q1 visited1] eqn:V.
      eapply IH; [exact A'| |exact B].
      eapply visit_neighbours_within; [apply queue_push_in| | |exact V].
      * intros x I. eapply get_within; [exact A'|exact I].
      * intros y I. apply Q. now right.
Qed.

Lemma bfs_loop_step (fuel : nat) (a : list (T * list T))
    (current : T) (q visited path : list T) :
  bfs_loop (S fuel) a (current :: q) visited path
  = let '(a', q', visited', path') :=
      bfs_level (List.length (current :: q)) a (current :: q) visited path in
    bfs_loop fuel a' q' visited' path'.
Proof. reflexivity. Qed.

Lemma bfs_loop_within (E : list T) :
  forall (fuel : nat) a q visited path path' a',
    adj_within E a ->
    (forall y, In y q -> In y E) ->
    bfs_loop fuel a q visited path = Some (path', a') ->
    adj_within E a'.
Proof.
  induction fuel as [|fuel IH]; intros a q visited path path' a' A Q B;
    [discriminate|].
  destruct q as [|current q].
  - inversion B. now subst.
  - rewrite bfs_loop_step in B.
    destruct (bfs_level (List.length (current :: q)) a (current :: q) visited path)
      as [[[a1 q1] visited1] path1] eqn:L.
    apply bfs_level_within with (E := E) in L; auto.
    destruct L as [A1 Q1]. eapply IH; [exact A1|exact Q1|exact B].
Qed.

(** Each of [add_edge], [has_edge], [clear], [dfs] and [bfs] maintains the
    invariant. *)
Lemma run_covered (fuel : nat) (g g' : graph T) (o : operation) :
  vertices_cover_adjacency g -> run fuel g o = Some g' ->
  vertices_cover_adjacency g'.
Proof.
  intros C R. destruct o as [u v|start end_| |start|start]; simpl in R.
  - inversion R. now apply add_edge_covered.
  - inversion R. now apply has_edge_covered.
  - inversion R. apply clear_covered.
  - unfold dfs in R.
    destruct (empty g || negb (set_mem start (_elements g))) eqn:G; simpl in R.
    + inversion R. now subst.
    + apply orb_false_elim in G. destruct G as [_ G].
      apply negb_false_iff, set_mem_true in G.
      destruct (dfs_loop fuel (adj g) [start] [start] []) as [[path a]|] eqn:D;
        [|discriminate].
      inversion R. unfold vertices_cover_adjacency. simpl.
      eapply dfs_loop_within; [exact C| |exact D].
      intros y [<-|[]]. exact G.
  - unfold bfs in R.
    destruct (empty g || negb (set_mem start (_elements g))) eqn:G; simpl in R.
    + inversion R. now subst.
    + apply orb_false_elim in G. destruct G as [_ G].
      apply negb_false_iff, set_mem_true in G.
      destruct (bfs_loop fuel (adj g) [start] [start] []) as [[path a]|] eqn:D;
        [|discriminate].
      inversion R. unfold vertices_cover_adjacency. simpl.
      eapply bfs_loop_within; [exact C| |exact D].
      intros y [<-|[]]. exact G.
Qed.

(** The invariant holds after any sequence of these operations on a
    constructed graph. *)
Lemma run_all_covered (fuel : nat) (ops : list operation) :
  forall g g' : graph T,
    vertices_cover_adjacency g -> run_all fuel g ops = Some g' ->
    vertices_cover_adjacency g'.
Proof.
  induction ops as [|o ops IH]; intros g g' C R; simpl in R.
  - inversion R. now subst.
  - destruct (run fuel g o) as [g1|] eqn:O; [|discriminate].
    eapply IH; [|exact R]. eapply run_covered; eauto.
Qed.

(** What the neighbour loop of [dfs_bridge] does to [adj], given what the
    recursive calls do to it. *)
Lemma bridge_neighbours_adj (Q : list (T * list T) -> Prop) (ok : T -> Prop)
    (child : T -> bridge_state -> option bridge_state) (start parent : T) :
  (forall x st st', ok x -> Q (b_adj st) -> child x st = Some st' ->
                    Q (b_adj st')) ->
  forall xs st st',
    (forall x, In x xs -> ok x) ->
    Q (b_adj st) ->
    bridge_neighbours child start parent xs st = Some st' ->
    Q (b_adj st').
Proof.
  intros C. induction xs as [|x xs IH]; intros st st' O A B; simpl in B.
  - inversion B. now subst.
  - assert (O' : forall y, In y xs -> ok y) by (intros y I; apply O; now right).
    destruct (vertex_eq_dec x parent).
    + eapply IH; eauto.
    + destruct (set_mem x (b_visited st)).
      * eapply IH; [exact O'| |exact B]. exact A.
      * destruct (child x st) as [st1|] eqn:R; [|discriminate].
        apply C in R; [|apply O; now left|exact A].
        destruct (b_out st1 x >? b_in st1 start);
          (eapply IH; [exact O'| |exact B]); exact R.
Qed.

Lemma dfs_bridge_adj (Q : list (T * list T) -> Prop) (ok : T -> Prop) :
  (forall a k, ok k -> Q a -> Q (um_touch [] k a)) ->
  (forall a k x, Q a -> ok k -> In x (um_get [] k a) -> ok x) ->
  forall (fuel : nat) start parent st st',
    ok start -> Q (b_adj st) ->
    dfs_bridge fuel start parent st = Some st' ->
    Q (b_adj st').
Proof.
  intros Qt Qg. induction fuel as [|fuel IH]; intros start parent st st' O A D;
    [discriminate|].
  simpl in D. eapply bridge_neighbours_adj with (ok := ok) in D; [exact D| | |].
  - intros x s s' Ox As R. eapply IH; eauto.
  - simpl. intros x I. eapply Qg; [|exact O|exact I]. now apply Qt.
  - simpl. now apply Qt.
Qed.

Section Bridge.
Context `{!NumericVertex T}.

(** [bridge] from a known vertex maintains the invariant. *)
Lemma bridge_known_start (fuel : nat) (g g' : graph T) (start : T)
    (bridges : list (list T)) :
  vertices_cover_adjacency g -> In start (_elements g) ->
  bridge fuel g start = Some (bridges, g') ->
  vertices_cover_adjacency g'.
Proof.
  intros C I B. unfold bridge in B.
  match type of B with
  | context [dfs_bridge ?f ?s ?p ?st] =>
      destruct (dfs_bridge f s p st) as [st'|] eqn:D; [|discriminate]
  end.
  inversion B. unfold vertices_cover_adjacency. simpl.
  apply dfs_bridge_adj
    with (Q := fun a => adj_within (_elements g) a)
         (ok := fun k => In k (_elements g)) in D; auto.
  - intros a k Ik A. now apply touch_within.
  - intros a k x A _ Ix. eapply get_within; eauto.
Qed.

(** [bridge] from an unknown vertex leaves that vertex as a key of [adj]:
    the invariant is broken whenever the call returns. *)
Lemma bridge_unknown_start (fuel : nat) (g g' : graph T) (start : T)
    (bridges : list (list T)) :
  ~ In start (_elements g) ->
  bridge fuel g start = Some (bridges, g') ->
  In start (um_keys (adj g')) /\ ~ vertices_cover_adjacency g'.
Proof.
  intros N B. unfold bridge in B.
  match type of B with
  | context [dfs_bridge ?f ?s ?p ?st] =>
      destruct (dfs_bridge f s p st) as [st'|] eqn:D; [|discriminate]
  end.
  inversion B. subst. simpl.
  assert (K : In start (um_keys (b_adj st'))).
  { destruct fuel as [|fuel]; [discriminate|]. simpl in D.
    assert (Qt : forall (a : list (T * list T)) (k : T),
               True -> In start (um_keys a) ->
               In start (um_keys (um_touch [] k a))).
    { intros a k _ I. apply um_keys_modify. now right. }
    eapply bridge_neighbours_adj
      with (Q := fun a => In start (um_keys a)) (ok := fun _ => True) in D;
      [exact D| | |].
    - intros x s s' _ As R.
      eapply dfs_bridge_adj
        with (Q := fun a => In start (um_keys a)) (ok := fun _ => True);
        [exact Qt| | |exact As|exact R]; auto.
    - auto.
    - simpl. apply um_keys_modify. now left. }
  split; [exact K|]. intros [C _]. simpl in C. apply N. now apply C.
Qed.
End Bridge.

End WithVertex.
End InvariantFacts.

(** ** [bridge] from an unknown vertex *)

(** C8, at the undirected graph with the single edge 1-2.  The invariant
    holds of the graph; [bridge(7)], called with a vertex the graph does not
    have, returns no bridge and leaves 7 as a key of the adjacency map
    although 7 is not in the vertex set: the invariant no longer holds.
    In every iteration order. *)
Theorem bridge_from_unknown_vertex :
  forall g, GraphSpec.same_graph Scenario.one_edge g ->
    GraphSpec.vertices_cover_adjacency g
    /\ exists bridges g',
         Graph.bridge 5 g 7 = Some (bridges, g')
         /\ In 7 (um_keys (Graph.adj g'))
         /\ ~ In 7 (Graph._elements g')
         /\ ~ GraphSpec.vertices_cover_adjacency g'.
Proof.
  intros g S. split.
  - eapply InvariantFacts.covered_same_graph; [exact S|].
    apply InvariantFacts.ctor_covered.
  - assert (N : ~ In 7 (Graph._elements g)
                /\ exists bridges g', Graph.bridge 5 g 7 = Some (bridges, g')
                                      /\ Graph._elements g' = Graph._elements g).
    { revert g S. apply GraphFacts.graph_every_order. list_orders.
      each_order ltac:(split; [vm_compute; intuition discriminate
                              |eexists; eexists; split; vm_compute; reflexivity]). }
    destruct N as (N & bridges & g' & B & E).
    exists bridges, g'. split; [exact B|].
    destruct (InvariantFacts.bridge_unknown_start 5 g g' 7 bridges N B) as [K C].
    rewrite E. auto.
Qed.

Lemma bridge_from_unknown_vertex_witness :
  exists bridges g',
    Graph.bridge 5 Scenario.one_edge 7 = Some (bridges, g')
    /\ In 7 (um_keys (Graph.adj g'))
    /\ ~ In 7 (Graph._elements g')
    /\ ~ GraphSpec.vertices_cover_adjacency g'.
Proof.
  apply (bridge_from_unknown_vertex Scenario.one_edge).
  apply GraphFacts.graph_same_refl.
Defined.

(** ** Counting *)

Section CountingFacts.
Context {T : Type}.

Lemma count_pos_le (f f' : T -> Z) (U : list T) :
  (forall v, 0 < f' v -> 0 < f v) -> (count_pos f' U <= count_pos f U)%nat.
Proof.
  intros M. unfold count_pos. induction U as [|u U IH]; simpl; [lia|].
  destruct (0 <? f' u) eqn:E'.
  - apply Z.ltb_lt in E'. apply M in E'. apply Z.ltb_lt in E'. rewrite E'.
    simpl. lia.
  - destruct (0 <? f u); simpl; lia.
Qed.

Lemma count_pos_lt (f f' : T -> Z) (U : list T) (x : T) :
  (forall v, 0 < f' v -> 0 < f v) -> In x U -> 0 < f x -> f' x <= 0 ->
  (count_pos f' U < count_pos f U)%nat.
Proof.
  intros M I P N. unfold count_pos. induction U as [|u U IH]; simpl; [destruct I|].
  destruct I as [->|I].
  - assert (E : (0 <? f x) = true) by now apply Z.ltb_lt.
    assert (E' : (0 <? f' x) = false) by (apply Z.ltb_ge; lia).
    rewrite E, E'. simpl.
    pose proof (count_pos_le f f' U M) as L. unfold count_pos in L. lia.
  - specialize (IH I). destruct (0 <? f' u) eqn:E'.
    + apply Z.ltb_lt in E'. apply M in E'. apply Z.ltb_lt in E'. rewrite E'.
      simpl. lia.
    + destruct (0 <? f u); simpl; lia.
Qed.

Lemma count_pos_length (f : T -> Z) (U : list T) :
  (count_pos f U <= List.length U)%nat.
Proof.
  unfold count_pos. induction U as [|u U IH]; simpl; [lia|].
  destruct (0 <? f u); simpl; lia.
Qed.

Lemma filter_shorter {A : Type} (f : A -> bool) (l : list A) :
  (List.length (filter f l) <= List.length l)%nat.
Proof.
  induction l as [|x l IH]; simpl; [lia|]. destruct (f x); simpl; lia.
Qed.

Lemma filter_within {A : Type} (f : A -> bool) (l : list A) (y : A) :
  In y (filter f l) -> In y l.
Proof. intros I. apply filter_In in I. tauto. Qed.
End CountingFacts.

(** ** What [topological_sort] guarantees *)

Module TopologicalFacts.
Import Graph GraphSpec.
Section WithVertex.
Context {T : Type} `{Vertex T}.

Lemma graph_same_edges_touch (k : T) (a a0 : list (T * list T)) :
  same_edges a a0 -> same_edges (um_touch [] k a) a0.
Proof. intros S x. rewrite um_get_touch. apply S. Qed.

Lemma set_mem_app_single (u c : T) (done : list T) :
  u <> c -> set_mem u (done ++ [c]) = set_mem u done.
Proof.
  intros N. destruct (set_mem u done) eqn:M.
  - apply set_mem_true. apply set_mem_true in M. apply in_or_app. now left.
  - apply set_mem_false. apply set_mem_false in M. intros I.
    apply in_app_or in I. destruct I as [I|[I|[]]]; [contradiction|congruence].
Qed.

(** Counting the edges into [x] while [indeg[y]++] runs over a list. *)
Lemma increments_count (l : list T) :
  forall (indeg : T -> Z) (x : T),
    fold_left (fun indeg y => fupd indeg y (indeg y + 1)) l indeg x
    = indeg x + Z.of_nat (count_occ vertex_eq_dec l x).
Proof.
  induction l as [|y l IH]; intros indeg x; simpl; [lia|].
  rewrite IH. unfold fupd.
  destruct (vertex_eq_dec x y) as [->|N].
  - destruct (vertex_eq_dec y y); [lia|congruence].
  - destruct (vertex_eq_dec y x); [congruence|lia].
Qed.

Lemma indegrees_fold_spec (a0 : list (T * list T)) (E : list T) :
  forall (indeg0 : T -> Z) (a1 : list (T * list T)),
    same_edges a1 a0 ->
    let r := fold_left
               (fun '(indeg, a) x =>
                  let a' := um_touch [] x a in
                  (fold_left (fun indeg y => fupd indeg y (indeg y + 1))
                     (um_get [] x a') indeg, a'))
               E (indeg0, a1) in
    same_edges (snd r) a0
    /\ forall x, fst r x = indeg0 x + in_edges a0 E x.
Proof.
  induction E as [|u E IH]; intros indeg0 a1 S; simpl.
  - split; [exact S|intros x; lia].
  - destruct (IH (fold_left (fun indeg y => fupd indeg y (indeg y + 1))
                    (um_get [] u (um_touch [] u a1)) indeg0)
                (um_touch [] u a1) (graph_same_edges_touch u _ _ S)) as [S' V].
    split; [exact S'|]. intros x. rewrite V, increments_count.
    rewrite um_get_touch, S. lia.
Qed.

(** After the first loop every counter holds the in-degree. *)
Lemma indegrees_spec (a : list (T * list T)) (E : list T) :
  same_edges (snd (indegrees a E)) a
  /\ forall x, fst (indegrees a E) x = in_edges a E x.
Proof.
  destruct (indegrees_fold_spec a E (fun _ => 0) a (fun x => eq_refl)) as [S V].
  split; [exact S|]. intros x. unfold indegrees. now rewrite V.
Qed.

Lemma in_edges_nonneg (a0 : list (T * list T)) (L : list T) (x : T) :
  0 <= in_edges a0 L x.
Proof. induction L as [|u L IH]; simpl; lia. Qed.

Lemma in_edges_zero (a0 : list (T * list T)) (L : list T) (x u : T) :
  in_edges a0 L x = 0 -> In u L -> ~ In x (um_get [] u a0).
Proof.
  induction L as [|v L IH]; simpl; intros Z I; [destruct I|].
  pose proof (in_edges_nonneg a0 L x).
  destruct I as [->|I].
  - apply (count_occ_not_In vertex_eq_dec). lia.
  - apply IH; [lia|exact I].
Qed.

Lemma unprocessed_absent (E done : list T) (c : T) :
  ~ In c E -> unprocessed E (done ++ [c]) = unprocessed E done.
Proof.
  intros N. unfold unprocessed. apply filter_ext_in. intros u I.
  rewrite set_mem_app_single; [reflexivity|]. intros ->. contradiction.
Qed.

(** Outputting [c] removes its edges from the count. *)
Lemma unprocessed_step (a0 : list (T * list T)) (E done : list T) (c x : T) :
  NoDup E -> In c E -> ~ In c done ->
  in_edges a0 (unprocessed E done) x
  = in_edges a0 (unprocessed E (done ++ [c])) x
    + Z.of_nat (count_occ vertex_eq_dec (um_get [] c a0) x).
Proof.
  intros D I N. induction E as [|u E IH]; [destruct I|].
  inversion D as [|? ? Nu D']. subst.
  destruct (vertex_eq_dec u c) as [->|Ne].
  - change (unprocessed (c :: E) (done ++ [c]))
      with (if negb (set_mem c (done ++ [c]))
            then c :: unprocessed E (done ++ [c])
            else unprocessed E (done ++ [c])).
    change (unprocessed (c :: E) done)
      with (if negb (set_mem c done) then c :: unprocessed E done
            else unprocessed E done).
    assert (M1 : set_mem c (done ++ [c]) = true)
      by (apply set_mem_true, in_or_app; right; now left).
    assert (M2 : set_mem c done = false) by now apply set_mem_false.
    rewrite M1, M2. simpl. rewrite unprocessed_absent by exact Nu. lia.
  - destruct I as [I|I]; [contradiction|]. specialize (IH D' I).
    change (unprocessed (u :: E) (done ++ [c]))
      with (if negb (set_mem u (done ++ [c]))
            then u :: unprocessed E (done ++ [c])
            else unprocessed E (done ++ [c])).
    change (unprocessed (u :: E) done)
      with (if negb (set_mem u done) then u :: unprocessed E done
            else unprocessed E done).
    rewrite set_mem_app_single by exact Ne.
    destruct (set_mem u done); simpl; lia.
Qed.

Lemma unprocessed_in (E done : list T) (u : T) :
  In u E -> ~ In u done -> In u (unprocessed E done).
Proof.
  intros I N. unfold unprocessed. apply filter_In. split; [exact I|].
  apply negb_true_iff. now apply set_mem_false.
Qed.

Lemma precedes_app {A : Type} (u x c : A) (l : list A) :
  precedes u x l -> precedes u x (l ++ [c]).
Proof.
  intros (l1 & l2 & l3 & ->). exists l1, l2, (l3 ++ [c]).
  now rewrite <- !app_assoc, <- !app_comm_cons, <- app_assoc.
Qed.

Lemma precedes_last {A : Type} (u c : A) (l : list A) :
  In u l -> precedes u c (l ++ [c]).
Proof.
  intros I. apply in_split in I. destruct I as (l1 & l2 & ->).
  exists l1, l2, []. now rewrite <- app_assoc.
Qed.

Section Loop.
Variable a0 : list (T * list T).
Variable E : list T.
Hypothesis nodup : NoDup E.
Hypothesis known : forall u x, In x (um_get [] u a0) -> In x E.

(** The neighbour loop re-establishes the invariant. *)
Lemma kahn_neighbours (top_sort : list T) (l : list T) :
  forall (indeg : T -> Z) (q visited : list T) indeg' q' visited',
    (forall x, In x l -> In x E) ->
    kahn_invariant a0 E l q visited indeg top_sort ->
    fold_left
      (fun '(indeg, q, visited) x =>
         if set_mem x visited then (indeg, q, visited)
         else
           let d := indeg x - 1 in
           if d =? 0 then (fupd indeg x d, q ++ [x], x :: visited)
           else (fupd indeg x d, q, visited))
      l (indeg, q, visited) = (indeg', q', visited') ->
    kahn_invariant a0 E [] q' visited' indeg' top_sort.
Proof.
  induction l as [|x l IH]; intros indeg q visited indeg' q' visited' L I F;
    simpl in F.
  - inversion F. now subst.
  - assert (L' : forall y, In y l -> In y E) by (intros y Iy; apply L; now right).
    destruct I as [Id Iv Ik Ic Iq Io].
    destruct (set_mem x visited) eqn:M.
    + apply (IH _ _ _ _ _ _ L') in F; [exact F|].
      apply set_mem_true in M. split; auto.
      intros y Ny. rewrite (Ic y Ny). simpl.
      destruct (vertex_eq_dec x y); [congruence|reflexivity].
    + apply set_mem_false in M.
      assert (Cx : indeg x - 1
                   = in_edges a0 (unprocessed E top_sort) x
                     + Z.of_nat (count_occ vertex_eq_dec l x)).
      { rewrite (Ic x M). simpl.
        destruct (vertex_eq_dec x x); [lia|congruence]. }
      assert (Co : forall y, y <> x -> ~ In y visited ->
                   fupd indeg x (indeg x - 1) y
                   = in_edges a0 (unprocessed E top_sort) y
                     + Z.of_nat (count_occ vertex_eq_dec l y)).
      { intros y Ny Vy. rewrite fupd_other by exact Ny. rewrite (Ic y Vy). simpl.
        destruct (vertex_eq_dec x y); [congruence|reflexivity]. }
      assert (Nx : ~ In x (top_sort ++ q)) by (intros J; apply M; now apply Iv).
      destruct (indeg x - 1 =? 0) eqn:D.
      * apply Z.eqb_eq in D.
        apply (IH _ _ _ _ _ _ L') in F; [exact F|]. split.
        -- rewrite app_assoc. apply NoDup_app; auto.
           ++ constructor; [intros []|constructor].
           ++ intros y Iy [<-|[]]. contradiction.
        -- intros y. rewrite app_assoc, in_app_iff. simpl. rewrite Iv. tauto.
        -- intros y Iy. apply in_app_or in Iy. destruct Iy as [Iy|[<-|[]]]; auto.
           apply L. now left.
        -- intros y Ny. apply Co; [|intros J; apply Ny; now right].
           intros ->. apply Ny. now left.
        -- intros y u Iy Iu Ie. apply in_app_or in Iy. destruct Iy as [Iy|[<-|[]]].
           ++ eapply Iq; eauto.
           ++ destruct (in_dec vertex_eq_dec u top_sort) as [J|J]; [exact J|].
              exfalso.
              pose proof (in_edges_nonneg a0 (unprocessed E top_sort) x).
              assert (Z0 : in_edges a0 (unprocessed E top_sort) x = 0) by lia.
              eapply in_edges_zero; [exact Z0| |exact Ie].
              now apply unprocessed_in.
        -- exact Io.
      * apply (IH _ _ _ _ _ _ L') in F; [exact F|]. split; auto.
        intros y Ny. destruct (vertex_eq_dec y x) as [->|Ne].
        -- rewrite fupd_same. exact Cx.
        -- now apply Co.
Qed.

(** Whenever the loop ends, its output has no repetition and every edge
    into an output vertex starts at an earlier output vertex. *)
Lemma topological_loop_order :
  forall (fuel : nat) a indeg q visited top_sort order a',
    same_edges a a0 ->
    kahn_invariant a0 E [] q visited indeg top_sort ->
    topological_loop fuel a indeg q visited top_sort = Some (order, a') ->
    NoDup order
    /\ (forall y, In y order -> In y top_sort \/ In y E)
    /\ forall x u, In x order -> In u E -> In x (um_get [] u a0) ->
                   precedes u x order.
Proof.
  induction fuel as [|fuel IH];
    intros a indeg q visited top_sort order a' S I L; [discriminate|].
  destruct q as [|current q]; simpl in L.
  - inversion L. subst. destruct I as [Id _ _ _ _ Io].
    rewrite app_nil_r in Id. repeat split; auto.
  - match type of L with
    | context [fold_left ?f ?l ?i] =>
        destruct (fold_left f l i) as [[indeg' q'] visited'] eqn:F
    end.
    rewrite um_get_touch, S in F.
    destruct I as [Id Iv Ik Ic Iq Io].
    assert (Ec : In current E) by (apply Ik; now left).
    assert (Nc : ~ In current top_sort).
    { intros J. apply NoDup_remove_2 in Id. apply Id. apply in_or_app. now left. }
    apply kahn_neighbours with (top_sort := top_sort ++ [current]) in F.
    + apply IH in L; [|now apply graph_same_edges_touch|exact F].
      destruct L as (L1 & L2 & L3). repeat split; auto.
      intros y Iy. apply L2 in Iy. destruct Iy as [Iy|Iy]; [|now right].
      apply in_app_or in Iy. destruct Iy as [Iy|[<-|[]]]; auto.
    + intros x. apply known.
    + split.
      * now rewrite <- app_assoc.
      * intros x. rewrite Iv, <- app_assoc. reflexivity.
      * intros x Ix. apply Ik. now right.
      * intros x Nx. rewrite (Ic x Nx). simpl.
        rewrite (unprocessed_step a0 E top_sort current x nodup Ec Nc). lia.
      * intros x u Ix Iu Ie. apply in_or_app. left.
        eapply Iq; [right; exact Ix|exact Iu|exact Ie].
      * intros x u Ix Iu Ie. apply in_app_or in Ix. destruct Ix as [Ix|[<-|[]]].
        -- apply precedes_app. now apply Io.
        -- apply precedes_last. eapply Iq; [now left|exact Iu|exact Ie].
Qed.
End Loop.

(** Whenever [topological_sort] returns on a graph whose vertex set has no
    repetition and contains every neighbour, the output has no repetition,
    consists of vertices, and every stored edge into an output vertex
    starts at an earlier output vertex. *)
Lemma topological_sort_order (fuel : nat) (g g' : graph T) (order : list T) :
  NoDup (_elements g) ->
  (forall u x, edge g u x -> In x (_elements g)) ->
  topological_sort fuel g = Some (order, g') ->
  NoDup order
  /\ (forall y, In y order -> In y (_elements g))
  /\ forall u v, In u (_elements g) -> edge g u v -> In v order ->
                 precedes u v order.
Proof.
  intros D K R. unfold topological_sort in R.
  destruct (indegrees_spec (adj g) (_elements g)) as [S V].
  destruct (indegrees (adj g) (_elements g)) as [indeg a]. simpl in S, V.
  match type of R with
  | context [topological_loop ?f ?a ?i ?q ?v ?t] =>
      destruct (topological_loop f a i q v t) as [[o a']|] eqn:L; [|discriminate]
  end.
  inversion R. subst o.
  apply topological_loop_order with (a0 := adj g) (E := _elements g) in L; auto.
  - destruct L as (L1 & L2 & L3). split; [exact L1|]. split.
    + intros y Iy. apply L2 in Iy. destruct Iy as [[]|Iy]. exact Iy.
    + intros u v Iu Ie Iv. now apply L3.
  - split.
    + simpl. now apply NoDup_filter.
    + intros x. reflexivity.
    + intros x Ix. apply filter_In in Ix. tauto.
    + intros x Nx. simpl. rewrite V.
      replace (unprocessed (_elements g) []) with (_elements g); [lia|].
      unfold unprocessed. symmetry. apply forallb_filter_id.
      apply forallb_forall. reflexivity.
    + intros x u Ix Iu Ie. simpl in Ix. apply filter_In in Ix.
      destruct Ix as [_ Zx]. apply Z.eqb_eq in Zx. rewrite V in Zx.
      exfalso. eapply in_edges_zero; [exact Zx|exact Iu|exact Ie].
    + intros x u [].
Qed.

Lemma graph_um_get_targets (k : T) (a0 : list (T * list T)) (x : T) :
  In x (um_get [] k a0) -> In x (targets a0).
Proof.
  intros I. destruct (um_get_in [] k a0) as [E|E].
  - rewrite E in I. destruct I.
  - unfold targets. apply in_flat_map. exists k. split; [|exact I].
    unfold um_keys. now apply (in_map fst) in E.
Qed.

Lemma graph_topological_step_measure (U : list T) (l : list T) :
  forall (indeg : T -> Z) (q visited : list T) indeg' q' visited',
    (forall x, In x l -> In x U) ->
    fold_left
      (fun '(indeg, q, visited) x =>
         if set_mem x visited then (indeg, q, visited)
         else
           let d := indeg x - 1 in
           if d =? 0 then (fupd indeg x d, q ++ [x], x :: visited)
           else (fupd indeg x d, q, visited))
      l (indeg, q, visited) = (indeg', q', visited') ->
    (List.length q' + count_pos indeg' U <= List.length q + count_pos indeg U)%nat.
Proof.
  induction l as [|x l IH]; intros indeg q visited indeg' q' visited' I F;
    simpl in F.
  - inversion F. subst. lia.
  - assert (Ix : In x U) by (apply I; now left).
    assert (Il : forall y, In y l -> In y U) by (intros y Iy; apply I; now right).
    assert (M : forall v, 0 < fupd indeg x (indeg x - 1) v -> 0 < indeg v).
    { intros v. unfold fupd. destruct (vertex_eq_dec v x); [subst|]; lia. }
    destruct (set_mem x visited).
    + now apply IH in F.
    + destruct (indeg x - 1 =? 0) eqn:D.
      * apply IH in F; [|exact Il]. apply Z.eqb_eq in D.
        assert (L : (count_pos (fupd indeg x (indeg x - 1)%Z) U
                     < count_pos indeg U)%nat).
        { apply count_pos_lt with (x := x); auto.
          - lia.
          - rewrite fupd_same. lia. }
        rewrite length_app in F. simpl in F. lia.
      * apply IH in F; [|exact Il].
        pose proof (count_pos_le indeg _ U M). lia.
Qed.

(** The loop of [topological_sort] ends within the measure, on every
    graph. *)
Lemma graph_topological_loop_terminates (a0 : list (T * list T)) :
  forall (fuel : nat) a indeg q visited top_sort,
    same_edges a a0 ->
    (List.length q + count_pos indeg (targets a0) < fuel)%nat ->
    exists order a', topological_loop fuel a indeg q visited top_sort
                     = Some (order, a').
Proof.
  induction fuel as [|fuel IH]; intros a indeg q visited top_sort S L; [lia|].
  destruct q as [|current q]; simpl.
  - eauto.
  - match goal with
    | |- context [fold_left ?f ?l ?i] =>
        destruct (fold_left f l i) as [[indeg' q'] visited'] eqn:F
    end.
    apply graph_topological_step_measure with (U := targets a0) in F.
    + apply IH; [now apply graph_same_edges_touch|]. simpl in L. lia.
    + intros x I. rewrite um_get_touch, S in I.
      now apply graph_um_get_targets in I.
Qed.

(** [topological_sort] returns on every graph, given a bound above the
    measure. *)
Lemma topological_sort_total (fuel : nat) (g : graph T) :
  (List.length (_elements g) + List.length (targets (adj g)) < fuel)%nat ->
  exists order g', topological_sort fuel g = Some (order, g').
Proof.
  intros L. unfold topological_sort.
  destruct (indegrees_spec (adj g) (_elements g)) as [S _].
  destruct (indegrees (adj g) (_elements g)) as [indeg a]. simpl in S.
  destruct (graph_topological_loop_terminates (adj g) fuel a indeg
              (filter (fun x => indeg x =? 0) (_elements g))
              (filter (fun x => indeg x =? 0) (_elements g)) [] S)
    as (order & a' & R).
  - pose proof (filter_shorter (fun x => indeg x =? 0) (_elements g)).
    pose proof (count_pos_length indeg (targets (adj g))). lia.
  - rewrite R. eauto.
Qed.

Lemma set_insert_nodup (k : T) (s : list T) : NoDup s -> NoDup (set_insert k s).
Proof.
  intros D. unfold set_insert. destruct (set_mem k s) eqn:M; [exact D|].
  apply set_mem_false in M. apply NoDup_app; auto.
  - constructor; [intros []|constructor].
  - intros x I [<-|[]]. contradiction.
Qed.

(** The vertex set of a constructed graph has no repetition. *)
Lemma ctor_elements_nodup (mode : string) (adj_ : list (T * list T)) :
  NoDup (_elements (object (graph_ctor mode adj_))).
Proof.
  unfold graph_ctor, ctor_try.
  destruct ((mode =? "directed") || (mode =? "undirected"))%string; simpl;
    [|constructor].
  match goal with
  | |- NoDup (_elements (fold_left ?f adj_ ?g0)) =>
      assert (D0 : NoDup (_elements g0)) by constructor;
      revert D0; generalize g0
  end.
  induction adj_ as [|[u l] adj_ IH]; intros g0 D0; simpl; [exact D0|].
  apply IH. clear IH. revert g0 D0.
  induction l as [|v l IHl]; intros g0 D0; simpl; [exact D0|].
  apply IHl. simpl. now repeat apply set_insert_nodup.
Qed.

(** Kahn's algorithm as [topological_sort] runs it is right: on a graph
    that satisfies the data-model invariant the call returns for every
    large enough bound, and when the output has as many vertices as the
    graph (no vertex is left on a cycle), every stored edge (u,v) has u
    before v in the output. *)
Lemma topological_sort_of_acyclic (g : graph T) :
  NoDup (_elements g) ->
  vertices_cover_adjacency g ->
  exists fuel0, forall fuel, (fuel0 <= fuel)%nat ->
    exists order g',
      topological_sort fuel g = Some (order, g')
      /\ (List.length order = size g ->
          forall u v, edge g u v -> precedes u v order).
Proof.
  intros D [Ck Cv].
  exists (S (List.length (_elements g) + List.length (targets (adj g)))).
  intros fuel L.
  destruct (topological_sort_total fuel g ltac:(lia)) as (order & g' & R).
  exists order, g'. split; [exact R|]. intros Len u v Euv.
  assert (K : forall u x, edge g u x -> In x (_elements g)).
  { intros u' x I. unfold edge in I.
    destruct (um_get_in [] u' (adj g)) as [N|J].
    - rewrite N in I. destruct I.
    - eapply Cv; eauto. }
  destruct (topological_sort_order fuel g g' order D K R) as (O1 & O2 & O3).
  assert (Iu : In u (_elements g)).
  { unfold edge in Euv. destruct (um_get_in [] u (adj g)) as [N|J].
    - rewrite N in Euv. destruct Euv.
    - apply Ck. unfold um_keys. now apply (in_map fst) in J. }
  apply O3; auto.
  apply (NoDup_length_incl (l := order) (l' := _elements g) O1);
    [unfold size in Len; lia|exact O2|].
  eapply K. exact Euv.
Qed.

Lemma cycle_loop_counts_up :
  forall (fuel : nat) (a : list (T * list T)) indeg q visited n a',
    cycle_loop fuel a indeg q visited = Some (n, a') -> (visited <= n)%nat.
Proof.
  induction fuel as [|fuel IH]; intros a indeg q visited n a' C; [discriminate|].
  destruct q as [|current q]; simpl in C.
  - inversion C. lia.
  - match type of C with
    | context [fold_left ?f ?l ?i] => destruct (fold_left f l i) as [indeg' q']
    end.
    apply IH in C. lia.
Qed.

(** What [cycle] computes: whenever it returns, it answers [true] exactly
    when no vertex has in-degree zero. *)
Lemma cycle_answer (fuel : nat) (g g' : graph T) (b : bool) :
  cycle fuel g = Some (b, g') ->
  (b = true <->
   forall x, In x (_elements g) -> in_edges (adj g) (_elements g) x <> 0).
Proof.
  unfold cycle, kahn_removed. intros C.
  destruct (indegrees_spec (adj g) (_elements g)) as [_ V].
  destruct (indegrees (adj g) (_elements g)) as [indeg a]. simpl in V.
  destruct (filter (fun x => indeg x =? 0) (_elements g)) as [|c q] eqn:F.
  - destruct fuel as [|fuel]; [discriminate|]. simpl in C. inversion C.
    split; [intros _|reflexivity].
    intros x I Z. assert (J : In x []); [|destruct J].
    rewrite <- F. apply filter_In. split; [exact I|].
    apply Z.eqb_eq. now rewrite V.
  - match type of C with
    | context [cycle_loop ?f ?a ?i ?q ?v] =>
        destruct (cycle_loop f a i q v) as [[n a']|] eqn:L; [|discriminate]
    end.
    inversion C. subst. clear C.
    destruct fuel as [|fuel]; [discriminate|]. simpl in L.
    match type of L with
    | context [fold_left ?f ?l ?i] => destruct (fold_left f l i) as [indeg' q']
    end.
    apply cycle_loop_counts_up in L.
    destruct n as [|n]; [lia|]. simpl. split; [discriminate|].
    intros N. exfalso.
    assert (J : In c (filter (fun x => indeg x =? 0) (_elements g)))
      by (rewrite F; now left).
    apply filter_In in J. destruct J as [J Z]. apply Z.eqb_eq in Z.
    apply (N c J). now rewrite <- V.
Qed.

End WithVertex.
End TopologicalFacts.

(** ** Cycle detection and topological order *)

(** [cycle] answers [true] exactly when Kahn's loop removes no vertex. *)
Lemma cycle_true_iff_nothing_removed (T : Type) `(Vertex T)
    (fuel : nat) (g g' : Graph.graph T) (b : bool) :
  Graph.cycle fuel g = Some (b, g') <->
  exists n, Graph.kahn_removed fuel g = Some (n, g') /\ b = Nat.eqb n 0.
Proof.
  unfold Graph.cycle. destruct (Graph.kahn_removed fuel g) as [[n g1]|]; split.
  - intros E. inversion E. subst. now exists n.
  - intros (m & E & ->). now inversion E.
  - discriminate.
  - intros (m & E & _). discriminate.
Qed.

(** On the empty graph nothing is removed and [cycle] answers [true]. *)
Example cycle_on_empty_graph :
  option_map fst (Graph.cycle 1 (object (Graph.graph_ctor (T:=Z) "directed" [])))
  = Some true.
Proof. reflexivity. Qed.

(** C1, at the graph 1 -> 2, 2 -> 3, 3 -> 2.  The edges 2 -> 3 and 3 -> 2
    form a cycle and Kahn's loop removes one vertex of three, yet [cycle]
    returns [false]: it tests [visited == 0].  This holds for the
    unweighted and for the weighted graph, in every iteration order. *)
Theorem cycle_behind_source_not_detected :
  (forall g, GraphSpec.same_graph Scenario.tail_into_cycle g ->
      GraphSpec.edge g 2 3 /\ GraphSpec.edge g 3 2
      /\ option_map fst (Graph.kahn_removed 10 g) = Some 1%nat
      /\ Graph.size g = 3%nat
      /\ option_map fst (Graph.cycle 10 g) = Some false)
  /\ (forall g, WeightedSpec.same_graph Scenario.weighted_tail_into_cycle g ->
      WeightedSpec.edge g 2 3 1 /\ WeightedSpec.edge g 3 2 1
      /\ option_map fst (WeightedGraph.kahn_removed 10 g) = Some 1%nat
      /\ WeightedGraph.size g = 3%nat
      /\ option_map fst (WeightedGraph.cycle 10 g) = Some false).
Proof.
  split.
  - apply GraphFacts.graph_every_order. list_orders.
    each_order ltac:(vm_compute; intuition reflexivity).
  - apply WeightedFacts.weighted_every_order. list_orders.
    each_order ltac:(vm_compute; intuition reflexivity).
Qed.

Lemma cycle_behind_source_not_detected_witness :
  option_map fst (Graph.cycle 10 Scenario.tail_into_cycle) = Some false
  /\ option_map fst (WeightedGraph.cycle 10 Scenario.weighted_tail_into_cycle)
     = Some false.
Proof.
  split.
  - apply (proj1 cycle_behind_source_not_detected).
    apply GraphFacts.graph_same_refl.
  - apply (proj2 cycle_behind_source_not_detected).
    apply WeightedFacts.weighted_same_refl.
Defined.

Lemma precedes_in {T : Type} (u v : T) (l : list T) :
  precedes u v l -> In u l /\ In v l.
Proof.
  intros (l1 & l2 & l3 & ->). split.
  - apply in_or_app. right. now left.
  - apply in_or_app. right. right. apply in_or_app. right. now left.
Qed.

(** C2, at the graph 1 -> 2, 2 -> 3, 3 -> 2.  [cycle] returns [false], and
    [topological_sort] returns the sequence [1], in which the inserted edge
    (2,3) has neither endpoint: 2 does not precede 3. *)
Theorem topological_sort_after_cycle_false :
  forall g, GraphSpec.same_graph Scenario.tail_into_cycle g ->
    option_map fst (Graph.cycle 10 g) = Some false
    /\ GraphSpec.edge g 2 3
    /\ option_map fst (Graph.topological_sort 10 g) = Some [1]
    /\ ~ precedes 2 3 [1].
Proof.
  intros g S. split; [|split; [|split]].
  - revert g S. apply GraphFacts.graph_every_order. list_orders.
    each_order ltac:(vm_compute; reflexivity).
  - revert g S. apply GraphFacts.graph_every_order. list_orders.
    each_order ltac:(vm_compute; intuition reflexivity).
  - revert g S. apply GraphFacts.graph_every_order. list_orders.
    each_order ltac:(vm_compute; reflexivity).
  - intros P. apply precedes_in in P. destruct P as [[E|[]] _]. discriminate.
Qed.

Lemma topological_sort_after_cycle_false_witness :
  option_map fst (Graph.topological_sort 10 Scenario.tail_into_cycle) = Some [1].
Proof.
  apply (topological_sort_after_cycle_false Scenario.tail_into_cycle).
  apply GraphFacts.graph_same_refl.
Defined.

(** ** Prim *)

(** [prim] starts from the vertex [T(0)] with the numeric value of its
    argument as the first cost: when [T(0)] has no stored edge, that value is
    all it returns. *)
Lemma prim_without_vertex_zero (T : Type) `(NumericVertex T)
    (fuel : nat) (g : WeightedGraph.weighted_graph T) (start : T) :
  um_get [] (vertex_of_int 0) (WeightedGraph.adj g) = [] ->
  option_map fst (WeightedGraph.prim (S (S fuel)) g start)
  = Some (wrap64 (vertex_to_int64 start)).
Proof.
  intros E. unfold WeightedGraph.prim. simpl.
  rewrite um_get_touch, E. reflexivity.
Qed.

(** C3, at the triangle A-B 1, B-C 2, A-C 3 with [char] vertices.
    [prim('A')] returns 65, the character code of its argument, not the
    weight 3 of the minimum spanning tree; in every iteration order. *)
Theorem prim_on_triangle :
  forall g, WeightedSpec.same_graph Scenario.triangle g ->
    option_map fst (WeightedGraph.prim 10 g Scenario.A) = Some 65
    /\ option_map fst (WeightedGraph.prim 10 g Scenario.A) <> Some 3.
Proof.
  apply WeightedFacts.weighted_every_order. list_orders.
  each_order ltac:(vm_compute; split; [reflexivity|discriminate]).
Qed.

Lemma prim_on_triangle_witness :
  option_map fst (WeightedGraph.prim 10 Scenario.triangle Scenario.A) = Some 65.
Proof.
  apply (prim_on_triangle Scenario.triangle).
  apply WeightedFacts.weighted_same_refl.
Defined.

(** The same triangle on the vertices 0, 1, 2: only the start 0 yields 3. *)
Example prim_from_each_vertex :
  let g := object (WeightedGraph.weighted_graph_ctor (T:=Z) "undirected"
                     [((0, 1), 1); ((1, 2), 2); ((0, 2), 3)]) in
  option_map fst (WeightedGraph.prim 10 g 0) = Some 3
  /\ option_map fst (WeightedGraph.prim 10 g 1) = Some 4
  /\ option_map fst (WeightedGraph.prim 10 g 2) = Some 5.
Proof. vm_compute. repeat split. Qed.

(** ** Shortest path on the diamond *)

(** C4.  On the directed acyclic graph 1 -> 2 (1), 1 -> 3 (4), 2 -> 4 (2),
    3 -> 4 (1), [cycle] is false and the graph is directed, so
    [shortest_path(1,4)] is the result of the relaxation along the
    topological order 1, 2, 3, 4, and it is 3; in every iteration order. *)
Theorem shortest_path_on_diamond :
  forall g, WeightedSpec.same_graph Scenario.diamond g ->
    option_map fst (WeightedGraph.cycle 20 g) = Some false
    /\ WeightedGraph._type g = "directed"%string
    /\ option_map fst (WeightedGraph.topological_sort 20 g) = Some [1; 2; 3; 4]
    /\ option_map fst (WeightedGraph.relax_in_topological_order 20 g 1 4)
       = Some 3
    /\ option_map fst (WeightedGraph.shortest_path 20 g 1 4) = Some 3.
Proof.
  apply WeightedFacts.weighted_every_order. list_orders.
  each_order ltac:(vm_compute; repeat split; reflexivity).
Qed.

Lemma shortest_path_on_diamond_witness :
  option_map fst (WeightedGraph.shortest_path 20 Scenario.diamond 1 4) = Some 3.
Proof.
  apply (shortest_path_on_diamond Scenario.diamond).
  apply WeightedFacts.weighted_same_refl.
Defined.

(** ** The graphs the weighted class can hold *)

Section WeightedInvariant.
Import WeightedGraph WeightedSpec.
Context {T : Type} `{Vertex T}.

Lemma default_neighbours_known : neighbours_known (default_members (T:=T)).
Proof. intros u v w []. Qed.

Lemma push_back_known (a : list (T * list (T * Z))) (E : list T)
    (u v : T) (w : Z) :
  (forall x y c, In (y, c) (um_get [] x a) -> In y E) ->
  In v E ->
  forall x y c,
    In (y, c) (um_get [] x (um_modify [] u (fun l => l ++ [(v, w)]) a)) ->
    In y E.
Proof.
  intros K I x y c J. rewrite um_get_modify in J.
  destruct (vertex_eq_dec x u).
  - apply in_app_or in J. destruct J as [J|[J|[]]].
    + eapply K. exact J.
    + inversion J. now subst.
  - eapply K. exact J.
Qed.

Lemma add_edge_neighbours_known (g : weighted_graph T) (u v : T) (w : Z) :
  neighbours_known g -> neighbours_known (add_edge g u v w).
Proof.
  intros K.
  assert (K' : forall x y c,
             In (y, c) (um_get [] x (adj g)) ->
             In y (set_insert v (set_insert u (_elements g)))).
  { intros x y c J. rewrite !set_insert_in. right; right. eapply K. exact J. }
  assert (Iu : In u (set_insert v (set_insert u (_elements g))))
    by (rewrite !set_insert_in; tauto).
  assert (Iv : In v (set_insert v (set_insert u (_elements g))))
    by (rewrite !set_insert_in; tauto).
  unfold neighbours_known, edge, add_edge. simpl.
  destruct (_type g =? "undirected")%string.
  - apply push_back_known; [|exact Iu]. now apply push_back_known.
  - destruct (_type g =? "directed")%string; [|exact K'].
    now apply push_back_known.
Qed.

Lemma clear_neighbours_known (g : weighted_graph T) :
  neighbours_known (clear g).
Proof. intros u v w []. Qed.

Lemma has_edge_neighbours_known (g : weighted_graph T) (start end_ : T) :
  neighbours_known g -> neighbours_known (snd (has_edge g start end_)).
Proof.
  intros K. unfold has_edge.
  destruct (negb (set_mem start (_elements g))); [exact K|].
  intros u v w E. unfold edge in E. simpl in E. rewrite um_get_touch in E.
  eapply K. exact E.
Qed.

(** Every constructed graph has its neighbours among its vertices. *)
Lemma ctor_neighbours_known (mode : string) (adj_ : list ((T * T) * Z)) :
  neighbours_known (object (weighted_graph_ctor mode adj_)).
Proof.
  unfold weighted_graph_ctor, ctor_try.
  destruct ((mode =? "directed") || (mode =? "undirected"))%string; simpl.
  - match goal with
    | |- neighbours_known (fold_left ?f adj_ ?g0) =>
        assert (K0 : neighbours_known g0) by (intros u v w []);
        revert K0; generalize g0
    end.
    induction adj_ as [|e adj_ IH]; intros g0 K0; simpl; [exact K0|].
    apply IH. now apply add_edge_neighbours_known.
  - apply default_neighbours_known.
Qed.

(** A stored edge sits in an entry of [adj]. *)
Lemma edge_stored (g : weighted_graph T) (u v : T) (w : Z) :
  edge g u v w -> exists l, In (u, l) (adj g) /\ In (v, w) l.
Proof.
  unfold edge. intros E. destruct (um_get_in [] u (adj g)) as [N|I].
  - rewrite N in E. destruct E.
  - eauto.
Qed.
End WeightedInvariant.

(** ** Termination of Kahn's loops on the weighted graph *)

Module KahnFacts.
Import WeightedGraph WeightedSpec.
Section WithVertex.
Context {T : Type} `{Vertex T}.

Lemma same_edges_refl (a : list (T * list (T * Z))) : same_edges a a.
Proof. intros x. reflexivity. Qed.

Lemma same_edges_touch (k : T) (a a0 : list (T * list (T * Z))) :
  same_edges a a0 -> same_edges (um_touch [] k a) a0.
Proof. intros S x. rewrite um_get_touch. apply S. Qed.

Lemma um_get_targets (k : T) (a0 : list (T * list (T * Z))) (x : T * Z) :
  In x (um_get [] k a0) -> In (fst x) (targets a0).
Proof.
  intros I. destruct (um_get_in [] k a0) as [E|E].
  - rewrite E in I. destruct I.
  - unfold targets. apply in_flat_map. exists k. split.
    + unfold um_keys. now apply (in_map fst) in E.
    + now apply in_map.
Qed.

Lemma targets_known (g : weighted_graph T) :
  neighbours_known g ->
  forall y, In y (targets (adj g)) -> In y (_elements g).
Proof.
  intros K y I. unfold targets in I. apply in_flat_map in I.
  destruct I as (k & _ & I). apply in_map_iff in I.
  destruct I as ([x w] & <- & I). eapply K. exact I.
Qed.

(** The first loop only touches [adj]. *)
Lemma indegrees_fold_same_edges (E : list T) :
  forall (indeg : T -> Z) (a : list (T * list (T * Z))),
    same_edges
      (snd (fold_left
              (fun '(indeg, a) x =>
                 let a' := um_touch [] x a in
                 (fold_left (fun indeg y => fupd indeg (fst y) (indeg (fst y) + 1))
                    (um_get [] x a') indeg, a'))
              E (indeg, a))) a.
Proof.
  induction E as [|x E IH]; intros indeg a; simpl.
  - apply same_edges_refl.
  - intros y. rewrite IH. apply um_get_touch.
Qed.

Lemma indegrees_same_edges (a : list (T * list (T * Z))) (E : list T) :
  same_edges (snd (indegrees a E)) a.
Proof. apply indegrees_fold_same_edges. Qed.

(** The neighbour loop of [cycle] does not increase the measure. *)
Lemma cycle_step_measure (U : list T) (l : list (T * Z)) :
  forall (indeg : T -> Z) (q : list T) indeg' q',
    (forall x, In x l -> In (fst x) U) ->
    fold_left
      (fun '(indeg, q) x =>
         let d := indeg (fst x) - 1 in
         (fupd indeg (fst x) d, if d =? 0 then q ++ [fst x] else q))
      l (indeg, q) = (indeg', q') ->
    (List.length q' + count_pos indeg' U <= List.length q + count_pos indeg U)%nat.
Proof.
  induction l as [|x l IH]; intros indeg q indeg' q' I F; simpl in F.
  - inversion F. subst. lia.
  - apply IH in F; [|intros y Iy; apply I; now right].
    assert (M : forall v, 0 < fupd indeg (fst x) (indeg (fst x) - 1) v -> 0 < indeg v).
    { intros v. unfold fupd. destruct (vertex_eq_dec v (fst x)); [subst|]; lia. }
    destruct (indeg (fst x) - 1 =? 0) eqn:D.
    + apply Z.eqb_eq in D.
      assert (L : (count_pos (fupd indeg (fst x) (indeg (fst x) - 1)%Z) U
                   < count_pos indeg U)%nat).
      { apply count_pos_lt with (x := fst x); auto.
        - apply I. now left.
        - lia.
        - rewrite fupd_same. lia. }
      rewrite length_app in F. simpl in F. lia.
    + pose proof (count_pos_le indeg _ U M). lia.
Qed.

(** The loop of [cycle] ends within the measure, on every graph. *)
Lemma cycle_loop_terminates (a0 : list (T * list (T * Z))) :
  forall (fuel : nat) a indeg q visited,
    same_edges a a0 ->
    (List.length q + count_pos indeg (targets a0) < fuel)%nat ->
    exists n a', cycle_loop fuel a indeg q visited = Some (n, a')
                 /\ same_edges a' a0.
Proof.
  induction fuel as [|fuel IH]; intros a indeg q visited S L; [lia|].
  destruct q as [|current q]; simpl.
  - eauto.
  - match goal with
    | |- context [fold_left ?f ?l ?i] => destruct (fold_left f l i) as [indeg' q'] eqn:F
    end.
    apply cycle_step_measure with (U := targets a0) in F.
    + apply IH; [now apply same_edges_touch|]. simpl in L. lia.
    + intros x I. rewrite um_get_touch, S in I. now apply um_get_targets in I.
Qed.

(** Whenever the loop of [cycle] ends, [adj] reads as before. *)
Lemma cycle_loop_same_edges (a0 : list (T * list (T * Z))) :
  forall (fuel : nat) a indeg q visited n a',
    same_edges a a0 ->
    cycle_loop fuel a indeg q visited = Some (n, a') ->
    same_edges a' a0.
Proof.
  induction fuel as [|fuel IH]; intros a indeg q visited n a' S C;
    [discriminate|].
  destruct q as [|current q]; simpl in C.
  - inversion C. now subst.
  - match type of C with
    | context [fold_left ?f ?l ?i] => destruct (fold_left f l i) as [indeg' q']
    end.
    eapply IH; [|exact C]. now apply same_edges_touch.
Qed.

Lemma topological_step_measure (U : list T) (l : list (T * Z)) :
  forall (indeg : T -> Z) (q visited : list T) indeg' q' visited',
    (forall x, In x l -> In (fst x) U) ->
    fold_left
      (fun '(indeg, q, visited) x =>
         if set_mem (fst x) visited then (indeg, q, visited)
         else
           let d := indeg (fst x) - 1 in
           if d =? 0
           then (fupd indeg (fst x) d, q ++ [fst x], fst x :: visited)
           else (fupd indeg (fst x) d, q, visited))
      l (indeg, q, visited) = (indeg', q', visited') ->
    (List.length q' + count_pos indeg' U <= List.length q + count_pos indeg U)%nat
    /\ (forall y, In y q' -> In y q \/ In y U).
Proof.
  induction l as [|x l IH]; intros indeg q visited indeg' q' visited' I F;
    simpl in F.
  - inversion F. subst. split; [lia|auto].
  - assert (Ix : In (fst x) U) by (apply I; now left).
    assert (Il : forall y, In y l -> In (fst y) U) by (intros y Iy; apply I; now right).
    assert (M : forall v, 0 < fupd indeg (fst x) (indeg (fst x) - 1) v -> 0 < indeg v).
    { intros v. unfold fupd. destruct (vertex_eq_dec v (fst x)); [subst|]; lia. }
    destruct (set_mem (fst x) visited).
    + now apply IH in F.
    + destruct (indeg (fst x) - 1 =? 0) eqn:D.
      * apply IH in F; [|exact Il]. destruct F as [F1 F2].
        apply Z.eqb_eq in D.
        assert (L : (count_pos (fupd indeg (fst x) (indeg (fst x) - 1)%Z) U
                     < count_pos indeg U)%nat).
        { apply count_pos_lt with (x := fst x); auto.
          - lia.
          - rewrite fupd_same. lia. }
        rewrite length_app in F1. simpl in F1. split; [lia|].
        intros y Iy. apply F2 in Iy. destruct Iy as [Iy|Iy]; [|now right].
        apply in_app_or in Iy. destruct Iy as [Iy|[<-|[]]]; auto.
      * apply IH in F; [|exact Il]. destruct F as [F1 F2].
        pose proof (count_pos_le indeg _ U M). split; [lia|exact F2].
Qed.

(** The loop of [topological_sort] ends within the measure, and its output
    consists of queued vertices and stored neighbours. *)
Lemma topological_loop_terminates (a0 : list (T * list (T * Z))) (E : list T) :
  (forall y, In y (targets a0) -> In y E) ->
  forall (fuel : nat) a indeg q visited top_sort,
    same_edges a a0 ->
    (forall y, In y q -> In y E) ->
    (forall y, In y top_sort -> In y E) ->
    (List.length q + count_pos indeg (targets a0) < fuel)%nat ->
    exists order a', topological_loop fuel a indeg q visited top_sort
                     = Some (order, a')
                     /\ same_edges a' a0
                     /\ (forall y, In y order -> In y E).
Proof.
  intros K. induction fuel as [|fuel IH]; intros a indeg q visited top_sort S Q P L;
    [lia|].
  destruct q as [|current q]; simpl.
  - eauto.
  - match goal with
    | |- context [fold_left ?f ?l ?i] =>
        destruct (fold_left f l i) as [[indeg' q'] visited'] eqn:F
    end.
    apply topological_step_measure with (U := targets a0) in F.
    + destruct F as [F1 F2]. apply IH.
      * now apply same_edges_touch.
      * intros y Iy. apply F2 in Iy. destruct Iy as [Iy|Iy]; [|now apply K].
        apply Q. now right.
      * intros y Iy. apply in_app_or in Iy. destruct Iy as [Iy|[<-|[]]]; auto.
        apply Q. now left.
      * simpl in L. lia.
    + intros x I. rewrite um_get_touch, S in I. now apply um_get_targets in I.
Qed.

(** Whenever the loop of [topological_sort] ends, [adj] reads as before,
    the output consists of known vertices and is no longer than the
    measure. *)
Lemma topological_loop_sound (a0 : list (T * list (T * Z))) (E : list T) :
  (forall y, In y (targets a0) -> In y E) ->
  forall (fuel : nat) a indeg q visited top_sort order a',
    same_edges a a0 ->
    (forall y, In y q -> In y E) ->
    (forall y, In y top_sort -> In y E) ->
    topological_loop fuel a indeg q visited top_sort = Some (order, a') ->
    same_edges a' a0
    /\ (forall y, In y order -> In y E)
    /\ (List.length order
        <= List.length top_sort + List.length q + count_pos indeg (targets a0))%nat.
Proof.
  intros K. induction fuel as [|fuel IH];
    intros a indeg q visited top_sort order a' S Q P L; [discriminate|].
  destruct q as [|current q]; simpl in L.
  - inversion L. subst. repeat split; auto. lia.
  - match type of L with
    | context [fold_left ?f ?l ?i] =>
        destruct (fold_left f l i) as [[indeg' q'] visited'] eqn:F
    end.
    apply topological_step_measure with (U := targets a0) in F.
    + destruct F as [F1 F2]. apply IH in L.
      * destruct L as (L1 & L2 & L3). repeat split; auto.
        rewrite length_app in L3. simpl in *. lia.
      * now apply same_edges_touch.
      * intros y Iy. apply F2 in Iy. destruct Iy as [Iy|Iy]; [|now apply K].
        apply Q. now right.
      * intros y Iy. apply in_app_or in Iy. destruct Iy as [Iy|[<-|[]]]; auto.
        apply Q. now left.
    + intros x I. rewrite um_get_touch, S in I. now apply um_get_targets in I.
Qed.

(** [cycle] leaves a graph that reads as before. *)
Lemma cycle_same_edges (a0 : list (T * list (T * Z)))
    (fuel : nat) (g g' : weighted_graph T) (b : bool) :
  same_edges (adj g) a0 ->
  cycle fuel g = Some (b, g') ->
  same_edges (adj g') a0 /\ _elements g' = _elements g /\ _type g' = _type g.
Proof.
  intros S C. unfold cycle, kahn_removed in C.
  pose proof (indegrees_same_edges (adj g) (_elements g)) as I.
  destruct (indegrees (adj g) (_elements g)) as [indeg a]. simpl in I.
  match type of C with
  | context [cycle_loop ?f ?a ?i ?q ?v] =>
      destruct (cycle_loop f a i q v) as [[n a']|] eqn:L; [|discriminate]
  end.
  inversion C. subst. simpl. repeat split.
  eapply cycle_loop_same_edges; [|exact L].
  intros x. rewrite I. apply S.
Qed.

(** [cycle] returns on every graph, given a bound above the measure. *)
Lemma cycle_total (a0 : list (T * list (T * Z)))
    (fuel : nat) (g : weighted_graph T) :
  same_edges (adj g) a0 ->
  (List.length (_elements g) + List.length (targets a0) < fuel)%nat ->
  exists b g', cycle fuel g = Some (b, g').
Proof.
  intros S L. unfold cycle, kahn_removed.
  pose proof (indegrees_same_edges (adj g) (_elements g)) as I.
  destruct (indegrees (adj g) (_elements g)) as [indeg a]. simpl in I.
  destruct (cycle_loop_terminates a0 fuel a indeg
              (filter (fun x => indeg x =? 0) (_elements g)) 0%nat)
    as (n & a' & C & _).
  - intros x. rewrite I. apply S.
  - pose proof (filter_shorter (fun x => indeg x =? 0) (_elements g)).
    pose proof (count_pos_length indeg (targets a0)). lia.
  - rewrite C. eauto.
Qed.

Lemma topological_sort_sound (a0 : list (T * list (T * Z)))
    (fuel : nat) (g g' : weighted_graph T) (order : list T) :
  same_edges (adj g) a0 ->
  (forall y, In y (targets a0) -> In y (_elements g)) ->
  topological_sort fuel g = Some (order, g') ->
  same_edges (adj g') a0 /\ _elements g' = _elements g /\ _type g' = _type g
  /\ (forall y, In y order -> In y (_elements g))
  /\ (List.length order
      <= List.length (_elements g) + List.length (targets a0))%nat.
Proof.
  intros S K C. unfold topological_sort in C.
  pose proof (indegrees_same_edges (adj g) (_elements g)) as I.
  destruct (indegrees (adj g) (_elements g)) as [indeg a]. simpl in I.
  match type of C with
  | context [topological_loop ?f ?a ?i ?q ?v ?t] =>
      destruct (topological_loop f a i q v t) as [[o a']|] eqn:L; [|discriminate]
  end.
  inversion C. subst. simpl.
  apply topological_loop_sound with (a0 := a0) (E := _elements g) in L; auto.
  - destruct L as (L1 & L2 & L3). repeat split; auto.
    pose proof (filter_shorter (fun x => indeg x =? 0) (_elements g)).
    pose proof (count_pos_length indeg (targets a0)). simpl in L3. lia.
  - intros x. rewrite I. apply S.
  - intros y. apply filter_within.
  - intros y [].
Qed.

Lemma weighted_topological_sort_total (a0 : list (T * list (T * Z)))
    (fuel : nat) (g : weighted_graph T) :
  same_edges (adj g) a0 ->
  (forall y, In y (targets a0) -> In y (_elements g)) ->
  (List.length (_elements g) + List.length (targets a0) < fuel)%nat ->
  exists order g', topological_sort fuel g = Some (order, g').
Proof.
  intros S K L. unfold topological_sort.
  pose proof (indegrees_same_edges (adj g) (_elements g)) as I.
  destruct (indegrees (adj g) (_elements g)) as [indeg a]. simpl in I.
  destruct (topological_loop_terminates a0 (_elements g) K fuel a indeg
              (filter (fun x => indeg x =? 0) (_elements g))
              (filter (fun x => indeg x =? 0) (_elements g)) [])
    as (order & a' & C & _).
  - intros x. rewrite I. apply S.
  - intros y. apply filter_within.
  - intros y [].
  - pose proof (filter_shorter (fun x => indeg x =? 0) (_elements g)).
    pose proof (count_pos_length indeg (targets a0)). lia.
  - rewrite C. eauto.
Qed.

End WithVertex.
End KahnFacts.

(** ** The relaxation loops of [shortest_path] *)

Lemma pq_extract_spec {A : Type} (lt : A -> A -> bool) (l : list A) :
  forall x m r,
    pq_extract lt x l = (m, r) ->
    In m (x :: l)
    /\ (forall y, In y r -> In y (x :: l))
    /\ List.length r = List.length l.
Proof.
  induction l as [|y l IH]; intros x m r E; simpl in E.
  - inversion E. subst. simpl. intuition.
  - destruct (lt y x).
    + destruct (pq_extract lt y l) as [m' r'] eqn:E'. inversion E. subst.
      apply IH in E'. destruct E' as (I1 & I2 & I3). simpl in *.
      repeat split.
      * tauto.
      * intros z [<-|Iz]; [tauto|]. apply I2 in Iz. tauto.
      * lia.
    + destruct (pq_extract lt x l) as [m' r'] eqn:E'. inversion E. subst.
      apply IH in E'. destruct E' as (I1 & I2 & I3). simpl in *.
      repeat split.
      * tauto.
      * intros z [<-|Iz]; [tauto|]. apply I2 in Iz. tauto.
      * lia.
Qed.

Module RelaxationFacts.
Import WeightedGraph WeightedSpec KahnFacts.
Section WithVertex.
Context {T : Type} `{NumericVertex T}.

Lemma fold_fupd_const (c : Z) (E : list T) :
  forall (d : T -> Z) (v : T),
    fold_left (fun dist x => fupd dist x c) E d v
    = if in_dec vertex_eq_dec v E then c else d v.
Proof.
  induction E as [|x E IH]; intros d v; simpl; [reflexivity|].
  rewrite IH. destruct (in_dec vertex_eq_dec v E) as [I|I].
  - destruct (vertex_eq_dec x v); reflexivity.
  - destruct (vertex_eq_dec x v) as [->|N].
    + now rewrite fupd_same.
    + rewrite fupd_other; congruence.
Qed.

Lemma initial_dist_start (E : list T) (s : T) : initial_dist E s s = 0.
Proof. unfold initial_dist. apply fupd_same. Qed.

Lemma initial_dist_vertex (E : list T) (s v : T) :
  v <> s -> In v E -> initial_dist E s v = dist_unset.
Proof.
  intros N I. unfold initial_dist. rewrite fupd_other by exact N.
  rewrite fold_fupd_const. destruct (in_dec vertex_eq_dec v E); tauto.
Qed.

Lemma initial_dist_values (E : list T) (s v : T) :
  initial_dist E s v = 0 \/ initial_dist E s v = dist_unset.
Proof.
  unfold initial_dist. destruct (vertex_eq_dec v s) as [->|N].
  - left. apply fupd_same.
  - rewrite fupd_other by exact N. rewrite fold_fupd_const.
    destruct (in_dec vertex_eq_dec v E); tauto.
Qed.

Lemma dist_unset_positive : 0 < dist_unset.
Proof. reflexivity. Qed.

Lemma slack_fupd_le (lb dist : T -> Z) (x : T) (new : Z) (E : list T) :
  new <= dist x ->
  (slack lb (fupd dist x new) E <= slack lb dist E)%nat.
Proof.
  intros L. induction E as [|v E IH]; simpl; [lia|].
  unfold fupd at 1. destruct (vertex_eq_dec v x) as [->|N]; lia.
Qed.

(** A relaxation that stays above the lower bound uses up slack. *)
Lemma slack_fupd_lt (lb dist : T -> Z) (x : T) (new : Z) (E : list T) :
  In x E -> lb x <= new -> new < dist x ->
  (slack lb (fupd dist x new) E < slack lb dist E)%nat.
Proof.
  intros I B L. induction E as [|v E IH]; simpl; [destruct I|].
  assert (Le : (slack lb (fupd dist x new) E <= slack lb dist E)%nat)
    by (apply slack_fupd_le; lia).
  destruct I as [->|I].
  - rewrite fupd_same. lia.
  - specialize (IH I). unfold fupd at 1.
    destruct (vertex_eq_dec v x) as [->|N]; lia.
Qed.

Lemma least_weight_le (a : list (T * list (T * Z))) (k : T)
    (l : list (T * Z)) (v : T) (w : Z) :
  In (k, l) a -> In (v, w) l -> least_weight a <= w.
Proof.
  intros I J. unfold least_weight.
  assert (F : In (v, w) (flat_map snd a))
    by (apply in_flat_map; exists (k, l); auto).
  induction (flat_map snd a) as [|e r IH]; [destruct F|].
  simpl. destruct F as [->|F]; [simpl; lia|]. specialize (IH F). lia.
Qed.

Lemma least_weight_non_positive (a : list (T * list (T * Z))) :
  least_weight a <= 0.
Proof.
  unfold least_weight. induction (flat_map snd a) as [|e r IH]; simpl; lia.
Qed.

Lemma weight_order_spec (a : list (T * list (T * Z))) :
  0 <= weight_order a /\ - 2 ^ weight_order a <= least_weight a.
Proof.
  unfold weight_order. pose proof (least_weight_non_positive a) as N.
  pose proof (Z.log2_nonneg (- least_weight a)) as P. split; [lia|].
  destruct (Z.eq_dec (least_weight a) 0) as [E|D].
  - rewrite E. simpl. lia.
  - pose proof (Z.log2_spec (- least_weight a) ltac:(lia)) as [_ Hi].
    replace (Z.succ (Z.log2 (- least_weight a)))
      with (Z.log2 (- least_weight a) + 1) in Hi by lia.
    lia.
Qed.

Lemma dist_floor_negative (a : list (T * list (T * Z))) (v : T) :
  dist_floor a v < 0.
Proof.
  unfold dist_floor. destruct (weight_order_spec a) as [O _].
  pose proof (Z.pow_pos_nonneg 2 (weight_order a + 57) ltac:(lia) ltac:(lia)).
  lia.
Qed.

Section Loops.
Variable g : weighted_graph T.
Variable start : T.
Hypothesis known : neighbours_known g.

(** [dist] differs from its initial value only at vertices reachable from
    [start]. *)
Local Abbreviation untouched dist :=
  (forall v, reachable g start v
             \/ dist v = initial_dist (_elements g) start v).

Lemma untouched_reachable (dist : T -> Z) (v : T) :
  untouched dist -> In v (_elements g) -> dist v <> dist_unset ->
  reachable g start v.
Proof.
  intros U I N. destruct (U v) as [R|E]; [exact R|].
  destruct (vertex_eq_dec v start) as [->|Ns]; [constructor|].
  rewrite initial_dist_vertex in E by assumption. contradiction.
Qed.

Lemma dag_step_untouched (current : T) (l : list (T * Z)) :
  reachable g start current ->
  (forall x, In x l -> In x (um_get [] current (adj g))) ->
  forall dist stack dist' stack',
    untouched dist ->
    (forall y, In y stack -> In y (_elements g)) ->
    fold_left
      (fun '(dist, top_sort) x =>
         if dist (fst x) >? double_add (dist current) (snd x)
         then (fupd dist (fst x) (double_add (dist current) (snd x)),
               fst x :: top_sort)
         else (dist, top_sort))
      l (dist, stack) = (dist', stack') ->
    untouched dist' /\ (forall y, In y stack' -> In y (_elements g)).
Proof.
  intros R. induction l as [|[x w] l IH]; intros I dist stack dist' stack' U S F;
    simpl in F.
  - inversion F. subst. now split.
  - assert (Ix : In (x, w) (um_get [] current (adj g))) by (apply I; now left).
    assert (Il : forall y, In y l -> In y (um_get [] current (adj g)))
      by (intros y Iy; apply I; now right).
    destruct (dist x >? double_add (dist current) w).
    + apply (IH Il) in F; [exact F| |].
      * intros v. destruct (vertex_eq_dec v x) as [->|N].
        -- left. eapply reachable_step; [exact R|exact Ix].
        -- rewrite fupd_other by exact N. apply U.
      * intros y [<-|Iy]; [|now apply S]. eapply known. exact Ix.
    + now apply (IH Il) in F.
Qed.

(** The branch for directed acyclic graphs writes only to reachable
    vertices. *)
Lemma dag_loop_untouched :
  forall (fuel : nat) a stack dist dist' a',
    same_edges a (adj g) ->
    (forall y, In y stack -> In y (_elements g)) ->
    untouched dist ->
    dag_loop fuel a stack dist = Some (dist', a') ->
    untouched dist'.
Proof.
  induction fuel as [|fuel IH]; intros a stack dist dist' a' Sa S U D;
    [discriminate|].
  destruct stack as [|current rest]; simpl in D.
  - inversion D. now subst.
  - destruct (dist current =? dist_unset) eqn:M.
    + eapply IH; [exact Sa| |exact U|exact D]. intros y Iy. apply S. now right.
    + apply Z.eqb_neq in M.
      match type of D with
      | context [fold_left ?f ?l ?i] =>
          destruct (fold_left f l i) as [dist1 stack1] eqn:F
      end.
      apply dag_step_untouched in F.
      * destruct F as [U1 S1].
        eapply IH; [apply same_edges_touch; exact Sa|exact S1|exact U1|exact D].
      * apply untouched_reachable with (dist := dist); auto. apply S. now left.
      * intros x Ix. now rewrite um_get_touch, Sa in Ix.
      * exact U.
      * intros y Iy. apply S. now right.
Qed.

Lemma dijkstra_step_untouched (d : Z) (u : T) (l : list (T * Z)) :
  reachable g start u ->
  (forall x, In x l -> In x (um_get [] u (adj g))) ->
  forall dist (pq : list (Z * T)) dist' pq',
    untouched dist ->
    (forall p, In p pq -> reachable g start (snd p)) ->
    fold_left
      (fun '(dist, pq) edge =>
         if double_add d (snd edge) <? dist (fst edge)
         then (fupd dist (fst edge) (double_add d (snd edge)),
               (double_add d (snd edge), fst edge) :: pq)
         else (dist, pq))
      l (dist, pq) = (dist', pq') ->
    untouched dist' /\ (forall p, In p pq' -> reachable g start (snd p)).
Proof.
  intros R. induction l as [|[x w] l IH]; intros I dist pq dist' pq' U Q F;
    simpl in F.
  - inversion F. subst. now split.
  - assert (Ix : In (x, w) (um_get [] u (adj g))) by (apply I; now left).
    assert (Il : forall y, In y l -> In y (um_get [] u (adj g)))
      by (intros y Iy; apply I; now right).
    assert (Rx : reachable g start x)
      by (eapply reachable_step; [exact R|exact Ix]).
    destruct (double_add d w <? dist x).
    + apply (IH Il) in F; [exact F| |].
      * intros v. destruct (vertex_eq_dec v x) as [->|N].
        -- now left.
        -- rewrite fupd_other by exact N. apply U.
      * intros p [<-|Ip]; [exact Rx|now apply Q].
    + now apply (IH Il) in F.
Qed.

(** Dijkstra's branch writes only to reachable vertices. *)
Lemma dijkstra_loop_untouched :
  forall (fuel : nat) a (pq : list (Z * T)) dist dist' a',
    same_edges a (adj g) ->
    (forall p, In p pq -> reachable g start (snd p)) ->
    untouched dist ->
    dijkstra_loop fuel a pq dist = Some (dist', a') ->
    untouched dist'.
Proof.
  induction fuel as [|fuel IH]; intros a pq dist dist' a' Sa Q U D;
    [discriminate|].
  simpl in D. destruct pq as [|p pq]; simpl in D.
  - inversion D. now subst.
  - destruct (pq_extract dist_vertex_ltb p pq) as [[d u] pq1] eqn:P.
    apply pq_extract_spec in P. destruct P as (P1 & P2 & _).
    match type of D with
    | context [fold_left ?f ?l ?i] =>
        destruct (fold_left f l i) as [dist1 pq2] eqn:F
    end.
    apply dijkstra_step_untouched with (u := u) in F.
    + destruct F as [U1 Q1].
      eapply IH; [apply same_edges_touch; exact Sa|exact Q1|exact U1|exact D].
    + exact (Q _ P1).
    + intros x Ix. now rewrite um_get_touch, Sa in Ix.
    + exact U.
    + intros q Iq. apply Q. now apply P2.
Qed.


(** *** Termination *)

Local Abbreviation lb := (dist_floor (adj g)).

(** Every set distance is at most the sentinel and at least the lower
    bound. *)
#[local, warnings="-inconsistent-scopes"]
Abbreviation bounded dist :=
  (forall v, In v (_elements g) ->
             dist v <= dist_unset /\ (dist v = dist_unset \/ lb v <= dist v)).

(** The lower bound absorbs the weight of every stored edge. *)
Lemma lower_bound_edge (u x : T) (w d : Z) :
  In (x, w) (um_get [] u (adj g)) -> lb u <= d -> lb x <= double_add d w.
Proof.
  intros I L. apply edge_stored in I. destruct I as (l & I & J).
  pose proof (least_weight_le _ _ _ _ _ I J).
  destruct (weight_order_spec (adj g)) as [O1 O2].
  unfold dist_floor in *. apply double_add_floor; lia.
Qed.

Lemma dag_step_slack (current : T) (l : list (T * Z)) :
  (forall x, In x l -> In x (um_get [] current (adj g))) ->
  In current (_elements g) ->
  forall dist stack dist' stack',
    bounded dist ->
    dist current < dist_unset ->
    (forall y, In y stack -> In y (_elements g)) ->
    fold_left
      (fun '(dist, top_sort) x =>
         if dist (fst x) >? double_add (dist current) (snd x)
         then (fupd dist (fst x) (double_add (dist current) (snd x)),
               fst x :: top_sort)
         else (dist, top_sort))
      l (dist, stack) = (dist', stack') ->
    bounded dist'
    /\ (forall y, In y stack' -> In y (_elements g))
    /\ (2 * slack lb dist' (_elements g) + List.length stack'
        <= 2 * slack lb dist (_elements g) + List.length stack)%nat.
Proof.
  intros I Ic. induction l as [|[x w] l IH];
    intros dist stack dist' stack' B C S F; simpl in F.
  - inversion F. subst. repeat split; auto; try apply B; auto.
  - assert (Ix : In (x, w) (um_get [] current (adj g))) by (apply I; now left).
    assert (Il : forall y, In y l -> In y (um_get [] current (adj g)))
      by (intros y Iy; apply I; now right).
    specialize (IH Il).
    assert (Ex : In x (_elements g)) by (eapply known; exact Ix).
    assert (Lc : lb current <= dist current)
      by (destruct (B current Ic) as [_ [E|L]]; lia).
    pose proof (lower_bound_edge _ _ _ _ Ix Lc) as Lx.
    rewrite Z.gtb_ltb in F.
    destruct (Z.ltb_spec (double_add (dist current) w) (dist x)) as [R|R].
    + apply IH in F.
      * destruct F as (B1 & S1 & M1). repeat split; auto; try apply B1; auto.
        pose proof (slack_fupd_lt lb dist x (double_add (dist current) w)
                      (_elements g) Ex Lx R).
        simpl in M1. lia.
      * intros v Iv. unfold fupd. destruct (vertex_eq_dec v x) as [->|N].
        -- destruct (B x Ex). lia.
        -- now apply B.
      * unfold fupd. destruct (vertex_eq_dec current x) as [->|N]; [|exact C].
        destruct (B x Ex). lia.
      * intros y [<-|Iy]; auto.
    + now apply IH in F.
Qed.

(** The branch for directed acyclic graphs ends within the measure. *)
Lemma dag_loop_terminates :
  forall (fuel : nat) a stack dist,
    same_edges a (adj g) ->
    (forall y, In y stack -> In y (_elements g)) ->
    bounded dist ->
    (2 * slack lb dist (_elements g) + List.length stack < fuel)%nat ->
    exists dist' a', dag_loop fuel a stack dist = Some (dist', a').
Proof.
  induction fuel as [|fuel IH]; intros a stack dist Sa S B L; [lia|].
  destruct stack as [|current rest]; simpl.
  - eauto.
  - assert (Ic : In current (_elements g)) by (apply S; now left).
    assert (Sr : forall y, In y rest -> In y (_elements g))
      by (intros y Iy; apply S; now right).
    simpl in L. destruct (dist current =? dist_unset) eqn:M.
    + apply IH; auto. lia.
    + apply Z.eqb_neq in M.
      match goal with
      | |- context [fold_left ?f ?l ?i] =>
          destruct (fold_left f l i) as [dist1 stack1] eqn:F
      end.
      apply dag_step_slack in F; auto.
      * destruct F as (B1 & S1 & M1). apply IH; auto.
        -- now apply same_edges_touch.
        -- lia.
      * intros x Ix. now rewrite um_get_touch, Sa in Ix.
      * destruct (B current Ic). lia.
Qed.

Lemma dijkstra_step_slack (d : Z) (u : T) (l : list (T * Z)) :
  (forall x, In x l -> In x (um_get [] u (adj g))) ->
  lb u <= d ->
  forall dist (pq : list (Z * T)) dist' pq',
    (forall p, In p pq -> lb (snd p) <= fst p) ->
    fold_left
      (fun '(dist, pq) edge =>
         if double_add d (snd edge) <? dist (fst edge)
         then (fupd dist (fst edge) (double_add d (snd edge)),
               (double_add d (snd edge), fst edge) :: pq)
         else (dist, pq))
      l (dist, pq) = (dist', pq') ->
    (forall p, In p pq' -> lb (snd p) <= fst p)
    /\ (2 * slack lb dist' (_elements g) + List.length pq'
        <= 2 * slack lb dist (_elements g) + List.length pq)%nat.
Proof.
  intros I Lu. induction l as [|[x w] l IH];
    intros dist pq dist' pq' Q F; simpl in F.
  - inversion F. subst. split; auto.
  - assert (Ix : In (x, w) (um_get [] u (adj g))) by (apply I; now left).
    assert (Il : forall y, In y l -> In y (um_get [] u (adj g)))
      by (intros y Iy; apply I; now right).
    specialize (IH Il).
    assert (Ex : In x (_elements g)) by (eapply known; exact Ix).
    pose proof (lower_bound_edge _ _ _ _ Ix Lu) as Lx.
    destruct (Z.ltb_spec (double_add d w) (dist x)) as [R|R].
    + apply IH in F.
      * destruct F as (Q1 & M1). split; auto.
        pose proof (slack_fupd_lt lb dist x (double_add d w) (_elements g)
                      Ex Lx R).
        simpl in M1. lia.
      * intros p [<-|Ip]; [exact Lx|now apply Q].
    + now apply IH in F.
Qed.

(** Dijkstra's branch ends within the measure. *)
Lemma dijkstra_loop_terminates :
  forall (fuel : nat) a (pq : list (Z * T)) dist,
    same_edges a (adj g) ->
    (forall p, In p pq -> lb (snd p) <= fst p) ->
    (2 * slack lb dist (_elements g) + List.length pq < fuel)%nat ->
    exists dist' a', dijkstra_loop fuel a pq dist = Some (dist', a').
Proof.
  induction fuel as [|fuel IH]; intros a pq dist Sa Q L; [lia|].
  simpl. destruct pq as [|p pq]; simpl.
  - eauto.
  - destruct (pq_extract dist_vertex_ltb p pq) as [[d u] pq1] eqn:P.
    apply pq_extract_spec in P. destruct P as (P1 & P2 & P3).
    match goal with
    | |- context [fold_left ?f ?l ?i] =>
        destruct (fold_left f l i) as [dist1 pq2] eqn:F
    end.
    apply dijkstra_step_slack with (u := u) in F.
    + destruct F as (Q1 & M1). apply IH; auto.
      * now apply same_edges_touch.
      * simpl in L. lia.
    + intros x Ix. now rewrite um_get_touch, Sa in Ix.
    + exact (Q _ P1).
    + intros q Iq. apply Q. now apply P2.
Qed.

End Loops.

Lemma initial_dist_bounded (g : weighted_graph T) (start : T) :
  forall v, In v (_elements g) ->
    initial_dist (_elements g) start v <= dist_unset
    /\ (initial_dist (_elements g) start v = dist_unset
        \/ dist_floor (adj g) v <= initial_dist (_elements g) start v).
Proof.
  intros v I. pose proof dist_unset_positive.
  destruct (vertex_eq_dec v start) as [->|N].
  - rewrite initial_dist_start. pose proof (dist_floor_negative (adj g) start).
    split; [lia|right; lia].
  - rewrite initial_dist_vertex by assumption. split; [lia|now left].
Qed.

(** An absent endpoint: the answer is the sentinel, for any bound, and the
    graph is not touched. *)
Lemma shortest_path_absent (g : weighted_graph T) (start end_ : T) :
  ~ In start (_elements g) \/ ~ In end_ (_elements g) ->
  forall fuel, shortest_path fuel g start end_ = Some (-1, g).
Proof.
  intros A fuel. unfold shortest_path.
  destruct (set_mem start (_elements g)) eqn:S; [|reflexivity].
  destruct (set_mem end_ (_elements g)) eqn:E; [|reflexivity].
  apply set_mem_true in S, E. tauto.
Qed.

(** An unreachable end: whenever the call returns, it returns the
    sentinel. *)
Lemma shortest_path_unreachable (g : weighted_graph T) (start end_ : T) :
  neighbours_known g ->
  In end_ (_elements g) ->
  ~ reachable g start end_ ->
  forall fuel r g', shortest_path fuel g start end_ = Some (r, g') -> r = -1.
Proof.
  intros K Ie NR fuel r g' P. unfold shortest_path in P.
  destruct (negb (set_mem start (_elements g))); [now inversion P|].
  destruct (negb (set_mem end_ (_elements g))); [now inversion P|].
  destruct (cycle fuel g) as [[b g1]|] eqn:C; [|discriminate].
  apply cycle_same_edges with (a0 := adj g) in C; [|apply same_edges_refl].
  destruct C as (S1 & E1 & _).
  assert (Ns : end_ <> start) by (intros ->; apply NR; constructor).
  assert (R : forall dist : T -> Z,
             (forall v, reachable g start v
                        \/ dist v = initial_dist (_elements g) start v) ->
             dist_result dist end_ = -1).
  { intros dist U. unfold dist_result. destruct (U end_) as [R|E]; [contradiction|].
    rewrite E, initial_dist_vertex by assumption. reflexivity. }
  destruct (negb b && (_type g1 =? "directed")%string).
  - unfold relax_in_topological_order in P.
    destruct (topological_sort fuel g1) as [[order g2]|] eqn:O; [|discriminate].
    apply topological_sort_sound with (a0 := adj g) in O; auto.
    + destruct O as (S2 & E2 & _ & I2 & _). rewrite E2, E1 in P.
      match type of P with
      | context [dag_loop ?f ?a ?s ?d] =>
          destruct (dag_loop f a s d) as [[dist a']|] eqn:D; [|discriminate]
      end.
      inversion P. apply R.
      eapply dag_loop_untouched; [exact K|exact S2| | |exact D]; auto.
      intros y Iy. rewrite <- E1. now apply I2.
    + rewrite E1. now apply targets_known.
  - unfold dijkstra in P. rewrite E1 in P.
    match type of P with
    | context [dijkstra_loop ?f ?a ?s ?d] =>
        destruct (dijkstra_loop f a s d) as [[dist a']|] eqn:D; [|discriminate]
    end.
    inversion P. apply R.
    eapply dijkstra_loop_untouched; [exact S1| | |exact D]; auto.
    intros p [<-|[]]. constructor.
Qed.

(** The call returns on every graph, given a bound above the measures of
    its loops: a distance cannot fall forever, since a [double] far enough
    below 0 is not changed by adding a weight. *)
Lemma shortest_path_total (g : weighted_graph T) (start end_ : T) :
  neighbours_known g ->
  forall fuel,
    (enough_fuel g start <= fuel)%nat ->
    exists r g', shortest_path fuel g start end_ = Some (r, g').
Proof.
  intros K fuel L. unfold enough_fuel in L. unfold shortest_path.
  destruct (negb (set_mem start (_elements g))); [eauto|].
  destruct (negb (set_mem end_ (_elements g))); [eauto|].
  destruct (cycle_total (adj g) fuel g (same_edges_refl _) ltac:(lia))
    as (b & g1 & C).
  rewrite C.
  apply cycle_same_edges with (a0 := adj g) in C; [|apply same_edges_refl].
  destruct C as (S1 & E1 & _).
  destruct (negb b && (_type g1 =? "directed")%string).
  - unfold relax_in_topological_order.
    assert (K1 : forall y, In y (targets (adj g)) -> In y (_elements g1))
      by (rewrite E1; now apply targets_known).
    destruct (weighted_topological_sort_total (adj g) fuel g1 S1 K1 ltac:(rewrite E1; lia))
      as (order & g2 & O).
    rewrite O.
    apply topological_sort_sound with (a0 := adj g) in O; auto.
    destruct O as (S2 & E2 & _ & I2 & L2). rewrite E2, E1. rewrite E1 in I2, L2.
    destruct (dag_loop_terminates g K fuel (adj g2) order
                (initial_dist (_elements g) start) S2 I2
                (initial_dist_bounded g start) ltac:(lia))
      as (dist & a' & D).
    rewrite D. eauto.
  - unfold dijkstra. rewrite E1.
    destruct (dijkstra_loop_terminates g K fuel (adj g1) [(0, start)]
                (initial_dist (_elements g) start) S1)
      as (dist & a' & D).
    + intros p [<-|[]]. simpl. pose proof (dist_floor_negative (adj g) start).
      lia.
    + change (List.length [(0, start)]) with 1%nat. lia.
    + rewrite D. eauto.
Qed.

End WithVertex.
End RelaxationFacts.

(** C5.  On a weighted graph whose neighbours are all known vertices (every
    graph the class can hold): when [start] or [end] is absent,
    [shortest_path(start, end)] returns -1 at once, whatever the bound on
    its loops, and throws nothing; when both are present and [end] cannot be
    reached from [start], every run that returns returns -1, and the run
    does return, for every large enough bound on its loops, whatever the
    weights are. *)
Theorem shortest_path_not_found :
  forall (T : Type) `(NumericVertex T)
         (g : WeightedGraph.weighted_graph T) (start end_ : T),
    WeightedSpec.neighbours_known g ->
    ~ In start (WeightedGraph._elements g)
    \/ ~ In end_ (WeightedGraph._elements g)
    \/ ~ WeightedSpec.reachable g start end_ ->
    (forall fuel r g',
        WeightedGraph.shortest_path fuel g start end_ = Some (r, g') -> r = -1)
    /\ (~ In start (WeightedGraph._elements g)
        \/ ~ In end_ (WeightedGraph._elements g) ->
        forall fuel,
          WeightedGraph.shortest_path fuel g start end_ = Some (-1, g))
    /\ (exists fuel0, forall fuel, (fuel0 <= fuel)%nat ->
          exists g',
            WeightedGraph.shortest_path fuel g start end_ = Some (-1, g')).
Proof.
  intros T VT NT g start end_ K A.
  assert (P : forall fuel r g',
             WeightedGraph.shortest_path fuel g start end_ = Some (r, g') ->
             r = -1).
  { intros fuel r g' S.
    destruct (in_dec vertex_eq_dec start (WeightedGraph._elements g)) as [Is|Is].
    - destruct (in_dec vertex_eq_dec end_ (WeightedGraph._elements g)) as [Ie|Ie].
      + destruct A as [A|[A|A]]; try contradiction.
        eapply RelaxationFacts.shortest_path_unreachable; eauto.
      + rewrite RelaxationFacts.shortest_path_absent in S by tauto.
        now inversion S.
    - rewrite RelaxationFacts.shortest_path_absent in S by tauto.
      now inversion S. }
  split; [exact P|]. split.
  - apply RelaxationFacts.shortest_path_absent.
  - exists (WeightedSpec.enough_fuel g start).
    intros fuel L.
    destruct (RelaxationFacts.shortest_path_total g start end_ K fuel L)
      as (r & g' & S).
    exists g'. rewrite S. f_equal. f_equal. eapply P. exact S.
Qed.

Lemma shortest_path_not_found_witness :
  WeightedSpec.neighbours_known Scenario.negative_edge_apart
  /\ ~ WeightedSpec.reachable Scenario.negative_edge_apart Scenario.A Scenario.C
  /\ (exists fuel0, forall fuel, (fuel0 <= fuel)%nat ->
        exists g',
          WeightedGraph.shortest_path fuel Scenario.negative_edge_apart
            Scenario.A Scenario.C
          = Some (-1, g')).
Proof.
  assert (K : WeightedSpec.neighbours_known Scenario.negative_edge_apart)
    by apply ctor_neighbours_known.
  assert (R : ~ WeightedSpec.reachable Scenario.negative_edge_apart
                  Scenario.A Scenario.C).
  { assert (O : forall v,
               WeightedSpec.reachable Scenario.negative_edge_apart Scenario.A v ->
               v = Scenario.A \/ v = Scenario.B).
    { intros v P. induction P as [|v x w P IH E]; [now left|].
      destruct IH as [->| ->]; vm_compute in E;
        destruct E as [E|[]]; inversion E; auto. }
    intros P. apply O in P. destruct P; discriminate. }
  split; [exact K|]. split; [exact R|].
  apply (proj2 (proj2 (shortest_path_not_found Z Z_NumericVertex
                         Scenario.negative_edge_apart Scenario.A Scenario.C K
                         (or_intror (or_intror R))))).
Defined.

(** ** What [bellman_ford] initialises *)

Module BellmanFordFacts.
Import WeightedGraph WeightedSpec.
Section WithVertex.
Context {T : Type} `{Vertex T}.

Lemma dval_le_refl (d : dval) : dval_le d d.
Proof. unfold dval_le. destruct d; simpl; auto. apply Z.ltb_irrefl. Qed.

Lemma dval_le_neg_inf (d : dval) : dval_le NegInf d.
Proof. unfold dval_le. now destruct d. Qed.

Lemma dval_lt_le_trans (c x y : dval) :
  dval_ltb c x = true -> dval_le x y -> dval_le c y.
Proof.
  unfold dval_le. destruct c, x, y; simpl; try congruence.
  rewrite Z.ltb_lt, !Z.ltb_ge. lia.
Qed.

(** [dist[v]] is missing or at most the default 0. *)
Local Abbreviation at_most_default dist v :=
  (match dist v with
   | None => True
   | Some d => dval_le d (Fin 0)
   end).

Lemma dist_get_at_most (dist : T -> option dval) (v : T) :
  at_most_default dist v -> dval_le (dist_get dist v) (Fin 0).
Proof. unfold dist_get. destruct (dist v); [auto|intros _; reflexivity]. Qed.

Lemma dist_touch_at_most (dist : T -> option dval) (k v : T) :
  at_most_default dist v -> at_most_default (dist_touch dist k) v.
Proof.
  intros A. unfold dist_touch, fupd. destruct (vertex_eq_dec v k) as [->|N].
  - now apply dist_get_at_most.
  - exact A.
Qed.

(** A relaxation keeps an entry at or below the default, as long as the
    value written is at most the candidate. *)
Lemma relax_at_most (improved : dval -> dval) (j v : T)
    (dist : T -> option dval) (edge : T * Z) :
  (forall c, dval_le (improved c) c) ->
  at_most_default dist v -> at_most_default (relax improved j dist edge) v.
Proof.
  intros L A. unfold relax.
  set (dist1 := dist_touch (dist_touch dist j) (fst edge)).
  assert (A1 : at_most_default dist1 v)
    by (unfold dist1; now repeat apply dist_touch_at_most).
  destruct (dval_ltb (dval_add (dist_get dist1 j) (snd edge))
              (dist_get dist1 (fst edge))) eqn:R; [|exact A1].
  unfold fupd. destruct (vertex_eq_dec v (fst edge)) as [->|N]; [|exact A1].
  apply dist_get_at_most in A1.
  unfold dval_le in *.
  pose proof (L (dval_add (dist_get dist1 j) (snd edge))) as Li.
  pose proof (dval_lt_le_trans _ _ _ R A1) as Lc. unfold dval_le in *.
  destruct (improved (dval_add (dist_get dist1 j) (snd edge))),
    (dval_add (dist_get dist1 j) (snd edge)); simpl in *; try congruence.
  rewrite Z.ltb_ge in *. lia.
Qed.

Lemma relax_all_at_most (improved : dval -> dval) (v : T)
    (a : list (T * list (T * Z))) :
  (forall c, dval_le (improved c) c) ->
  forall dist, at_most_default dist v ->
               at_most_default (relax_all improved a dist) v.
Proof.
  intros L. unfold relax_all. generalize a at 1.
  induction a as [|j a' IH]; intros a0 dist A; simpl; [exact A|].
  apply IH. clear IH. revert dist A.
  induction (um_get [] (fst j) a0) as [|e l IHl]; intros dist A; simpl; [exact A|].
  apply IHl. now apply relax_at_most.
Qed.

Lemma rounds_at_most (improved : dval -> dval) (v : T)
    (a : list (T * list (T * Z))) (n : nat) :
  (forall c, dval_le (improved c) c) ->
  forall dist, at_most_default dist v ->
               at_most_default (rounds n improved a dist) v.
Proof.
  intros L. induction n as [|n IH]; intros dist A; simpl; [exact A|].
  apply IH. now apply relax_all_at_most.
Qed.

Lemma init_fold (a : list (T * list (T * Z))) :
  forall (dist : T -> option dval) (v : T),
    fold_left (fun dist it => fupd dist (fst it) (Some PosInf)) a dist v
    = if in_dec vertex_eq_dec v (um_keys a) then Some PosInf else dist v.
Proof.
  induction a as [|[k l] a IH]; intros dist v; simpl; [reflexivity|].
  rewrite IH. destruct (in_dec vertex_eq_dec v (um_keys a)) as [I|I].
  - destruct (vertex_eq_dec k v); reflexivity.
  - destruct (vertex_eq_dec k v) as [->|N].
    + now rewrite fupd_same.
    + rewrite fupd_other; congruence.
Qed.

(** The initialisation writes to the start and to the keys of [adj], and to
    nothing else. *)
Lemma bellman_ford_init_spec (a : list (T * list (T * Z))) (start v : T) :
  bellman_ford_init a start v
  = if vertex_eq_dec v start then Some (Fin 0)
    else if in_dec vertex_eq_dec v (um_keys a) then Some PosInf else None.
Proof.
  unfold bellman_ford_init, fupd. destruct (vertex_eq_dec v start); [reflexivity|].
  apply init_fold.
Qed.

(** In a map without empty entries the keys are the vertices with an
    outgoing edge. *)
Lemma keys_have_outgoing (g : weighted_graph T) (v : T) :
  no_empty_entry g -> (In v (um_keys (adj g)) <-> has_outgoing g v).
Proof.
  intros E. unfold has_outgoing, um_get. split.
  - intros I. destruct (um_find v (adj g)) as [l|] eqn:F.
    + apply um_find_in in F. eapply E. exact F.
    + apply um_find_keys in F. contradiction.
  - intros O. destruct (um_find v (adj g)) as [l|] eqn:F; [|congruence].
    apply um_find_in in F. unfold um_keys. now apply (in_map fst) in F.
Qed.

Lemma add_edge_no_empty_entry (g : weighted_graph T) (u v : T) (w : Z) :
  no_empty_entry g -> no_empty_entry (add_edge g u v w).
Proof.
  intros E.
  assert (P : forall (a : list (T * list (T * Z))) (x y : T) (c : Z),
             (forall k l, In (k, l) a -> l <> []) ->
             forall k l, In (k, l) (um_modify [] x (fun l => l ++ [(y, c)]) a) ->
                         l <> []).
  { intros a x y c Ea k l I. apply um_modify_in in I. destruct I as [I|[_ ->]].
    - eapply Ea. exact I.
    - intros Z. now apply app_eq_nil in Z. }
  unfold no_empty_entry, add_edge. simpl.
  destruct (_type g =? "undirected")%string.
  - apply P. now apply P.
  - destruct (_type g =? "directed")%string; [now apply P|exact E].
Qed.

(** A constructed graph has no empty entry. *)
Lemma ctor_no_empty_entry (mode : string) (adj_ : list ((T * T) * Z)) :
  no_empty_entry (object (weighted_graph_ctor mode adj_)).
Proof.
  unfold weighted_graph_ctor, ctor_try.
  destruct ((mode =? "directed") || (mode =? "undirected"))%string; simpl.
  - match goal with
    | |- no_empty_entry (fold_left ?f adj_ ?g0) =>
        assert (E0 : no_empty_entry g0) by (intros k l []);
        revert E0; generalize g0
    end.
    induction adj_ as [|e adj_ IH]; intros g0 E0; simpl; [exact E0|].
    apply IH. now apply add_edge_no_empty_entry.
  - intros k l [].
Qed.

End WithVertex.
End BellmanFordFacts.

(** C10, as the code has it.  In a weighted graph whose adjacency map has
    no empty entry (any graph built by [add_edge] alone), [bellman_ford]
    initialises a distance (0 for the start, infinity otherwise) only for
    the start and for the vertices with an outgoing edge; a vertex other
    than the start without outgoing edge is missing from the returned map
    or is reported with a distance of at most the default 0, never with a
    positive one.  On the directed graph A -> B (5), B -> C (5),
    [bellman_ford(A)] reports 0 for C (and 5 for B), in every iteration
    order. *)
Theorem bellman_ford_destination_only :
  (forall (T : Type) `(Vertex T)
          (g : WeightedGraph.weighted_graph T) (start v : T),
      WeightedSpec.no_empty_entry g ->
      (forall d,
          WeightedGraph.bellman_ford_init (WeightedGraph.adj g) start v = Some d ->
          (v = start /\ d = Fin 0)
          \/ (WeightedSpec.has_outgoing g v /\ d = PosInf))
      /\ (v <> start -> ~ WeightedSpec.has_outgoing g v ->
          WeightedGraph.bellman_ford g start v = None
          \/ exists d, WeightedGraph.bellman_ford g start v = Some d
                       /\ WeightedSpec.dval_le d (Fin 0)))
  /\ (forall g, WeightedSpec.same_graph Scenario.chain g ->
        WeightedGraph.bellman_ford g Scenario.A Scenario.B = Some (Fin 5)
        /\ WeightedGraph.bellman_ford g Scenario.A Scenario.C = Some (Fin 0)).
Proof.
  split.
  - intros T VT g start v E. split.
    + intros d I. rewrite BellmanFordFacts.bellman_ford_init_spec in I.
      destruct (vertex_eq_dec v start) as [->|N].
      * left. split; congruence.
      * destruct (in_dec vertex_eq_dec v (um_keys (WeightedGraph.adj g))) as [K|K];
          [|discriminate].
        right. split; [|congruence].
        now apply BellmanFordFacts.keys_have_outgoing.
    + intros N O.
      assert (A : match WeightedGraph.bellman_ford g start v with
                  | None => True
                  | Some d => WeightedSpec.dval_le d (Fin 0)
                  end).
      { unfold WeightedGraph.bellman_ford.
        apply BellmanFordFacts.rounds_at_most;
          [intros c; apply BellmanFordFacts.dval_le_neg_inf|].
        apply BellmanFordFacts.rounds_at_most;
          [intros c; apply BellmanFordFacts.dval_le_refl|].
        rewrite BellmanFordFacts.bellman_ford_init_spec.
        destruct (vertex_eq_dec v start); [contradiction|].
        destruct (in_dec vertex_eq_dec v (um_keys (WeightedGraph.adj g))) as [K|K];
          [|exact I].
        apply BellmanFordFacts.keys_have_outgoing in K; [contradiction|exact E]. }
      destruct (WeightedGraph.bellman_ford g start v) as [d|]; [right|now left].
      now exists d.
  - apply WeightedFacts.weighted_every_order. list_orders.
    each_order ltac:(vm_compute; split; reflexivity).
Qed.

Lemma bellman_ford_destination_only_witness :
  WeightedSpec.no_empty_entry Scenario.chain
  /\ Scenario.C <> Scenario.A
  /\ ~ WeightedSpec.has_outgoing Scenario.chain Scenario.C
  /\ (WeightedGraph.bellman_ford Scenario.chain Scenario.A Scenario.C = None
      \/ exists d,
           WeightedGraph.bellman_ford Scenario.chain Scenario.A Scenario.C = Some d
           /\ WeightedSpec.dval_le d (Fin 0)).
Proof.
  assert (E : WeightedSpec.no_empty_entry Scenario.chain)
    by apply BellmanFordFacts.ctor_no_empty_entry.
  assert (N : Scenario.C <> Scenario.A) by discriminate.
  assert (O : ~ WeightedSpec.has_outgoing Scenario.chain Scenario.C)
    by (intros O; apply O; reflexivity).
  repeat split; auto.
  exact (proj2 (proj1 bellman_ford_destination_only Z Z_Vertex Scenario.chain
                  Scenario.A Scenario.C E) N O).
Defined.

(** The claim of C10 as stated fails: on the directed graph A -> B (-5),
    C -> A (1), built by [add_edge] alone, B has no outgoing edge and
    [bellman_ford(A)] reports -5 for it: B is neither missing nor at the
    default 0. *)
Lemma bellman_ford_lowers_destination :
  WeightedSpec.no_empty_entry Scenario.negative_chain
  /\ ~ WeightedSpec.has_outgoing Scenario.negative_chain Scenario.B
  /\ WeightedGraph.bellman_ford Scenario.negative_chain Scenario.A Scenario.B
     = Some (Fin (-5))
  /\ ~ (WeightedGraph.bellman_ford Scenario.negative_chain Scenario.A Scenario.B
        = None
        \/ WeightedGraph.bellman_ford Scenario.negative_chain Scenario.A Scenario.B
           = Some (Fin 0)).
Proof.
  split; [apply BellmanFordFacts.ctor_no_empty_entry|].
  split; [intros O; apply O; reflexivity|].
  split; [reflexivity|].
  vm_compute. intros [E|E]; discriminate.
Qed.

(** The same holds in every iteration order. *)
Lemma negative_chain_in_any_order :
  forall g, WeightedSpec.same_graph Scenario.negative_chain g ->
    WeightedGraph.bellman_ford g Scenario.A Scenario.B = Some (Fin (-5)).
Proof.
  apply WeightedFacts.weighted_every_order. list_orders.
  each_order ltac:(vm_compute; reflexivity).
Qed.

(** A query that evaluates [adj[C]] leaves C as a key with no edge: after
    [has_edge(C, A)] on the graph A -> B (5), B -> C (5), [bellman_ford(A)]
    initialises C to infinity and reports the distance 10 for it. *)
Lemma bellman_ford_after_has_edge :
  let g := snd (WeightedGraph.has_edge Scenario.chain Scenario.C Scenario.A) in
  ~ WeightedSpec.has_outgoing g Scenario.C
  /\ WeightedGraph.bellman_ford_init (WeightedGraph.adj g) Scenario.A Scenario.C
     = Some PosInf
  /\ WeightedGraph.bellman_ford g Scenario.A Scenario.C = Some (Fin 10).
Proof.
  split; [intros O; apply O; reflexivity|]. split; reflexivity.
Qed.

(** ** [bellman_ford] and a negative edge *)

(** C6.  On the undirected graph with the single edge A-B of weight -5,
    stored as A -> B and B -> A, [bellman_ford(A)] maps B to negative
    infinity; in every iteration order. *)
Theorem bellman_ford_negative_edge :
  forall g, WeightedSpec.same_graph Scenario.negative_edge g ->
    WeightedGraph.bellman_ford g Scenario.A Scenario.B = Some NegInf.
Proof.
  apply WeightedFacts.weighted_every_order. list_orders.
  each_order ltac:(vm_compute; reflexivity).
Qed.

Lemma bellman_ford_negative_edge_witness :
  WeightedGraph.bellman_ford Scenario.negative_edge Scenario.A Scenario.B
  = Some NegInf.
Proof.
  apply (bellman_ford_negative_edge Scenario.negative_edge).
  apply WeightedFacts.weighted_same_refl.
Defined.

(** * Further properties of the two classes *)

(** ** [cycle] on every graph *)

Module CycleFacts.
Import Graph GraphSpec.
Section WithVertex.
Context {T : Type} `{Vertex T}.

Lemma graph_cycle_step_measure (U : list T) (l : list T) :
  forall (indeg : T -> Z) (q : list T) indeg' q',
    (forall x, In x l -> In x U) ->
    fold_left
      (fun '(indeg, q) x =>
         let d := indeg x - 1 in
         (fupd indeg x d, if d =? 0 then q ++ [x] else q))
      l (indeg, q) = (indeg', q') ->
    (List.length q' + count_pos indeg' U <= List.length q + count_pos indeg U)%nat.
Proof.
  induction l as [|x l IH]; intros indeg q indeg' q' I F; simpl in F.
  - inversion F. subst. lia.
  - apply IH in F; [|intros y Iy; apply I; now right].
    assert (M : forall v, 0 < fupd indeg x (indeg x - 1) v -> 0 < indeg v).
    { intros v. unfold fupd. destruct (vertex_eq_dec v x); [subst|]; lia. }
    destruct (indeg x - 1 =? 0) eqn:D.
    + apply Z.eqb_eq in D.
      assert (L : (count_pos (fupd indeg x (indeg x - 1)%Z) U
                   < count_pos indeg U)%nat).
      { apply count_pos_lt with (x := x); auto.
        - apply I. now left.
        - lia.
        - rewrite fupd_same. lia. }
      rewrite length_app in F. simpl in F. lia.
    + pose proof (count_pos_le indeg _ U M). lia.
Qed.

(** The loop of [cycle] has no visited set, yet it ends on every graph:
    a counter reaches zero at most once. *)
Lemma graph_cycle_loop_terminates (a0 : list (T * list T)) :
  forall (fuel : nat) a indeg q visited,
    same_edges a a0 ->
    (List.length q + count_pos indeg (targets a0) < fuel)%nat ->
    exists n a', cycle_loop fuel a indeg q visited = Some (n, a')
                 /\ same_edges a' a0.
Proof.
  induction fuel as [|fuel IH]; intros a indeg q visited S L; [lia|].
  destruct q as [|current q]; simpl.
  - eauto.
  - match goal with
    | |- context [fold_left ?f ?l ?i] =>
        destruct (fold_left f l i) as [indeg' q'] eqn:F
    end.
    apply graph_cycle_step_measure with (U := targets a0) in F.
    + apply IH; [now apply TopologicalFacts.graph_same_edges_touch|].
      simpl in L. lia.
    + intros x I. rewrite um_get_touch, S in I.
      now apply TopologicalFacts.graph_um_get_targets in I.
Qed.

Lemma graph_cycle_total (fuel : nat) (g : graph T) :
  (List.length (_elements g) + List.length (targets (adj g)) < fuel)%nat ->
  exists b g', cycle fuel g = Some (b, g')
               /\ _elements g' = _elements g
               /\ _type g' = _type g
               /\ same_edges (adj g') (adj g).
Proof.
  intros L. unfold cycle, kahn_removed.
  destruct (TopologicalFacts.indegrees_spec (adj g) (_elements g)) as [S _].
  destruct (indegrees (adj g) (_elements g)) as [indeg a]. simpl in S.
  destruct (graph_cycle_loop_terminates (adj g) fuel a indeg
              (filter (fun x => indeg x =? 0) (_elements g)) 0%nat S)
    as (n & a' & C & S').
  - pose proof (filter_shorter (fun x => indeg x =? 0) (_elements g)).
    pose proof (count_pos_length indeg (targets (adj g))). lia.
  - rewrite C. eexists. eexists. split; [reflexivity|]. simpl. auto.
Qed.
End WithVertex.
End CycleFacts.

(** X1.  [graph<T>::cycle()] returns on every graph, cyclic or not, once the
    bound on its loop exceeds the number of vertices plus the number of
    stored edges; it leaves the vertex set, the mode and every adjacency
    list as they were, and its answer is [true] exactly when no vertex has
    in-degree zero. *)
Theorem cycle_returns_and_tests_sources :
  forall (T : Type) `(Vertex T) (g : Graph.graph T) (fuel : nat),
    (List.length (Graph._elements g)
     + List.length (GraphSpec.targets (Graph.adj g)) < fuel)%nat ->
    exists b g',
      Graph.cycle fuel g = Some (b, g')
      /\ Graph._elements g' = Graph._elements g
      /\ Graph._type g' = Graph._type g
      /\ GraphSpec.same_edges (Graph.adj g') (Graph.adj g)
      /\ (b = true <->
          forall x, In x (Graph._elements g) ->
                    GraphSpec.in_edges (Graph.adj g) (Graph._elements g) x <> 0).
Proof.
  intros T VT g fuel L.
  destruct (CycleFacts.graph_cycle_total fuel g L) as (b & g' & C & E & Ty & S).
  exists b, g'. repeat split; auto.
  - now apply (TopologicalFacts.cycle_answer fuel g g' b C).
  - now apply (TopologicalFacts.cycle_answer fuel g g' b C).
Qed.

Lemma cycle_returns_and_tests_sources_witness :
  exists b g',
    Graph.cycle 10 Scenario.tail_into_cycle = Some (b, g')
    /\ Graph._elements g' = Graph._elements Scenario.tail_into_cycle
    /\ Graph._type g' = Graph._type Scenario.tail_into_cycle
    /\ GraphSpec.same_edges (Graph.adj g') (Graph.adj Scenario.tail_into_cycle)
    /\ (b = true <->
        forall x, In x (Graph._elements Scenario.tail_into_cycle) ->
                  GraphSpec.in_edges (Graph.adj Scenario.tail_into_cycle)
                    (Graph._elements Scenario.tail_into_cycle) x <> 0).
Proof.
  apply (cycle_returns_and_tests_sources Z Z_Vertex Scenario.tail_into_cycle 10).
  vm_compute. lia.
Defined.

(** X2.  Kahn's algorithm as [graph<T>::topological_sort()] runs it: on a
    graph whose vertex set has no repetition and covers the adjacency map,
    the call returns for every large enough bound, and whenever the output
    has as many vertices as the graph, every stored edge (u,v) has u before
    v in it. *)
Theorem topological_sort_orders_every_edge :
  forall (T : Type) `(Vertex T) (g : Graph.graph T),
    NoDup (Graph._elements g) ->
    GraphSpec.vertices_cover_adjacency g ->
    exists fuel0, forall fuel, (fuel0 <= fuel)%nat ->
      exists order g',
        Graph.topological_sort fuel g = Some (order, g')
        /\ (List.length order = Graph.size g ->
            forall u v, GraphSpec.edge g u v -> precedes u v order).
Proof.
  intros T VT g D C. now apply TopologicalFacts.topological_sort_of_acyclic.
Qed.

Lemma topological_sort_orders_every_edge_witness :
  let g := object (Graph.graph_ctor (T:=Z) "directed"
                     [(1, [2; 3]); (2, [4]); (3, [4])]) in
  exists fuel0, forall fuel, (fuel0 <= fuel)%nat ->
    exists order g',
      Graph.topological_sort fuel g = Some (order, g')
      /\ (List.length order = Graph.size g ->
          forall u v, GraphSpec.edge g u v -> precedes u v order).
Proof.
  intros g.
  apply (topological_sort_orders_every_edge Z Z_Vertex g).
  - apply TopologicalFacts.ctor_elements_nodup.
  - apply InvariantFacts.ctor_covered.
Defined.

(** X3.  Whenever [graph<T>::topological_sort()] returns, on such a graph,
    its output has no repeated vertex, consists of vertices of the graph,
    and every stored edge that ends at an output vertex starts at an
    earlier output vertex; this holds on cyclic graphs too, where the
    output is partial. *)
Theorem topological_sort_output_is_consistent :
  forall (T : Type) `(Vertex T) (g g' : Graph.graph T) (fuel : nat)
         (order : list T),
    NoDup (Graph._elements g) ->
    GraphSpec.vertices_cover_adjacency g ->
    Graph.topological_sort fuel g = Some (order, g') ->
    NoDup order
    /\ (forall y, In y order -> In y (Graph._elements g))
    /\ (forall u v, GraphSpec.edge g u v -> In v order -> precedes u v order).
Proof.
  intros T VT g g' fuel order D [Ck Cv] R.
  assert (K : forall u x, GraphSpec.edge g u x -> In x (Graph._elements g)).
  { intros u x I. unfold GraphSpec.edge in I.
    destruct (um_get_in [] u (Graph.adj g)) as [N|J].
    - rewrite N in I. destruct I.
    - eapply Cv; eauto. }
  destruct (TopologicalFacts.topological_sort_order fuel g g' order D K R)
    as (O1 & O2 & O3).
  repeat split; auto.
  intros u v Euv Iv. apply O3; auto.
  unfold GraphSpec.edge in Euv.
  destruct (um_get_in [] u (Graph.adj g)) as [N|J].
  - rewrite N in Euv. destruct Euv.
  - apply Ck. unfold um_keys. now apply (in_map fst) in J.
Qed.

Lemma topological_sort_output_is_consistent_witness :
  exists order g',
    Graph.topological_sort 10 Scenario.tail_into_cycle = Some (order, g')
    /\ NoDup order
    /\ (forall y, In y order -> In y (Graph._elements Scenario.tail_into_cycle))
    /\ (forall u v, GraphSpec.edge Scenario.tail_into_cycle u v -> In v order ->
                    precedes u v order).
Proof.
  eexists. eexists. split; [vm_compute; reflexivity|].
  eapply (topological_sort_output_is_consistent Z Z_Vertex
            Scenario.tail_into_cycle _ 10 [1]).
  - apply TopologicalFacts.ctor_elements_nodup.
  - apply InvariantFacts.ctor_covered.
  - vm_compute. reflexivity.
Defined.

(** ** The invariant under the public operations *)

(** X4.  The data-model invariant survives every sequence of [add_edge],
    [has_edge], [clear], [dfs] and [bfs]: if the vertex set covers the keys
    and the neighbours of the adjacency map before, it does after, in
    spite of the entries that [operator[]] adds during the queries. *)
Theorem invariant_kept_by_operations :
  forall (T : Type) `(Vertex T) (fuel : nat)
         (ops : list (GraphSpec.operation (T:=T))) (g g' : Graph.graph T),
    GraphSpec.vertices_cover_adjacency g ->
    GraphSpec.run_all fuel g ops = Some g' ->
    GraphSpec.vertices_cover_adjacency g'.
Proof.
  intros T VT fuel ops g g'. apply InvariantFacts.run_all_covered.
Qed.

Lemma invariant_kept_by_operations_witness :
  exists g',
    GraphSpec.run_all 10 Scenario.one_edge
      [GraphSpec.op_add_edge 2 3; GraphSpec.op_dfs 1; GraphSpec.op_has_edge 3 1;
       GraphSpec.op_bfs 3; GraphSpec.op_clear; GraphSpec.op_add_edge 5 5]
    = Some g'
    /\ GraphSpec.vertices_cover_adjacency g'.
Proof.
  eexists. split; [vm_compute; reflexivity|].
  apply (invariant_kept_by_operations Z Z_Vertex 10
           [GraphSpec.op_add_edge 2 3; GraphSpec.op_dfs 1;
            GraphSpec.op_has_edge 3 1; GraphSpec.op_bfs 3; GraphSpec.op_clear;
            GraphSpec.op_add_edge 5 5] Scenario.one_edge).
  - apply InvariantFacts.ctor_covered.
  - vm_compute. reflexivity.
Defined.

(** X5.  [graph<T>::bridge(start)] called with a vertex of the graph keeps
    the invariant: the recursion only evaluates [adj[x]] for vertices. *)
Theorem bridge_from_vertex_keeps_invariant :
  forall (T : Type) `(NumericVertex T) (fuel : nat) (g g' : Graph.graph T)
         (start : T) (bridges : list (list T)),
    GraphSpec.vertices_cover_adjacency g ->
    In start (Graph._elements g) ->
    Graph.bridge fuel g start = Some (bridges, g') ->
    GraphSpec.vertices_cover_adjacency g'.
Proof.
  intros T VT NT fuel g g' start bridges.
  apply InvariantFacts.bridge_known_start.
Qed.

Lemma bridge_from_vertex_keeps_invariant_witness :
  exists bridges g',
    Graph.bridge 5 Scenario.one_edge 1 = Some (bridges, g')
    /\ GraphSpec.vertices_cover_adjacency g'.
Proof.
  eexists. eexists. split; [vm_compute; reflexivity|].
  apply (bridge_from_vertex_keeps_invariant Z Z_NumericVertex 5
           Scenario.one_edge _ 1 [[2; 1]]).
  - apply InvariantFacts.ctor_covered.
  - vm_compute. tauto.
  - vm_compute. reflexivity.
Defined.

(** ** Vertices and edges after construction and [add_edge] *)

Module EdgeFacts.
Import Graph GraphSpec.
Section WithVertex.
Context {T : Type} `{Vertex T}.

Lemma add_edge_elements (g : graph T) (u v x : T) :
  In x (_elements (add_edge g u v)) <-> x = u \/ x = v \/ In x (_elements g).
Proof. unfold add_edge. simpl. rewrite !set_insert_in. tauto. Qed.

Lemma replay_neighbours_elements (u : T) (l : list T) :
  forall (g0 : graph T) (x : T),
    In x (_elements (fold_left (fun g neigh => add_edge g u neigh) l g0))
    <-> In x (_elements g0) \/ exists v, In v l /\ (x = u \/ x = v).
Proof.
  induction l as [|n l IH]; intros g0 x; simpl.
  - split; [tauto|]. intros [I|(v & [] & _)]. exact I.
  - rewrite IH, add_edge_elements. split.
    + intros [[->|[->|I]]|(v & I & E)]; eauto 6.
    + intros [I|(v & [<-|I] & E)]; [tauto|tauto|]. right. eauto.
Qed.

Lemma replay_elements (adj_ : list (T * list T)) :
  forall (g0 : graph T) (x : T),
    In x (_elements
            (fold_left
               (fun g entry =>
                  fold_left (fun g neigh => add_edge g (fst entry) neigh)
                    (snd entry) g)
               adj_ g0))
    <-> In x (_elements g0)
        \/ exists u l v, In (u, l) adj_ /\ In v l /\ (x = u \/ x = v).
Proof.
  induction adj_ as [|[u l] adj_ IH]; intros g0 x; simpl.
  - split; [tauto|]. intros [I|(u & l & v & [] & _)]. exact I.
  - rewrite IH, replay_neighbours_elements. split.
    + intros [[I|(v & I & E)]|(u' & l' & v & I & J & E)].
      * now left.
      * right. exists u, l, v. auto.
      * right. exists u', l', v. auto.
    + intros [I|(u' & l' & v & [I|I] & J & E)].
      * tauto.
      * inversion I. subst. left. right. eauto.
      * right. eauto 6.
Qed.

(** What [adj[x]] reads after [add_edge(u, v)]. *)
Lemma add_edge_reads (g : graph T) (u v x y : T) :
  In y (um_get [] x (adj (add_edge g u v)))
  <-> In y (um_get [] x (adj g))
      \/ (x = u /\ y = v)
      \/ (_type g = "undirected"%string /\ x = v /\ y = u).
Proof.
  unfold add_edge. simpl.
  destruct (_type g =? "undirected")%string eqn:M.
  - apply String.eqb_eq in M. rewrite !um_get_modify.
    destruct (vertex_eq_dec x v) as [->|Nv], (vertex_eq_dec v u) as [->|Nu];
      try destruct (vertex_eq_dec x u) as [->|Nx];
      rewrite ?in_app_iff; simpl; intuition congruence.
  - apply String.eqb_neq in M. rewrite um_get_modify.
    destruct (vertex_eq_dec x u) as [->|Nx];
      rewrite ?in_app_iff; simpl; intuition congruence.
Qed.

(** [has_edge] answers [true] exactly for a known start with the end in
    its adjacency list. *)
Lemma has_edge_true (g : graph T) (x y : T) :
  fst (has_edge g x y) = true
  <-> In x (_elements g) /\ In y (um_get [] x (adj g)).
Proof.
  unfold has_edge. destruct (set_mem x (_elements g)) eqn:M; simpl.
  - apply set_mem_true in M. rewrite um_get_touch, existsb_exists. split.
    + intros (z & I & E). destruct (vertex_eq_dec z y); [subst|discriminate].
      tauto.
    + intros [_ I]. exists y. split; [exact I|].
      destruct (vertex_eq_dec y y); congruence.
  - apply set_mem_false in M. split; [discriminate|tauto].
Qed.
End WithVertex.
End EdgeFacts.

Module WeightedEdgeFacts.
Import WeightedGraph WeightedSpec.
Section WithVertex.
Context {T : Type} `{Vertex T}.

Lemma weighted_add_edge_elements (g : weighted_graph T) (u v x : T) (w : Z) :
  In x (_elements (add_edge g u v w)) <-> x = u \/ x = v \/ In x (_elements g).
Proof. unfold add_edge. simpl. rewrite !set_insert_in. tauto. Qed.

Lemma weighted_replay_elements (adj_ : list ((T * T) * Z)) :
  forall (g0 : weighted_graph T) (x : T),
    In x (_elements
            (fold_left
               (fun g e => add_edge g (fst (fst e)) (snd (fst e)) (snd e))
               adj_ g0))
    <-> In x (_elements g0)
        \/ exists u v w, In ((u, v), w) adj_ /\ (x = u \/ x = v).
Proof.
  induction adj_ as [|[[u v] w] adj_ IH]; intros g0 x; simpl.
  - split; [tauto|]. intros [I|(u & v & w & [] & _)]. exact I.
  - rewrite IH, weighted_add_edge_elements. split.
    + intros [[->|[->|I]]|(u' & v' & w' & I & E)].
      * right. exists u, v, w. auto.
      * right. exists u, v, w. auto.
      * now left.
      * right. exists u', v', w'. auto.
    + intros [I|(u' & v' & w' & [I|I] & E)].
      * tauto.
      * inversion I. subst. tauto.
      * right. eauto 6.
Qed.

Lemma weighted_replay_nodup (adj_ : list ((T * T) * Z)) :
  forall g0 : weighted_graph T,
    NoDup (_elements g0) ->
    NoDup (_elements
             (fold_left
                (fun g e => add_edge g (fst (fst e)) (snd (fst e)) (snd e))
                adj_ g0)).
Proof.
  induction adj_ as [|e adj_ IH]; intros g0 D; simpl; [exact D|].
  apply IH. simpl. now repeat apply TopologicalFacts.set_insert_nodup.
Qed.

(** With a mode that is neither "directed" nor "undirected", [add_edge]
    leaves [adj] alone. *)
Lemma weighted_replay_without_mode (edges : list ((T * T) * Z)) :
  forall g0 : weighted_graph T,
    _type g0 <> "directed"%string -> _type g0 <> "undirected"%string ->
    let g := fold_left
               (fun g e => add_edge g (fst (fst e)) (snd (fst e)) (snd e))
               edges g0 in
    adj g = adj g0 /\ _type g = _type g0.
Proof.
  induction edges as [|e edges IH]; intros g0 Nd Nu; simpl; [now split|].
  assert (A : adj (add_edge g0 (fst (fst e)) (snd (fst e)) (snd e)) = adj g0).
  { unfold add_edge. simpl.
    apply String.eqb_neq in Nd. apply String.eqb_neq in Nu. now rewrite Nd, Nu. }
  destruct (IH (add_edge g0 (fst (fst e)) (snd (fst e)) (snd e)) Nd Nu) as [I1 I2].
  simpl in *. split; congruence.
Qed.
End WithVertex.
End WeightedEdgeFacts.

(** X6.  After a construction with a valid mode the vertex set has no
    repetition and holds exactly the endpoints of the replayed edges, so
    [size()] is the number of distinct endpoints; a vertex listed with an
    empty neighbour list is not added.  For both classes. *)
Theorem constructed_vertex_set :
  forall (T : Type) `(Vertex T) (mode : string),
    mode = "directed"%string \/ mode = "undirected"%string ->
    (forall (adj_ : list (T * list T)),
        NoDup (Graph._elements (object (Graph.graph_ctor mode adj_)))
        /\ forall x,
            In x (Graph._elements (object (Graph.graph_ctor mode adj_)))
            <-> exists u l v, In (u, l) adj_ /\ In v l /\ (x = u \/ x = v))
    /\ (forall (adj_ : list ((T * T) * Z)),
        NoDup (WeightedGraph._elements
                 (object (WeightedGraph.weighted_graph_ctor mode adj_)))
        /\ forall x,
            In x (WeightedGraph._elements
                    (object (WeightedGraph.weighted_graph_ctor mode adj_)))
            <-> exists u v w, In ((u, v), w) adj_ /\ (x = u \/ x = v)).
Proof.
  intros T VT mode M.
  assert (E : ((mode =? "directed") || (mode =? "undirected"))%string = true).
  { destruct M as [->| ->]; reflexivity. }
  split; intros adj_; split.
  - apply TopologicalFacts.ctor_elements_nodup.
  - intros x. unfold Graph.graph_ctor, Graph.ctor_try. rewrite E. simpl.
    rewrite EdgeFacts.replay_elements. simpl. tauto.
  - unfold WeightedGraph.weighted_graph_ctor, WeightedGraph.ctor_try.
    rewrite E. simpl. apply WeightedEdgeFacts.weighted_replay_nodup. constructor.
  - intros x. unfold WeightedGraph.weighted_graph_ctor, WeightedGraph.ctor_try.
    rewrite E. simpl. rewrite WeightedEdgeFacts.weighted_replay_elements.
    simpl. tauto.
Qed.

Lemma constructed_vertex_set_witness :
  NoDup (Graph._elements
           (object (Graph.graph_ctor (T:=Z) "directed" [(1, [2; 2]); (3, [])])))
  /\ forall x,
      In x (Graph._elements
              (object (Graph.graph_ctor (T:=Z) "directed" [(1, [2; 2]); (3, [])])))
      <-> exists u l v, In (u, l) [(1, [2; 2]); (3, [])] /\ In v l
                        /\ (x = u \/ x = v).
Proof.
  apply (proj1 (constructed_vertex_set Z Z_Vertex "directed"
                  (or_introl eq_refl))).
Defined.

(** X7.  [has_edge(u,v)] is true right after [add_edge(u,v)], whatever the
    mode string of the unweighted graph (an unknown mode stores the edge as
    a directed one); in undirected mode [has_edge(v,u)] is true as well;
    and an edge that [has_edge] found before is still found after. *)
Theorem has_edge_after_add_edge :
  forall (T : Type) `(Vertex T) (g : Graph.graph T) (u v : T),
    fst (Graph.has_edge (Graph.add_edge g u v) u v) = true
    /\ (Graph._type g = "undirected"%string ->
        fst (Graph.has_edge (Graph.add_edge g u v) v u) = true)
    /\ (forall x y, fst (Graph.has_edge g x y) = true ->
                    fst (Graph.has_edge (Graph.add_edge g u v) x y) = true).
Proof.
  intros T VT g u v. repeat split.
  - apply EdgeFacts.has_edge_true. split.
    + apply EdgeFacts.add_edge_elements. tauto.
    + apply EdgeFacts.add_edge_reads. tauto.
  - intros M. apply EdgeFacts.has_edge_true. split.
    + apply EdgeFacts.add_edge_elements. tauto.
    + apply EdgeFacts.add_edge_reads. tauto.
  - intros x y E. apply EdgeFacts.has_edge_true in E. destruct E as [I J].
    apply EdgeFacts.has_edge_true. split.
    + apply EdgeFacts.add_edge_elements. tauto.
    + apply EdgeFacts.add_edge_reads. tauto.
Qed.

Lemma has_edge_after_add_edge_witness :
  fst (Graph.has_edge (Graph.add_edge Scenario.one_edge 2 3) 3 2) = true.
Proof.
  apply (proj1 (proj2 (has_edge_after_add_edge Z Z_Vertex Scenario.one_edge 2 3))).
  reflexivity.
Defined.

(** X8.  A weighted graph whose construction failed on the mode string
    never stores an edge: after any number of [add_edge] calls its
    adjacency map is still empty and [has_edge] is false for every pair,
    while the vertex set, and with it [size()], grows with the endpoints
    passed in. *)
Theorem weighted_graph_without_mode_stores_nothing :
  forall (T : Type) `(Vertex T) (mode : string)
         (adj_ edges : list ((T * T) * Z)),
    mode <> "directed"%string -> mode <> "undirected"%string ->
    let g := fold_left
               (fun g e => WeightedGraph.add_edge g (fst (fst e)) (snd (fst e))
                             (snd e))
               edges (object (WeightedGraph.weighted_graph_ctor mode adj_)) in
    WeightedGraph.adj g = []
    /\ (forall x y, fst (WeightedGraph.has_edge g x y) = false)
    /\ (forall x, In x (WeightedGraph._elements g)
                  <-> exists u v w, In ((u, v), w) edges /\ (x = u \/ x = v)).
Proof.
  intros T VT mode adj_ edges Nd Nu g.
  assert (O : object (WeightedGraph.weighted_graph_ctor mode adj_)
              = WeightedGraph.default_members).
  { unfold WeightedGraph.weighted_graph_ctor, WeightedGraph.ctor_try.
    apply String.eqb_neq in Nd. apply String.eqb_neq in Nu. now rewrite Nd, Nu. }
  assert (A : WeightedGraph.adj g = []).
  { unfold g. rewrite O.
    now destruct (WeightedEdgeFacts.weighted_replay_without_mode edges
                    (WeightedGraph.default_members (T:=T))
                    ltac:(discriminate) ltac:(discriminate)) as [-> _]. }
  split; [exact A|]. split.
  - intros x y. unfold WeightedGraph.has_edge.
    destruct (negb (set_mem x (WeightedGraph._elements g))); [reflexivity|].
    simpl. rewrite um_get_touch, A. reflexivity.
  - intros x. unfold g. rewrite O.
    rewrite WeightedEdgeFacts.weighted_replay_elements. simpl. tauto.
Qed.

Lemma weighted_graph_without_mode_stores_nothing_witness :
  let g := fold_left
             (fun g e => WeightedGraph.add_edge g (fst (fst e)) (snd (fst e))
                           (snd e))
             [((1, 2), 5); ((2, 3), 7)]
             (object (WeightedGraph.weighted_graph_ctor (T:=Z) "Directed"
                        [((8, 9), 1)])) in
  WeightedGraph.adj g = []
  /\ (forall x y, fst (WeightedGraph.has_edge g x y) = false)
  /\ (forall x, In x (WeightedGraph._elements g)
                <-> exists u v w, In ((u, v), w) [((1, 2), 5); ((2, 3), 7)]
                                  /\ (x = u \/ x = v)).
Proof.
  apply (weighted_graph_without_mode_stores_nothing Z Z_Vertex "Directed"
           [((8, 9), 1)] [((1, 2), 5); ((2, 3), 7)]); discriminate.
Defined.

(** ** Prim and its argument *)

Lemma wrap64_add_l (a b : Z) : wrap64 (wrap64 a + b) = wrap64 (a + b).
Proof.
  unfold wrap64. f_equal.
  replace ((a + 2 ^ 63) mod 2 ^ 64 - 2 ^ 63 + b + 2 ^ 63)
    with ((a + 2 ^ 63) mod 2 ^ 64 + b) by lia.
  replace (a + b + 2 ^ 63) with ((a + 2 ^ 63) + b) by lia.
  rewrite Zplus_mod_idemp_l. reflexivity.
Qed.

Module PrimFacts.
Import WeightedGraph.
Section WithVertex.
Context {T : Type} `{NumericVertex T}.

(** A different initial cost only shifts the result of the loop. *)
Lemma prim_loop_shift (k : Z) :
  forall (fuel : nat) a q visited cost,
    prim_loop fuel a q visited (wrap64 (cost + k))
    = match prim_loop fuel a q visited cost with
      | None => None
      | Some (r, a') => Some (wrap64 (r + k), a')
      end.
Proof.
  induction fuel as [|fuel IH]; intros a q visited cost; simpl; [reflexivity|].
  destruct (pq_pop vertex_weight_ltb q) as [[current q']|]; [|reflexivity].
  destruct (set_mem (fst current) visited); [apply IH|].
  replace (wrap64 (wrap64 (cost + k) + snd current))
    with (wrap64 (wrap64 (cost + snd current) + k)); [apply IH|].
  rewrite !wrap64_add_l. f_equal. lia.
Qed.
End WithVertex.
End PrimFacts.

(** X9.  The argument of [weighted_graph<T>::prim] is never used as a
    start vertex, it only offsets the result: for any two arguments the
    results differ, modulo 2^64, by the difference of their numeric
    values, and the graph is left in the same state. *)
Theorem prim_argument_is_an_offset :
  forall (T : Type) `(NumericVertex T) (fuel : nat)
         (g : WeightedGraph.weighted_graph T) (s s' : T),
    WeightedGraph.prim fuel g s
    = match WeightedGraph.prim fuel g s' with
      | None => None
      | Some (cost, g') =>
          Some (wrap64 (cost + (vertex_to_int64 s - vertex_to_int64 s')), g')
      end.
Proof.
  intros T VT NT fuel g s s'. unfold WeightedGraph.prim.
  destruct fuel as [|fuel]; [reflexivity|]. simpl.
  replace (wrap64 (vertex_to_int64 s))
    with (wrap64 (wrap64 (vertex_to_int64 s')
                  + (vertex_to_int64 s - vertex_to_int64 s'))).
  - rewrite PrimFacts.prim_loop_shift.
    match goal with
    | |- context [WeightedGraph.prim_loop ?f ?a ?q ?v ?c] =>
        destruct (WeightedGraph.prim_loop f a q v c) as [[r a']|]
    end; reflexivity.
  - rewrite wrap64_add_l. f_equal. lia.
Qed.

(** ** What [dfs] and [bfs] return *)

Module TraversalFacts.
Import Graph GraphSpec.
Section WithVertex.
Context {T : Type} `{Vertex T}.

Lemma unprocessed_shrinks (U visited : list T) (x : T) :
  (List.length (unprocessed U (x :: visited))
   <= List.length (unprocessed U visited))%nat.
Proof.
  unfold unprocessed. induction U as [|u U IH]; simpl; [lia|].
  destruct (set_mem u visited) eqn:M.
  - assert (M' : set_mem u (x :: visited) = true)
      by (apply set_mem_true; right; now apply set_mem_true).
    rewrite M'. simpl. exact IH.
  - destruct (set_mem u (x :: visited)); simpl; lia.
Qed.

Lemma unprocessed_shrinks_strictly (U visited : list T) (x : T) :
  In x U -> ~ In x visited ->
  (List.length (unprocessed U (x :: visited))
   < List.length (unprocessed U visited))%nat.
Proof.
  intros I N. unfold unprocessed. induction U as [|u U IH]; [destruct I|].
  pose proof (unprocessed_shrinks U visited x) as L. unfold unprocessed in L.
  simpl. destruct I as [->|I].
  - assert (M : set_mem x visited = false) by now apply set_mem_false.
    assert (M' : set_mem x (x :: visited) = true)
      by (apply set_mem_true; now left).
    rewrite M, M'. simpl. lia.
  - specialize (IH I). destruct (set_mem u visited) eqn:M.
    + assert (M' : set_mem u (x :: visited) = true)
        by (apply set_mem_true; right; now apply set_mem_true).
      rewrite M'. simpl. exact IH.
    + destruct (set_mem u (x :: visited)); simpl; lia.
Qed.

Section Push.
Variable push : T -> list T -> list T.
Hypothesis push_perm : forall x w, Permutation (push x w) (x :: w).

Lemma push_in (x y : T) (w : list T) : In y (push x w) <-> y = x \/ In y w.
Proof.
  split; intros I.
  - apply (Permutation_in _ (push_perm x w)) in I. destruct I; auto.
  - apply (Permutation_in _ (Permutation_sym (push_perm x w))).
    destruct I; [left|right]; auto.
Qed.

(** What the neighbour loop of a traversal does to the work list and to
    the visited set. *)
Lemma visit_neighbours_spec (U : list T) (neigh : list T) :
  forall work visited work' visited',
    visit_neighbours push neigh work visited = (work', visited') ->
    (forall y, In y visited' <-> In y visited \/ In y neigh)
    /\ (forall y, In y work' <-> In y work \/ (In y neigh /\ ~ In y visited))
    /\ ((forall y, In y neigh -> In y U) ->
        (List.length work' + List.length (unprocessed U visited')
         <= List.length work + List.length (unprocessed U visited))%nat).
Proof.
  unfold visit_neighbours.
  induction neigh as [|x neigh IH]; intros work visited work' visited' F;
    simpl in F.
  - inversion F. subst. split; [|split].
    + intros y. simpl. tauto.
    + intros y. simpl. tauto.
    + intros _. lia.
  - destruct (set_mem x visited) eqn:M.
    + apply set_mem_true in M. apply IH in F. destruct F as (F1 & F2 & F3).
      repeat split.
      * intros I. apply F1 in I. simpl. tauto.
      * intros [I|[<-|I]]; apply F1; auto.
      * intros I. apply F2 in I. simpl. tauto.
      * intros [I|[[<-|I] N]]; apply F2; auto. contradiction.
      * intros S. apply F3. intros y I. apply S. now right.
    + apply set_mem_false in M. apply IH in F. destruct F as (F1 & F2 & F3).
      repeat split.
      * intros I. apply F1 in I. simpl in *. intuition.
      * intros [I|[<-|I]]; apply F1; simpl; auto.
      * intros I. apply F2 in I. rewrite push_in in I. simpl in *.
        destruct I as [[->|I]|[I N]]; auto.
        right. split; auto.
      * intros [I|[[<-|I] N]]; apply F2; rewrite push_in; simpl; auto.
        destruct (vertex_eq_dec y x) as [->|Ne]; auto.
        right. split; auto. intros [E|J]; [congruence|contradiction].
      * intros Sub.
        assert (L : (List.length (unprocessed U (x :: visited))
                     < List.length (unprocessed U visited))%nat).
        { apply unprocessed_shrinks_strictly; auto. apply Sub. now left. }
        assert (Lp : List.length (push x work) = S (List.length work))
          by (rewrite (Permutation_length (push_perm x work)); reflexivity).
        specialize (F3 ltac:(intros y I; apply Sub; now right)). lia.
Qed.

(** The vertices output so far and the work list hold each visited vertex
    once. *)
Lemma visit_neighbours_nodup (P : list T) (neigh : list T) :
  forall work visited work' visited',
    visit_neighbours push neigh work visited = (work', visited') ->
    NoDup (P ++ work) ->
    (forall y, In y visited <-> In y (P ++ work)) ->
    NoDup (P ++ work')
    /\ (forall y, In y visited' <-> In y (P ++ work')).
Proof.
  unfold visit_neighbours.
  induction neigh as [|x neigh IH]; intros work visited work' visited' F D V;
    simpl in F.
  - inversion F. subst. now split.
  - destruct (set_mem x visited) eqn:M.
    + eapply IH; eauto.
    + apply set_mem_false in M. eapply IH; [exact F| |].
      * apply Permutation_NoDup with (l := x :: P ++ work).
        -- apply Permutation_sym.
           eapply Permutation_trans;
             [apply Permutation_app_head, push_perm|].
           apply Permutation_sym, Permutation_middle.
        -- constructor; [|exact D]. intros I. apply M. now apply V.
      * intros y. simpl. rewrite V, !in_app_iff, push_in. intuition congruence.
Qed.
End Push.

Lemma stack_push_perm (x : T) (w : list T) :
  Permutation (stack_push x w) (x :: w).
Proof. apply Permutation_refl. Qed.

Lemma queue_push_perm (x : T) (w : list T) :
  Permutation (queue_push x w) (x :: w).
Proof. unfold queue_push. apply Permutation_sym, Permutation_cons_append. Qed.

Section Traversal.
Variable g : graph T.
Variable start : T.

(** The state of a traversal: the path output so far, the work list and
    the visited set. *)
#[local, warnings="-inconsistent-scopes"]
Abbreviation traversing path work visited :=
  (NoDup (path ++ work)
   /\ (forall y, In y visited <-> In y (path ++ work))
   /\ (forall y, In y visited -> reachable g start y)
   /\ (forall u v, In u path -> edge g u v -> In v visited)
   /\ In start visited
   /\ ((path = [] /\ work = [start]) \/ exists p, path = start :: p)).

(** Taking [current] from the work list and visiting its neighbours keeps
    the state of the traversal and uses up the measure. *)
Lemma traversal_step (push : T -> list T -> list T)
    (push_perm : forall x w, Permutation (push x w) (x :: w))
    (a : list (T * list T)) (current : T)
    (path work visited work' visited' : list T) :
  same_edges a (adj g) ->
  traversing path (current :: work) visited ->
  visit_neighbours push (um_get [] current (um_touch [] current a)) work visited
  = (work', visited') ->
  traversing (path ++ [current]) work' visited'
  /\ (List.length work'
      + List.length (unprocessed (targets (adj g)) visited')
      <= List.length work
         + List.length (unprocessed (targets (adj g)) visited))%nat.
Proof.
  intros S (D & V & R & C & I & O) F.
  rewrite um_get_touch, S in F.
  destruct (visit_neighbours_spec push push_perm (targets (adj g)) _ _ _ _ _ F)
    as (F1 & F2 & F3).
  destruct (visit_neighbours_nodup push push_perm (path ++ [current]) _ _ _ _ _ F)
    as (N1 & N2).
  { now rewrite <- app_assoc. }
  { intros y. rewrite V, <- app_assoc. reflexivity. }
  assert (Rc : reachable g start current).
  { apply R, V, in_or_app. right. now left. }
  split; [|apply F3; intros y Iy; eapply TopologicalFacts.graph_um_get_targets;
           exact Iy].
  repeat split; auto.
  - apply N2.
  - apply N2.
  - intros y Iy. apply F1 in Iy. destruct Iy as [Iy|Iy]; [now apply R|].
    eapply reachable_step; [exact Rc|exact Iy].
  - intros u v Iu E. apply F1. apply in_app_or in Iu.
    destruct Iu as [Iu|[<-|[]]]; [left; eapply C; eauto|now right].
  - apply F1. now left.
  - right. destruct O as [[-> E]|(p & ->)].
    + inversion E. exists []. reflexivity.
    + exists (p ++ [current]). reflexivity.
Qed.

(** What the state says once the work list is empty. *)
Lemma traversal_done (path visited : list T) :
  traversing path (@nil T) visited ->
  hd_error path = Some start
  /\ NoDup path
  /\ forall v, In v path <-> reachable g start v.
Proof.
  intros (D & V & R & C & I & O). rewrite app_nil_r in D.
  assert (V' : forall y, In y visited <-> In y path)
    by (intros y; rewrite V, app_nil_r; reflexivity).
  split; [|split; [exact D|]].
  - destruct O as [[_ E]|(p & ->)]; [discriminate|reflexivity].
  - intros v. split; intros J.
    + apply R. now apply V'.
    + induction J as [|v x J IH E].
      * now apply V'.
      * apply V'. eapply C; eauto.
Qed.

Lemma dfs_loop_result :
  forall (fuel : nat) a work visited path,
    same_edges a (adj g) ->
    traversing path work visited ->
    (List.length work + List.length (unprocessed (targets (adj g)) visited)
     < fuel)%nat ->
    exists path' a' visited',
      dfs_loop fuel a work visited path = Some (path', a')
      /\ same_edges a' (adj g)
      /\ traversing path' (@nil T) visited'.
Proof.
  induction fuel as [|fuel IH]; intros a work visited path S I L; [lia|].
  destruct work as [|current work]; simpl.
  - exists path, a, visited. auto.
  - destruct (visit_neighbours stack_push
                (um_get [] current (um_touch [] current a)) work visited)
      as [work' visited'] eqn:F.
    destruct (traversal_step stack_push stack_push_perm a current path work
                visited work' visited' S I F) as [I' L'].
    apply IH; auto.
    + now apply TopologicalFacts.graph_same_edges_touch.
    + simpl in L. lia.
Qed.

Local Abbreviation measure work visited :=
  (List.length work + List.length (unprocessed (targets (adj g)) visited))%nat.

Lemma bfs_level_step (n : nat) (a : list (T * list T)) (current : T)
    (q visited path : list T) :
  bfs_level (S n) a (current :: q) visited path
  = let a' := um_touch [] current a in
    let '(q', visited') :=
      visit_neighbours queue_push (um_get [] current a') q visited in
    bfs_level n a' q' visited' (path ++ [current]).
Proof. reflexivity. Qed.

Lemma bfs_level_result :
  forall (n : nat) a work visited path a' work' visited' path',
    same_edges a (adj g) ->
    traversing path work visited ->
    bfs_level n a work visited path = (a', work', visited', path') ->
    same_edges a' (adj g)
    /\ traversing path' work' visited'
    /\ (measure work' visited' <= measure work visited)%nat.
Proof.
  induction n as [|n IH]; intros a work visited path a' work' visited' path' S I B.
  - simpl in B. inversion B. subst. auto.
  - destruct work as [|current work].
    + simpl in B. inversion B. subst. auto.
    + rewrite bfs_level_step in B. simpl in B.
      destruct (visit_neighbours queue_push
                  (um_get [] current (um_touch [] current a)) work visited)
        as [work1 visited1] eqn:F.
      destruct (traversal_step queue_push queue_push_perm a current path work
                  visited work1 visited1 S I F) as [I1 L1].
      apply IH in B; auto.
      * destruct B as (B1 & B2 & B3). repeat split; try apply B2; auto.
        simpl. lia.
      * now apply TopologicalFacts.graph_same_edges_touch.
Qed.

Lemma bfs_loop_result :
  forall (fuel : nat) a work visited path,
    same_edges a (adj g) ->
    traversing path work visited ->
    (measure work visited < fuel)%nat ->
    exists path' a' visited',
      bfs_loop fuel a work visited path = Some (path', a')
      /\ same_edges a' (adj g)
      /\ traversing path' (@nil T) visited'.
Proof.
  induction fuel as [|fuel IH]; intros a work visited path S I L; [lia|].
  destruct work as [|current work].
  - exists path, a, visited. auto.
  - rewrite InvariantFacts.bfs_loop_step.
    change (List.length (current :: work)) with (Datatypes.S (List.length work)).
    rewrite bfs_level_step. simpl.
    destruct (visit_neighbours queue_push
                (um_get [] current (um_touch [] current a)) work visited)
      as [work1 visited1] eqn:F.
    destruct (traversal_step queue_push queue_push_perm a current path work
                visited work1 visited1 S I F) as [I1 L1].
    destruct (bfs_level (List.length work) (um_touch [] current a) work1 visited1
                (path ++ [current])) as [[[a2 work2] visited2] path2] eqn:B.
    apply bfs_level_result in B; auto.
    + destruct B as (B1 & B2 & B3). apply IH; auto. simpl in L. lia.
    + now apply TopologicalFacts.graph_same_edges_touch.
Qed.

Lemma traversal_start :
  In start (_elements g) ->
  traversing (@nil T) [start] [start]
  /\ (measure [start] [start] <= 1 + List.length (targets (adj g)))%nat
  /\ empty g || negb (set_mem start (_elements g)) = false.
Proof.
  intros I. split; [|split].
  - split; [|split; [|split; [|split; [|split]]]].
    + simpl. constructor; [intros []|constructor].
    + intros y. reflexivity.
    + intros y [<-|[]]. constructor.
    + intros u v [].
    + now left.
    + left. now split.
  - unfold unprocessed.
    pose proof (filter_shorter (fun u => negb (set_mem u [start]))
                  (targets (adj g))).
    simpl. lia.
  - apply orb_false_intro.
    + unfold empty. destruct (_elements g); [destruct I|reflexivity].
    + apply negb_false_iff. now apply set_mem_true.
Qed.
End Traversal.

End WithVertex.
End TraversalFacts.

(** X10.  [graph<T>::dfs(start)] from a vertex of the graph returns, once
    the bound on its loop exceeds the number of stored edges plus one; the
    path begins with [start], has no repeated vertex and holds exactly the
    vertices reachable from [start]; the vertex set and every adjacency
    list are left as they were. *)
Theorem dfs_visits_the_reachable_vertices :
  forall (T : Type) `(Vertex T) (g : Graph.graph T) (start : T) (fuel : nat),
    In start (Graph._elements g) ->
    (1 + List.length (GraphSpec.targets (Graph.adj g)) < fuel)%nat ->
    exists path g',
      Graph.dfs fuel g start = Some (path, g')
      /\ hd_error path = Some start
      /\ NoDup path
      /\ (forall v, In v path <-> GraphSpec.reachable g start v)
      /\ Graph._elements g' = Graph._elements g
      /\ GraphSpec.same_edges (Graph.adj g') (Graph.adj g).
Proof.
  intros T VT g start fuel I L.
  destruct (TraversalFacts.traversal_start g start I) as (I0 & L0 & G).
  unfold Graph.dfs. rewrite G.
  destruct (TraversalFacts.dfs_loop_result g start fuel (Graph.adj g) [start]
              [start] [] (fun x => eq_refl) I0 ltac:(lia))
    as (path & a' & visited' & D & S & F).
  rewrite D. exists path. eexists. split; [reflexivity|].
  destruct (TraversalFacts.traversal_done g start path visited' F)
    as (F1 & F2 & F3).
  simpl. auto.
Qed.

Lemma dfs_visits_the_reachable_vertices_witness :
  exists path g',
    Graph.dfs 10 Scenario.tail_into_cycle 2 = Some (path, g')
    /\ hd_error path = Some 2
    /\ NoDup path
    /\ (forall v, In v path <-> GraphSpec.reachable Scenario.tail_into_cycle 2 v)
    /\ Graph._elements g' = Graph._elements Scenario.tail_into_cycle
    /\ GraphSpec.same_edges (Graph.adj g') (Graph.adj Scenario.tail_into_cycle).
Proof.
  apply (dfs_visits_the_reachable_vertices Z Z_Vertex Scenario.tail_into_cycle
           2 10).
  - vm_compute. tauto.
  - vm_compute. lia.
Defined.

(** X11.  [graph<T>::bfs(start)] from a vertex of the graph returns under
    the same bound, and its path too begins with [start], has no repeated
    vertex and holds exactly the vertices reachable from [start]. *)
Theorem bfs_visits_the_reachable_vertices :
  forall (T : Type) `(Vertex T) (g : Graph.graph T) (start : T) (fuel : nat),
    In start (Graph._elements g) ->
    (1 + List.length (GraphSpec.targets (Graph.adj g)) < fuel)%nat ->
    exists path g',
      Graph.bfs fuel g start = Some (path, g')
      /\ hd_error path = Some start
      /\ NoDup path
      /\ (forall v, In v path <-> GraphSpec.reachable g start v)
      /\ Graph._elements g' = Graph._elements g
      /\ GraphSpec.same_edges (Graph.adj g') (Graph.adj g).
Proof.
  intros T VT g start fuel I L.
  destruct (TraversalFacts.traversal_start g start I) as (I0 & L0 & G).
  unfold Graph.bfs. rewrite G.
  destruct (TraversalFacts.bfs_loop_result g start fuel (Graph.adj g) [start]
              [start] [] (fun x => eq_refl) I0 ltac:(lia))
    as (path & a' & visited' & D & S & F).
  rewrite D. exists path. eexists. split; [reflexivity|].
  destruct (TraversalFacts.traversal_done g start path visited' F)
    as (F1 & F2 & F3).
  simpl. auto.
Qed.

Lemma bfs_visits_the_reachable_vertices_witness :
  exists path g',
    Graph.bfs 10 Scenario.tail_into_cycle 1 = Some (path, g')
    /\ hd_error path = Some 1
    /\ NoDup path
    /\ (forall v, In v path <-> GraphSpec.reachable Scenario.tail_into_cycle 1 v)
    /\ Graph._elements g' = Graph._elements Scenario.tail_into_cycle
    /\ GraphSpec.same_edges (Graph.adj g') (Graph.adj Scenario.tail_into_cycle).
Proof.
  apply (bfs_visits_the_reachable_vertices Z Z_Vertex Scenario.tail_into_cycle
           1 10).
  - vm_compute. tauto.
  - vm_compute. lia.
Defined.

(** ** Undirected graphs stay symmetric *)

Module SymmetryFacts.
Import Graph GraphSpec.
Section WithVertex.
Context {T : Type} `{Vertex T}.

Lemma dfs_loop_same_edges (a0 : list (T * list T)) :
  forall (fuel : nat) a s visited path path' a',
    same_edges a a0 ->
    dfs_loop fuel a s visited path = Some (path', a') ->
    same_edges a' a0.
Proof.
  induction fuel as [|fuel IH]; intros a s visited path path' a' S D;
    [discriminate|].
  destruct s as [|current s]; simpl in D.
  - inversion D. now subst.
  - destruct (visit_neighbours stack_push
                (um_get [] current (um_touch [] current a)) s visited)
      as [s' visited'].
    eapply IH; [|exact D]. now apply TopologicalFacts.graph_same_edges_touch.
Qed.

Lemma bfs_level_same_edges (a0 : list (T * list T)) :
  forall (n : nat) a q visited path a' q' visited' path',
    same_edges a a0 ->
    bfs_level n a q visited path = (a', q', visited', path') ->
    same_edges a' a0.
Proof.
  induction n as [|n IH]; intros a q visited path a' q' visited' path' S B;
    simpl in B.
  - inversion B. now subst.
  - destruct q as [|current q].
    + inversion B. now subst.
    + destruct (visit_neighbours queue_push
                  (um_get [] current (um_touch [] current a)) q visited)
        as [q1 visited1].
      eapply IH; [|exact B]. now apply TopologicalFacts.graph_same_edges_touch.
Qed.

Lemma bfs_loop_same_edges (a0 : list (T * list T)) :
  forall (fuel : nat) a q visited path path' a',
    same_edges a a0 ->
    bfs_loop fuel a q visited path = Some (path', a') ->
    same_edges a' a0.
Proof.
  induction fuel as [|fuel IH]; intros a q visited path path' a' S B;
    [discriminate|].
  destruct q as [|current q].
  - inversion B. now subst.
  - rewrite InvariantFacts.bfs_loop_step in B.
    destruct (bfs_level (List.length (current :: q)) a (current :: q) visited path)
      as [[[a1 q1] visited1] path1] eqn:L.
    apply bfs_level_same_edges with (a0 := a0) in L; [|exact S].
    eapply IH; [exact L|exact B].
Qed.

(** Every adjacency list reads the same in both directions. *)
Local Abbreviation symmetric g :=
  (forall x y, In y (um_get [] x (adj g)) <-> In x (um_get [] y (adj g))).

Lemma add_edge_symmetric (g : graph T) (u v : T) :
  _type g = "undirected"%string -> symmetric g -> symmetric (add_edge g u v).
Proof.
  intros M S x y. rewrite !EdgeFacts.add_edge_reads, (S x y). tauto.
Qed.

(** A query reads and returns the same edges, vertices and mode. *)
Lemma run_query (fuel : nat) (g g' : graph T) (o : operation) :
  (forall u v, o <> op_add_edge u v) -> o <> op_clear ->
  run fuel g o = Some g' ->
  _type g' = _type g /\ _elements g' = _elements g
  /\ same_edges (adj g') (adj g).
Proof.
  intros Na Nc R. destruct o as [u v|start end_| |start|start]; simpl in R.
  - exfalso. now apply (Na u v).
  - inversion R. unfold has_edge.
    destruct (negb (set_mem start (_elements g))); simpl.
    + repeat split.
    + repeat split. intros x. apply um_get_touch.
  - contradiction.
  - unfold dfs in R.
    destruct (empty g || negb (set_mem start (_elements g))); simpl in R.
    + inversion R. repeat split.
    + destruct (dfs_loop fuel (adj g) [start] [start] []) as [[path a]|] eqn:D;
        [|discriminate].
      inversion R. simpl. repeat split.
      eapply dfs_loop_same_edges; [|exact D]. intros x. reflexivity.
  - unfold bfs in R.
    destruct (empty g || negb (set_mem start (_elements g))); simpl in R.
    + inversion R. repeat split.
    + destruct (bfs_loop fuel (adj g) [start] [start] []) as [[path a]|] eqn:D;
        [|discriminate].
      inversion R. simpl. repeat split.
      eapply bfs_loop_same_edges; [|exact D]. intros x. reflexivity.
Qed.

Lemma run_symmetric (fuel : nat) (g g' : graph T) (o : operation) :
  _type g = "undirected"%string -> symmetric g ->
  run fuel g o = Some g' ->
  _type g' = "undirected"%string /\ symmetric g'.
Proof.
  intros M S R.
  destruct o as [u v|start end_| |start|start];
    try (apply run_query in R; [|intros; discriminate|discriminate];
         destruct R as (R1 & _ & R3); split; [congruence|];
         intros x y; rewrite !R3; apply S).
  - simpl in R. inversion R. split; [exact M|]. now apply add_edge_symmetric.
  - simpl in R. inversion R. split; [exact M|]. intros x y. simpl. tauto.
Qed.

Lemma run_all_symmetric (fuel : nat) (ops : list operation) :
  forall g g' : graph T,
    _type g = "undirected"%string -> symmetric g ->
    run_all fuel g ops = Some g' ->
    _type g' = "undirected"%string /\ symmetric g'.
Proof.
  induction ops as [|o ops IH]; intros g g' M S R; simpl in R.
  - inversion R. subst. now split.
  - destruct (run fuel g o) as [g1|] eqn:O; [|discriminate].
    destruct (run_symmetric fuel g g1 o M S O) as [M1 S1]. eapply IH; eauto.
Qed.

Lemma ctor_symmetric (adj_ : list (T * list T)) :
  _type (object (graph_ctor "undirected" adj_)) = "undirected"%string
  /\ symmetric (object (graph_ctor "undirected" adj_)).
Proof.
  unfold graph_ctor, ctor_try. simpl.
  match goal with
  | |- _type (fold_left ?f adj_ ?g0) = _ /\ _ =>
      assert (I0 : _type g0 = "undirected"%string /\ symmetric g0)
        by (split; [reflexivity|intros x y; simpl; tauto]);
      revert I0; generalize g0
  end.
  induction adj_ as [|[u l] adj_ IH]; intros g0 I0; simpl; [exact I0|].
  apply IH. clear IH. revert g0 I0.
  induction l as [|v l IHl]; intros g0 [M S]; simpl; [now split|].
  apply IHl. split; [exact M|]. now apply add_edge_symmetric.
Qed.
End WithVertex.
End SymmetryFacts.

(** X12.  On a graph constructed as "undirected", after any sequence of
    [add_edge], [has_edge], [clear], [dfs] and [bfs], [has_edge(u,v)] and
    [has_edge(v,u)] give the same answer for every pair of vertices. *)
Theorem has_edge_is_symmetric_when_undirected :
  forall (T : Type) `(Vertex T) (adj_ : list (T * list T)) (fuel : nat)
         (ops : list (GraphSpec.operation (T:=T))) (g : Graph.graph T),
    GraphSpec.run_all fuel (object (Graph.graph_ctor "undirected" adj_)) ops
    = Some g ->
    forall u v, fst (Graph.has_edge g u v) = fst (Graph.has_edge g v u).
Proof.
  intros T VT adj_ fuel ops g R u v.
  destruct (SymmetryFacts.ctor_symmetric adj_) as [M0 S0].
  destruct (SymmetryFacts.run_all_symmetric fuel ops _ g M0 S0 R) as [_ S].
  pose proof (InvariantFacts.run_all_covered fuel ops _ g
                (InvariantFacts.ctor_covered "undirected" adj_) R) as [Ck Cv].
  assert (K : forall x y, In y (um_get [] x (Graph.adj g)) ->
                          In x (Graph._elements g)).
  { intros x y I. destruct (um_get_in [] x (Graph.adj g)) as [N|J].
    - rewrite N in I. destruct I.
    - apply Ck. unfold um_keys. now apply (in_map fst) in J. }
  assert (E : forall x y, fst (Graph.has_edge g x y) = true ->
                          fst (Graph.has_edge g y x) = true).
  { intros x y P. apply EdgeFacts.has_edge_true in P. destruct P as [_ P].
    apply S in P. apply EdgeFacts.has_edge_true. split; [|exact P].
    eapply K. exact P. }
  destruct (fst (Graph.has_edge g u v)) eqn:A,
           (fst (Graph.has_edge g v u)) eqn:B; auto.
  - apply E in A. congruence.
  - apply E in B. congruence.
Qed.

Lemma has_edge_is_symmetric_when_undirected_witness :
  exists g,
    GraphSpec.run_all 10 (object (Graph.graph_ctor (T:=Z) "undirected" [(1, [2])]))
      [GraphSpec.op_add_edge 2 3; GraphSpec.op_dfs 1; GraphSpec.op_add_edge 3 3]
    = Some g
    /\ forall u v, fst (Graph.has_edge g u v) = fst (Graph.has_edge g v u).
Proof.
  eexists. split; [vm_compute; reflexivity|].
  apply (has_edge_is_symmetric_when_undirected Z Z_Vertex [(1, [2])] 10
           [GraphSpec.op_add_edge 2 3; GraphSpec.op_dfs 1;
            GraphSpec.op_add_edge 3 3]).
  vm_compute. reflexivity.
Defined.

(** ** The queue-driven branch of [shortest_path] *)

Lemma pq_extract_keeps {A : Type} (lt : A -> A -> bool) (l : list A) :
  forall x m r,
    pq_extract lt x l = (m, r) ->
    forall y, In y (x :: l) -> y = m \/ In y r.
Proof.
  induction l as [|z l IH]; intros x m r E y I; simpl in E.
  - inversion E. subst. destruct I as [<-|[]]. now left.
  - destruct (lt z x).
    + destruct (pq_extract lt z l) as [m' r'] eqn:E'. inversion E. subst.
      destruct I as [<-|I]; [right; now left|].
      destruct (IH _ _ _ E' y I) as [->|J]; [now left|right; now right].
    + destruct (pq_extract lt x l) as [m' r'] eqn:E'. inversion E. subst.
      destruct I as [<-|[<-|I]].
      * destruct (IH _ _ _ E' x (or_introl eq_refl)) as [->|J];
          [now left|right; now right].
      * right. now left.
      * destruct (IH _ _ _ E' y (or_intror I)) as [->|J];
          [now left|right; now right].
Qed.

(** ** Sums that are not rounded *)

Module ExactnessFacts.
Import WeightedGraph WeightedSpec.
Section WithVertex.
Context {T : Type} `{Vertex T}.

Lemma known_count_le (dist : T -> Z) (E : list T) :
  (known_count dist E <= List.length E)%nat.
Proof. apply filter_shorter. Qed.

(** Setting a distance does not lower the count, and raises it when the
    distance was unset. *)
Lemma known_count_fupd (dist : T -> Z) (x : T) (new : Z) (E : list T) :
  new <> dist_unset ->
  (known_count dist E <= known_count (fupd dist x new) E)%nat
  /\ (In x E -> dist x = dist_unset ->
      (known_count dist E < known_count (fupd dist x new) E)%nat).
Proof.
  intros N. unfold known_count.
  induction E as [|v E [IH1 IH2]]; simpl; [split; [lia|intros []]|].
  destruct (vertex_eq_dec v x) as [->|D].
  - rewrite fupd_same. destruct (Z.eqb_spec new dist_unset); [contradiction|].
    simpl. destruct (Z.eqb_spec (dist x) dist_unset); simpl; split; intros;
      try lia; contradiction.
  - rewrite fupd_other by exact D.
    destruct (negb (dist v =? dist_unset)); simpl; split; try lia.
    + intros [->|I] U; [contradiction|]. specialize (IH2 I U). lia.
    + intros [->|I] U; [contradiction|]. specialize (IH2 I U). lia.
Qed.

Lemma known_count_positive (dist : T -> Z) (x : T) (E : list T) :
  In x E -> dist x <> dist_unset -> (1 <= known_count dist E)%nat.
Proof.
  intros I N. unfold known_count.
  assert (F : In x (filter (fun v => negb (dist v =? dist_unset)) E)).
  { apply filter_In. split; [exact I|].
    destruct (Z.eqb_spec (dist x) dist_unset); [contradiction|reflexivity]. }
  destruct (filter (fun v => negb (dist v =? dist_unset)) E); [destruct F|].
  simpl. lia.
Qed.

Section Bound.
Variable W : Z.
Variable E : list T.
Hypothesis W_non_negative : 0 <= W.
Hypothesis W_small : Z.of_nat (List.length E) * W <= 2 ^ 53.

Lemma label_bound_small (dist : T -> Z) :
  label_bound W dist E + W <= 2 ^ 53.
Proof.
  unfold label_bound. pose proof (known_count_le dist E) as L.
  assert (Z.of_nat (known_count dist E) * W <= Z.of_nat (List.length E) * W)
    by (apply Z.mul_le_mono_nonneg_r; lia).
  lia.
Qed.

(** The sum of a distance within the bound and of a weight is exact. *)
Lemma relaxation_exact (dist : T -> Z) (d w : Z) :
  0 <= d <= label_bound W dist E -> 0 <= w <= W ->
  double_add d w = d + w.
Proof.
  intros D B. pose proof (label_bound_small dist).
  apply double_add_exact. assert (0 < 2 ^ 53) by reflexivity. lia.
Qed.

Lemma label_bound_fupd (dist : T -> Z) (x : T) (new : Z) :
  new <> dist_unset ->
  label_bound W dist E <= label_bound W (fupd dist x new) E
  /\ (In x E -> dist x = dist_unset ->
      label_bound W dist E + W <= label_bound W (fupd dist x new) E).
Proof.
  intros N. destruct (known_count_fupd dist x new E N) as [K1 K2].
  unfold label_bound. split.
  - apply Z.mul_le_mono_nonneg_r; lia.
  - intros I U. specialize (K2 I U).
    replace ((Z.of_nat (known_count dist E) - 1) * W + W)
      with (Z.of_nat (known_count dist E) * W) by lia.
    apply Z.mul_le_mono_nonneg_r; lia.
Qed.

(** A relaxation keeps the distances within the bound. *)
Lemma within_relaxed (dist : T -> Z) (pq : list (Z * T)) (x : T) (d w : Z) :
  within W E dist pq ->
  In x E ->
  0 <= d <= label_bound W dist E -> 0 <= w <= W ->
  d + w < dist x ->
  within W E (fupd dist x (d + w)) ((d + w, x) :: pq)
  /\ label_bound W dist E <= label_bound W (fupd dist x (d + w)) E.
Proof.
  intros [Wd Wq] Ix D B R.
  pose proof (label_bound_small dist) as Sm.
  assert (N : d + w <> dist_unset).
  { assert (2 ^ 53 < dist_unset) by reflexivity. lia. }
  destruct (label_bound_fupd dist x (d + w) N) as [L1 L2].
  assert (Bx : 0 <= d + w <= label_bound W (fupd dist x (d + w)) E).
  { destruct (Wd x Ix) as [U|[_ U]]; [|lia]. specialize (L2 Ix U). lia. }
  split; [|exact L1]. constructor.
  - intros v Iv. destruct (vertex_eq_dec v x) as [->|D'].
    + right. rewrite fupd_same. exact Bx.
    + rewrite fupd_other by exact D'. destruct (Wd v Iv) as [U|U]; [now left|].
      right. lia.
  - intros p [<-|Ip]; [exact Bx|]. specialize (Wq p Ip). lia.
Qed.
End Bound.
End WithVertex.
End ExactnessFacts.

Module DijkstraFacts.
Import WeightedGraph WeightedSpec KahnFacts.
Section WithVertex.
Context {T : Type} `{NumericVertex T}.
Variable g : weighted_graph T.
Variable start : T.
Hypothesis known : neighbours_known g.
Hypothesis start_known : In start (_elements g).

Lemma walk_known (v : T) (d : Z) : walk g start v d -> In v (_elements g).
Proof.
  intros W. destruct W as [|v x d w W E]; [exact start_known|].
  eapply known. exact E.
Qed.

Lemma walk_non_negative (v : T) (d : Z) :
  weights_non_negative g -> walk g start v d -> 0 <= d.
Proof.
  intros P W. induction W as [|v x d w W IH E]; [lia|].
  apply P in E. lia.
Qed.

(** Every edge out of [v] is relaxed. *)
Local Abbreviation tight dist v :=
  (forall x w, edge g v x w -> dist x <= dist v + w).

Lemma dijkstra_step_labels (d : Z) (u : T) (l : list (T * Z)) :
  walk g start u d ->
  (forall x, In x l -> In x (um_get [] u (adj g))) ->
  forall dist (pq : list (Z * T)) dist' pq',
    labels g start dist pq ->
    (forall v, In v (_elements g) -> dist v <> dist_unset ->
       In (dist v, v) pq \/ tight dist v
       \/ (v = u /\ dist u = d
           /\ forall x w, edge g u x w -> In (x, w) l \/ dist x <= d + w)) ->
    fold_left
      (fun '(dist, pq) edge =>
         if d + snd edge <? dist (fst edge)
         then (fupd dist (fst edge) (d + snd edge),
               (d + snd edge, fst edge) :: pq)
         else (dist, pq))
      l (dist, pq) = (dist', pq') ->
    labels g start dist' pq'
    /\ (forall v, In v (_elements g) -> dist' v <> dist_unset ->
          In (dist' v, v) pq' \/ tight dist' v
          \/ (v = u /\ dist' u = d
              /\ forall x w, edge g u x w -> dist' x <= d + w)).
Proof.
  intros Wu. induction l as [|[x w] l IH]; intros I dist pq dist' pq' L P F;
    simpl in F.
  - inversion F. subst. split; [exact L|].
    intros v Iv Nv. destruct (P v Iv Nv) as [Q|[Q|(Q1 & Q2 & Q3)]]; auto.
    right. right. repeat split; auto. intros x w E.
    destruct (Q3 x w E) as [[]|Q]. exact Q.
  - assert (Ix : edge g u x w) by (apply I; now left).
    assert (Il : forall y, In y l -> In y (um_get [] u (adj g)))
      by (intros y Iy; apply I; now right).
    assert (Ex : In x (_elements g)) by (eapply known; exact Ix).
    destruct L as [L1 L2 L3 L4].
    destruct (Z.ltb_spec (d + w) (dist x)) as [R|R].
    + assert (Le : forall y, fupd dist x (d + w) y <= dist y).
      { intros y. unfold fupd. destruct (vertex_eq_dec y x) as [->|N]; lia. }
      apply (IH Il) in F; [exact F| |].
      * constructor.
        -- intros v Iv. unfold fupd. destruct (vertex_eq_dec v x) as [->|N].
           ++ right. eapply walk_step; [exact Wu|exact Ix].
           ++ now apply L1.
        -- intros p [<-|Ip]; [|now apply L2]. simpl.
           eapply walk_step; [exact Wu|exact Ix].
        -- intros v Iv. specialize (Le v). specialize (L3 v Iv). lia.
        -- specialize (Le start). lia.
      * intros v Iv Nv. destruct (vertex_eq_dec v x) as [->|N].
        -- left. rewrite fupd_same. now left.
        -- assert (Ev : fupd dist x (d + w) v = dist v)
             by (apply fupd_other; congruence).
           rewrite Ev in Nv.
           destruct (P v Iv Nv) as [Q|[Q|(Q1 & Q2 & Q3)]].
           ++ left. rewrite Ev. now right.
           ++ right. left. intros y wy E. rewrite Ev.
              specialize (Q y wy E). specialize (Le y). lia.
           ++ right. right. subst v. split; [reflexivity|].
              split; [rewrite Ev; exact Q2|].
              intros y wy E. destruct (Q3 y wy E) as [[J|J]|J].
              ** inversion J. subst. right. rewrite fupd_same. lia.
              ** now left.
              ** right. specialize (Le y). lia.
    + apply (IH Il) in F; [exact F|now constructor|].
      intros v Iv Nv. destruct (P v Iv Nv) as [Q|[Q|(Q1 & Q2 & Q3)]]; auto.
      right. right. repeat split; auto. intros y wy E.
      destruct (Q3 y wy E) as [[J|J]|J]; auto.
      inversion J. subst. right. lia.
Qed.

(** The weights lie between 0 and [Wmax], and [Wmax] times the number of
    vertices is at most 2^53. *)
Variable Wmax : Z.
Hypothesis weights_within : forall u v w, edge g u v w -> 0 <= w <= Wmax.
Hypothesis W_non_negative : 0 <= Wmax.
Hypothesis W_small : Z.of_nat (List.length (_elements g)) * Wmax <= 2 ^ 53.

(** Within the bound, the sums of one pass over the edges of [u] are not
    rounded. *)
Lemma dijkstra_step_exact (d : Z) (u : T) (l : list (T * Z)) :
  (forall x, In x l -> In x (um_get [] u (adj g))) ->
  forall dist (pq : list (Z * T)) dist' pq',
    within Wmax (_elements g) dist pq ->
    0 <= d <= label_bound Wmax dist (_elements g) ->
    fold_left
      (fun '(dist, pq) edge =>
         if double_add d (snd edge) <? dist (fst edge)
         then (fupd dist (fst edge) (double_add d (snd edge)),
               (double_add d (snd edge), fst edge) :: pq)
         else (dist, pq))
      l (dist, pq) = (dist', pq') ->
    fold_left
      (fun '(dist, pq) edge =>
         if d + snd edge <? dist (fst edge)
         then (fupd dist (fst edge) (d + snd edge),
               (d + snd edge, fst edge) :: pq)
         else (dist, pq))
      l (dist, pq) = (dist', pq')
    /\ within Wmax (_elements g) dist' pq'.
Proof.
  induction l as [|[x w] l IH]; intros I dist pq dist' pq' Wn D F; simpl in *.
  - inversion F. subst. split; [reflexivity|exact Wn].
  - assert (Ix : edge g u x w) by (apply I; now left).
    assert (Il : forall y, In y l -> In y (um_get [] u (adj g)))
      by (intros y Iy; apply I; now right).
    assert (Ex : In x (_elements g)) by (eapply known; exact Ix).
    pose proof (weights_within _ _ _ Ix) as Bw.
    rewrite (ExactnessFacts.relaxation_exact Wmax (_elements g) W_non_negative
               W_small dist d w D Bw) in F.
    destruct (Z.ltb_spec (d + w) (dist x)) as [R|R].
    + destruct (ExactnessFacts.within_relaxed Wmax (_elements g) W_non_negative
                  W_small dist pq x d w Wn Ex D Bw R) as [Wn' Lb].
      apply (IH Il) in F; [exact F|exact Wn'|lia].
    + apply (IH Il) in F; auto.
Qed.

(** When the queue has run empty, every set distance is the weight of a
    walk and every edge out of a vertex with a set distance is relaxed. *)
Lemma dijkstra_loop_labels :
  forall (fuel : nat) a (pq : list (Z * T)) dist dist' a',
    same_edges a (adj g) ->
    labels g start dist pq ->
    within Wmax (_elements g) dist pq ->
    (forall v, In v (_elements g) -> dist v <> dist_unset ->
       In (dist v, v) pq \/ tight dist v) ->
    dijkstra_loop fuel a pq dist = Some (dist', a') ->
    labels g start dist' []
    /\ (forall v, In v (_elements g) -> dist' v <> dist_unset -> tight dist' v).
Proof.
  induction fuel as [|fuel IH]; intros a pq dist dist' a' Sa L Wn P D;
    [discriminate|].
  simpl in D. destruct pq as [|p pq]; simpl in D.
  - inversion D. subst. split; [exact L|].
    intros v Iv Nv. destruct (P v Iv Nv) as [[]|Q]. exact Q.
  - destruct (pq_extract dist_vertex_ltb p pq) as [[d u] pq1] eqn:E.
    pose proof (pq_extract_keeps _ _ _ _ _ E) as Keep.
    apply pq_extract_spec in E. destruct E as (E1 & E2 & _).
    match type of D with
    | context [fold_left ?f ?l ?i] =>
        destruct (fold_left f l i) as [dist1 pq2] eqn:F
    end.
    apply dijkstra_step_exact with (u := u) in F;
      [|intros x Ix; now rewrite um_get_touch, Sa in Ix
       |constructor; [apply Wn|intros q Iq; apply Wn; now apply E2]
       |exact (within_queue _ _ _ _ Wn _ E1)].
    destruct F as [F Wn1].
    apply dijkstra_step_labels with (u := u) in F.
    + destruct F as [L1 P1].
      eapply IH; [apply same_edges_touch; exact Sa|exact L1|exact Wn1| |exact D].
      intros v Iv Nv. destruct (P1 v Iv Nv) as [Q|[Q|(-> & Q2 & Q3)]]; auto.
      right. intros x w Ex. rewrite Q2. now apply Q3.
    + exact (labels_queue _ _ _ _ L _ E1).
    + intros x Ix. now rewrite um_get_touch, Sa in Ix.
    + destruct L as [L1 L2 L3 L4]. constructor; auto.
    + intros v Iv Nv. destruct (P v Iv Nv) as [Q|Q]; [|tauto].
      destruct (Keep _ Q) as [J|J]; [|tauto].
      inversion J. subst. right. right. split; [reflexivity|].
      split; [reflexivity|]. intros x w Ex. left.
      rewrite um_get_touch, Sa. exact Ex.
Qed.

(** With every edge relaxed, no walk of a weight below the sentinel beats
    the distance found. *)
Lemma relaxed_is_least (dist : T -> Z) :
  weights_non_negative g ->
  dist start <= 0 ->
  (forall v, In v (_elements g) -> dist v <> dist_unset -> tight dist v) ->
  forall v d, walk g start v d -> d < dist_unset -> dist v <= d.
Proof.
  intros P S R v d W. induction W as [|v x d w W IH E]; intros B; [exact S|].
  pose proof (P _ _ _ E). pose proof (walk_non_negative _ _ P W).
  specialize (IH ltac:(lia)).
  assert (N : dist v <> dist_unset) by lia.
  specialize (R v (walk_known _ _ W) N x w E). lia.
Qed.

Lemma initial_labels :
  labels g start (initial_dist (_elements g) start) [(0, start)].
Proof.
  constructor.
  - intros v Iv. destruct (vertex_eq_dec v start) as [->|N].
    + right. rewrite RelaxationFacts.initial_dist_start. constructor.
    + left. now apply RelaxationFacts.initial_dist_vertex.
  - intros p [<-|[]]. constructor.
  - intros v Iv. destruct (RelaxationFacts.initial_dist_values (_elements g) start v)
      as [-> | ->]; [|lia]. pose proof RelaxationFacts.dist_unset_positive. lia.
  - rewrite RelaxationFacts.initial_dist_start. lia.
Qed.

Lemma initial_within (pq : list (Z * T)) :
  (forall p, In p pq -> fst p = 0) ->
  within Wmax (_elements g) (initial_dist (_elements g) start) pq.
Proof.
  intros Q.
  assert (B : 0 <= label_bound Wmax (initial_dist (_elements g) start)
                     (_elements g)).
  { unfold label_bound.
    pose proof (ExactnessFacts.known_count_positive
                  (initial_dist (_elements g) start) start (_elements g)
                  start_known) as K.
    rewrite RelaxationFacts.initial_dist_start in K.
    specialize (K ltac:(discriminate)).
    apply Z.mul_nonneg_nonneg; lia. }
  constructor.
  - intros v Iv.
    destruct (RelaxationFacts.initial_dist_values (_elements g) start v)
      as [E|E]; [right; rewrite E; lia|now left].
  - intros p Ip. rewrite (Q p Ip). lia.
Qed.

(** The answer read from relaxed distances. *)
Lemma relaxed_result (dist : T -> Z) (end_ : T) :
  weights_non_negative g ->
  In end_ (_elements g) ->
  labels g start dist [] ->
  (forall v, In v (_elements g) -> dist v <> dist_unset -> tight dist v) ->
  shortest_distance dist_unset g start end_ (dist_result dist end_).
Proof.
  intros P Ie [L1 _ L3 L4] R. unfold dist_result, shortest_distance.
  pose proof (relaxed_is_least dist P L4 R end_) as Least.
  destruct (Z.eqb_spec (dist end_) dist_unset) as [E|N].
  - left. split; [reflexivity|]. intros d W.
    destruct (Z.lt_ge_cases d dist_unset) as [B|B]; [|exact B].
    specialize (Least d W B). lia.
  - right. destruct (L1 end_ Ie) as [E|W]; [contradiction|].
    specialize (L3 end_ Ie). pose proof (walk_non_negative _ _ P W).
    repeat split; try lia; [exact W|].
    intros d Wd. destruct (Z.lt_ge_cases d dist_unset) as [B|B]; [|lia].
    exact (Least d Wd B).
Qed.

(** What the queue-driven branch returns. *)
Lemma dijkstra_result (fuel : nat) (g1 g' : weighted_graph T) (end_ : T)
    (r : Z) :
  weights_non_negative g ->
  In end_ (_elements g) ->
  same_edges (adj g1) (adj g) ->
  _elements g1 = _elements g ->
  dijkstra fuel g1 start end_ = Some (r, g') ->
  shortest_distance dist_unset g start end_ r.
Proof.
  intros P Ie S1 E1 D. unfold dijkstra in D. rewrite E1 in D.
  destruct (dijkstra_loop fuel (adj g1) [(0, start)]
              (initial_dist (_elements g) start))
    as [[dist a']|] eqn:L; [|discriminate].
  inversion D. subst r g'.
  apply dijkstra_loop_labels in L.
  - destruct L as [L1 L2]. now apply relaxed_result.
  - exact S1.
  - apply initial_labels.
  - apply initial_within. intros p [<-|[]]. reflexivity.
  - intros v Iv Nv. left. destruct (vertex_eq_dec v start) as [->|N].
    + rewrite RelaxationFacts.initial_dist_start. now left.
    + now rewrite RelaxationFacts.initial_dist_vertex in Nv.
Qed.
End WithVertex.
End DijkstraFacts.

Section NonNegativeWeights.
Import WeightedGraph WeightedSpec.
Context {T : Type} `{Vertex T}.

Lemma push_back_non_negative (a : list (T * list (T * Z))) (u v : T) (w : Z) :
  0 <= w ->
  (forall x y c, In (y, c) (um_get [] x a) -> 0 <= c) ->
  forall x y c,
    In (y, c) (um_get [] x (um_modify [] u (fun l => l ++ [(v, w)]) a)) ->
    0 <= c.
Proof.
  intros P K x y c J. rewrite um_get_modify in J.
  destruct (vertex_eq_dec x u).
  - apply in_app_or in J. destruct J as [J|[J|[]]].
    + eapply K. exact J.
    + inversion J. now subst.
  - eapply K. exact J.
Qed.

Lemma add_edge_non_negative (g : weighted_graph T) (u v : T) (w : Z) :
  0 <= w -> weights_non_negative g -> weights_non_negative (add_edge g u v w).
Proof.
  intros P K. apply double_round_sign in P.
  unfold weights_non_negative, edge, add_edge. simpl.
  destruct (_type g =? "undirected")%string.
  - apply push_back_non_negative; [exact P|].
    apply push_back_non_negative; [exact P|exact K].
  - destruct (_type g =? "directed")%string; [|exact K].
    apply push_back_non_negative; [exact P|exact K].
Qed.

(** A graph constructed from edges without negative weights stores none. *)
Lemma ctor_non_negative (mode : string) (adj_ : list ((T * T) * Z)) :
  (forall e, In e adj_ -> 0 <= snd e) ->
  weights_non_negative (object (weighted_graph_ctor mode adj_)).
Proof.
  unfold weighted_graph_ctor, ctor_try.
  destruct ((mode =? "directed") || (mode =? "undirected"))%string; simpl.
  - match goal with
    | |- _ -> weights_non_negative (fold_left ?f adj_ ?g0) =>
        assert (K0 : weights_non_negative g0) by (intros u v w []);
        revert K0; generalize g0
    end.
    induction adj_ as [|e adj_ IH]; intros g0 K0 P; simpl; [exact K0|].
    apply IH.
    + apply add_edge_non_negative; [|exact K0]. apply P. now left.
    + intros e' I. apply P. now right.
  - intros _ u v w [].
Qed.
End NonNegativeWeights.

(** ** Which vertices [topological_sort] leaves out *)

Module CompletenessFacts.
Import Graph GraphSpec.
Section WithVertex.
Context {T : Type} `{Vertex T}.

Lemma in_edges_source (a0 : list (T * list T)) (L : list T) (x : T) :
  in_edges a0 L x <> 0 -> exists u, In u L /\ In x (um_get [] u a0).
Proof.
  induction L as [|u L IH]; simpl; intros N; [congruence|].
  destruct (in_dec vertex_eq_dec x (um_get [] u a0)) as [I|I].
  - exists u. tauto.
  - apply (count_occ_not_In vertex_eq_dec) in I. rewrite I in N.
    destruct (IH N) as (u' & I1 & I2). exists u'. tauto.
Qed.

Lemma in_edges_none (a0 : list (T * list T)) (L : list T) (x : T) :
  (forall u, In u L -> ~ In x (um_get [] u a0)) -> in_edges a0 L x = 0.
Proof.
  induction L as [|u L IH]; simpl; intros N; [reflexivity|].
  rewrite IH by (intros u' I; apply N; now right).
  assert (J : ~ In x (um_get [] u a0)) by (apply N; now left).
  apply (count_occ_not_In vertex_eq_dec) in J. rewrite J. reflexivity.
Qed.

Section Loop.
Variable a0 : list (T * list T).
Variable E : list T.
Hypothesis nodup : NoDup E.
Hypothesis known : forall u x, In x (um_get [] u a0) -> In x E.

(** A vertex that has not been queued still has a counter above zero. *)
Lemma kahn_neighbours_waiting (l : list T) :
  forall (indeg : T -> Z) (q visited : list T) indeg' q' visited',
    (forall x, In x E -> ~ In x visited -> indeg x <> 0) ->
    fold_left
      (fun '(indeg, q, visited) x =>
         if set_mem x visited then (indeg, q, visited)
         else
           let d := indeg x - 1 in
           if d =? 0 then (fupd indeg x d, q ++ [x], x :: visited)
           else (fupd indeg x d, q, visited))
      l (indeg, q, visited) = (indeg', q', visited') ->
    forall x, In x E -> ~ In x visited' -> indeg' x <> 0.
Proof.
  induction l as [|x l IH]; intros indeg q visited indeg' q' visited' W F;
    simpl in F.
  - inversion F. now subst.
  - destruct (set_mem x visited); [eapply IH; eauto|].
    destruct (Z.eqb_spec (indeg x - 1) 0) as [D|D].
    + eapply IH; [|exact F]. intros y Iy Ny.
      rewrite fupd_other by (intros ->; apply Ny; now left).
      apply W; [exact Iy|]. intros J. apply Ny. now right.
    + eapply IH; [|exact F]. intros y Iy Ny.
      destruct (vertex_eq_dec y x) as [->|Ne].
      * now rewrite fupd_same.
      * rewrite fupd_other by exact Ne. now apply W.
Qed.

(** Whenever the loop ends, every vertex it has left out still has a
    stored edge into it from a vertex left out. *)
Lemma topological_loop_left_out :
  forall (fuel : nat) a indeg q visited top_sort order a',
    same_edges a a0 ->
    kahn_invariant a0 E [] q visited indeg top_sort ->
    (forall x, In x E -> ~ In x visited -> indeg x <> 0) ->
    topological_loop fuel a indeg q visited top_sort = Some (order, a') ->
    forall x, In x E -> ~ In x order ->
      in_edges a0 (unprocessed E order) x <> 0.
Proof.
  induction fuel as [|fuel IH];
    intros a indeg q visited top_sort order a' S I W L; [discriminate|].
  destruct q as [|current q]; simpl in L.
  - inversion L. subst. destruct I as [_ Iv _ Ic _ _].
    intros x Ix Nx.
    assert (Vx : ~ In x visited)
      by (intros J; apply Iv in J; now rewrite app_nil_r in J).
    specialize (W x Ix Vx). rewrite (Ic x Vx) in W. simpl in W. lia.
  - match type of L with
    | context [fold_left ?f ?l ?i] =>
        destruct (fold_left f l i) as [[indeg' q'] visited'] eqn:F
    end.
    rewrite um_get_touch, S in F.
    pose proof (kahn_neighbours_waiting _ _ _ _ _ _ _ W F) as W'.
    destruct I as [Id Iv Ik Ic Iq Io].
    assert (Ec : In current E) by (apply Ik; now left).
    assert (Nc : ~ In current top_sort).
    { intros J. apply NoDup_remove_2 in Id. apply Id. apply in_or_app. now left. }
    apply TopologicalFacts.kahn_neighbours
      with (top_sort := top_sort ++ [current]) (a0 := a0) (E := E) in F.
    + eapply IH; [|exact F|exact W'|exact L].
      now apply TopologicalFacts.graph_same_edges_touch.
    + intros x. apply known.
    + split.
      * now rewrite <- app_assoc.
      * intros x. rewrite Iv, <- app_assoc. reflexivity.
      * intros x Ix. apply Ik. now right.
      * intros x Nx. rewrite (Ic x Nx). simpl.
        rewrite (TopologicalFacts.unprocessed_step a0 E top_sort current x
                   nodup Ec Nc). lia.
      * intros x u Ix Iu Ie. apply in_or_app. left.
        eapply Iq; [right; exact Ix|exact Iu|exact Ie].
      * intros x u Ix Iu Ie. apply in_app_or in Ix. destruct Ix as [Ix|[<-|[]]].
        -- apply TopologicalFacts.precedes_app. now apply Io.
        -- apply TopologicalFacts.precedes_last.
           eapply Iq; [now left|exact Iu|exact Ie].
Qed.
End Loop.

Lemma unprocessed_spec (E done : list T) (u : T) :
  In u (unprocessed E done) -> In u E /\ ~ In u done.
Proof.
  unfold unprocessed. intros I. apply filter_In in I. destruct I as [I N].
  split; [exact I|]. apply negb_true_iff in N. now apply set_mem_false.
Qed.

(** Whenever [topological_sort] returns, a vertex missing from the output
    has a stored edge into it from another missing vertex. *)
Lemma topological_sort_left_out (fuel : nat) (g g' : graph T) (order : list T) :
  NoDup (_elements g) ->
  (forall u x, edge g u x -> In x (_elements g)) ->
  topological_sort fuel g = Some (order, g') ->
  forall x, In x (_elements g) -> ~ In x order ->
    exists u, In u (_elements g) /\ ~ In u order /\ edge g u x.
Proof.
  intros D K R x Ix Nx. unfold topological_sort in R.
  destruct (TopologicalFacts.indegrees_spec (adj g) (_elements g)) as [S V].
  destruct (indegrees (adj g) (_elements g)) as [indeg a]. simpl in S, V.
  match type of R with
  | context [topological_loop ?f ?a ?i ?q ?v ?t] =>
      destruct (topological_loop f a i q v t) as [[o a']|] eqn:L; [|discriminate]
  end.
  inversion R. subst o.
  apply topological_loop_left_out with (a0 := adj g) (E := _elements g) (x := x)
    in L; auto.
  - apply in_edges_source in L. destruct L as (u & Iu & Eu).
    apply unprocessed_spec in Iu. exists u. tauto.
  - split.
    + simpl. now apply NoDup_filter.
    + intros y. reflexivity.
    + intros y Iy. apply filter_In in Iy. tauto.
    + intros y Ny. simpl. rewrite V.
      replace (unprocessed (_elements g) []) with (_elements g); [lia|].
      unfold unprocessed. symmetry. apply forallb_filter_id.
      apply forallb_forall. reflexivity.
    + intros y u Iy Iu Ie. simpl in Iy. apply filter_In in Iy.
      destruct Iy as [_ Zy]. apply Z.eqb_eq in Zy. rewrite V in Zy.
      exfalso. eapply TopologicalFacts.in_edges_zero; [exact Zy|exact Iu|exact Ie].
    + intros y u [].
  - intros y Iy Ny Zy. apply Ny. apply filter_In. split; [exact Iy|].
    now apply Z.eqb_eq.
Qed.

(** With a numbering that increases along every stored edge, nothing is
    left out. *)
Lemma ranked_complete (g : graph T) (rank : T -> nat) (order : list T) :
  (forall u v, edge g u v -> (rank u < rank v)%nat) ->
  (forall x, In x (_elements g) -> ~ In x order ->
     exists u, In u (_elements g) /\ ~ In u order /\ edge g u x) ->
  forall x, In x (_elements g) -> In x order.
Proof.
  intros R L.
  assert (A : forall n x, (rank x < n)%nat -> In x (_elements g) -> In x order).
  { induction n as [|n IH]; intros x B Ix; [lia|].
    destruct (in_dec vertex_eq_dec x order) as [I|N]; [exact I|].
    destruct (L x Ix N) as (u & Iu & Nu & Eu). exfalso. apply Nu.
    apply IH; [|exact Iu]. apply R in Eu. lia. }
  intros x. apply (A (S (rank x))). lia.
Qed.
End WithVertex.
End CompletenessFacts.

(** X14.  Whenever [graph<T>::topological_sort()] returns, on a graph whose
    vertex set has no repetition and covers the adjacency map, every vertex
    missing from the output has a stored edge into it from another vertex
    that is missing too: only vertices on a cycle or behind one are left
    out. *)
Theorem topological_sort_leaves_out_only_cycles :
  forall (T : Type) `(Vertex T) (g g' : Graph.graph T) (fuel : nat)
         (order : list T),
    NoDup (Graph._elements g) ->
    GraphSpec.vertices_cover_adjacency g ->
    Graph.topological_sort fuel g = Some (order, g') ->
    forall x, In x (Graph._elements g) -> ~ In x order ->
      exists u, In u (Graph._elements g) /\ ~ In u order
                /\ GraphSpec.edge g u x.
Proof.
  intros T VT g g' fuel order D [Ck Cv] R.
  apply (CompletenessFacts.topological_sort_left_out fuel g g' order D); auto.
  intros u x I. unfold GraphSpec.edge in I.
  destruct (um_get_in [] u (Graph.adj g)) as [N|J].
  - rewrite N in I. destruct I.
  - eapply Cv; eauto.
Qed.

Lemma topological_sort_leaves_out_only_cycles_witness :
  exists order g',
    Graph.topological_sort 10 Scenario.tail_into_cycle = Some (order, g')
    /\ forall x, In x (Graph._elements Scenario.tail_into_cycle) ->
         ~ In x order ->
         exists u, In u (Graph._elements Scenario.tail_into_cycle)
                   /\ ~ In u order
                   /\ GraphSpec.edge Scenario.tail_into_cycle u x.
Proof.
  eexists. eexists. split; [vm_compute; reflexivity|].
  eapply (topological_sort_leaves_out_only_cycles Z Z_Vertex
            Scenario.tail_into_cycle _ 10).
  - apply TopologicalFacts.ctor_elements_nodup.
  - apply InvariantFacts.ctor_covered.
  - vm_compute. reflexivity.
Defined.

(** X15.  On a graph that has a topological numbering (a rank that grows
    along every stored edge, which is what being acyclic means),
    [graph<T>::topological_sort()] returns for every large enough bound, and
    its output holds every vertex exactly once and has u before v for every
    stored edge (u,v). *)
Theorem topological_sort_of_a_ranked_graph :
  forall (T : Type) `(Vertex T) (g : Graph.graph T) (rank : T -> nat),
    NoDup (Graph._elements g) ->
    GraphSpec.vertices_cover_adjacency g ->
    (forall u v, GraphSpec.edge g u v -> (rank u < rank v)%nat) ->
    exists fuel0, forall fuel, (fuel0 <= fuel)%nat ->
      exists order g',
        Graph.topological_sort fuel g = Some (order, g')
        /\ Permutation order (Graph._elements g)
        /\ forall u v, GraphSpec.edge g u v -> precedes u v order.
Proof.
  intros T VT g rank D [Ck Cv] Rk.
  exists (S (List.length (Graph._elements g)
             + List.length (GraphSpec.targets (Graph.adj g)))).
  intros fuel L.
  destruct (TopologicalFacts.topological_sort_total fuel g ltac:(lia))
    as (order & g' & R).
  exists order, g'. split; [exact R|].
  assert (K : forall u x, GraphSpec.edge g u x -> In x (Graph._elements g)).
  { intros u x I. unfold GraphSpec.edge in I.
    destruct (um_get_in [] u (Graph.adj g)) as [N|J].
    - rewrite N in I. destruct I.
    - eapply Cv; eauto. }
  destruct (TopologicalFacts.topological_sort_order fuel g g' order D K R)
    as (O1 & O2 & O3).
  pose proof (CompletenessFacts.ranked_complete g rank order Rk
                (CompletenessFacts.topological_sort_left_out
                   fuel g g' order D K R)) as All.
  split.
  - apply NoDup_Permutation; [exact O1|exact D|].
    intros x. split; [apply O2|apply All].
  - intros u v Euv.
    assert (Iu : In u (Graph._elements g)).
    { unfold GraphSpec.edge in Euv.
      destruct (um_get_in [] u (Graph.adj g)) as [N|J].
      - rewrite N in Euv. destruct Euv.
      - apply Ck. unfold um_keys. now apply (in_map fst) in J. }
    apply O3; [exact Iu|exact Euv|]. apply All. eapply K. exact Euv.
Qed.

Lemma topological_sort_of_a_ranked_graph_witness :
  let g := object (Graph.graph_ctor (T:=Z) "directed"
                     [(1, [2; 3]); (2, [4]); (3, [4])]) in
  exists fuel0, forall fuel, (fuel0 <= fuel)%nat ->
    exists order g',
      Graph.topological_sort fuel g = Some (order, g')
      /\ Permutation order (Graph._elements g)
      /\ forall u v, GraphSpec.edge g u v -> precedes u v order.
Proof.
  intros g.
  apply (topological_sort_of_a_ranked_graph Z Z_Vertex g
           (fun v => if v =? 1 then 0%nat else if v =? 4 then 2%nat else 1%nat)).
  - apply TopologicalFacts.ctor_elements_nodup.
  - apply InvariantFacts.ctor_covered.
  - intros u v E. unfold GraphSpec.edge in E.
    destruct (um_get_in [] u (Graph.adj g)) as [N|J].
    + rewrite N in E. destruct E.
    + vm_compute in J.
      repeat (destruct J as [J|J];
              [inversion J as [[Ju Jl]]; subst u; vm_compute in E;
               repeat (destruct E as [<-|E]; [vm_compute; lia|]); destruct E|]).
      destruct J.
Defined.

(** ** The weighted graph and the unweighted graph under it *)

Lemma fold_left_map {A B C : Type} (f : A -> C -> A) (h : B -> C) (l : list B) :
  forall s, fold_left f (map h l) s = fold_left (fun s x => f s (h x)) l s.
Proof. induction l as [|x l IH]; intros s; simpl; [reflexivity|apply IH]. Qed.

Lemma fold_left_pointwise {A B : Type} (f g : A -> B -> A) (l : list B) :
  forall s, (forall s x, f s x = g s x) -> fold_left f l s = fold_left g l s.
Proof.
  induction l as [|x l IH]; intros s E; simpl; [reflexivity|].
  rewrite E. now apply IH.
Qed.

Module SkeletonFacts.
Import WeightedSpec.
Section WithVertex.
Context {T : Type} `{Vertex T}.

Lemma um_find_forget (k : T) (a : list (T * list (T * Z))) :
  um_find k (forget a) = option_map (map fst) (um_find k a).
Proof.
  induction a as [|[k' l] a IH]; simpl; [reflexivity|].
  destruct (vertex_eq_dec k k'); [reflexivity|exact IH].
Qed.

Lemma um_get_forget (k : T) (a : list (T * list (T * Z))) :
  um_get [] k (forget a) = map fst (um_get [] k a).
Proof.
  unfold um_get. rewrite um_find_forget. now destruct (um_find k a).
Qed.

Lemma um_touch_forget (k : T) (a : list (T * list (T * Z))) :
  um_touch [] k (forget a) = forget (um_touch [] k a).
Proof.
  unfold um_touch. induction a as [|[k' l] a IH]; simpl; [reflexivity|].
  destruct (vertex_eq_dec k k'); simpl; [reflexivity|]. now rewrite IH.
Qed.

Lemma indegrees_forget (E : list T) :
  forall (indeg : T -> Z) (a : list (T * list (T * Z))),
    fold_left
      (fun '(indeg, a) x =>
         let a' := um_touch [] x a in
         (fold_left (fun indeg y => fupd indeg y (indeg y + 1))
            (um_get [] x a') indeg, a'))
      E (indeg, forget a)
    = (fst (fold_left
              (fun '(indeg, a) x =>
                 let a' := um_touch [] x a in
                 (fold_left
                    (fun indeg y => fupd indeg (fst y) (indeg (fst y) + 1))
                    (um_get [] x a') indeg, a'))
              E (indeg, a)),
       forget (snd (fold_left
              (fun '(indeg, a) x =>
                 let a' := um_touch [] x a in
                 (fold_left
                    (fun indeg y => fupd indeg (fst y) (indeg (fst y) + 1))
                    (um_get [] x a') indeg, a'))
              E (indeg, a)))).
Proof.
  induction E as [|x E IH]; intros indeg a; simpl; [reflexivity|].
  rewrite um_touch_forget, um_get_forget, fold_left_map. apply IH.
Qed.

(** Two folds over the same list from the same state whose step functions
    agree on every state and element. *)
Ltac same_fold :=
  match goal with
  | |- context [fold_left ?f1 ?l ?i] =>
      match goal with
      | |- context [fold_left ?f2 l i] =>
          tryif constr_eq f1 f2 then fail
          else rewrite (fold_left_pointwise f1 f2 l i)
                 by (intros;
                     repeat match goal with
                            | p : (_ * _)%type |- _ => destruct p
                            end;
                     reflexivity)
      end
  end.

Lemma cycle_loop_forget :
  forall (fuel : nat) (a : list (T * list (T * Z))) indeg q visited,
    Graph.cycle_loop fuel (forget a) indeg q visited
    = option_map (fun r => (fst r, forget (snd r)))
        (WeightedGraph.cycle_loop fuel a indeg q visited).
Proof.
  induction fuel as [|fuel IH]; intros a indeg q visited; [reflexivity|].
  destruct q as [|current q]; simpl; [reflexivity|].
  rewrite um_touch_forget, um_get_forget, fold_left_map. same_fold.
  match goal with
  | |- context [fold_left ?f ?l ?i] => destruct (fold_left f l i) as [indeg' q']
  end.
  apply IH.
Qed.

Lemma topological_loop_forget :
  forall (fuel : nat) (a : list (T * list (T * Z))) indeg q visited top_sort,
    Graph.topological_loop fuel (forget a) indeg q visited top_sort
    = option_map (fun r => (fst r, forget (snd r)))
        (WeightedGraph.topological_loop fuel a indeg q visited top_sort).
Proof.
  induction fuel as [|fuel IH]; intros a indeg q visited top_sort;
    [reflexivity|].
  destruct q as [|current q]; simpl; [reflexivity|].
  rewrite um_touch_forget, um_get_forget, fold_left_map. same_fold.
  match goal with
  | |- context [fold_left ?f ?l ?i] =>
      destruct (fold_left f l i) as [[indeg' q'] visited']
  end.
  apply IH.
Qed.

Lemma cycle_forget (fuel : nat) (g : WeightedGraph.weighted_graph T) :
  Graph.cycle fuel (skeleton g)
  = option_map (fun r => (fst r, skeleton (snd r)))
      (WeightedGraph.cycle fuel g).
Proof.
  unfold Graph.cycle, Graph.kahn_removed, WeightedGraph.cycle,
    WeightedGraph.kahn_removed, Graph.indegrees, WeightedGraph.indegrees.
  simpl. rewrite indegrees_forget.
  match goal with
  | |- context [fold_left ?f ?l (?i, WeightedGraph.adj g)] =>
      destruct (fold_left f l (i, WeightedGraph.adj g)) as [indeg a]
  end.
  simpl. rewrite cycle_loop_forget.
  match goal with
  | |- context [WeightedGraph.cycle_loop ?f ?a ?i ?q ?v] =>
      destruct (WeightedGraph.cycle_loop f a i q v) as [[n a']|]
  end; reflexivity.
Qed.

Lemma topological_sort_forget (fuel : nat)
    (g : WeightedGraph.weighted_graph T) :
  Graph.topological_sort fuel (skeleton g)
  = option_map (fun r => (fst r, skeleton (snd r)))
      (WeightedGraph.topological_sort fuel g).
Proof.
  unfold Graph.topological_sort, WeightedGraph.topological_sort,
    Graph.indegrees, WeightedGraph.indegrees.
  simpl. rewrite indegrees_forget.
  match goal with
  | |- context [fold_left ?f ?l (?i, WeightedGraph.adj g)] =>
      destruct (fold_left f l (i, WeightedGraph.adj g)) as [indeg a]
  end.
  simpl. rewrite topological_loop_forget.
  match goal with
  | |- context [WeightedGraph.topological_loop ?f ?a ?i ?q ?v ?t] =>
      destruct (WeightedGraph.topological_loop f a i q v t) as [[o a']|]
  end; reflexivity.
Qed.

Lemma skeleton_edge (g : WeightedGraph.weighted_graph T) (u v : T) :
  GraphSpec.edge (skeleton g) u v <-> exists w, edge g u v w.
Proof.
  unfold GraphSpec.edge, edge. simpl. rewrite um_get_forget, in_map_iff.
  split.
  - intros ([x w] & <- & I). now exists w.
  - intros (w & I). now exists (v, w).
Qed.
End WithVertex.
End SkeletonFacts.

(** X16.  [cycle()] and [topological_sort()] of the weighted graph return
    what the functions of the same name of the unweighted graph return on
    the graph with the weights dropped, run out of their bound on the same
    inputs, and leave the graph in the matching state. *)
Theorem weighted_kahn_agrees_with_unweighted :
  forall (T : Type) `(Vertex T) (g : WeightedGraph.weighted_graph T)
         (fuel : nat),
    Graph.cycle fuel (WeightedSpec.skeleton g)
    = option_map (fun r => (fst r, WeightedSpec.skeleton (snd r)))
        (WeightedGraph.cycle fuel g)
    /\ Graph.topological_sort fuel (WeightedSpec.skeleton g)
       = option_map (fun r => (fst r, WeightedSpec.skeleton (snd r)))
           (WeightedGraph.topological_sort fuel g).
Proof.
  intros T VT g fuel. split.
  - apply SkeletonFacts.cycle_forget.
  - apply SkeletonFacts.topological_sort_forget.
Qed.

(** ** The branch of [shortest_path] along the topological order *)

Module DagFacts.
Import WeightedGraph WeightedSpec KahnFacts.
Section WithVertex.
Context {T : Type} `{NumericVertex T}.
Variable g : weighted_graph T.
Variable start : T.
Hypothesis known : neighbours_known g.
Hypothesis start_known : In start (_elements g).

Local Abbreviation tight dist v :=
  (forall x w, edge g v x w -> dist x <= dist v + w).

Lemma dag_step_labels (current : T) (l : list (T * Z)) :
  In current (_elements g) ->
  (forall x, In x l -> In x (um_get [] current (adj g))) ->
  forall dist stack dist' stack',
    labels g start dist [] ->
    dist current <> dist_unset ->
    (forall y, In y stack -> In y (_elements g)) ->
    (forall v, In v (_elements g) -> dist v <> dist_unset ->
       In v stack \/ tight dist v
       \/ (v = current
           /\ forall x w, edge g current x w ->
                In (x, w) l \/ dist x <= dist current + w)) ->
    fold_left
      (fun '(dist, top_sort) x =>
         if dist (fst x) >? dist current + snd x
         then (fupd dist (fst x) (dist current + snd x), fst x :: top_sort)
         else (dist, top_sort))
      l (dist, stack) = (dist', stack') ->
    labels g start dist' []
    /\ (forall y, In y stack' -> In y (_elements g))
    /\ (forall v, In v (_elements g) -> dist' v <> dist_unset ->
          In v stack' \/ tight dist' v).
Proof.
  intros Ic. induction l as [|[x w] l IH];
    intros I dist stack dist' stack' L C S P F; simpl in F.
  - inversion F. subst. split; [exact L|]. split; [exact S|].
    intros v Iv Nv. destruct (P v Iv Nv) as [Q|[Q|(-> & Q)]]; auto.
    right. intros x w E. destruct (Q x w E) as [[]|Q']. exact Q'.
  - assert (Ix : edge g current x w) by (apply I; now left).
    assert (Il : forall y, In y l -> In y (um_get [] current (adj g)))
      by (intros y Iy; apply I; now right).
    assert (Ex : In x (_elements g)) by (eapply known; exact Ix).
    destruct L as [L1 L2 L3 L4].
    rewrite Z.gtb_ltb in F.
    destruct (Z.ltb_spec (dist current + w) (dist x)) as [R|R].
    + assert (Le : forall y, fupd dist x (dist current + w) y <= dist y).
      { intros y. unfold fupd. destruct (vertex_eq_dec y x) as [->|N]; lia. }
      assert (Wc : walk g start current (dist current))
        by (destruct (L1 current Ic) as [U|W]; [contradiction|exact W]).
      apply (IH Il) in F; [exact F| | | |].
      * constructor.
        -- intros v Iv. unfold fupd. destruct (vertex_eq_dec v x) as [->|N].
           ++ right. eapply walk_step; [exact Wc|exact Ix].
           ++ now apply L1.
        -- intros p [].
        -- intros v Iv. specialize (Le v). specialize (L3 v Iv). lia.
        -- specialize (Le start). lia.
      * specialize (Le current). specialize (L3 current Ic).
        unfold fupd in *. destruct (vertex_eq_dec current x) as [->|N]; lia.
      * intros y [<-|Iy]; [exact Ex|now apply S].
      * intros v Iv Nv. destruct (vertex_eq_dec v x) as [->|N].
        -- left. now left.
        -- assert (Ev : fupd dist x (dist current + w) v = dist v)
             by (apply fupd_other; congruence).
           rewrite Ev in Nv.
           destruct (P v Iv Nv) as [Q|[Q|(Q1 & Q3)]].
           ++ left. now right.
           ++ right. left. intros y wy E. rewrite Ev.
              specialize (Q y wy E). specialize (Le y). lia.
           ++ right. right. subst v. split; [reflexivity|].
              rewrite Ev. intros y wy E. destruct (Q3 y wy E) as [[J|J]|J].
              ** inversion J. subst. right. rewrite fupd_same. lia.
              ** now left.
              ** right. specialize (Le y). lia.
    + apply (IH Il) in F; [exact F|now constructor|exact C|exact S|].
      intros v Iv Nv. destruct (P v Iv Nv) as [Q|[Q|(Q1 & Q3)]]; auto.
      right. right. split; [exact Q1|]. intros y wy E.
      destruct (Q3 y wy E) as [[J|J]|J]; auto.
      inversion J. subst. right. lia.
Qed.

(** The weights lie between 0 and [Wmax], and [Wmax] times the number of
    vertices is at most 2^53. *)
Variable Wmax : Z.
Hypothesis weights_within : forall u v w, edge g u v w -> 0 <= w <= Wmax.
Hypothesis W_non_negative : 0 <= Wmax.
Hypothesis W_small : Z.of_nat (List.length (_elements g)) * Wmax <= 2 ^ 53.

(** Within the bound, the sums of one pass over the edges of [current] are
    not rounded. *)
Lemma dag_step_exact (current : T) (l : list (T * Z)) :
  In current (_elements g) ->
  (forall x, In x l -> In x (um_get [] current (adj g))) ->
  forall dist stack dist' stack',
    within Wmax (_elements g) dist [] ->
    dist current <> dist_unset ->
    fold_left
      (fun '(dist, top_sort) x =>
         if dist (fst x) >? double_add (dist current) (snd x)
         then (fupd dist (fst x) (double_add (dist current) (snd x)),
               fst x :: top_sort)
         else (dist, top_sort))
      l (dist, stack) = (dist', stack') ->
    fold_left
      (fun '(dist, top_sort) x =>
         if dist (fst x) >? dist current + snd x
         then (fupd dist (fst x) (dist current + snd x), fst x :: top_sort)
         else (dist, top_sort))
      l (dist, stack) = (dist', stack')
    /\ within Wmax (_elements g) dist' [].
Proof.
  intros Ic. induction l as [|[x w] l IH];
    intros I dist stack dist' stack' Wn C F; simpl in *.
  - inversion F. subst. split; [reflexivity|exact Wn].
  - assert (Ix : edge g current x w) by (apply I; now left).
    assert (Il : forall y, In y l -> In y (um_get [] current (adj g)))
      by (intros y Iy; apply I; now right).
    assert (Ex : In x (_elements g)) by (eapply known; exact Ix).
    pose proof (weights_within _ _ _ Ix) as Bw.
    assert (D : 0 <= dist current <= label_bound Wmax dist (_elements g)).
    { destruct (within_dist _ _ _ _ Wn current Ic) as [U|B];
        [contradiction|exact B]. }
    rewrite (ExactnessFacts.relaxation_exact Wmax (_elements g) W_non_negative
               W_small dist (dist current) w D Bw) in F.
    rewrite Z.gtb_ltb in F. rewrite Z.gtb_ltb.
    destruct (Z.ltb_spec (dist current + w) (dist x)) as [R|R].
    + destruct (ExactnessFacts.within_relaxed Wmax (_elements g) W_non_negative
                  W_small dist [] x (dist current) w Wn Ex D Bw R) as [Wn' Lb].
      apply (IH Il) in F; [exact F| |].
      * constructor; [apply Wn'|intros p []].
      * unfold fupd. destruct (vertex_eq_dec current x); [|exact C].
        pose proof (ExactnessFacts.label_bound_small Wmax (_elements g)
                      W_non_negative W_small dist).
        assert (2 ^ 53 < dist_unset) by reflexivity. lia.
    + apply (IH Il) in F; auto.
Qed.

(** When the work list has run empty, every set distance is the weight of
    a walk and every edge out of a vertex with a set distance is relaxed. *)
Lemma dag_loop_labels :
  forall (fuel : nat) a stack dist dist' a',
    same_edges a (adj g) ->
    labels g start dist [] ->
    within Wmax (_elements g) dist [] ->
    (forall y, In y stack -> In y (_elements g)) ->
    (forall v, In v (_elements g) -> dist v <> dist_unset ->
       In v stack \/ tight dist v) ->
    dag_loop fuel a stack dist = Some (dist', a') ->
    labels g start dist' []
    /\ (forall v, In v (_elements g) -> dist' v <> dist_unset -> tight dist' v).
Proof.
  induction fuel as [|fuel IH]; intros a stack dist dist' a' Sa L Wn S P D;
    [discriminate|].
  destruct stack as [|current rest]; simpl in D.
  - inversion D. subst. split; [exact L|].
    intros v Iv Nv. destruct (P v Iv Nv) as [[]|Q]. exact Q.
  - assert (Ic : In current (_elements g)) by (apply S; now left).
    assert (Sr : forall y, In y rest -> In y (_elements g))
      by (intros y Iy; apply S; now right).
    destruct (Z.eqb_spec (dist current) dist_unset) as [M|M].
    + eapply IH; [exact Sa|exact L|exact Wn|exact Sr| |exact D].
      intros v Iv Nv. destruct (P v Iv Nv) as [[<-|Q]|Q]; auto. contradiction.
    + match type of D with
      | context [fold_left ?f ?l ?i] =>
          destruct (fold_left f l i) as [dist1 stack1] eqn:F
      end.
      apply dag_step_exact in F;
        [|exact Ic|intros x Ix; now rewrite um_get_touch, Sa in Ix
         |exact Wn|exact M].
      destruct F as [F Wn1].
      apply dag_step_labels in F; auto.
      * destruct F as (L1 & S1 & P1).
        eapply IH; [apply same_edges_touch; exact Sa|exact L1|exact Wn1
                   |exact S1|exact P1|exact D].
      * intros x Ix. now rewrite um_get_touch, Sa in Ix.
      * intros v Iv Nv. destruct (P v Iv Nv) as [[<-|Q]|Q]; auto.
        right. right. split; [reflexivity|]. intros x w E. left.
        rewrite um_get_touch, Sa. exact E.
Qed.
End WithVertex.
End DagFacts.

Module BranchFacts.
Import WeightedGraph WeightedSpec KahnFacts.
Section WithVertex.
Context {T : Type} `{NumericVertex T}.
Variable g : weighted_graph T.
Variable start : T.
Hypothesis known : neighbours_known g.
Hypothesis start_known : In start (_elements g).

(** What the branch along the topological order returns when [start] is
    in the order, on a graph whose weights lie between 0 and [Wmax], with
    [Wmax] times the number of vertices at most 2^53. *)
Lemma dag_result (Wmax : Z) (fuel : nat) (g1 g' : weighted_graph T)
    (end_ : T) (r : Z) :
  (forall u v w, edge g u v w -> 0 <= w <= Wmax) ->
  0 <= Wmax ->
  Z.of_nat (List.length (_elements g)) * Wmax <= 2 ^ 53 ->
  weights_non_negative g ->
  In end_ (_elements g) ->
  same_edges (adj g1) (adj g) ->
  _elements g1 = _elements g ->
  (forall order g2, topological_sort fuel g1 = Some (order, g2) ->
                    In start order) ->
  relax_in_topological_order fuel g1 start end_ = Some (r, g') ->
  shortest_distance dist_unset g start end_ r.
Proof.
  intros Bw Bn Bs P Ie S1 E1 Io R. unfold relax_in_topological_order in R.
  destruct (topological_sort fuel g1) as [[order g2]|] eqn:O; [|discriminate].
  specialize (Io order g2 eq_refl).
  apply topological_sort_sound with (a0 := adj g) in O; auto.
  - destruct O as (S2 & E2 & _ & I2 & _). rewrite E2, E1 in R.
    destruct (dag_loop fuel (adj g2) order (initial_dist (_elements g) start))
      as [[dist a']|] eqn:D; [|discriminate].
    inversion R. subst r g'.
    apply DagFacts.dag_loop_labels
      with (g := g) (start := start) (Wmax := Wmax) in D; auto.
    + destruct D as [L1 L2]. now apply DijkstraFacts.relaxed_result.
    + destruct (DijkstraFacts.initial_labels g start) as [A1 _ A3 A4].
      constructor; auto. intros p [].
    + apply DijkstraFacts.initial_within; auto. intros p [].
    + intros y Iy. rewrite <- E1. now apply I2.
    + intros v Iv Nv. left. destruct (vertex_eq_dec v start) as [->|N].
      * exact Io.
      * now rewrite RelaxationFacts.initial_dist_vertex in Nv.
  - rewrite E1. now apply targets_known.
Qed.

(** Vertices with an unset distance are skipped. *)
Lemma dag_loop_skips :
  forall (fuel : nat) a stack (dist dist' : T -> Z) a',
    (forall y, In y stack -> dist y = dist_unset) ->
    dag_loop fuel a stack dist = Some (dist', a') ->
    dist' = dist.
Proof.
  induction fuel as [|fuel IH]; intros a stack dist dist' a' U D;
    [discriminate|].
  destruct stack as [|current rest]; simpl in D.
  - now inversion D.
  - rewrite (U current (or_introl eq_refl)), Z.eqb_refl in D.
    eapply IH; [|exact D]. intros y Iy. apply U. now right.
Qed.

(** What the branch returns when [start] is not in the order. *)
Lemma dag_result_left_out (fuel : nat) (g1 g' : weighted_graph T) (end_ : T)
    (r : Z) :
  In end_ (_elements g) ->
  end_ <> start ->
  same_edges (adj g1) (adj g) ->
  _elements g1 = _elements g ->
  (forall order g2, topological_sort fuel g1 = Some (order, g2) ->
                    ~ In start order) ->
  relax_in_topological_order fuel g1 start end_ = Some (r, g') ->
  r = -1.
Proof.
  intros Ie Ne S1 E1 Io R. unfold relax_in_topological_order in R.
  destruct (topological_sort fuel g1) as [[order g2]|] eqn:O; [|discriminate].
  specialize (Io order g2 eq_refl).
  apply topological_sort_sound with (a0 := adj g) in O; auto.
  - destruct O as (S2 & E2 & _ & I2 & _). rewrite E2, E1 in R.
    destruct (dag_loop fuel (adj g2) order (initial_dist (_elements g) start))
      as [[dist a']|] eqn:D; [|discriminate].
    inversion R. subst r g'.
    apply dag_loop_skips in D.
    + subst dist. unfold dist_result.
      rewrite RelaxationFacts.initial_dist_vertex by assumption.
      reflexivity.
    + intros y Iy. apply RelaxationFacts.initial_dist_vertex.
      * intros ->. contradiction.
      * rewrite <- E1. now apply I2.
  - rewrite E1. now apply targets_known.
Qed.

(** The order computed for the weighted graph is the one computed for the
    graph under it. *)
Lemma skeleton_order (fuel : nat) (g1 g2 : weighted_graph T)
    (order : list T) :
  topological_sort fuel g1 = Some (order, g2) ->
  Graph.topological_sort fuel (skeleton g1) = Some (order, skeleton g2).
Proof.
  intros O. rewrite SkeletonFacts.topological_sort_forget, O. reflexivity.
Qed.

Lemma skeleton_known (g1 : weighted_graph T) :
  same_edges (adj g1) (adj g) ->
  _elements g1 = _elements g ->
  forall u x, GraphSpec.edge (skeleton g1) u x ->
              In x (Graph._elements (skeleton g1)).
Proof.
  intros S1 E1 u x E. apply SkeletonFacts.skeleton_edge in E.
  destruct E as (w & E). unfold edge in E. rewrite S1 in E.
  simpl. rewrite E1. eapply known. exact E.
Qed.

Lemma reachable_extend_left (u v x : T) (w : Z) :
  edge g u v w -> reachable g v x -> reachable g u x.
Proof.
  intros E R. induction R as [|y z wz R IH Ez].
  - eapply reachable_step; [constructor|exact E].
  - eapply reachable_step; [exact IH|exact Ez].
Qed.

(** With a numbering of the vertices from which [start] can be reached
    that grows along every edge between them, the order holds [start]. *)
Lemma ranked_order (rank : T -> nat) (fuel : nat) (g1 g2 : weighted_graph T)
    (order : list T) :
  NoDup (_elements g) ->
  (forall u v w, edge g u v w -> reachable g v start ->
                 (rank u < rank v)%nat) ->
  same_edges (adj g1) (adj g) ->
  _elements g1 = _elements g ->
  topological_sort fuel g1 = Some (order, g2) ->
  In start order.
Proof.
  intros D Rk S1 E1 O. apply skeleton_order in O.
  assert (L : forall x, In x (_elements g) -> ~ In x order ->
                exists u w, In u (_elements g) /\ ~ In u order
                            /\ edge g u x w).
  { intros x Ix Nx.
    destruct (CompletenessFacts.topological_sort_left_out fuel (skeleton g1)
                (skeleton g2) order) with (x := x) as (u & Iu & Nu & Eu).
    - simpl. now rewrite E1.
    - now apply skeleton_known.
    - exact O.
    - simpl. now rewrite E1.
    - exact Nx.
    - apply SkeletonFacts.skeleton_edge in Eu. destruct Eu as (w & Eu).
      unfold edge in Eu. rewrite S1 in Eu. simpl in Iu. rewrite E1 in Iu.
      exists u, w. auto. }
  assert (A : forall n x, (rank x < n)%nat -> In x (_elements g) ->
                          reachable g x start -> In x order).
  { induction n as [|n IH]; intros x B Ix Rx; [lia|].
    destruct (in_dec vertex_eq_dec x order) as [I|N]; [exact I|].
    destruct (L x Ix N) as (u & w & Iu & Nu & Eu). exfalso. apply Nu.
    apply IH; [|exact Iu|].
    - specialize (Rk u x w Eu Rx). lia.
    - eapply reachable_extend_left; eauto. }
  apply (A (S (rank start))); [lia|exact start_known|constructor].
Qed.
End WithVertex.
End BranchFacts.

(** X17.  On a weighted graph whose weights lie between 0 and [W], where
    [W] times the number of vertices is at most 2^53 (no sum of distances
    is rounded), [shortest_path(start, end)] between two known vertices
    returns the least weight of a walk from [start] to [end], and -1 exactly
    when no walk has a weight below 2^63, the value that marks an unset
    distance, provided no cycle leads to [start]: the vertices
    from which [start] can be reached have a topological numbering, a rank
    that grows along every stored edge between them (on a directed acyclic
    graph all vertices have one; on an undirected graph only a [start]
    without edges has).  Every run that returns returns this, and the run
    returns for every large enough bound on its loops. *)
Theorem shortest_path_on_a_ranked_graph :
  forall (T : Type) `(NumericVertex T)
         (g : WeightedGraph.weighted_graph T) (start end_ : T)
         (rank : T -> nat) (W : Z),
    NoDup (WeightedGraph._elements g) ->
    WeightedSpec.neighbours_known g ->
    (forall u v w, WeightedSpec.edge g u v w -> 0 <= w <= W) ->
    Z.of_nat (List.length (WeightedGraph._elements g)) * W <= 2 ^ 53 ->
    (forall u v w,
        WeightedSpec.edge g u v w -> WeightedSpec.reachable g v start ->
        (rank u < rank v)%nat) ->
    In start (WeightedGraph._elements g) ->
    In end_ (WeightedGraph._elements g) ->
    (forall fuel r g',
        WeightedGraph.shortest_path fuel g start end_ = Some (r, g') ->
        WeightedSpec.shortest_distance WeightedGraph.dist_unset g start end_ r)
    /\ (exists fuel0, forall fuel, (fuel0 <= fuel)%nat ->
          exists r g',
            WeightedGraph.shortest_path fuel g start end_ = Some (r, g')).
Proof.
  intros T VT NT g start end_ rank W D K Bw Bs Rk Is Ie.
  assert (P : WeightedSpec.weights_non_negative g)
    by (intros u v w E; apply Bw in E; lia).
  assert (Bw' : forall u v w, WeightedSpec.edge g u v w ->
                              0 <= w <= Z.max W 0)
    by (intros u v w E; apply Bw in E; lia).
  assert (Bs' : Z.of_nat (List.length (WeightedGraph._elements g)) * Z.max W 0
                <= 2 ^ 53).
  { destruct (Z.max_spec W 0) as [[_ ->]|[_ ->]]; [|exact Bs].
    rewrite Z.mul_0_r. discriminate. }
  split.
  - intros fuel r g' S. unfold WeightedGraph.shortest_path in S.
    apply set_mem_true in Is, Ie. rewrite Is, Ie in S. simpl in S.
    apply set_mem_true in Is, Ie.
    destruct (WeightedGraph.cycle fuel g) as [[b g1]|] eqn:C; [|discriminate].
    apply KahnFacts.cycle_same_edges with (a0 := WeightedGraph.adj g) in C;
      [|apply KahnFacts.same_edges_refl].
    destruct C as (S1 & E1 & M1).
    destruct (negb b && (WeightedGraph._type g1 =? "directed")%string).
    + apply (BranchFacts.dag_result g start K Is (Z.max W 0) fuel g1 g' end_ r);
        auto; [lia|].
      intros order g2 O.
      now apply (BranchFacts.ranked_order g start K Is rank fuel g1 g2 order).
    + apply (DijkstraFacts.dijkstra_result g start K Is (Z.max W 0) Bw'
               ltac:(lia) Bs' fuel g1 g' end_ r); auto.
  - exists (WeightedSpec.enough_fuel g start). intros fuel L.
    now apply (RelaxationFacts.shortest_path_total g start end_ K).
Qed.

Lemma shortest_path_on_a_ranked_graph_witness :
  (forall fuel r g',
      WeightedGraph.shortest_path fuel Scenario.diamond 1 4 = Some (r, g') ->
      WeightedSpec.shortest_distance WeightedGraph.dist_unset
        Scenario.diamond 1 4 r)
  /\ (exists fuel0, forall fuel, (fuel0 <= fuel)%nat ->
        exists r g',
          WeightedGraph.shortest_path fuel Scenario.diamond 1 4
          = Some (r, g')).
Proof.
  apply (shortest_path_on_a_ranked_graph Z Z_NumericVertex Scenario.diamond
           1 4
           (fun v => if v =? 1 then 0%nat else if v =? 4 then 2%nat else 1%nat)
           4).
  - vm_compute.
    repeat (apply NoDup_cons; [simpl; intuition discriminate|]).
    apply NoDup_nil.
  - apply ctor_neighbours_known.
  - intros u v w E. apply edge_stored in E. destruct E as (l & J & E).
    vm_compute in J.
    repeat (destruct J as [J|J];
            [inversion J; subst u l; simpl in E;
             repeat (destruct E as [E|E]; [inversion E; subst v w; lia|]);
             destruct E|]).
    destruct J.
  - vm_compute. discriminate.
  - intros u v w E _. apply edge_stored in E. destruct E as (l & J & E).
    vm_compute in J.
    repeat (destruct J as [J|J];
            [inversion J; subst u l; simpl in E;
             repeat (destruct E as [E|E];
                     [inversion E; subst v w; vm_compute; lia|]);
             destruct E|]).
    destruct J.
  - vm_compute. tauto.
  - vm_compute. tauto.
Defined.

(** ** [shortest_path] from a vertex the topological order leaves out *)

Section PrecedesFacts.
Context {A : Type}.

Lemma split_unique (b : A) (p : list A) :
  forall q p' q',
    NoDup (p ++ b :: q) -> p ++ b :: q = p' ++ b :: q' -> p = p' /\ q = q'.
Proof.
  induction p as [|x p IH]; intros q p' q' D E; destruct p' as [|y p'];
    simpl in *.
  - inversion E. now split.
  - inversion E. subst. inversion D as [|? ? N _]. exfalso. apply N.
    apply in_or_app. right. now left.
  - inversion E. subst. inversion D as [|? ? N _]. exfalso. apply N.
    apply in_or_app. right. now left.
  - inversion E. subst. inversion D as [|? ? _ D'].
    destruct (IH _ _ _ D' H1) as [-> ->]. now split.
Qed.

Lemma precedes_irreflexive (x : A) (l : list A) :
  NoDup l -> ~ precedes x x l.
Proof.
  intros D (l1 & l2 & l3 & ->). apply NoDup_remove_2 in D. apply D.
  apply in_or_app. right. apply in_or_app. right. now left.
Qed.

Lemma precedes_transitive (a b c : A) (l : list A) :
  NoDup l -> precedes a b l -> precedes b c l -> precedes a c l.
Proof.
  intros D (l1 & l2 & l3 & E1) (m1 & m2 & m3 & E2).
  assert (E : (l1 ++ a :: l2) ++ b :: l3 = m1 ++ b :: m2 ++ c :: m3).
  { rewrite <- E2, E1, <- app_assoc. reflexivity. }
  apply split_unique in E.
  - destruct E as [_ ->]. exists l1, (l2 ++ b :: m2), m3.
    rewrite E1, <- app_assoc. reflexivity.
  - rewrite <- app_assoc. simpl. now rewrite <- E1.
Qed.
End PrecedesFacts.

Module LeftOutFacts.
Import WeightedGraph WeightedSpec KahnFacts.
Section WithVertex.
Context {T : Type} `{NumericVertex T}.

Lemma push_back_sources (a : list (T * list (T * Z))) (E : list T)
    (u v : T) (w : Z) :
  (forall x y c, In (y, c) (um_get [] x a) -> In x E) ->
  In u E ->
  forall x y c,
    In (y, c) (um_get [] x (um_modify [] u (fun l => l ++ [(v, w)]) a)) ->
    In x E.
Proof.
  intros K I x y c J. rewrite um_get_modify in J.
  destruct (vertex_eq_dec x u) as [->|N]; [exact I|]. eapply K. exact J.
Qed.

Lemma add_edge_sources_known (g : weighted_graph T) (u v : T) (w : Z) :
  sources_known g -> sources_known (add_edge g u v w).
Proof.
  intros K.
  assert (K' : forall x y c,
             In (y, c) (um_get [] x (adj g)) ->
             In x (set_insert v (set_insert u (_elements g)))).
  { intros x y c J. rewrite !set_insert_in. right; right. eapply K. exact J. }
  assert (Iu : In u (set_insert v (set_insert u (_elements g))))
    by (rewrite !set_insert_in; tauto).
  assert (Iv : In v (set_insert v (set_insert u (_elements g))))
    by (rewrite !set_insert_in; tauto).
  unfold sources_known, edge, add_edge. simpl.
  destruct (_type g =? "undirected")%string.
  - apply push_back_sources; [|exact Iv]. now apply push_back_sources.
  - destruct (_type g =? "directed")%string; [|exact K'].
    now apply push_back_sources.
Qed.

(** Every constructed graph has the sources of its edges among its
    vertices. *)
Lemma ctor_sources_known (mode : string) (adj_ : list ((T * T) * Z)) :
  sources_known (object (weighted_graph_ctor mode adj_)).
Proof.
  unfold weighted_graph_ctor, ctor_try.
  destruct ((mode =? "directed") || (mode =? "undirected"))%string; simpl.
  - match goal with
    | |- sources_known (fold_left ?f adj_ ?g0) =>
        assert (K0 : sources_known g0) by (intros u v w []);
        revert K0; generalize g0
    end.
    induction adj_ as [|e adj_ IH]; intros g0 K0; simpl; [exact K0|].
    apply IH. now apply add_edge_sources_known.
  - intros u v w [].
Qed.

(** The vertex set of a constructed graph has no repetition. *)
Lemma ctor_nodup (mode : string) (adj_ : list ((T * T) * Z)) :
  NoDup (_elements (object (weighted_graph_ctor mode adj_))).
Proof.
  unfold weighted_graph_ctor, ctor_try.
  destruct ((mode =? "directed") || (mode =? "undirected"))%string; simpl.
  - apply WeightedEdgeFacts.weighted_replay_nodup. constructor.
  - constructor.
Qed.

Section Graph.
Variable g : weighted_graph T.
Hypothesis nodup : NoDup (_elements g).
Hypothesis known : neighbours_known g.
Hypothesis sources : sources_known g.

(** With a vertex that no stored edge enters, [cycle] answers [false]. *)
Lemma cycle_with_source (s : T) (fuel : nat) (b : bool)
    (g1 : weighted_graph T) :
  In s (_elements g) ->
  (forall u w, ~ edge g u s w) ->
  cycle fuel g = Some (b, g1) ->
  b = false.
Proof.
  intros Is Ns C.
  pose proof (SkeletonFacts.cycle_forget fuel g) as K. rewrite C in K.
  simpl in K. apply TopologicalFacts.cycle_answer in K.
  destruct b; [|reflexivity]. exfalso.
  apply (proj1 K eq_refl s Is). apply CompletenessFacts.in_edges_none.
  intros u _ I. simpl in I. rewrite SkeletonFacts.um_get_forget in I.
  apply in_map_iff in I. destruct I as ([y w] & E & I). simpl in E. subst y.
  exact (Ns u w I).
Qed.

Lemma in_edges_positive (a0 : list (T * list T)) (L : list T) (x u : T) :
  In u L -> In x (um_get [] u a0) -> GraphSpec.in_edges a0 L x <> 0.
Proof.
  induction L as [|v L IH]; simpl; intros I J; [destruct I|].
  pose proof (TopologicalFacts.in_edges_nonneg a0 L x).
  destruct I as [->|I].
  - apply (count_occ_In vertex_eq_dec) in J. lia.
  - specialize (IH I J). lia.
Qed.

(** When every vertex has an incoming edge, [cycle] answers [true]. *)
Lemma cycle_without_source (fuel : nat) (b : bool) (g1 : weighted_graph T) :
  (forall v, In v (_elements g) -> exists u w, edge g u v w) ->
  cycle fuel g = Some (b, g1) ->
  b = true.
Proof.
  intros A C.
  pose proof (SkeletonFacts.cycle_forget fuel g) as K. rewrite C in K.
  simpl in K. apply TopologicalFacts.cycle_answer in K. apply K.
  intros x Ix. destruct (A x Ix) as (u & w & E).
  apply in_edges_positive with (u := u).
  - eapply sources. exact E.
  - simpl. rewrite SkeletonFacts.um_get_forget.
    apply in_map_iff. now exists (x, w).
Qed.

Section Order.
Variable fuel : nat.
Variable g1 g2 : weighted_graph T.
Variable order : list T.
Hypothesis same : same_edges (adj g1) (adj g).
Hypothesis same_elements : _elements g1 = _elements g.
Hypothesis sorted : topological_sort fuel g1 = Some (order, g2).

Lemma order_nodup : NoDup order.
Proof.
  pose proof (BranchFacts.skeleton_order fuel g1 g2 order sorted) as O.
  apply TopologicalFacts.topological_sort_order in O.
  - tauto.
  - simpl. now rewrite same_elements.
  - now apply (BranchFacts.skeleton_known g).
Qed.

(** An edge into an output vertex starts at an earlier output vertex. *)
Lemma order_edge (u v : T) (w : Z) :
  edge g u v w -> In v order -> precedes u v order.
Proof.
  intros E Iv.
  pose proof (BranchFacts.skeleton_order fuel g1 g2 order sorted) as O.
  apply TopologicalFacts.topological_sort_order in O.
  - destruct O as (_ & _ & O3). apply O3; auto.
    + simpl. rewrite same_elements. eapply sources. exact E.
    + apply SkeletonFacts.skeleton_edge. exists w. unfold edge.
      rewrite same. exact E.
  - simpl. now rewrite same_elements.
  - now apply (BranchFacts.skeleton_known g).
Qed.

(** The output holds, before an output vertex, every vertex from which it
    can be reached. *)
Lemma order_closed (u v : T) :
  reachable g u v -> In v order -> u = v \/ precedes u v order.
Proof.
  intros R. induction R as [|v x w R IH E]; intros Iv; [now left|].
  pose proof (order_edge _ _ _ E Iv) as P.
  destruct (IH (proj1 (precedes_in _ _ _ P))) as [->|Q]; [now right|].
  right. eapply precedes_transitive; [apply order_nodup|exact Q|exact P].
Qed.

(** A vertex on a cycle, or behind one, is left out. *)
Lemma behind_cycle_left_out (c x start : T) (w : Z) :
  reachable g c x -> edge g x c w -> reachable g c start ->
  ~ In start order.
Proof.
  intros Rx E Rs Is.
  assert (Ic : In c order).
  { destruct (order_closed _ _ Rs Is) as [->|P]; [exact Is|].
    exact (proj1 (precedes_in _ _ _ P)). }
  pose proof (order_edge _ _ _ E Ic) as P.
  apply (precedes_irreflexive c order order_nodup).
  destruct (order_closed _ _ Rx (proj1 (precedes_in _ _ _ P))) as [->|Q];
    [exact P|].
  eapply precedes_transitive; [apply order_nodup|exact Q|exact P].
Qed.
End Order.
End Graph.
End WithVertex.
End LeftOutFacts.

(** X13.  On a weighted graph whose weights lie between 0 and [W], where
    [W] times the number of vertices is at most 2^53 (no sum of distances
    is rounded), and whose mode is not "directed", or in which every vertex
    has an incoming edge, [shortest_path(start, end)] between two known
    vertices returns the least weight of a walk from [start] to [end] along
    stored edges, and -1 exactly when no walk has a weight below 2^63, the
    value that marks an unset distance.  Every run that returns returns
    this, and the run returns for every large enough bound on its loops. *)
Theorem shortest_path_is_least_weight :
  forall (T : Type) `(NumericVertex T)
         (g : WeightedGraph.weighted_graph T) (start end_ : T) (W : Z),
    WeightedSpec.neighbours_known g ->
    (forall u v w, WeightedSpec.edge g u v w -> 0 <= w <= W) ->
    Z.of_nat (List.length (WeightedGraph._elements g)) * W <= 2 ^ 53 ->
    WeightedGraph._type g <> "directed"%string
    \/ (WeightedSpec.sources_known g
        /\ forall v, In v (WeightedGraph._elements g) ->
             exists u w, WeightedSpec.edge g u v w) ->
    In start (WeightedGraph._elements g) ->
    In end_ (WeightedGraph._elements g) ->
    (forall fuel r g',
        WeightedGraph.shortest_path fuel g start end_ = Some (r, g') ->
        WeightedSpec.shortest_distance WeightedGraph.dist_unset g start end_ r)
    /\ (exists fuel0, forall fuel, (fuel0 <= fuel)%nat ->
          exists r g',
            WeightedGraph.shortest_path fuel g start end_ = Some (r, g')).
Proof.
  intros T VT NT g start end_ W K Bw Bs M Is Ie.
  assert (P : WeightedSpec.weights_non_negative g)
    by (intros u v w E; apply Bw in E; lia).
  assert (Bw' : forall u v w, WeightedSpec.edge g u v w ->
                              0 <= w <= Z.max W 0)
    by (intros u v w E; apply Bw in E; lia).
  assert (Bs' : Z.of_nat (List.length (WeightedGraph._elements g)) * Z.max W 0
                <= 2 ^ 53).
  { destruct (Z.max_spec W 0) as [[_ ->]|[_ ->]]; [|exact Bs].
    rewrite Z.mul_0_r. discriminate. }
  split.
  - intros fuel r g' S. unfold WeightedGraph.shortest_path in S.
    apply set_mem_true in Is, Ie. rewrite Is, Ie in S. simpl in S.
    apply set_mem_true in Is, Ie.
    destruct (WeightedGraph.cycle fuel g) as [[b g1]|] eqn:C; [|discriminate].
    assert (B : negb b && (WeightedGraph._type g1 =? "directed")%string = false).
    { destruct M as [M|[So A]].
      - apply KahnFacts.cycle_same_edges with (a0 := WeightedGraph.adj g) in C;
          [|apply KahnFacts.same_edges_refl].
        destruct C as (_ & _ & M1).
        assert (D : (WeightedGraph._type g1 =? "directed")%string = false)
          by (apply String.eqb_neq; congruence).
        rewrite D. apply Bool.andb_false_r.
      - now rewrite (LeftOutFacts.cycle_without_source g So fuel b g1 A C). }
    rewrite B in S.
    apply KahnFacts.cycle_same_edges with (a0 := WeightedGraph.adj g) in C;
      [|apply KahnFacts.same_edges_refl].
    destruct C as (S1 & E1 & M1).
    apply (DijkstraFacts.dijkstra_result g start K Is (Z.max W 0) Bw'
             ltac:(lia) Bs' fuel g1 g' end_ r); auto.
  - exists (WeightedSpec.enough_fuel g start). intros fuel L.
    now apply (RelaxationFacts.shortest_path_total g start end_ K).
Qed.

Lemma shortest_path_is_least_weight_witness :
  (forall fuel r g',
      WeightedGraph.shortest_path fuel Scenario.triangle Scenario.A Scenario.C
      = Some (r, g') ->
      WeightedSpec.shortest_distance WeightedGraph.dist_unset
        Scenario.triangle Scenario.A Scenario.C r)
  /\ (exists fuel0, forall fuel, (fuel0 <= fuel)%nat ->
        exists r g',
          WeightedGraph.shortest_path fuel Scenario.triangle
            Scenario.A Scenario.C = Some (r, g')).
Proof.
  apply (shortest_path_is_least_weight Z Z_NumericVertex Scenario.triangle
           Scenario.A Scenario.C 3).
  - apply ctor_neighbours_known.
  - intros u v w E. apply edge_stored in E. destruct E as (l & J & E).
    vm_compute in J.
    repeat (destruct J as [J|J];
            [inversion J; subst u l; simpl in E;
             repeat (destruct E as [E|E]; [inversion E; subst v w; lia|]);
             destruct E|]).
    destruct J.
  - vm_compute. discriminate.
  - left. vm_compute. discriminate.
  - vm_compute. tauto.
  - vm_compute. tauto.
Defined.

(** X18.  On a "directed" weighted graph in which some vertex has no
    incoming edge, [shortest_path(start, end)] from a vertex [start] that
    lies on a cycle, or can be reached from one, returns -1 for every other
    vertex [end] of the graph, also for those [start] reaches: [cycle()]
    answers [false], the topological order leaves [start] out, and no
    distance is ever relaxed.  With no negative weight stored the run
    returns for every large enough bound on its loops. *)
Theorem shortest_path_from_behind_a_cycle :
  forall (T : Type) `(NumericVertex T)
         (g : WeightedGraph.weighted_graph T) (start end_ s c x : T) (w : Z),
    WeightedGraph._type g = "directed"%string ->
    NoDup (WeightedGraph._elements g) ->
    WeightedSpec.neighbours_known g ->
    WeightedSpec.sources_known g ->
    In s (WeightedGraph._elements g) ->
    (forall u wu, ~ WeightedSpec.edge g u s wu) ->
    WeightedSpec.reachable g c x ->
    WeightedSpec.edge g x c w ->
    WeightedSpec.reachable g c start ->
    In start (WeightedGraph._elements g) ->
    In end_ (WeightedGraph._elements g) ->
    end_ <> start ->
    (forall fuel r g',
        WeightedGraph.shortest_path fuel g start end_ = Some (r, g') ->
        r = -1)
    /\ (WeightedSpec.weights_non_negative g ->
        exists fuel0, forall fuel, (fuel0 <= fuel)%nat ->
          exists g',
            WeightedGraph.shortest_path fuel g start end_ = Some (-1, g')).
Proof.
  intros T VT NT g start end_ s c x w M D K So Is Ns Rx E Rs Ist Ie Ne.
  assert (P : forall fuel r g',
             WeightedGraph.shortest_path fuel g start end_ = Some (r, g') ->
             r = -1).
  { intros fuel r g' S. unfold WeightedGraph.shortest_path in S.
    apply set_mem_true in Ist, Ie. rewrite Ist, Ie in S. simpl in S.
    apply set_mem_true in Ist, Ie.
    destruct (WeightedGraph.cycle fuel g) as [[b g1]|] eqn:C; [|discriminate].
    pose proof (LeftOutFacts.cycle_with_source g s fuel b g1 Is Ns C) as ->.
    apply KahnFacts.cycle_same_edges with (a0 := WeightedGraph.adj g) in C;
      [|apply KahnFacts.same_edges_refl].
    destruct C as (S1 & E1 & M1).
    rewrite M1, M in S. simpl in S.
    apply (BranchFacts.dag_result_left_out g start K fuel g1 g' end_ r);
      auto.
    intros order g2 O.
    now apply (LeftOutFacts.behind_cycle_left_out g D K So fuel g1 g2 order
                 S1 E1 O c x start w). }
  split; [exact P|]. intros _.
  exists (WeightedSpec.enough_fuel g start).
  intros fuel L.
  destruct (RelaxationFacts.shortest_path_total g start end_ K fuel L)
    as (r & g' & S).
  exists g'. rewrite S. now rewrite (P fuel r g' S).
Qed.

Lemma shortest_path_from_behind_a_cycle_witness :
  WeightedSpec.walk Scenario.weighted_tail_into_cycle 2 3 (0 + 1)
  /\ (forall fuel r g',
         WeightedGraph.shortest_path fuel Scenario.weighted_tail_into_cycle 2 3
         = Some (r, g') ->
         r = -1)
  /\ (WeightedSpec.weights_non_negative Scenario.weighted_tail_into_cycle ->
      exists fuel0, forall fuel, (fuel0 <= fuel)%nat ->
        exists g',
          WeightedGraph.shortest_path fuel Scenario.weighted_tail_into_cycle
            2 3 = Some (-1, g')).
Proof.
  assert (E23 : WeightedSpec.edge Scenario.weighted_tail_into_cycle 2 3 1)
    by (vm_compute; now left).
  assert (E32 : WeightedSpec.edge Scenario.weighted_tail_into_cycle 3 2 1)
    by (vm_compute; now left).
  split.
  - eapply WeightedSpec.walk_step; [constructor|exact E23].
  - apply (shortest_path_from_behind_a_cycle Z Z_NumericVertex
             Scenario.weighted_tail_into_cycle 2 3 1 2 3 1).
    + reflexivity.
    + apply LeftOutFacts.ctor_nodup.
    + apply ctor_neighbours_known.
    + apply LeftOutFacts.ctor_sources_known.
    + vm_compute. tauto.
    + intros u wu E. apply edge_stored in E. destruct E as (l & J & E).
      vm_compute in J.
      repeat (destruct J as [J|J];
              [inversion J; subst u l; simpl in E;
               repeat (destruct E as [E|E]; [discriminate E|]);
               destruct E|]).
      destruct J.
    + eapply WeightedSpec.reachable_step; [constructor|exact E23].
    + exact E32.
    + constructor.
    + vm_compute. tauto.
    + vm_compute. tauto.
    + discriminate.
Defined.

(** ** Connected components *)

Module ComponentFacts.
Import Graph GraphSpec.
Section WithVertex.
Context {T : Type} `{Vertex T}.

Lemma reachable_transitive (g : graph T) (u v x : T) :
  reachable g u v -> reachable g v x -> reachable g u x.
Proof.
  intros R1 R2. induction R2 as [|y z R2 IH E]; [exact R1|].
  eapply reachable_step; [exact IH|exact E].
Qed.

(** On a graph whose edges go both ways, so does reachability. *)
Lemma reachable_symmetric (g : graph T) :
  (forall u v, edge g u v -> edge g v u) ->
  forall u v, reachable g u v -> reachable g v u.
Proof.
  intros S u v R. induction R as [|y z R IH E]; [constructor|].
  apply reachable_transitive with (v := y); [|exact IH].
  eapply reachable_step; [constructor|]. now apply S.
Qed.

Section Marking.
Variable g : graph T.
Variable V0 : list T.
Variable x : T.
Hypothesis closed : forall u v, In u V0 -> edge g u v -> In v V0.

(** The state of the marking loop started at [x] with [V0] marked
    before. *)
#[local, warnings="-inconsistent-scopes"]
Abbreviation marking work visited :=
  ((forall y, In y work -> In y visited /\ reachable g x y)
   /\ (forall y, In y visited -> In y V0 \/ reachable g x y)
   /\ (forall u v, In u visited -> ~ In u work -> edge g u v -> In v visited)
   /\ (forall y, In y V0 -> In y visited)
   /\ In x visited).

Local Abbreviation measure work visited :=
  (List.length work + List.length (unprocessed (targets (adj g)) visited))%nat.

Lemma marking_step (push : T -> list T -> list T)
    (push_perm : forall y w, Permutation (push y w) (y :: w))
    (a : list (T * list T)) (current : T)
    (work visited work' visited' : list T) :
  same_edges a (adj g) ->
  marking (current :: work) visited ->
  visit_neighbours push (um_get [] current (um_touch [] current a)) work visited
  = (work', visited') ->
  marking work' visited' /\ (measure work' visited' <= measure work visited)%nat.
Proof.
  intros S (M1 & M2 & M3 & M4 & M5) F.
  rewrite um_get_touch, S in F.
  destruct (TraversalFacts.visit_neighbours_spec push push_perm
              (targets (adj g)) _ _ _ _ _ F) as (F1 & F2 & F3).
  destruct (M1 current (or_introl eq_refl)) as [Vc Rc].
  split; [|apply F3; intros y Iy;
           eapply TopologicalFacts.graph_um_get_targets; exact Iy].
  split; [|split; [|split; [|split]]].
  - intros y Iy. apply F2 in Iy. destruct Iy as [Iy|[Iy Ny]].
    + destruct (M1 y (or_intror Iy)) as [Vy Ry]. split; [|exact Ry].
      apply F1. now left.
    + split; [apply F1; now right|].
      eapply reachable_step; [exact Rc|exact Iy].
  - intros y Iy. apply F1 in Iy. destruct Iy as [Iy|Iy]; [now apply M2|].
    right. eapply reachable_step; [exact Rc|exact Iy].
  - intros u v Iu Nu E. apply F1.
    destruct (in_dec vertex_eq_dec u visited) as [Vu|Vu].
    + destruct (vertex_eq_dec u current) as [->|Ne]; [now right|].
      left. apply (M3 u v Vu); [|exact E].
      intros [J|J]; [congruence|]. apply Nu. apply F2. now left.
    + exfalso. apply Nu. apply F2. right. split; [|exact Vu].
      apply F1 in Iu. tauto.
  - intros y Iy. apply F1. left. now apply M4.
  - apply F1. now left.
Qed.

Lemma marking_done (visited : list T) :
  marking (@nil T) visited ->
  forall y, In y visited <-> In y V0 \/ reachable g x y.
Proof.
  intros (M1 & M2 & M3 & M4 & M5) y. split; [apply M2|].
  intros [I|R]; [now apply M4|].
  induction R as [|u v R IH E]; [exact M5|].
  apply (M3 u v IH); [intros []|exact E].
Qed.

Lemma mark_loop_result (push : T -> list T -> list T)
    (push_perm : forall y w, Permutation (push y w) (y :: w)) :
  forall (fuel : nat) a work visited,
    same_edges a (adj g) ->
    marking work visited ->
    (measure work visited < fuel)%nat ->
    exists visited' a',
      mark_loop push fuel a work visited = Some (visited', a')
      /\ same_edges a' (adj g)
      /\ forall y, In y visited' <-> In y V0 \/ reachable g x y.
Proof.
  induction fuel as [|fuel IH]; intros a work visited S M L; [lia|].
  destruct work as [|current work]; simpl.
  - exists visited, a. split; [reflexivity|]. split; [exact S|].
    now apply marking_done.
  - destruct (visit_neighbours push
                (um_get [] current (um_touch [] current a)) work visited)
      as [work' visited'] eqn:F.
    destruct (marking_step push push_perm a current work visited work' visited'
                S M F) as [M' L'].
    apply IH; [now apply TopologicalFacts.graph_same_edges_touch|exact M'|].
    simpl in L. lia.
Qed.

Lemma marking_start :
  marking [x] (x :: V0)
  /\ (measure [x] (x :: V0) <= 1 + List.length (targets (adj g)))%nat.
Proof.
  split.
  - split; [|split; [|split; [|split]]].
    + intros y [<-|[]]. split; [now left|constructor].
    + intros y [<-|I]; [right; constructor|now left].
    + intros u v [<-|I] N E; [exfalso; apply N; now left|].
      right. eapply closed; eauto.
    + intros y I. now right.
    + now left.
  - unfold unprocessed.
    pose proof (filter_shorter (fun u => negb (set_mem u (x :: V0)))
                  (targets (adj g))).
    simpl. lia.
Qed.
End Marking.

Section Components.
Variable g : graph T.
Variable fuel : nat.
Hypothesis enough : (1 + List.length (targets (adj g)) < fuel)%nat.

(** The loop over the vertices; [R] holds the vertices from which a
    marking has been started. *)
Lemma components_loop_result (rest : list T) :
  forall a visited cc (R : list T),
    same_edges a (adj g) ->
    (forall y, In y visited <-> exists r, In r R /\ reachable g r y) ->
    NoDup R ->
    (forall r r', In r R -> In r' R -> r <> r' ->
                  ~ reachable g r r' \/ ~ reachable g r' r) ->
    exists a' R',
      components_loop fuel rest a visited cc
      = Some (cc + Z.of_nat (List.length R'), a')
      /\ same_edges a' (adj g)
      /\ NoDup (R ++ R')
      /\ (forall r, In r R' -> In r rest)
      /\ (forall y, In y rest -> exists r, In r (R ++ R') /\ reachable g r y)
      /\ (forall r r', In r (R ++ R') -> In r' (R ++ R') -> r <> r' ->
                       ~ reachable g r r' \/ ~ reachable g r' r).
Proof.
  induction rest as [|x rest IH]; intros a visited cc R S V D P; simpl.
  - exists a, []. rewrite app_nil_r, Z.add_0_r.
    repeat split; auto. intros y [].
  - destruct (set_mem x visited) eqn:M.
    + apply set_mem_true in M.
      destruct (IH a visited cc R S V D P) as (a' & R' & C & S' & D' & I' & A' & P').
      exists a', R'. repeat split; auto.
      intros y [<-|Iy]; [|now apply A'].
      apply V in M. destruct M as (r & Ir & Rr). exists r. split; [|exact Rr].
      apply in_or_app. now left.
    + apply set_mem_false in M.
      assert (closed : forall u v, In u visited -> edge g u v -> In v visited).
      { intros u v Iu E. apply V in Iu. destruct Iu as (r & Ir & Rr).
        apply V. exists r. split; [exact Ir|].
        eapply reachable_step; [exact Rr|exact E]. }
      destruct (marking_start g visited x closed) as [M0 L0].
      destruct (mark_loop_result g visited x queue_push
                  TraversalFacts.queue_push_perm fuel a [x] (x :: visited)
                  S M0 ltac:(lia)) as (visited' & a1 & E & S1 & V1).
      unfold explore. rewrite E.
      assert (Nx : forall r, In r R -> ~ reachable g r x).
      { intros r Ir Rr. apply M. apply V. now exists r. }
      destruct (IH a1 visited' (cc + 1) (R ++ [x]) S1) as
        (a' & R' & C & S' & D' & I' & A' & P').
      * intros y. rewrite V1, V. split.
        -- intros [(r & Ir & Rr)|Rx].
           ++ exists r. split; [apply in_or_app; now left|exact Rr].
           ++ exists x. split; [apply in_or_app; right; now left|exact Rx].
        -- intros (r & Ir & Rr). apply in_app_or in Ir.
           destruct Ir as [Ir|[<-|[]]]; [left; now exists r|now right].
      * apply NoDup_app; auto.
        -- constructor; [intros []|constructor].
        -- intros r Ir [<-|[]]. apply (Nx x Ir). constructor.
      * intros r r' Ir Ir' Ne. apply in_app_or in Ir, Ir'.
        destruct Ir as [Ir|[<-|[]]]; destruct Ir' as [Ir'|[<-|[]]].
        -- now apply P.
        -- left. now apply Nx.
        -- right. now apply Nx.
        -- congruence.
      * exists a', (x :: R'). rewrite <- app_assoc in D', A', P'. simpl in *.
        repeat split; auto.
        -- rewrite C. f_equal. f_equal. lia.
        -- intros r [<-|Ir]; [now left|right; now apply I'].
        -- intros y [<-|Iy]; [|now apply A'].
           exists x. split; [|constructor].
           apply in_or_app. right. now left.
Qed.
End Components.
End WithVertex.
End ComponentFacts.

(** X19.  [graph<T>::connected_components()] returns once the bound on
    its loops exceeds the number of stored edges plus one, and leaves the
    vertex set and every adjacency list as they were.  The number returned
    counts the vertices from which a marking was started: they are
    distinct vertices of the graph, every vertex can be reached from one of
    them, and of any two of them at least one cannot be reached from the
    other.  When every edge is stored in both directions no two of them are
    connected, so the number is the number of connected components. *)
Theorem connected_components_counts_components :
  forall (T : Type) `(Vertex T) (g : Graph.graph T) (fuel : nat),
    (1 + List.length (GraphSpec.targets (Graph.adj g)) < fuel)%nat ->
    exists cc g' reps,
      Graph.connected_components fuel g = Some (cc, g')
      /\ cc = Z.of_nat (List.length reps)
      /\ Graph._elements g' = Graph._elements g
      /\ GraphSpec.same_edges (Graph.adj g') (Graph.adj g)
      /\ NoDup reps
      /\ (forall r, In r reps -> In r (Graph._elements g))
      /\ (forall v, In v (Graph._elements g) ->
            exists r, In r reps /\ GraphSpec.reachable g r v)
      /\ (forall r r', In r reps -> In r' reps -> r <> r' ->
            ~ GraphSpec.reachable g r r' \/ ~ GraphSpec.reachable g r' r)
      /\ ((forall u v, GraphSpec.edge g u v -> GraphSpec.edge g v u) ->
          forall r r', In r reps -> In r' reps -> r <> r' ->
            ~ GraphSpec.reachable g r r').
Proof.
  intros T VT g fuel L.
  destruct (ComponentFacts.components_loop_result g fuel L (Graph._elements g)
              (Graph.adj g) [] 0 [])
    as (a' & reps & C & S & D & I & A & P).
  - intros x. reflexivity.
  - intros y. split; [intros []|intros (r & [] & _)].
  - constructor.
  - intros r r' [].
  - simpl in *. unfold Graph.connected_components. rewrite C.
    eexists. eexists. exists reps. split; [reflexivity|].
    repeat split; auto.
    intros Sym r r' Ir Ir' Ne Rr.
    destruct (P r r' Ir Ir' Ne) as [N|N]; [exact (N Rr)|].
    apply N. now apply ComponentFacts.reachable_symmetric.
Qed.

Lemma connected_components_counts_components_witness :
  let g := object (Graph.graph_ctor (T:=Z) "undirected"
                     [(1, [2]); (3, [4]); (4, [5])]) in
  exists cc g' reps,
    Graph.connected_components 10 g = Some (cc, g')
    /\ cc = Z.of_nat (List.length reps)
    /\ Graph._elements g' = Graph._elements g
    /\ GraphSpec.same_edges (Graph.adj g') (Graph.adj g)
    /\ NoDup reps
    /\ (forall r, In r reps -> In r (Graph._elements g))
    /\ (forall v, In v (Graph._elements g) ->
          exists r, In r reps /\ GraphSpec.reachable g r v)
    /\ (forall r r', In r reps -> In r' reps -> r <> r' ->
          ~ GraphSpec.reachable g r r' \/ ~ GraphSpec.reachable g r' r)
    /\ ((forall u v, GraphSpec.edge g u v -> GraphSpec.edge g v u) ->
        forall r r', In r reps -> In r' reps -> r <> r' ->
          ~ GraphSpec.reachable g r r').
Proof.
  intros g.
  apply (connected_components_counts_components Z Z_Vertex g 10).
  vm_compute. lia.
Defined.

(** ** [connected] *)

Module ConnectedFacts.
Import Graph GraphSpec.
Section WithVertex.
Context {T : Type} `{Vertex T}.

Lemma first_with_edges_some (a : list (T * list T)) (s : T) :
  first_with_edges a = Some s ->
  um_get [] s a <> [] /\ In s (um_keys a).
Proof.
  unfold first_with_edges. intros F.
  destruct (find _ a) as [[k l]|] eqn:E; [|discriminate].
  inversion F. subst. apply find_some in E. destruct E as [I N]. simpl in N.
  split.
  - intros Z. rewrite Z in N. discriminate.
  - unfold um_keys. now apply (in_map fst) in I.
Qed.

Lemma first_with_edges_none (a : list (T * list T)) :
  first_with_edges a = None -> forall k, um_get [] k a = [].
Proof.
  unfold first_with_edges. intros F k.
  destruct (find _ a) as [e|] eqn:E; [discriminate|].
  destruct (um_get_in [] k a) as [Z|I]; [exact Z|].
  apply (find_none _ _ E) in I. simpl in I.
  destruct (um_get [] k a); [reflexivity|discriminate].
Qed.

Lemma all_marked_spec (a0 : list (T * list T)) (visited : list T)
    (elements : list T) :
  forall a,
    same_edges a a0 ->
    same_edges (snd (all_marked elements a visited)) a0
    /\ (fst (all_marked elements a visited) = true <->
        forall x, In x elements -> In x visited \/ um_get [] x a0 = []).
Proof.
  induction elements as [|x rest IH]; intros a S; simpl.
  - split; [exact S|]. split; [intros _ x []|reflexivity].
  - destruct (set_mem x visited) eqn:M.
    + apply set_mem_true in M. destruct (IH a S) as [S' B]. split; [exact S'|].
      rewrite B. split.
      * intros A y [<-|I]; [now left|now apply A].
      * intros A y I. apply A. now right.
    + apply set_mem_false in M. rewrite um_get_touch, S.
      destruct (um_get [] x a0) as [|v l] eqn:G; simpl.
      * destruct (IH (um_touch [] x a)
                    (TopologicalFacts.graph_same_edges_touch x a a0 S))
          as [S' B].
        split; [exact S'|]. rewrite B. split.
        -- intros A y [<-|I]; [now right|now apply A].
        -- intros A y I. apply A. now right.
      * split; [now apply TopologicalFacts.graph_same_edges_touch|].
        split; [discriminate|]. intros A.
        destruct (A x (or_introl eq_refl)) as [I|Z]; [contradiction|].
        rewrite G in Z. discriminate.
Qed.

(** What [connected] answers, in terms of the vertex its marking starts
    from. *)
Lemma connected_result (g : graph T) (fuel : nat) :
  (1 + List.length (targets (adj g)) < fuel)%nat ->
  exists b g',
    connected fuel g = Some (b, g')
    /\ _elements g' = _elements g
    /\ same_edges (adj g') (adj g)
    /\ (b = true <->
        exists start,
          first_with_edges (adj g) = Some start
          /\ forall x, In x (_elements g) -> um_get [] x (adj g) <> [] ->
                       reachable g start x).
Proof.
  intros L. unfold connected.
  destruct (first_with_edges (adj g)) as [start|] eqn:F.
  - assert (closed : forall u v, In u (@nil T) -> edge g u v -> In v (@nil T))
      by (intros u v []).
    destruct (ComponentFacts.marking_start g [] start closed) as [M0 L0].
    destruct (ComponentFacts.mark_loop_result g [] start stack_push
                TraversalFacts.stack_push_perm fuel (adj g) [start] [start]
                (fun x => eq_refl) M0 ltac:(lia)) as (visited & a & E & S & V).
    rewrite E.
    destruct (all_marked_spec (adj g) visited (_elements g) a S) as [S' B].
    destruct (all_marked (_elements g) a visited) as [b a'] eqn:A.
    simpl in S', B. eexists. eexists. split; [reflexivity|].
    simpl. repeat split; auto.
    + intros Bt. exists start. split; [reflexivity|]. intros x Ix Nx.
      destruct (proj1 B Bt x Ix) as [I|Z]; [|contradiction].
      apply V in I. destruct I as [[]|R]. exact R.
    + intros (s & Es & A'). inversion Es. subst s. apply B. intros x Ix.
      destruct (um_get [] x (adj g)) as [|v l] eqn:G; [now right|].
      left. apply V. right. apply A'; [exact Ix|]. rewrite G. discriminate.
  - exists false, g. repeat split; auto; try discriminate.
    intros (s & Es & _). discriminate.
Qed.
End WithVertex.
End ConnectedFacts.

(** X20.  [graph<T>::connected()] returns once the bound on its loop
    exceeds the number of stored edges plus one, and leaves the vertex set
    and every adjacency list as they were.  It answers [true] exactly when
    some key of the adjacency map has neighbours and every vertex that has
    neighbours can be reached from the first such key in iteration order.
    On a graph that stores every edge in both directions and holds the keys
    of its adjacency map as vertices, the answer does not depend on that
    order: it is [true] exactly when the graph has an edge and any two
    vertices with neighbours are connected. *)
Theorem connected_tests_reachability :
  forall (T : Type) `(Vertex T) (g : Graph.graph T) (fuel : nat),
    (1 + List.length (GraphSpec.targets (Graph.adj g)) < fuel)%nat ->
    exists b g',
      Graph.connected fuel g = Some (b, g')
      /\ Graph._elements g' = Graph._elements g
      /\ GraphSpec.same_edges (Graph.adj g') (Graph.adj g)
      /\ (b = true <->
          exists start,
            Graph.first_with_edges (Graph.adj g) = Some start
            /\ forall x, In x (Graph._elements g) ->
                 um_get [] x (Graph.adj g) <> [] ->
                 GraphSpec.reachable g start x)
      /\ ((forall u v, GraphSpec.edge g u v -> GraphSpec.edge g v u) ->
          (forall k, In k (um_keys (Graph.adj g)) -> In k (Graph._elements g)) ->
          (b = true <->
           (exists u v, GraphSpec.edge g u v)
           /\ forall x y vx vy,
                GraphSpec.edge g x vx -> GraphSpec.edge g y vy ->
                GraphSpec.reachable g x y)).
Proof.
  intros T VT g fuel L.
  destruct (ConnectedFacts.connected_result g fuel L)
    as (b & g' & C & E & S & B).
  exists b, g'. split; [exact C|]. split; [exact E|]. split; [exact S|].
  split; [exact B|]. intros Sym Keys. split.
  - intros Bt. apply B in Bt. destruct Bt as (start & F & A).
    pose proof (ConnectedFacts.first_with_edges_some _ _ F) as [N K].
    split.
    + destruct (um_get [] start (Graph.adj g)) as [|v l] eqn:G; [congruence|].
      exists start, v. unfold GraphSpec.edge. rewrite G. now left.
    + intros x y vx vy Ex Ey.
      assert (R : forall z vz, GraphSpec.edge g z vz ->
                               GraphSpec.reachable g start z).
      { intros z vz Ez. unfold GraphSpec.edge in Ez. apply A.
        - destruct (um_get_in [] z (Graph.adj g)) as [Z|J].
          + rewrite Z in Ez. destruct Ez.
          + apply Keys. unfold um_keys. now apply (in_map fst) in J.
        - intros Z. rewrite Z in Ez. destruct Ez. }
      apply ComponentFacts.reachable_transitive with (v := start).
      * apply ComponentFacts.reachable_symmetric; [exact Sym|].
        eapply R; eauto.
      * eapply R; eauto.
  - intros [(u & v & Euv) A]. apply B.
    destruct (Graph.first_with_edges (Graph.adj g)) as [start|] eqn:F.
    + exists start. split; [reflexivity|]. intros x Ix Nx.
      apply ConnectedFacts.first_with_edges_some in F. destruct F as [N K].
      destruct (um_get [] start (Graph.adj g)) as [|vs ls] eqn:Gs; [congruence|].
      destruct (um_get [] x (Graph.adj g)) as [|vx lx] eqn:Gx; [congruence|].
      apply (A start x vs vx); unfold GraphSpec.edge.
      * rewrite Gs. now left.
      * rewrite Gx. now left.
    + exfalso. unfold GraphSpec.edge in Euv.
      rewrite (ConnectedFacts.first_with_edges_none _ F u) in Euv.
      destruct Euv.
Qed.

Lemma connected_tests_reachability_witness :
  let g := object (Graph.graph_ctor (T:=Z) "undirected"
                     [(1, [2]); (3, [4]); (4, [5])]) in
  exists b g',
    Graph.connected 10 g = Some (b, g')
    /\ Graph._elements g' = Graph._elements g
    /\ GraphSpec.same_edges (Graph.adj g') (Graph.adj g)
    /\ (b = true <->
        exists start,
          Graph.first_with_edges (Graph.adj g) = Some start
          /\ forall x, In x (Graph._elements g) ->
               um_get [] x (Graph.adj g) <> [] ->
               GraphSpec.reachable g start x)
    /\ ((forall u v, GraphSpec.edge g u v -> GraphSpec.edge g v u) ->
        (forall k, In k (um_keys (Graph.adj g)) -> In k (Graph._elements g)) ->
        (b = true <->
         (exists u v, GraphSpec.edge g u v)
         /\ forall x y vx vy,
              GraphSpec.edge g x vx -> GraphSpec.edge g y vy ->
              GraphSpec.reachable g x y)).
Proof.
  intros g.
  apply (connected_tests_reachability Z Z_Vertex g 10).
  vm_compute. lia.
Defined.

(** ** [bipartite] *)

Module BipartiteFacts.
Import Graph GraphSpec.
Section WithVertex.
Context {T : Type} `{Vertex T}.

Lemma uncoloured_shrinks (color : T -> option Z) (x : T) (c : Z) (U : list T) :
  (List.length (uncoloured (fupd color x (Some c)) U)
   <= List.length (uncoloured color U))%nat.
Proof.
  unfold uncoloured. induction U as [|a U IH]; simpl; [lia|].
  destruct (vertex_eq_dec a x) as [->|N].
  - rewrite fupd_same. destruct (color x); simpl; lia.
  - rewrite fupd_other by exact N. destruct (color a); simpl; lia.
Qed.

Lemma uncoloured_shrinks_strictly (color : T -> option Z) (x : T) (c : Z)
    (U : list T) :
  In x U -> color x = None ->
  (List.length (uncoloured (fupd color x (Some c)) U)
   < List.length (uncoloured color U))%nat.
Proof.
  intros I N. induction U as [|a U IH]; [destruct I|].
  pose proof (uncoloured_shrinks color x c U) as L.
  unfold uncoloured in *. simpl.
  destruct (vertex_eq_dec a x) as [->|Ne].
  - rewrite fupd_same, N. simpl. lia.
  - rewrite fupd_other by exact Ne.
    destruct I as [I|I]; [congruence|]. specialize (IH I).
    destruct (color a); simpl; lia.
Qed.

Lemma extends_refl (color : T -> option Z) : extends color color.
Proof. intros u cu E. exact E. Qed.

Lemma extends_trans (c1 c2 c3 : T -> option Z) :
  extends c1 c2 -> extends c2 c3 -> extends c1 c3.
Proof. intros A B u cu E. apply B, A, E. Qed.

Lemma extends_fupd (color : T -> option Z) (x : T) (c : Z) :
  color x = None -> extends color (fupd color x (Some c)).
Proof.
  intros N u cu E. rewrite fupd_other; [exact E|]. intros ->. congruence.
Qed.

Lemma other_colour (col : Z) : (if col =? 0 then 1 else 0) <> col.
Proof. destruct (Z.eqb_spec col 0); lia. Qed.

Section Colouring.
Variable g : graph T.

(** What the neighbour loop does for the vertex [v] coloured [col]. *)
Lemma colour_neighbours_spec (v : T) (col : Z) (l : list T) :
  (forall x, In x l -> edge g v x) ->
  forall q color,
    match colour_neighbours col l q color with
    | None =>
        exists x color1,
          edge g v x /\ color1 x = Some col
          /\ extends color color1
          /\ (forall u cu, color1 u = Some cu ->
                color u = Some cu
                \/ (color u = None /\ edge g v u
                    /\ cu = if col =? 0 then 1 else 0))
    | Some (q', color') =>
        extends color color'
        /\ (forall u cu, color' u = Some cu ->
              color u = Some cu
              \/ (color u = None /\ edge g v u
                  /\ cu = (if col =? 0 then 1 else 0) /\ In (u, cu) q'))
        /\ (forall x, In x l -> exists cx, color' x = Some cx /\ cx <> col)
        /\ (forall p, In p q' ->
              In p q
              \/ (color (fst p) = None /\ color' (fst p) = Some (snd p)))
        /\ (forall p, In p q -> In p q')
        /\ (List.length q' + List.length (uncoloured color' (targets (adj g)))
            <= List.length q + List.length (uncoloured color (targets (adj g))))%nat
    end.
Proof.
  induction l as [|x l IH]; intros E q color; simpl.
  - split; [apply extends_refl|]. repeat split; auto. intros x [].
  - assert (Ex : edge g v x) by (apply E; now left).
    assert (El : forall y, In y l -> edge g v y)
      by (intros y Iy; apply E; now right).
    destruct (color x) as [c|] eqn:Cx.
    + destruct (Z.eqb_spec c col) as [->|Ne].
      * exists x, color. split; [exact Ex|]. split; [exact Cx|].
        split; [apply extends_refl|]. intros u cu Eu. now left.
      * specialize (IH El q color).
        destruct (colour_neighbours col l q color) as [[q' color']|];
          [|exact IH].
        destruct IH as (I1 & I2 & I3 & I4 & I5 & I6).
        split; [exact I1|]. split; [exact I2|]. split; [|auto].
        intros y [<-|Iy]; [|now apply I3].
        exists c. split; [now apply I1|exact Ne].
    + pose proof (extends_fupd color x (if col =? 0 then 1 else 0) Cx) as X.
      specialize (IH El (q ++ [(x, if col =? 0 then 1 else 0)])
                    (fupd color x (Some (if col =? 0 then 1 else 0)))).
      destruct (colour_neighbours col l _ _) as [[q' color']|].
      * destruct IH as (I1 & I2 & I3 & I4 & I5 & I6).
        assert (Qx : In (x, if col =? 0 then 1 else 0) q')
          by (apply I5, in_or_app; right; now left).
        split; [eapply extends_trans; eauto|]. split; [|split; [|split; [|split]]].
        -- intros u cu Eu. destruct (I2 u cu Eu) as [J|(J1 & J2 & J3 & J4)].
           ++ destruct (vertex_eq_dec u x) as [->|Nu].
              ** rewrite fupd_same in J. inversion J. subst cu. right. auto.
              ** rewrite fupd_other in J by exact Nu. now left.
           ++ destruct (vertex_eq_dec u x) as [->|Nu].
              ** rewrite fupd_same in J1. discriminate.
              ** rewrite fupd_other in J1 by exact Nu. right. auto.
        -- intros y [<-|Iy]; [|now apply I3].
           exists (if col =? 0 then 1 else 0). split; [|apply other_colour].
           apply I1. apply fupd_same.
        -- intros p Ip. destruct (I4 p Ip) as [J|[J1 J2]].
           ++ apply in_app_or in J. destruct J as [J|[<-|[]]]; [now left|].
              right. simpl. split; [exact Cx|]. apply I1. apply fupd_same.
           ++ right. split; [|exact J2].
              destruct (vertex_eq_dec (fst p) x) as [Ep|Np].
              ** rewrite Ep, fupd_same in J1. discriminate.
              ** now rewrite fupd_other in J1 by exact Np.
        -- intros p Ip. apply I5, in_or_app. now left.
        -- pose proof (uncoloured_shrinks_strictly color x
                         (if col =? 0 then 1 else 0) (targets (adj g))
                         (TopologicalFacts.graph_um_get_targets _ _ _ Ex) Cx).
           rewrite length_app in I6. simpl in I6. lia.
      * destruct IH as (y & color1 & J1 & J2 & J3 & J4).
        exists y, color1. split; [exact J1|]. split; [exact J2|].
        split; [eapply extends_trans; eauto|].
        intros u cu Eu. destruct (J4 u cu Eu) as [J|(K1 & K2 & K3)].
        -- destruct (vertex_eq_dec u x) as [->|Nu].
           ++ rewrite fupd_same in J. inversion J. subst cu. right. auto.
           ++ rewrite fupd_other in J by exact Nu. now left.
        -- destruct (vertex_eq_dec u x) as [->|Nu].
           ++ rewrite fupd_same in K1. discriminate.
           ++ rewrite fupd_other in K1 by exact Nu. right. auto.
Qed.

(** Taking the vertex [v] coloured [col] from the queue and colouring its
    neighbours keeps the state of the loop. *)
Lemma coloured_step (v : T) (col : Z) (q : list (T * Z))
    (color : T -> option Z) (q' : list (T * Z)) (color' : T -> option Z) :
  coloured g ((v, col) :: q) color ->
  extends color color' ->
  (forall u cu, color' u = Some cu ->
     color u = Some cu
     \/ (color u = None /\ edge g v u
         /\ cu = (if col =? 0 then 1 else 0) /\ In (u, cu) q')) ->
  (forall x, edge g v x -> exists cx, color' x = Some cx /\ cx <> col) ->
  (forall p, In p q' ->
     In p q \/ (color (fst p) = None /\ color' (fst p) = Some (snd p))) ->
  (forall p, In p q -> In p q') ->
  coloured g q' color'.
Proof.
  intros [C1 C2 C3] I1 I2 I3 I4 I5. constructor.
  - intros u cu Iu. destruct (I4 _ Iu) as [J|[_ J]]; [|exact J].
    apply I1, C1. now right.
  - intros u cu Eu. destruct (I2 u cu Eu) as [J|(_ & _ & _ & J)].
    + destruct (C2 u cu J) as [(c' & [K|K])|K].
      * inversion K. subst u c'. right.
        assert (cu = col) by (pose proof (C1 v col (or_introl eq_refl));
                              congruence).
        subst cu. exact I3.
      * left. exists c'. now apply I5.
      * right. intros x Ex. destruct (K x Ex) as (cx & K1 & K2).
        exists cx. split; [now apply I1|exact K2].
    + left. now exists cu.
  - intros u cu Eu. destruct (I2 u cu Eu) as [J|(_ & _ & J & _)].
    + now apply (C3 u cu).
    + subst cu. destruct (col =? 0); lia.
Qed.

Lemma colour_loop_sound :
  forall (fuel : nat) a q color r a',
    same_edges a (adj g) ->
    coloured g q color ->
    colour_loop fuel a q color = Some (r, a') ->
    same_edges a' (adj g)
    /\ forall color', r = Some color' ->
         coloured g [] color' /\ extends color color'.
Proof.
  induction fuel as [|fuel IH]; intros a q color r a' S C L; [discriminate|].
  destruct q as [|[v col] q]; simpl in L.
  - inversion L. subst. split; [exact S|]. intros color' E. inversion E.
    subst. split; [exact C|apply extends_refl].
  - pose proof (colour_neighbours_spec v col
                  (um_get [] v (um_touch [] v a))) as N.
    rewrite um_get_touch, S in N, L.
    specialize (N (fun x I => I) q color).
    destruct (colour_neighbours col (um_get [] v (adj g)) q color)
      as [[q' color']|].
    + destruct N as (I1 & I2 & I3 & I4 & I5 & I6).
      apply IH in L.
      * destruct L as [S' R]. split; [exact S'|]. intros color'' E.
        destruct (R color'' E) as [R1 R2]. split; [exact R1|].
        eapply extends_trans; eauto.
      * now apply TopologicalFacts.graph_same_edges_touch.
      * eapply coloured_step; eauto.
    + inversion L. subst. split.
      * now apply TopologicalFacts.graph_same_edges_touch.
      * discriminate.
Qed.

Lemma colour_loop_terminates :
  forall (fuel : nat) a q color,
    same_edges a (adj g) ->
    (List.length q + List.length (uncoloured color (targets (adj g)))
     < fuel)%nat ->
    exists r a', colour_loop fuel a q color = Some (r, a').
Proof.
  induction fuel as [|fuel IH]; intros a q color S L; [lia|].
  destruct q as [|[v col] q]; simpl.
  - eauto.
  - pose proof (colour_neighbours_spec v col
                  (um_get [] v (um_touch [] v a))) as N.
    rewrite um_get_touch, S in N |- *.
    specialize (N (fun x I => I) q color).
    destruct (colour_neighbours col (um_get [] v (adj g)) q color)
      as [[q' color']|]; [|eauto].
    destruct N as (_ & _ & _ & _ & _ & I6).
    apply IH; [now apply TopologicalFacts.graph_same_edges_touch|].
    simpl in L. lia.
Qed.

(** Against a two-colouring of a graph that stores every edge in both
    directions, the loop never meets two neighbours of one colour. *)
Section Complete.
Variable c : T -> bool.
Hypothesis symmetric : forall u v, edge g u v -> edge g v u.
Hypothesis proper : two_colouring g c.

Lemma colour_loop_complete (color0 : T -> option Z) (k : bool) :
  forall (fuel : nat) a q color r a',
    same_edges a (adj g) ->
    coloured g q color ->
    phase g c color0 k q color ->
    colour_loop fuel a q color = Some (r, a') ->
    r <> None.
Proof.
  induction fuel as [|fuel IH]; intros a q color r a' S C P L; [discriminate|].
  destruct q as [|[v col] q]; simpl in L.
  - inversion L. discriminate.
  - pose proof (colour_neighbours_spec v col
                  (um_get [] v (um_touch [] v a))) as N.
    rewrite um_get_touch, S in N, L.
    specialize (N (fun x I => I) q color).
    pose proof (col_queue _ _ _ C v col (or_introl eq_refl)) as Cv.
    pose proof (col_bit _ _ _ C v col Cv) as Bv.
    destruct P as [P1 P2 P3 P4].
    pose proof (P3 v col (or_introl eq_refl)) as Ov.
    destruct (colour_neighbours col (um_get [] v (adj g)) q color)
      as [[q' color']|].
    + destruct N as (I1 & I2 & I3 & I4 & I5 & I6).
      apply IH in L; [exact L| | |].
      * now apply TopologicalFacts.graph_same_edges_touch.
      * eapply coloured_step; eauto.
      * constructor.
        -- exact P1.
        -- eapply extends_trans; eauto.
        -- intros u cu Iu. destruct (I4 _ Iu) as [J|[J _]].
           ++ apply (P3 u cu). now right.
           ++ simpl in J. destruct (color0 u) as [c0|] eqn:O; [|reflexivity].
              apply P2 in O. congruence.
        -- intros u cu Eu Ou. destruct (I2 u cu Eu) as [J|(_ & J1 & J2 & _)].
           ++ now apply P4.
           ++ specialize (P4 v col Cv Ov). apply proper in J1. subst cu k.
              destruct Bv as [-> | ->]; simpl;
                destruct (c u), (c v); simpl; congruence.
    + exfalso. destruct N as (x & color1 & N1 & N2 & N3 & N4).
      destruct (N4 x col N2) as [J|(_ & _ & J)].
      * destruct (color0 x) as [c0|] eqn:O.
        -- apply (P1 x v); [congruence|now apply symmetric|exact Ov].
        -- pose proof (P4 x col J O) as Kx. pose proof (P4 v col Cv Ov) as Kv.
           apply proper in N1. destruct (col =? 0), (c x), (c v), k;
             simpl in *; congruence.
      * exact (other_colour col (eq_sym J)).
Qed.
End Complete.

(** The state in which the loop is started from an uncoloured vertex. *)
Lemma coloured_start (color : T -> option Z) (x : T) :
  coloured g [] color -> color x = None ->
  coloured g [(x, 0)] (fupd color x (Some 0)).
Proof.
  intros [C1 C2 C3] N. constructor.
  - intros v col [J|[]]. inversion J. apply fupd_same.
  - intros u cu Eu. destruct (vertex_eq_dec u x) as [->|Nu].
    + left. exists 0. now left.
    + rewrite fupd_other in Eu by exact Nu. right.
      destruct (C2 u cu Eu) as [(c' & [])|K].
      intros y Ey. destruct (K y Ey) as (cy & K1 & K2). exists cy.
      split; [|exact K2]. now apply (extends_fupd color x 0 N).
  - intros u cu Eu. destruct (vertex_eq_dec u x) as [->|Nu].
    + rewrite fupd_same in Eu. inversion Eu. now left.
    + rewrite fupd_other in Eu by exact Nu. now apply (C3 u cu).
Qed.

Lemma phase_start (c : T -> bool) (color : T -> option Z) (x : T) :
  coloured g [] color -> color x = None ->
  phase g c color (c x) [(x, 0)] (fupd color x (Some 0)).
Proof.
  intros [C1 C2 C3] N. constructor.
  - intros u v Nu E. destruct (color u) as [cu|] eqn:Cu; [|congruence].
    destruct (C2 u cu Cu) as [(c' & [])|K].
    destruct (K v E) as (cv & K1 & _). congruence.
  - now apply extends_fupd.
  - intros v col [J|[]]. inversion J. now subst.
  - intros u cu Eu Ou. destruct (vertex_eq_dec u x) as [->|Nu].
    + rewrite fupd_same in Eu. inversion Eu. simpl. now destruct (c x).
    + rewrite fupd_other in Eu by exact Nu. congruence.
Qed.

Section Elements.
Variable fuel : nat.

Lemma colour_elements_sound (rest : list T) :
  forall a color b color' a',
    same_edges a (adj g) ->
    coloured g [] color ->
    colour_elements fuel rest a color = Some (b, color', a') ->
    same_edges a' (adj g)
    /\ (b = true ->
        coloured g [] color' /\ extends color color'
        /\ forall x, In x rest -> color' x <> None).
Proof.
  induction rest as [|x rest IH]; intros a color b color' a' S C L; simpl in L.
  - inversion L. subst. split; [exact S|]. intros _.
    split; [exact C|]. split; [apply extends_refl|intros x []].
  - destruct (color x) as [cx|] eqn:Cx.
    + apply IH in L; auto. destruct L as [S' R]. split; [exact S'|].
      intros B. destruct (R B) as (R1 & R2 & R3).
      split; [exact R1|]. split; [exact R2|].
      intros y [<-|Iy]; [|now apply R3]. rewrite (R2 _ _ Cx). discriminate.
    + destruct (colour_loop fuel a [(x, 0)] (fupd color x (Some 0)))
        as [[[color1|] a1]|] eqn:W; [| |discriminate].
      * apply colour_loop_sound in W; auto; [|now apply coloured_start].
        destruct W as [S1 W]. destruct (W color1 eq_refl) as [W1 W2].
        apply IH in L; auto. destruct L as [S' R]. split; [exact S'|].
        intros B. destruct (R B) as (R1 & R2 & R3).
        assert (X : extends color color').
        { eapply extends_trans; [apply (extends_fupd color x 0 Cx)|].
          eapply extends_trans; eauto. }
        split; [exact R1|]. split; [exact X|].
        intros y [<-|Iy]; [|now apply R3].
        rewrite (R2 x 0); [discriminate|]. apply W2, fupd_same.
      * apply colour_loop_sound in W; auto; [|now apply coloured_start].
        inversion L. subst. split; [tauto|discriminate].
Qed.

Lemma colour_elements_terminates (rest : list T) :
  (1 + List.length (targets (adj g)) < fuel)%nat ->
  forall a color,
    same_edges a (adj g) ->
    coloured g [] color ->
    exists b color' a', colour_elements fuel rest a color = Some (b, color', a').
Proof.
  intros F. induction rest as [|x rest IH]; intros a color S C; simpl.
  - eauto.
  - destruct (color x) as [cx|] eqn:Cx; [now apply IH|].
    destruct (colour_loop_terminates fuel a [(x, 0)] (fupd color x (Some 0)) S)
      as (r & a1 & W).
    + pose proof (filter_shorter
                    (fun u => match fupd color x (Some 0) u with
                              | None => true
                              | Some _ => false
                              end) (targets (adj g))).
      unfold uncoloured. simpl. lia.
    + rewrite W. destruct r as [color1|]; [|eauto].
      apply colour_loop_sound in W; auto; [|now apply coloured_start].
      destruct W as [S1 W]. destruct (W color1 eq_refl) as [W1 W2].
      now apply IH.
Qed.

Lemma colour_elements_complete (c : T -> bool) (rest : list T) :
  (forall u v, edge g u v -> edge g v u) ->
  two_colouring g c ->
  forall a color b color' a',
    same_edges a (adj g) ->
    coloured g [] color ->
    colour_elements fuel rest a color = Some (b, color', a') ->
    b = true.
Proof.
  intros Sym P. induction rest as [|x rest IH];
    intros a color b color' a' S C L; simpl in L.
  - now inversion L.
  - destruct (color x) as [cx|] eqn:Cx; [eapply IH; eauto|].
    destruct (colour_loop fuel a [(x, 0)] (fupd color x (Some 0)))
      as [[r a1]|] eqn:W; [|discriminate].
    pose proof (colour_loop_complete c Sym P color (c x) fuel a [(x, 0)]
                  (fupd color x (Some 0)) r a1 S
                  (coloured_start color x C Cx) (phase_start c color x C Cx) W)
      as Nr.
    destruct r as [color1|]; [|congruence].
    apply colour_loop_sound in W; auto; [|now apply coloured_start].
    destruct W as [S1 W]. destruct (W color1 eq_refl) as [W1 W2].
    eapply IH; eauto.
Qed.
End Elements.
End Colouring.
End WithVertex.
End BipartiteFacts.

(** X21.  [graph<T>::bipartite()], on a graph whose vertex set holds the
    keys of the adjacency map, returns once the bound on its loop exceeds
    the number of stored edges plus one, and leaves the vertex set and
    every adjacency list as they were.  When it answers [true] the graph
    has a two-colouring: the colours it has given differ across every
    stored edge.  On a graph that stores every edge in both directions it
    answers [false] only when no two-colouring exists, so there the answer
    is [true] exactly for the bipartite graphs. *)
Theorem bipartite_decides_two_colourability :
  forall (T : Type) `(Vertex T) (g : Graph.graph T) (fuel : nat),
    (forall k, In k (um_keys (Graph.adj g)) -> In k (Graph._elements g)) ->
    (1 + List.length (GraphSpec.targets (Graph.adj g)) < fuel)%nat ->
    exists b g',
      Graph.bipartite fuel g = Some (b, g')
      /\ Graph._elements g' = Graph._elements g
      /\ GraphSpec.same_edges (Graph.adj g') (Graph.adj g)
      /\ (b = true -> exists c, GraphSpec.two_colouring g c)
      /\ ((forall u v, GraphSpec.edge g u v -> GraphSpec.edge g v u) ->
          b = false -> forall c, ~ GraphSpec.two_colouring g c).
Proof.
  intros T VT g fuel K L.
  assert (C0 : GraphSpec.coloured g [] (fun _ => None))
    by (constructor; [intros v col []|discriminate|discriminate]).
  destruct (BipartiteFacts.colour_elements_terminates g fuel (Graph._elements g)
              L (Graph.adj g) (fun _ => None) (fun x => eq_refl) C0)
    as (b & color & a & E).
  unfold Graph.bipartite. rewrite E. exists b. eexists.
  split; [reflexivity|]. simpl. split; [reflexivity|].
  destruct (BipartiteFacts.colour_elements_sound g fuel (Graph._elements g)
              (Graph.adj g) (fun _ => None) b color a (fun x => eq_refl) C0 E)
    as [S R].
  split; [exact S|]. split.
  - intros B. destruct (R B) as ([_ R2 R3] & _ & R4).
    exists (fun u => match color u with
                     | Some cu => negb (cu =? 0)
                     | None => false
                     end).
    intros u v Euv.
    assert (Iu : In u (Graph._elements g)).
    { unfold GraphSpec.edge in Euv.
      destruct (um_get_in [] u (Graph.adj g)) as [N|J].
      - rewrite N in Euv. destruct Euv.
      - apply K. unfold um_keys. now apply (in_map fst) in J. }
    destruct (color u) as [cu|] eqn:Cu; [|now apply R4 in Iu].
    destruct (R2 u cu Cu) as [(c' & [])|D].
    destruct (D v Euv) as (cv & Cv & Ne). rewrite Cv.
    destruct (R3 u cu Cu) as [-> | ->], (R3 v cv Cv) as [-> | ->];
      simpl; congruence.
  - intros Sym B c P.
    pose proof (BipartiteFacts.colour_elements_complete g fuel c
                  (Graph._elements g) Sym P (Graph.adj g) (fun _ => None)
                  b color a (fun x => eq_refl) C0 E).
    congruence.
Qed.

Lemma bipartite_decides_two_colourability_witness :
  let g := object (Graph.graph_ctor (T:=Z) "undirected"
                     [(1, [2]); (2, [3]); (3, [4]); (4, [1])]) in
  exists b g',
    Graph.bipartite 20 g = Some (b, g')
    /\ Graph._elements g' = Graph._elements g
    /\ GraphSpec.same_edges (Graph.adj g') (Graph.adj g)
    /\ (b = true -> exists c, GraphSpec.two_colouring g c)
    /\ ((forall u v, GraphSpec.edge g u v -> GraphSpec.edge g v u) ->
        b = false -> forall c, ~ GraphSpec.two_colouring g c).
Proof.
  intros g.
  apply (bipartite_decides_two_colourability Z Z_Vertex g 20).
  - apply (InvariantFacts.ctor_covered "undirected").
  - vm_compute. lia.
Defined.

(** ** [eulerian] *)

Module EulerFacts.
Import Graph GraphSpec.
Section WithVertex.
Context {T : Type} `{Vertex T}.

Lemma modify_keys_nodup (k : T) (f : list T -> list T) (a : list (T * list T)) :
  NoDup (um_keys a) -> NoDup (um_keys (um_modify [] k f a)).
Proof.
  unfold um_keys. induction a as [|[k' l] a IH]; simpl; intros D.
  - constructor; [intros []|constructor].
  - inversion D as [|? ? N D']. subst.
    destruct (vertex_eq_dec k k') as [->|Ne]; simpl.
    + now constructor.
    + constructor; [|now apply IH].
      intros I. apply N.
      change (In k' (um_keys (um_modify [] k f a))) in I.
      apply um_keys_modify in I. destruct I as [I|I]; [congruence|exact I].
Qed.

Lemma degree_sum_push_back (k v : T) (a : list (T * list T)) :
  degree_sum (um_modify [] k (fun l => l ++ [v]) a) = S (degree_sum a).
Proof.
  induction a as [|[k' l] a IH]; simpl; [reflexivity|].
  destruct (vertex_eq_dec k k'); simpl.
  - rewrite length_app. simpl. lia.
  - rewrite IH. lia.
Qed.

Lemma degree_sum_touch (k : T) (a : list (T * list T)) :
  degree_sum (um_touch [] k a) = degree_sum a.
Proof.
  unfold um_touch. induction a as [|[k' l] a IH]; simpl; [reflexivity|].
  destruct (vertex_eq_dec k k'); simpl; [reflexivity|]. now rewrite IH.
Qed.

(** The shape of the adjacency map of an undirected graph: one entry per
    key, and an even number of stored neighbours in all. *)
Local Abbreviation handshake a :=
  (NoDup (um_keys a) /\ Nat.even (degree_sum a) = true).

Lemma handshake_touched (a a' : list (T * list T)) :
  touched a a' -> handshake a -> handshake a' /\ same_edges a' a.
Proof.
  intros R [D P]. induction R as [|a' k R [[D' P'] S']].
  - repeat split; auto.
  - repeat split.
    + now apply modify_keys_nodup.
    + now rewrite degree_sum_touch.
    + intros x. rewrite um_get_touch. apply S'.
Qed.

Lemma touched_trans (a b c : list (T * list T)) :
  touched a b -> touched b c -> touched a c.
Proof.
  intros R1 R2. induction R2; [exact R1|]. now constructor.
Qed.

Lemma add_edge_handshake (g : graph T) (u v : T) :
  _type g = "undirected"%string ->
  handshake (adj g) -> handshake (adj (add_edge g u v)).
Proof.
  intros M [D P]. unfold add_edge. simpl. rewrite M. simpl. split.
  - now repeat apply modify_keys_nodup.
  - rewrite !degree_sum_push_back. rewrite Nat.even_succ_succ. exact P.
Qed.

Lemma dfs_loop_touched :
  forall (fuel : nat) a s visited path path' a',
    dfs_loop fuel a s visited path = Some (path', a') -> touched a a'.
Proof.
  induction fuel as [|fuel IH]; intros a s visited path path' a' D;
    [discriminate|].
  destruct s as [|current s]; simpl in D.
  - inversion D. constructor.
  - destruct (visit_neighbours stack_push
                (um_get [] current (um_touch [] current a)) s visited)
      as [s' visited'].
    apply IH in D. eapply touched_trans; [|exact D].
    constructor. constructor.
Qed.

Lemma bfs_level_touched :
  forall (n : nat) a q visited path a' q' visited' path',
    bfs_level n a q visited path = (a', q', visited', path') -> touched a a'.
Proof.
  induction n as [|n IH]; intros a q visited path a' q' visited' path' B;
    simpl in B.
  - inversion B. constructor.
  - destruct q as [|current q].
    + inversion B. constructor.
    + destruct (visit_neighbours queue_push
                  (um_get [] current (um_touch [] current a)) q visited)
        as [q1 visited1].
      apply IH in B. eapply touched_trans; [|exact B].
      constructor. constructor.
Qed.

Lemma bfs_loop_touched :
  forall (fuel : nat) a q visited path path' a',
    bfs_loop fuel a q visited path = Some (path', a') -> touched a a'.
Proof.
  induction fuel as [|fuel IH]; intros a q visited path path' a' B;
    [discriminate|].
  destruct q as [|current q].
  - inversion B. constructor.
  - rewrite InvariantFacts.bfs_loop_step in B.
    destruct (bfs_level (List.length (current :: q)) a (current :: q) visited path)
      as [[[a1 q1] visited1] path1] eqn:L.
    apply bfs_level_touched in L. apply IH in B.
    eapply touched_trans; eauto.
Qed.

Lemma mark_loop_touched (push : T -> list T -> list T) :
  forall (fuel : nat) a work visited visited' a',
    mark_loop push fuel a work visited = Some (visited', a') -> touched a a'.
Proof.
  induction fuel as [|fuel IH]; intros a work visited visited' a' M;
    [discriminate|].
  destruct work as [|current work]; simpl in M.
  - inversion M. constructor.
  - destruct (visit_neighbours push
                (um_get [] current (um_touch [] current a)) work visited)
      as [work' visited1].
    apply IH in M. eapply touched_trans; [|exact M].
    constructor. constructor.
Qed.

Lemma all_marked_touched (visited : list T) (elements : list T) :
  forall a, touched a (snd (all_marked elements a visited)).
Proof.
  induction elements as [|x rest IH]; intros a; simpl; [constructor|].
  destruct (set_mem x visited); [apply IH|].
  destruct (Nat.ltb 0 (List.length (um_get [] x (um_touch [] x a)))); simpl.
  - constructor. constructor.
  - eapply touched_trans; [|apply IH]. constructor. constructor.
Qed.

Lemma connected_touched (fuel : nat) (g g' : graph T) (b : bool) :
  connected fuel g = Some (b, g') -> touched (adj g) (adj g').
Proof.
  unfold connected. intros C.
  destruct (first_with_edges (adj g)) as [start|].
  - destruct (mark_loop stack_push fuel (adj g) [start] [start])
      as [[visited a]|] eqn:M; [|discriminate].
    apply mark_loop_touched in M.
    pose proof (all_marked_touched visited (_elements g) a) as A.
    destruct (all_marked (_elements g) a visited) as [b' a'].
    inversion C. simpl. eapply touched_trans; eauto.
  - inversion C. constructor.
Qed.

(** With one entry per key, [adj[k]] is the list stored with [k]. *)
Lemma nodup_get (a : list (T * list T)) (k : T) (l : list T) :
  NoDup (um_keys a) -> In (k, l) a -> um_get [] k a = l.
Proof.
  unfold um_keys, um_get. induction a as [|[k' l'] a IH]; simpl; intros D I;
    [destruct I|].
  inversion D as [|? ? N D']. subst.
  destruct (vertex_eq_dec k k') as [->|Ne].
  - destruct I as [I|I]; [now inversion I|].
    exfalso. apply N. now apply (in_map fst) in I.
  - destruct I as [I|I]; [inversion I; congruence|]. now apply IH.
Qed.

(** The handshake lemma: the number of odd adjacency lists is even when
    the number of stored neighbours is. *)
Lemma odd_lists_parity (a : list (T * list T)) :
  Nat.even (List.length (filter (fun e => Nat.odd (List.length (snd e))) a))
  = Nat.even (degree_sum a).
Proof.
  induction a as [|[k l] a IH]; simpl; [reflexivity|].
  rewrite Nat.even_add, <- IH, <- (Nat.negb_odd (List.length l)).
  destruct (Nat.odd (List.length l)); cbn [List.length negb].
  - rewrite Nat.even_succ, <- Nat.negb_even. now destruct (Nat.even _).
  - now destruct (Nat.even _).
Qed.

Lemma odd_entries (a : list (T * list T)) :
  NoDup (um_keys a) ->
  filter (fun el => Nat.odd (List.length (um_get [] (fst el) a))) a
  = filter (fun e => Nat.odd (List.length (snd e))) a.
Proof.
  intros D. apply filter_ext_in. intros [k l] I. simpl.
  now rewrite (nodup_get a k l D I).
Qed.

Lemma nodup_keys_filter (p : T * list T -> bool) (a : list (T * list T)) :
  NoDup (um_keys a) -> NoDup (um_keys (filter p a)).
Proof.
  unfold um_keys. induction a as [|e a IH]; simpl; intros D; [constructor|].
  inversion D as [|? ? N D']. subst.
  destruct (p e); simpl; [|now apply IH].
  constructor; [|now apply IH].
  intros I. apply N. apply in_map_iff in I. destruct I as (e' & E & I).
  apply filter_In in I. rewrite <- E. apply in_map. tauto.
Qed.

Lemma run_handshake (fuel : nat) (g g' : graph T) (o : operation) :
  _type g = "undirected"%string -> handshake (adj g) ->
  run fuel g o = Some g' ->
  _type g' = "undirected"%string /\ handshake (adj g').
Proof.
  intros M K R.
  destruct o as [u v|start end_| |start|start]; simpl in R.
  - inversion R. split; [exact M|]. now apply add_edge_handshake.
  - inversion R. unfold has_edge.
    destruct (negb (set_mem start (_elements g))); simpl; [now split|].
    split; [exact M|].
    apply (handshake_touched (adj g)); [|exact K]. constructor. constructor.
  - inversion R. simpl. split; [exact M|]. split; [constructor|reflexivity].
  - unfold dfs in R.
    destruct (empty g || negb (set_mem start (_elements g))); simpl in R.
    + inversion R. subst. now split.
    + destruct (dfs_loop fuel (adj g) [start] [start] []) as [[path a]|] eqn:D;
        [|discriminate].
      inversion R. simpl. split; [exact M|].
      apply dfs_loop_touched in D. now apply (handshake_touched (adj g)).
  - unfold bfs in R.
    destruct (empty g || negb (set_mem start (_elements g))); simpl in R.
    + inversion R. subst. now split.
    + destruct (bfs_loop fuel (adj g) [start] [start] []) as [[path a]|] eqn:D;
        [|discriminate].
      inversion R. simpl. split; [exact M|].
      apply bfs_loop_touched in D. now apply (handshake_touched (adj g)).
Qed.

Lemma run_all_handshake (fuel : nat) (ops : list operation) :
  forall g g' : graph T,
    _type g = "undirected"%string -> handshake (adj g) ->
    run_all fuel g ops = Some g' ->
    handshake (adj g').
Proof.
  induction ops as [|o ops IH]; intros g g' M K R; simpl in R.
  - inversion R. now subst.
  - destruct (run fuel g o) as [g1|] eqn:O; [|discriminate].
    destruct (run_handshake fuel g g1 o M K O) as [M1 K1]. eapply IH; eauto.
Qed.

Lemma ctor_handshake (adj_ : list (T * list T)) :
  _type (object (graph_ctor "undirected" adj_)) = "undirected"%string
  /\ handshake (adj (object (graph_ctor "undirected" adj_))).
Proof.
  unfold graph_ctor, ctor_try. simpl.
  match goal with
  | |- _type (fold_left ?f adj_ ?g0) = _ /\ _ =>
      assert (I0 : _type g0 = "undirected"%string /\ handshake (adj g0))
        by (split; [reflexivity|split; [constructor|reflexivity]]);
      revert I0; generalize g0
  end.
  induction adj_ as [|[u l] adj_ IH]; intros g0 I0; simpl; [exact I0|].
  apply IH. clear IH. revert g0 I0.
  induction l as [|v l IHl]; intros g0 [M K]; simpl; [now split|].
  apply IHl. split; [exact M|]. now apply add_edge_handshake.
Qed.

(** The entries of [adj] counted by [eulerian] are the vertices with an
    odd number of neighbours, one entry each, and even in number. *)
Lemma odd_entries_spec (g : graph T) (a' : list (T * list T)) :
  handshake (adj g) ->
  touched (adj g) a' ->
  let F := filter (fun el => Nat.odd (List.length (um_get [] (fst el) a'))) a' in
  (forall z, odd_degree g z <-> exists l, In (z, l) F)
  /\ NoDup (um_keys F)
  /\ Nat.even (List.length F) = true.
Proof.
  intros K R F.
  destruct (handshake_touched (adj g) a' R K) as [[D P] S].
  split; [|split].
  - intros z. unfold odd_degree. rewrite <- (S z). split.
    + intros O. exists (um_get [] z a'). apply filter_In. split; [|exact O].
      destruct (um_get_in [] z a') as [N|I]; [|exact I].
      rewrite N in O. discriminate.
    + intros (l & I). apply filter_In in I. tauto.
  - now apply nodup_keys_filter.
  - unfold F. rewrite (odd_entries a' D), odd_lists_parity. exact P.
Qed.
End WithVertex.
End EulerFacts.

(** X22.  On a graph constructed as "undirected" and changed only through
    [add_edge], [has_edge], [clear], [dfs] and [bfs], [eulerian()] returns
    once the bound on its loop exceeds the number of stored edges plus
    one, with 0, 1 or 2.  It returns 2 exactly when [connected()] holds and
    every vertex has an even number of neighbours, and 1 exactly when
    [connected()] holds and exactly two vertices have an odd number: a
    single odd vertex cannot occur, since the sizes of the adjacency lists
    add up to an even number. *)
Theorem eulerian_counts_odd_vertices :
  forall (T : Type) `(Vertex T) (adj_ : list (T * list T)) (fuel : nat)
         (ops : list (GraphSpec.operation (T:=T))) (g : Graph.graph T),
    GraphSpec.run_all fuel (object (Graph.graph_ctor "undirected" adj_)) ops
    = Some g ->
    (1 + List.length (GraphSpec.targets (Graph.adj g)) < fuel)%nat ->
    exists r b g',
      Graph.connected fuel g = Some (b, g')
      /\ Graph.eulerian fuel g = Some (r, g')
      /\ (r = 0 \/ r = 1 \/ r = 2)
      /\ (r = 2 <-> b = true /\ forall x, ~ GraphSpec.odd_degree g x)
      /\ (r = 1 <->
          b = true
          /\ exists x y,
               x <> y /\ GraphSpec.odd_degree g x /\ GraphSpec.odd_degree g y
               /\ forall z, GraphSpec.odd_degree g z -> z = x \/ z = y).
Proof.
  intros T VT adj_ fuel ops g R L.
  destruct (EulerFacts.ctor_handshake adj_) as [M0 K0].
  pose proof (EulerFacts.run_all_handshake fuel ops _ g M0 K0 R) as K.
  destruct (ConnectedFacts.connected_result g fuel L)
    as (b & g' & C & _ & _ & _).
  pose proof (EulerFacts.odd_entries_spec g (Graph.adj g') K
                (EulerFacts.connected_touched fuel g g' b C)) as (Fo & Fd & Fe).
  unfold Graph.eulerian. rewrite C.
  destruct b.
  - destruct (filter _ (Graph.adj g')) as [|[k1 l1] [|[k2 l2] [|[k3 l3] F]]]
      eqn:EF.
    + exists 2, true, g'. split; [reflexivity|]. split; [reflexivity|].
      split; [tauto|]. split.
      * split; [intros _|reflexivity]. split; [reflexivity|].
        intros x O. apply Fo in O. destruct O as (l & []).
      * split; [discriminate|]. intros (_ & x & y & _ & O & _).
        apply Fo in O. destruct O as (l & []).
    + discriminate Fe.
    + assert (O1 : GraphSpec.odd_degree g k1)
        by (apply Fo; exists l1; now left).
      assert (O2 : GraphSpec.odd_degree g k2)
        by (apply Fo; exists l2; right; now left).
      exists 1, true, g'. split; [reflexivity|]. split; [reflexivity|].
      split; [tauto|]. split.
      * split; [discriminate|]. intros (_ & A). exfalso. exact (A k1 O1).
      * split; [intros _|reflexivity]. split; [reflexivity|].
        exists k1, k2. split.
        -- intros E. inversion Fd as [|? ? N _]. apply N. simpl. now left.
        -- split; [exact O1|]. split; [exact O2|].
           intros z O. apply Fo in O. destruct O as (l & [J|[J|[]]]);
             inversion J; auto.
    + assert (O1 : GraphSpec.odd_degree g k1)
        by (apply Fo; exists l1; now left).
      assert (O2 : GraphSpec.odd_degree g k2)
        by (apply Fo; exists l2; right; now left).
      assert (O3 : GraphSpec.odd_degree g k3)
        by (apply Fo; exists l3; right; right; now left).
      assert (N12 : k1 <> k2 /\ k1 <> k3 /\ k2 <> k3).
      { unfold um_keys in Fd. simpl in Fd.
        inversion Fd as [|? ? N1 Fd1]. inversion Fd1 as [|? ? N2 _]. subst.
        simpl in N1, N2. repeat split; intros E; subst; tauto. }
      assert (G : (Z.of_nat (List.length ((k1, l1) :: (k2, l2) :: (k3, l3) :: F))
                   >? 2) = true).
      { apply Z.gtb_lt. simpl List.length. lia. }
      rewrite G.
      exists 0, true, g'. split; [reflexivity|]. split; [reflexivity|].
      split; [tauto|]. split.
      * split; [discriminate|]. intros (_ & A). exfalso. exact (A k1 O1).
      * split; [discriminate|]. intros (_ & x & y & _ & _ & _ & A). exfalso.
        destruct N12 as (N1 & N2 & N3).
        destruct (A k1 O1), (A k2 O2), (A k3 O3); congruence.
  - exists 0, false, g'. split; [reflexivity|]. split; [reflexivity|].
    split; [tauto|]. split; split; try discriminate; intros [B _];
      discriminate.
Qed.

Lemma eulerian_counts_odd_vertices_witness :
  exists g,
    GraphSpec.run_all 10
      (object (Graph.graph_ctor (T:=Z) "undirected" [(1, [2]); (2, [3])]))
      [GraphSpec.op_dfs 1] = Some g
    /\ exists r b g',
         Graph.connected 10 g = Some (b, g')
         /\ Graph.eulerian 10 g = Some (r, g')
         /\ (r = 0 \/ r = 1 \/ r = 2)
         /\ (r = 2 <-> b = true /\ forall x, ~ GraphSpec.odd_degree g x)
         /\ (r = 1 <->
             b = true
             /\ exists x y,
                  x <> y /\ GraphSpec.odd_degree g x /\ GraphSpec.odd_degree g y
                  /\ forall z, GraphSpec.odd_degree g z -> z = x \/ z = y).
Proof.
  eexists. split; [vm_compute; reflexivity|].
  apply (eulerian_counts_odd_vertices Z Z_Vertex [(1, [2]); (2, [3])] 10
           [GraphSpec.op_dfs 1]).
  - vm_compute. reflexivity.
  - vm_compute. lia.
Defined.

(** ** The traversals of the weighted graph *)

Module WeightedTraversalFacts.
Import WeightedGraph WeightedSpec.
Section WithVertex.
Context {T : Type} `{Vertex T}.

Lemma visit_neighbours_forget (push : T -> list T -> list T)
    (neigh : list (T * Z)) (work visited : list T) :
  visit_neighbours push neigh work visited
  = Graph.visit_neighbours push (map fst neigh) work visited.
Proof.
  unfold visit_neighbours, Graph.visit_neighbours. rewrite fold_left_map.
  apply fold_left_pointwise. intros [w v] x. reflexivity.
Qed.

Lemma targets_forget (a : list (T * list (T * Z))) :
  GraphSpec.targets (forget a) = targets a.
Proof.
  unfold GraphSpec.targets, targets, um_keys, forget. rewrite map_map. simpl.
  apply flat_map_ext. intros k. apply SkeletonFacts.um_get_forget.
Qed.

Lemma reachable_skeleton (g : weighted_graph T) (u v : T) :
  reachable g u v <-> GraphSpec.reachable (skeleton g) u v.
Proof.
  split; intros R.
  - induction R as [|y z w R IH E]; [constructor|].
    eapply GraphSpec.reachable_step; [exact IH|].
    apply SkeletonFacts.skeleton_edge. now exists w.
  - induction R as [|y z R IH E]; [constructor|].
    apply SkeletonFacts.skeleton_edge in E. destruct E as (w & E).
    eapply reachable_step; [exact IH|exact E].
Qed.

Lemma traverse_level_step (push : T -> list T -> list T) (n : nat)
    (a : list (T * list (T * Z))) (current : T) (work visited path : list T) :
  traverse_level push (S n) a (current :: work) visited path
  = let a' := um_touch [] current a in
    let '(work', visited') :=
      visit_neighbours push (um_get [] current a') work visited in
    traverse_level push n a' work' visited' (path ++ [current]).
Proof. reflexivity. Qed.

Lemma traverse_loop_step (push : T -> list T -> list T) (fuel : nat)
    (a : list (T * list (T * Z))) (current : T) (work visited path : list T) :
  traverse_loop push (S fuel) a (current :: work) visited path
  = let '(a', work', visited', path') :=
      traverse_level push (List.length (current :: work)) a (current :: work)
        visited path in
    traverse_loop push fuel a' work' visited' path'.
Proof. reflexivity. Qed.

Section Traversal.
Variable g : weighted_graph T.
Variable start : T.
Variable push : T -> list T -> list T.
Hypothesis push_perm : forall x w, Permutation (push x w) (x :: w).

(** The state of a traversal, as for the unweighted graph. *)
#[local, warnings="-inconsistent-scopes"]
Abbreviation traversing path work visited :=
  (NoDup (path ++ work)
   /\ (forall y, In y visited <-> In y (path ++ work))
   /\ (forall y, In y visited -> GraphSpec.reachable (skeleton g) start y)
   /\ (forall u v, In u path -> GraphSpec.edge (skeleton g) u v -> In v visited)
   /\ In start visited
   /\ ((path = [] /\ work = [start]) \/ exists p, path = start :: p)).

Local Abbreviation measure work visited :=
  (List.length work
   + List.length (GraphSpec.unprocessed (targets (adj g)) visited))%nat.

Lemma weighted_traversal_step (a : list (T * list (T * Z))) (current : T)
    (path work visited work' visited' : list T) :
  same_edges a (adj g) ->
  traversing path (current :: work) visited ->
  visit_neighbours push (um_get [] current (um_touch [] current a)) work visited
  = (work', visited') ->
  traversing (path ++ [current]) work' visited'
  /\ (measure work' visited' <= measure work visited)%nat.
Proof.
  intros S I F. rewrite visit_neighbours_forget in F.
  rewrite <- SkeletonFacts.um_get_forget, <- SkeletonFacts.um_touch_forget in F.
  rewrite <- (targets_forget (adj g)).
  apply (TraversalFacts.traversal_step (skeleton g) start push push_perm
           (forget a) current path work visited work' visited'); auto.
  intros x. simpl. rewrite !SkeletonFacts.um_get_forget. now rewrite S.
Qed.

Lemma traverse_level_result :
  forall (n : nat) a work visited path a' work' visited' path',
    same_edges a (adj g) ->
    traversing path work visited ->
    traverse_level push n a work visited path = (a', work', visited', path') ->
    same_edges a' (adj g)
    /\ traversing path' work' visited'
    /\ (measure work' visited' <= measure work visited)%nat.
Proof.
  induction n as [|n IH]; intros a work visited path a' work' visited' path' S I B.
  - simpl in B. inversion B. subst. auto.
  - destruct work as [|current work].
    + simpl in B. inversion B. subst. auto.
    + rewrite traverse_level_step in B. simpl in B.
      destruct (visit_neighbours push
                  (um_get [] current (um_touch [] current a)) work visited)
        as [work1 visited1] eqn:F.
      destruct (weighted_traversal_step a current path work visited work1
                  visited1 S I F) as [I1 L1].
      apply IH in B; auto.
      * destruct B as (B1 & B2 & B3). split; [exact B1|]. split; [exact B2|].
        simpl. lia.
      * now apply KahnFacts.same_edges_touch.
Qed.

Lemma traverse_loop_result :
  forall (fuel : nat) a work visited path,
    same_edges a (adj g) ->
    traversing path work visited ->
    (measure work visited < fuel)%nat ->
    exists path' a' visited',
      traverse_loop push fuel a work visited path = Some (path', a')
      /\ same_edges a' (adj g)
      /\ traversing path' (@nil T) visited'.
Proof.
  induction fuel as [|fuel IH]; intros a work visited path S I L; [lia|].
  destruct work as [|current work].
  - exists path, a, visited. auto.
  - rewrite traverse_loop_step.
    change (List.length (current :: work)) with (Datatypes.S (List.length work)).
    rewrite traverse_level_step. simpl.
    destruct (visit_neighbours push
                (um_get [] current (um_touch [] current a)) work visited)
      as [work1 visited1] eqn:F.
    destruct (weighted_traversal_step a current path work visited work1
                visited1 S I F) as [I1 L1].
    destruct (traverse_level push (List.length work) (um_touch [] current a)
                work1 visited1 (path ++ [current]))
      as [[[a2 work2] visited2] path2] eqn:B.
    apply traverse_level_result in B; auto.
    + destruct B as (B1 & B2 & B3). apply IH; auto. simpl in L. lia.
    + now apply KahnFacts.same_edges_touch.
Qed.

(** What a traversal from a vertex of the graph returns. *)
Lemma traverse_result (fuel : nat) :
  In start (_elements g) ->
  (1 + List.length (targets (adj g)) < fuel)%nat ->
  exists path g',
    traverse push fuel g start = Some (path, g')
    /\ hd_error path = Some start
    /\ NoDup path
    /\ (forall v, In v path <-> reachable g start v)
    /\ _elements g' = _elements g
    /\ same_edges (adj g') (adj g).
Proof.
  intros I L.
  destruct (TraversalFacts.traversal_start (skeleton g) start I)
    as (I0 & L0 & E0).
  change (Graph.adj (skeleton g)) with (forget (adj g)) in L0.
  rewrite targets_forget in L0.
  destruct (traverse_loop_result fuel (adj g) [start] [start] []
              (fun x => eq_refl) I0 ltac:(simpl in L0 |- *; lia))
    as (path & a & visited & R & S & D).
  unfold traverse.
  change (empty g || negb (set_mem start (_elements g)))
    with (Graph.empty (skeleton g)
          || negb (set_mem start (Graph._elements (skeleton g)))).
  rewrite E0, R. exists path, (with_adj g a).
  destruct (TraversalFacts.traversal_done (skeleton g) start path visited D)
    as (D1 & D2 & D3).
  split; [reflexivity|]. split; [exact D1|]. split; [exact D2|].
  split; [|split; [reflexivity|exact S]].
  intros v. rewrite reachable_skeleton. apply D3.
Qed.
End Traversal.
End WithVertex.
End WeightedTraversalFacts.

(** X23.  [weighted_graph<T>::dfs(start)] and [weighted_graph<T>::bfs(start)]
    from a vertex of the graph return once the bound on their loops exceeds
    the number of stored edges plus one; each path begins with [start], has
    no repeated vertex and holds exactly the vertices that can be reached
    from [start]; the vertex set and every adjacency list are left as they
    were. *)
Theorem weighted_traversals_visit_the_reachable_vertices :
  forall (T : Type) `(Vertex T) (g : WeightedGraph.weighted_graph T)
         (start : T) (fuel : nat),
    In start (WeightedGraph._elements g) ->
    (1 + List.length (WeightedSpec.targets (WeightedGraph.adj g)) < fuel)%nat ->
    (exists path g',
        WeightedGraph.dfs fuel g start = Some (path, g')
        /\ hd_error path = Some start
        /\ NoDup path
        /\ (forall v, In v path <-> WeightedSpec.reachable g start v)
        /\ WeightedGraph._elements g' = WeightedGraph._elements g
        /\ WeightedSpec.same_edges (WeightedGraph.adj g') (WeightedGraph.adj g))
    /\ (exists path g',
          WeightedGraph.bfs fuel g start = Some (path, g')
          /\ hd_error path = Some start
          /\ NoDup path
          /\ (forall v, In v path <-> WeightedSpec.reachable g start v)
          /\ WeightedGraph._elements g' = WeightedGraph._elements g
          /\ WeightedSpec.same_edges (WeightedGraph.adj g')
               (WeightedGraph.adj g)).
Proof.
  intros T VT g start fuel I L. split.
  - exact (WeightedTraversalFacts.traverse_result g start (fun x s => x :: s)
             (fun x w => Permutation_refl (x :: w)) fuel I L).
  - exact (WeightedTraversalFacts.traverse_result g start
             (fun x q => q ++ [x])
             (fun x w => Permutation_sym (Permutation_cons_append w x))
             fuel I L).
Qed.

Lemma weighted_traversals_visit_the_reachable_vertices_witness :
  (exists path g',
      WeightedGraph.dfs 10 Scenario.diamond 2 = Some (path, g')
      /\ hd_error path = Some 2
      /\ NoDup path
      /\ (forall v, In v path <-> WeightedSpec.reachable Scenario.diamond 2 v)
      /\ WeightedGraph._elements g' = WeightedGraph._elements Scenario.diamond
      /\ WeightedSpec.same_edges (WeightedGraph.adj g')
           (WeightedGraph.adj Scenario.diamond))
  /\ (exists path g',
        WeightedGraph.bfs 10 Scenario.diamond 2 = Some (path, g')
        /\ hd_error path = Some 2
        /\ NoDup path
        /\ (forall v, In v path <-> WeightedSpec.reachable Scenario.diamond 2 v)
        /\ WeightedGraph._elements g' = WeightedGraph._elements Scenario.diamond
        /\ WeightedSpec.same_edges (WeightedGraph.adj g')
             (WeightedGraph.adj Scenario.diamond)).
Proof.
  apply (weighted_traversals_visit_the_reachable_vertices Z Z_Vertex
           Scenario.diamond 2 10).
  - vm_compute. tauto.
  - vm_compute. lia.
Defined.

(** ** The data-model invariant of the weighted graph *)

Module WellFormedFacts.
Import WeightedGraph WeightedSpec KahnFacts.
Section WithVertex.
Context {T : Type} `{NumericVertex T}.

Lemma same_state_well_formed (g g' : weighted_graph T) :
  well_formed g ->
  _elements g' = _elements g ->
  same_edges (adj g') (adj g) ->
  well_formed g'.
Proof.
  intros (D & K & S) E A. unfold well_formed, neighbours_known, sources_known,
    edge. rewrite E. split; [exact D|]. split.
  - intros u v w I. rewrite A in I. eapply K. exact I.
  - intros u v w I. rewrite A in I. eapply S. exact I.
Qed.

Lemma traverse_level_same_edges (push : T -> list T -> list T)
    (a0 : list (T * list (T * Z))) :
  forall (n : nat) a work visited path a' work' visited' path',
    same_edges a a0 ->
    traverse_level push n a work visited path = (a', work', visited', path') ->
    same_edges a' a0.
Proof.
  induction n as [|n IH]; intros a work visited path a' work' visited' path' S B;
    simpl in B.
  - inversion B. now subst.
  - destruct work as [|current work].
    + inversion B. now subst.
    + destruct (visit_neighbours push
                  (um_get [] current (um_touch [] current a)) work visited)
        as [work1 visited1].
      eapply IH; [|exact B]. now apply same_edges_touch.
Qed.

Lemma traverse_loop_same_edges (push : T -> list T -> list T)
    (a0 : list (T * list (T * Z))) :
  forall (fuel : nat) a work visited path path' a',
    same_edges a a0 ->
    traverse_loop push fuel a work visited path = Some (path', a') ->
    same_edges a' a0.
Proof.
  induction fuel as [|fuel IH]; intros a work visited path path' a' S B;
    [discriminate|].
  destruct work as [|current work].
  - inversion B. now subst.
  - rewrite WeightedTraversalFacts.traverse_loop_step in B.
    destruct (traverse_level push (List.length (current :: work)) a
                (current :: work) visited path)
      as [[[a1 work1] visited1] path1] eqn:L.
    apply traverse_level_same_edges with (a0 := a0) in L; [|exact S].
    eapply IH; [exact L|exact B].
Qed.

Lemma traverse_same_state (push : T -> list T -> list T) (fuel : nat)
    (g g' : weighted_graph T) (start : T) (path : list T) :
  traverse push fuel g start = Some (path, g') ->
  _elements g' = _elements g /\ same_edges (adj g') (adj g).
Proof.
  unfold traverse. intros R.
  destruct (empty g || negb (set_mem start (_elements g))).
  - inversion R. split; [reflexivity|apply same_edges_refl].
  - destruct (traverse_loop push fuel (adj g) [start] [start] [])
      as [[p a]|] eqn:L; [|discriminate].
    inversion R. simpl. split; [reflexivity|].
    eapply traverse_loop_same_edges; [apply same_edges_refl|exact L].
Qed.

Lemma dag_loop_same_edges (a0 : list (T * list (T * Z))) :
  forall (fuel : nat) a top_sort dist dist' a',
    same_edges a a0 ->
    dag_loop fuel a top_sort dist = Some (dist', a') ->
    same_edges a' a0.
Proof.
  induction fuel as [|fuel IH]; intros a top_sort dist dist' a' S D;
    [discriminate|].
  destruct top_sort as [|current rest]; simpl in D.
  - inversion D. now subst.
  - destruct (dist current =? dist_unset); [eapply IH; eauto|].
    match type of D with
    | context [fold_left ?f ?l ?i] => destruct (fold_left f l i) as [dist1 s1]
    end.
    eapply IH; [|exact D]. now apply same_edges_touch.
Qed.

Lemma dijkstra_loop_same_edges (a0 : list (T * list (T * Z))) :
  forall (fuel : nat) a pq dist dist' a',
    same_edges a a0 ->
    dijkstra_loop fuel a pq dist = Some (dist', a') ->
    same_edges a' a0.
Proof.
  induction fuel as [|fuel IH]; intros a pq dist dist' a' S D; [discriminate|].
  simpl in D. destruct (pq_pop dist_vertex_ltb pq) as [[[d u] pq1]|].
  - match type of D with
    | context [fold_left ?f ?l ?i] => destruct (fold_left f l i) as [dist1 pq2]
    end.
    eapply IH; [|exact D]. now apply same_edges_touch.
  - inversion D. now subst.
Qed.

Lemma shortest_path_same_state (fuel : nat) (g g' : weighted_graph T)
    (start end_ : T) (r : Z) :
  neighbours_known g ->
  shortest_path fuel g start end_ = Some (r, g') ->
  _elements g' = _elements g /\ same_edges (adj g') (adj g).
Proof.
  intros K P. unfold shortest_path in P.
  destruct (negb (set_mem start (_elements g)));
    [inversion P; split; [reflexivity|apply same_edges_refl]|].
  destruct (negb (set_mem end_ (_elements g)));
    [inversion P; split; [reflexivity|apply same_edges_refl]|].
  destruct (cycle fuel g) as [[b g1]|] eqn:C; [|discriminate].
  apply cycle_same_edges with (a0 := adj g) in C; [|apply same_edges_refl].
  destruct C as (S1 & E1 & _).
  destruct (negb b && (_type g1 =? "directed")%string).
  - unfold relax_in_topological_order in P.
    destruct (topological_sort fuel g1) as [[order g2]|] eqn:O; [|discriminate].
    apply topological_sort_sound with (a0 := adj g) in O; auto.
    + destruct O as (S2 & E2 & _).
      destruct (dag_loop fuel (adj g2) order (initial_dist (_elements g2) start))
        as [[dist a']|] eqn:D; [|discriminate].
      inversion P. simpl. split; [congruence|].
      eapply dag_loop_same_edges; [exact S2|exact D].
    + rewrite E1. now apply targets_known.
  - unfold dijkstra in P.
    destruct (dijkstra_loop fuel (adj g1) [(0, start)]
                (initial_dist (_elements g1) start))
      as [[dist a']|] eqn:D; [|discriminate].
    inversion P. simpl. split; [exact E1|].
    eapply dijkstra_loop_same_edges; [exact S1|exact D].
Qed.

Lemma clear_well_formed (g : weighted_graph T) : well_formed (clear g).
Proof.
  split; [constructor|]. split; intros u v w [].
Qed.

Lemma add_edge_well_formed (g : weighted_graph T) (u v : T) (w : Z) :
  well_formed g -> well_formed (add_edge g u v w).
Proof.
  intros (D & K & S). split; [|split].
  - simpl. now repeat apply TopologicalFacts.set_insert_nodup.
  - now apply add_edge_neighbours_known.
  - now apply LeftOutFacts.add_edge_sources_known.
Qed.

Lemma has_edge_well_formed (g : weighted_graph T) (start end_ : T) :
  well_formed g -> well_formed (snd (has_edge g start end_)).
Proof.
  intros W. unfold has_edge.
  destruct (negb (set_mem start (_elements g))); [exact W|].
  apply (same_state_well_formed g); [exact W|reflexivity|].
  simpl. now apply same_edges_touch, same_edges_refl.
Qed.

Lemma ctor_well_formed (mode : string) (adj_ : list ((T * T) * Z)) :
  well_formed (object (weighted_graph_ctor mode adj_)).
Proof.
  split; [apply LeftOutFacts.ctor_nodup|]. split.
  - apply ctor_neighbours_known.
  - apply LeftOutFacts.ctor_sources_known.
Qed.
End WithVertex.
End WellFormedFacts.

(** X24.  The data-model invariant of the weighted graph (a vertex set
    without repetition that holds both ends of every stored edge) holds
    after every construction, whatever the mode string, and is kept by
    [add_edge], [clear] and [has_edge], and by every call of [dfs], [bfs]
    and [shortest_path] that returns, including the empty entries that
    [operator[]] inserts into the adjacency map during the queries. *)
Theorem weighted_graph_stays_well_formed :
  forall (T : Type) `(NumericVertex T),
    (forall mode adj_,
        WeightedSpec.well_formed
          (object (WeightedGraph.weighted_graph_ctor (T:=T) mode adj_)))
    /\ forall g : WeightedGraph.weighted_graph T,
         WeightedSpec.well_formed g ->
         (forall u v w, WeightedSpec.well_formed (WeightedGraph.add_edge g u v w))
         /\ WeightedSpec.well_formed (WeightedGraph.clear g)
         /\ (forall s e,
               WeightedSpec.well_formed (snd (WeightedGraph.has_edge g s e)))
         /\ (forall fuel s path g',
               WeightedGraph.dfs fuel g s = Some (path, g') ->
               WeightedSpec.well_formed g')
         /\ (forall fuel s path g',
               WeightedGraph.bfs fuel g s = Some (path, g') ->
               WeightedSpec.well_formed g')
         /\ (forall fuel s e r g',
               WeightedGraph.shortest_path fuel g s e = Some (r, g') ->
               WeightedSpec.well_formed g').
Proof.
  intros T VT NT. split; [apply WellFormedFacts.ctor_well_formed|].
  intros g W. split; [|split; [|split; [|split; [|split]]]].
  - intros u v w. now apply WellFormedFacts.add_edge_well_formed.
  - apply WellFormedFacts.clear_well_formed.
  - intros s e. now apply WellFormedFacts.has_edge_well_formed.
  - intros fuel s path g' R.
    apply WellFormedFacts.traverse_same_state in R. destruct R as [E S].
    now apply (WellFormedFacts.same_state_well_formed g).
  - intros fuel s path g' R.
    apply WellFormedFacts.traverse_same_state in R. destruct R as [E S].
    now apply (WellFormedFacts.same_state_well_formed g).
  - intros fuel s e r g' R.
    apply WellFormedFacts.shortest_path_same_state in R; [|apply W].
    destruct R as [E S].
    now apply (WellFormedFacts.same_state_well_formed g).
Qed.

Lemma weighted_graph_stays_well_formed_witness :
  WeightedSpec.well_formed Scenario.triangle
  /\ WeightedSpec.well_formed (WeightedGraph.add_edge Scenario.triangle 7 8 2)
  /\ forall fuel r g',
       WeightedGraph.shortest_path fuel Scenario.triangle Scenario.A Scenario.C
       = Some (r, g') ->
       WeightedSpec.well_formed g'.
Proof.
  destruct (weighted_graph_stays_well_formed Z Z_NumericVertex) as [C K].
  assert (W : WeightedSpec.well_formed Scenario.triangle) by apply C.
  destruct (K Scenario.triangle W) as (K1 & _ & _ & _ & _ & K6).
  split; [exact W|]. split; [apply K1|].
  intros fuel r g'. apply K6.
Defined.

(** ** The queries the two classes share *)

Lemma find_map_pointwise {A B : Type} (f : B -> bool) (p : A -> bool)
    (h : A -> B) (l : list A) :
  (forall x, In x l -> f (h x) = p x) ->
  find f (map h l) = option_map h (find p l).
Proof.
  induction l as [|x l IH]; intros E; simpl; [reflexivity|].
  rewrite (E x (or_introl eq_refl)). destruct (p x); [reflexivity|].
  apply IH. intros y I. apply E. now right.
Qed.

Lemma filter_map_pointwise {A B : Type} (f : B -> bool) (p : A -> bool)
    (h : A -> B) (l : list A) :
  (forall x, In x l -> f (h x) = p x) ->
  filter f (map h l) = map h (filter p l).
Proof.
  induction l as [|x l IH]; intros E; simpl; [reflexivity|].
  rewrite (E x (or_introl eq_refl)), IH by (intros y I; apply E; now right).
  now destruct (p x).
Qed.

Module AgreementFacts.
Import WeightedSpec.
Section WithVertex.
Context {T : Type} `{Vertex T}.

Lemma mark_loop_forget (push : T -> list T -> list T) :
  forall (fuel : nat) (a : list (T * list (T * Z))) work visited,
    Graph.mark_loop push fuel (forget a) work visited
    = option_map (fun r => (fst r, forget (snd r)))
        (WeightedGraph.mark_loop push fuel a work visited).
Proof.
  induction fuel as [|fuel IH]; intros a work visited; [reflexivity|].
  destruct work as [|current work]; simpl; [reflexivity|].
  rewrite SkeletonFacts.um_touch_forget, SkeletonFacts.um_get_forget,
    <- WeightedTraversalFacts.visit_neighbours_forget.
  destruct (WeightedGraph.visit_neighbours push _ work visited)
    as [work' visited'].
  apply IH.
Qed.

Lemma first_with_edges_forget (a : list (T * list (T * Z))) :
  Graph.first_with_edges (forget a) = WeightedGraph.first_with_edges a.
Proof.
  unfold Graph.first_with_edges, WeightedGraph.first_with_edges, forget.
  rewrite (find_map_pointwise _
             (fun ele => negb (Nat.eqb
                (List.length (um_get [] (fst ele) a)) 0))).
  - now destruct (find _ a).
  - intros e _. simpl. fold (forget a).
    now rewrite SkeletonFacts.um_get_forget, length_map.
Qed.

Lemma all_marked_forget (visited : list T) (elements : list T) :
  forall a : list (T * list (T * Z)),
    Graph.all_marked elements (forget a) visited
    = (fst (WeightedGraph.all_marked elements a visited),
       forget (snd (WeightedGraph.all_marked elements a visited))).
Proof.
  induction elements as [|x rest IH]; intros a; simpl; [reflexivity|].
  destruct (set_mem x visited); [apply IH|].
  rewrite SkeletonFacts.um_touch_forget, SkeletonFacts.um_get_forget,
    length_map.
  destruct (Nat.ltb 0 _); [reflexivity|apply IH].
Qed.

Lemma connected_forget (fuel : nat) (g : WeightedGraph.weighted_graph T) :
  Graph.connected fuel (skeleton g)
  = option_map (fun r => (fst r, skeleton (snd r)))
      (WeightedGraph.connected fuel g).
Proof.
  unfold Graph.connected, WeightedGraph.connected. simpl.
  rewrite first_with_edges_forget.
  destruct (WeightedGraph.first_with_edges (WeightedGraph.adj g)) as [start|];
    [|reflexivity].
  unfold Graph.stack_push. rewrite mark_loop_forget.
  destruct (WeightedGraph.mark_loop _ fuel (WeightedGraph.adj g) [start] [start])
    as [[visited a]|]; [|reflexivity].
  simpl. rewrite all_marked_forget.
  now destruct (WeightedGraph.all_marked (WeightedGraph._elements g) a visited).
Qed.

Lemma odd_count_forget (a : list (T * list (T * Z))) :
  List.length
    (filter (fun el => Nat.odd (List.length (um_get [] (fst el) (forget a))))
       (forget a))
  = List.length
      (filter (fun el => Nat.odd (List.length (um_get [] (fst el) a))) a).
Proof.
  unfold forget at 2.
  rewrite (filter_map_pointwise _
             (fun el => Nat.odd (List.length (um_get [] (fst el) a)))).
  - apply length_map.
  - intros e _. simpl.
    now rewrite SkeletonFacts.um_get_forget, length_map.
Qed.

Lemma eulerian_forget (fuel : nat) (g : WeightedGraph.weighted_graph T) :
  Graph.eulerian fuel (skeleton g)
  = option_map (fun r => (fst r, skeleton (snd r)))
      (WeightedGraph.eulerian fuel g).
Proof.
  unfold Graph.eulerian, WeightedGraph.eulerian. rewrite connected_forget.
  destruct (WeightedGraph.connected fuel g) as [[[|] g']|]; simpl;
    [|reflexivity|reflexivity].
  now rewrite odd_count_forget.
Qed.

Lemma colour_neighbours_forget (col : Z) (l : list (T * Z)) :
  forall q color,
    Graph.colour_neighbours col (map fst l) q color
    = WeightedGraph.colour_neighbours col l q color.
Proof.
  induction l as [|x l IH]; intros q color; simpl; [reflexivity|].
  destruct (color (fst x)) as [c|]; [|apply IH].
  destruct (c =? col); [reflexivity|apply IH].
Qed.

Lemma colour_loop_forget :
  forall (fuel : nat) (a : list (T * list (T * Z))) q color,
    Graph.colour_loop fuel (forget a) q color
    = option_map (fun r => (fst r, forget (snd r)))
        (WeightedGraph.colour_loop fuel a q color).
Proof.
  induction fuel as [|fuel IH]; intros a q color; [reflexivity|].
  destruct q as [|[v col] q]; simpl; [reflexivity|].
  rewrite SkeletonFacts.um_touch_forget, SkeletonFacts.um_get_forget,
    colour_neighbours_forget.
  destruct (WeightedGraph.colour_neighbours col _ q color) as [[q' color']|];
    [apply IH|reflexivity].
Qed.

Lemma colour_elements_forget (fuel : nat) (elements : list T) :
  forall (a : list (T * list (T * Z))) color,
    Graph.colour_elements fuel elements (forget a) color
    = option_map (fun r => (fst r, forget (snd r)))
        (WeightedGraph.colour_elements fuel elements a color).
Proof.
  induction elements as [|x rest IH]; intros a color; simpl; [reflexivity|].
  destruct (color x); [apply IH|].
  rewrite colour_loop_forget.
  destruct (WeightedGraph.colour_loop fuel a [(x, 0)] (fupd color x (Some 0)))
    as [[[color'|] a']|]; simpl; [apply IH|reflexivity|reflexivity].
Qed.

Lemma bipartite_forget (fuel : nat) (g : WeightedGraph.weighted_graph T) :
  Graph.bipartite fuel (skeleton g)
  = option_map (fun r => (fst r, skeleton (snd r)))
      (WeightedGraph.bipartite fuel g).
Proof.
  unfold Graph.bipartite, WeightedGraph.bipartite. simpl.
  rewrite colour_elements_forget.
  now destruct (WeightedGraph.colour_elements fuel (WeightedGraph._elements g)
                  (WeightedGraph.adj g) (fun _ => None)) as [[[b c] a]|].
Qed.
End WithVertex.
End AgreementFacts.

(** X25.  [connected()], [eulerian()] and [bipartite()] of the weighted
    graph return what the functions of the same name of the unweighted
    graph return on the graph with the weights dropped, run out of their
    bound on the same inputs, and leave the graph in the matching state:
    what is proved of the unweighted functions holds of the weighted
    ones. *)
Theorem weighted_queries_agree_with_unweighted :
  forall (T : Type) `(Vertex T) (g : WeightedGraph.weighted_graph T)
         (fuel : nat),
    Graph.connected fuel (WeightedSpec.skeleton g)
    = option_map (fun r => (fst r, WeightedSpec.skeleton (snd r)))
        (WeightedGraph.connected fuel g)
    /\ Graph.eulerian fuel (WeightedSpec.skeleton g)
       = option_map (fun r => (fst r, WeightedSpec.skeleton (snd r)))
           (WeightedGraph.eulerian fuel g)
    /\ Graph.bipartite fuel (WeightedSpec.skeleton g)
       = option_map (fun r => (fst r, WeightedSpec.skeleton (snd r)))
           (WeightedGraph.bipartite fuel g).
Proof.
  intros T VT g fuel. split; [|split].
  - apply AgreementFacts.connected_forget.
  - apply AgreementFacts.eulerian_forget.
  - apply AgreementFacts.bipartite_forget.
Qed.

(** ** Connected components of the weighted graph *)

Module WeightedComponentFacts.
Import WeightedGraph WeightedSpec.
Section WithVertex.
Context {T : Type} `{Vertex T}.

Lemma mark_loop_same_edges (push : T -> list T -> list T)
    (a0 : list (T * list (T * Z))) :
  forall (fuel : nat) a work visited visited' a',
    same_edges a a0 ->
    mark_loop push fuel a work visited = Some (visited', a') ->
    same_edges a' a0.
Proof.
  induction fuel as [|fuel IH]; intros a work visited visited' a' S M;
    [discriminate|].
  destruct work as [|current work]; simpl in M.
  - inversion M. now subst.
  - destruct (visit_neighbours push
                (um_get [] current (um_touch [] current a)) work visited)
      as [work' visited1].
    eapply IH; [|exact M]. now apply KahnFacts.same_edges_touch.
Qed.

Section Components.
Variable g : weighted_graph T.
Variable fuel : nat.
Hypothesis enough : (1 + List.length (targets (adj g)) < fuel)%nat.

(** A marking started at [x] with the closed set [V0] marked before adds
    the vertices reachable from [x]. *)
Lemma mark_result (push : T -> list T -> list T)
    (push_perm : forall y w, Permutation (push y w) (y :: w))
    (V0 : list T) (x : T) (a : list (T * list (T * Z))) :
  same_edges a (adj g) ->
  (forall u v w, In u V0 -> edge g u v w -> In v V0) ->
  exists visited' a',
    mark_loop push fuel a [x] (x :: V0) = Some (visited', a')
    /\ same_edges a' (adj g)
    /\ forall y, In y visited' <-> In y V0 \/ reachable g x y.
Proof.
  intros S C.
  assert (closed : forall u v, In u V0 -> GraphSpec.edge (skeleton g) u v ->
                               In v V0).
  { intros u v Iu E. apply SkeletonFacts.skeleton_edge in E.
    destruct E as (w & E). eapply C; eauto. }
  destruct (ComponentFacts.marking_start (skeleton g) V0 x closed) as [M0 L0].
  change (Graph.adj (skeleton g)) with (forget (adj g)) in L0.
  rewrite WeightedTraversalFacts.targets_forget in L0.
  destruct (ComponentFacts.mark_loop_result (skeleton g) V0 x push push_perm
              fuel (forget a) [x] (x :: V0)) as (visited' & aG & E & _ & V).
  - intros y. simpl. rewrite !SkeletonFacts.um_get_forget. now rewrite S.
  - exact M0.
  - change (Graph.adj (skeleton g)) with (forget (adj g)).
    rewrite WeightedTraversalFacts.targets_forget. lia.
  - rewrite AgreementFacts.mark_loop_forget in E.
    destruct (mark_loop push fuel a [x] (x :: V0)) as [[v' a']|] eqn:M;
      [|discriminate].
    simpl in E. inversion E. subst v' aG. exists visited', a'.
    split; [reflexivity|]. split.
    + eapply mark_loop_same_edges; [exact S|exact M].
    + intros y. rewrite V, WeightedTraversalFacts.reachable_skeleton.
      reflexivity.
Qed.

Lemma weighted_components_loop_result (rest : list T) :
  forall a visited cc (R : list T),
    same_edges a (adj g) ->
    (forall y, In y visited <-> exists r, In r R /\ reachable g r y) ->
    NoDup R ->
    (forall r r', In r R -> In r' R -> r <> r' ->
                  ~ reachable g r r' \/ ~ reachable g r' r) ->
    exists a' R',
      components_loop fuel rest a visited cc
      = Some (cc + Z.of_nat (List.length R'), a')
      /\ same_edges a' (adj g)
      /\ NoDup (R ++ R')
      /\ (forall r, In r R' -> In r rest)
      /\ (forall y, In y rest -> exists r, In r (R ++ R') /\ reachable g r y)
      /\ (forall r r', In r (R ++ R') -> In r' (R ++ R') -> r <> r' ->
                       ~ reachable g r r' \/ ~ reachable g r' r).
Proof.
  induction rest as [|x rest IH]; intros a visited cc R S V D P; simpl.
  - exists a, []. rewrite app_nil_r, Z.add_0_r.
    repeat split; auto. intros y [].
  - destruct (set_mem x visited) eqn:M.
    + apply set_mem_true in M.
      destruct (IH a visited cc R S V D P) as (a' & R' & C & S' & D' & I' & A' & P').
      exists a', R'. repeat split; auto.
      intros y [<-|Iy]; [|now apply A'].
      apply V in M. destruct M as (r & Ir & Rr). exists r. split; [|exact Rr].
      apply in_or_app. now left.
    + apply set_mem_false in M.
      assert (closed : forall u v w, In u visited -> edge g u v w ->
                                     In v visited).
      { intros u v w Iu E. apply V in Iu. destruct Iu as (r & Ir & Rr).
        apply V. exists r. split; [exact Ir|].
        eapply reachable_step; [exact Rr|exact E]. }
      destruct (mark_result (fun y s => y :: s)
                  (fun y w => Permutation_refl (y :: w)) visited x a S closed)
        as (visited' & a1 & E & S1 & V1).
      unfold explore. rewrite E.
      assert (Nx : forall r, In r R -> ~ reachable g r x).
      { intros r Ir Rr. apply M. apply V. now exists r. }
      destruct (IH a1 visited' (cc + 1) (R ++ [x]) S1) as
        (a' & R' & C & S' & D' & I' & A' & P').
      * intros y. rewrite V1, V. split.
        -- intros [(r & Ir & Rr)|Rx].
           ++ exists r. split; [apply in_or_app; now left|exact Rr].
           ++ exists x. split; [apply in_or_app; right; now left|exact Rx].
        -- intros (r & Ir & Rr). apply in_app_or in Ir.
           destruct Ir as [Ir|[<-|[]]]; [left; now exists r|now right].
      * apply NoDup_app; auto.
        -- constructor; [intros []|constructor].
        -- intros r Ir [<-|[]]. apply (Nx x Ir). constructor.
      * intros r r' Ir Ir' Ne. apply in_app_or in Ir, Ir'.
        destruct Ir as [Ir|[<-|[]]]; destruct Ir' as [Ir'|[<-|[]]].
        -- now apply P.
        -- left. now apply Nx.
        -- right. now apply Nx.
        -- congruence.
      * exists a', (x :: R'). rewrite <- app_assoc in D', A', P'. simpl in *.
        repeat split; auto.
        -- rewrite C. f_equal. f_equal. lia.
        -- intros r [<-|Ir]; [now left|right; now apply I'].
        -- intros y [<-|Iy]; [|now apply A'].
           exists x. split; [|constructor].
           apply in_or_app. right. now left.
Qed.
End Components.

Lemma weighted_reachable_transitive (g : weighted_graph T) (u v x : T) :
  reachable g u v -> reachable g v x -> reachable g u x.
Proof.
  intros R1 R2. induction R2 as [|y z w R2 IH E]; [exact R1|].
  eapply reachable_step; [exact IH|exact E].
Qed.

Lemma weighted_reachable_symmetric (g : weighted_graph T) :
  (forall u v w, edge g u v w -> edge g v u w) ->
  forall u v, reachable g u v -> reachable g v u.
Proof.
  intros S u v R. induction R as [|y z w R IH E]; [constructor|].
  apply weighted_reachable_transitive with (v := y); [|exact IH].
  eapply reachable_step; [constructor|]. apply S. exact E.
Qed.
End WithVertex.
End WeightedComponentFacts.

(** X26.  [weighted_graph<T>::connected_components()] returns once the
    bound on its loops exceeds the number of stored edges plus one, and
    leaves the vertex set and every adjacency list as they were.  The
    number returned counts distinct vertices of the graph from which every
    vertex can be reached and of which no two can reach each other both
    ways; when every edge is stored in both directions with the same
    weight no two of them are connected, so the number is the number of
    connected components. *)
Theorem weighted_components_are_counted :
  forall (T : Type) `(Vertex T) (g : WeightedGraph.weighted_graph T)
         (fuel : nat),
    (1 + List.length (WeightedSpec.targets (WeightedGraph.adj g)) < fuel)%nat ->
    exists cc g' reps,
      WeightedGraph.connected_components fuel g = Some (cc, g')
      /\ cc = Z.of_nat (List.length reps)
      /\ WeightedGraph._elements g' = WeightedGraph._elements g
      /\ WeightedSpec.same_edges (WeightedGraph.adj g') (WeightedGraph.adj g)
      /\ NoDup reps
      /\ (forall r, In r reps -> In r (WeightedGraph._elements g))
      /\ (forall v, In v (WeightedGraph._elements g) ->
            exists r, In r reps /\ WeightedSpec.reachable g r v)
      /\ (forall r r', In r reps -> In r' reps -> r <> r' ->
            ~ WeightedSpec.reachable g r r' \/ ~ WeightedSpec.reachable g r' r)
      /\ ((forall u v w, WeightedSpec.edge g u v w -> WeightedSpec.edge g v u w) ->
          forall r r', In r reps -> In r' reps -> r <> r' ->
            ~ WeightedSpec.reachable g r r').
Proof.
  intros T VT g fuel L.
  destruct (WeightedComponentFacts.weighted_components_loop_result g fuel L
              (WeightedGraph._elements g) (WeightedGraph.adj g) [] 0 [])
    as (a' & reps & C & S & D & I & A & P).
  - intros x. reflexivity.
  - intros y. split; [intros []|intros (r & [] & _)].
  - constructor.
  - intros r r' [].
  - simpl in *. unfold WeightedGraph.connected_components. rewrite C.
    eexists. eexists. exists reps. split; [reflexivity|].
    repeat split; auto.
    intros Sym r r' Ir Ir' Ne Rr.
    destruct (P r r' Ir Ir' Ne) as [N|N]; [exact (N Rr)|].
    apply N. now apply WeightedComponentFacts.weighted_reachable_symmetric.
Qed.

Lemma weighted_components_are_counted_witness :
  exists cc g' reps,
    WeightedGraph.connected_components 10 Scenario.triangle = Some (cc, g')
    /\ cc = Z.of_nat (List.length reps)
    /\ WeightedGraph._elements g' = WeightedGraph._elements Scenario.triangle
    /\ WeightedSpec.same_edges (WeightedGraph.adj g')
         (WeightedGraph.adj Scenario.triangle)
    /\ NoDup reps
    /\ (forall r, In r reps -> In r (WeightedGraph._elements Scenario.triangle))
    /\ (forall v, In v (WeightedGraph._elements Scenario.triangle) ->
          exists r, In r reps /\ WeightedSpec.reachable Scenario.triangle r v)
    /\ (forall r r', In r reps -> In r' reps -> r <> r' ->
          ~ WeightedSpec.reachable Scenario.triangle r r'
          \/ ~ WeightedSpec.reachable Scenario.triangle r' r)
    /\ ((forall u v w, WeightedSpec.edge Scenario.triangle u v w ->
                       WeightedSpec.edge Scenario.triangle v u w) ->
        forall r r', In r reps -> In r' reps -> r <> r' ->
          ~ WeightedSpec.reachable Scenario.triangle r r').
Proof.
  apply (weighted_components_are_counted Z Z_Vertex
           Scenario.triangle 10).
  vm_compute. lia.
Defined.

(** ** Undirected weighted graphs stay symmetric *)

Module WeightedSymmetryFacts.
Import WeightedGraph WeightedSpec.
Section WithVertex.
Context {T : Type} `{Vertex T}.

Lemma weighted_add_edge_reads (g : weighted_graph T) (u v x y : T) (w c : Z) :
  _type g = "undirected"%string ->
  (In (y, c) (um_get [] x (adj (add_edge g u v w)))
   <-> In (y, c) (um_get [] x (adj g))
       \/ (x = u /\ y = v /\ c = double_of_int64 w)
       \/ (x = v /\ y = u /\ c = double_of_int64 w)).
Proof.
  intros M. unfold add_edge. simpl. rewrite M. simpl.
  rewrite !um_get_modify.
  destruct (vertex_eq_dec x v) as [Ev|Nv], (vertex_eq_dec x u) as [Eu|Nu];
    subst; rewrite ?um_get_modify;
    repeat match goal with
           | |- context [vertex_eq_dec ?a ?b] =>
               destruct (vertex_eq_dec a b); try congruence
           end;
    rewrite ?in_app_iff; simpl; intuition congruence.
Qed.

Lemma weighted_has_edge_true (g : weighted_graph T) (u v : T) :
  fst (has_edge g u v) = true
  <-> In u (_elements g) /\ exists w, edge g u v w.
Proof.
  unfold has_edge, edge.
  destruct (set_mem u (_elements g)) eqn:M; simpl.
  - apply set_mem_true in M. rewrite um_get_touch, existsb_exists. split.
    + intros ([y w] & I & E). simpl in E.
      destruct (vertex_eq_dec y v) as [->|]; [|discriminate].
      split; [exact M|]. now exists w.
    + intros (_ & w & I). exists (v, w). split; [exact I|]. simpl.
      now destruct (vertex_eq_dec v v).
  - apply set_mem_false in M. split; [discriminate|tauto].
Qed.

(** The state of an undirected graph: its mode, and edges that go both
    ways with one weight, between vertices of the graph. *)
Local Abbreviation undirected g :=
  (_type g = "undirected"%string
   /\ (forall u v w, edge g u v w -> edge g v u w)
   /\ sources_known g).

Lemma add_edge_undirected (g : weighted_graph T) (u v : T) (w : Z) :
  undirected g -> undirected (add_edge g u v w).
Proof.
  intros (M & S & K). split; [exact M|]. split.
  - intros x y c E. unfold edge in *.
    apply (weighted_add_edge_reads g u v x y w c M) in E.
    apply (weighted_add_edge_reads g u v y x w c M).
    destruct E as [E|[E|E]]; [left; now apply S|tauto|tauto].
  - intros x y c E. unfold edge in E.
    apply (weighted_add_edge_reads g u v x y w c M) in E.
    simpl. rewrite !set_insert_in.
    destruct E as [E|[(-> & _)|(-> & _)]]; [|tauto|tauto].
    right. right. eapply K. exact E.
Qed.

Lemma replay_undirected (edges : list ((T * T) * Z)) :
  forall g : weighted_graph T,
    undirected g ->
    undirected
      (fold_left (fun g e => add_edge g (fst (fst e)) (snd (fst e)) (snd e))
         edges g).
Proof.
  induction edges as [|e edges IH]; intros g U; simpl; [exact U|].
  apply IH. now apply add_edge_undirected.
Qed.

Lemma ctor_undirected (adj_ : list ((T * T) * Z)) :
  undirected (object (weighted_graph_ctor "undirected" adj_)).
Proof.
  unfold weighted_graph_ctor, ctor_try. simpl. apply replay_undirected.
  split; [reflexivity|]. split; [intros u v w []|intros u v w []].
Qed.
End WithVertex.
End WeightedSymmetryFacts.

(** X27.  A weighted graph constructed as "undirected", after any number
    of further [add_edge] calls, stores every edge in both directions with
    one weight, and [has_edge(u,v)] and [has_edge(v,u)] give the same
    answer for every pair of vertices. *)
Theorem weighted_undirected_edges_go_both_ways :
  forall (T : Type) `(Vertex T) (adj_ more : list ((T * T) * Z)),
    let g :=
      fold_left
        (fun g e =>
           WeightedGraph.add_edge g (fst (fst e)) (snd (fst e)) (snd e))
        more (object (WeightedGraph.weighted_graph_ctor "undirected" adj_)) in
    (forall u v w, WeightedSpec.edge g u v w <-> WeightedSpec.edge g v u w)
    /\ (forall u v,
          fst (WeightedGraph.has_edge g u v)
          = fst (WeightedGraph.has_edge g v u)).
Proof.
  intros T VT adj_ more g.
  destruct (WeightedSymmetryFacts.replay_undirected more _
              (WeightedSymmetryFacts.ctor_undirected adj_)) as (M & S & K).
  fold g in M, S, K. split.
  - intros u v w. split; apply S.
  - assert (E : forall x y, fst (WeightedGraph.has_edge g x y) = true ->
                            fst (WeightedGraph.has_edge g y x) = true).
    { intros x y P. apply WeightedSymmetryFacts.weighted_has_edge_true in P.
      destruct P as (_ & w & P). apply S in P.
      apply WeightedSymmetryFacts.weighted_has_edge_true.
      split; [eapply K; exact P|now exists w]. }
    intros u v.
    destruct (fst (WeightedGraph.has_edge g u v)) eqn:A,
             (fst (WeightedGraph.has_edge g v u)) eqn:B; auto.
    + apply E in A. congruence.
    + apply E in B. congruence.
Qed.

(** ** What the distances of [bellman_ford] stand for *)

Module BellmanFordWalkFacts.
Import WeightedGraph WeightedSpec.
Section WithVertex.
Context {T : Type} `{Vertex T}.
Variable g : weighted_graph T.
Variable start : T.

(** The weights lie between [-Wmax] and [Wmax]. *)
Variable Wmax : Z.
Hypothesis weights_within : forall u v w, edge g u v w -> - Wmax <= w <= Wmax.
Hypothesis W_non_negative : 0 <= Wmax.

(** After [k] relaxations a finite distance is the weight of a walk from
    [start], or the value 0.0 that [operator[]] inserts for a vertex with
    no entry of its own, and its magnitude is at most [k] times [Wmax];
    entries are missing only for vertices other than [start] that are not
    keys of [adj]. *)
#[local, warnings="-inconsistent-scopes"]
Abbreviation sound k dist :=
  ((forall v d, dist v = Some (Fin d) ->
      (walk g start v d
       \/ (d = 0 /\ v <> start /\ ~ In v (um_keys (adj g))))
      /\ - (Z.of_nat k * Wmax) <= d <= Z.of_nat k * Wmax)
   /\ (forall v, dist v = None -> v <> start /\ ~ In v (um_keys (adj g)))).

Lemma steps_monotone (k k' : nat) :
  (k <= k')%nat -> Z.of_nat k * Wmax <= Z.of_nat k' * Wmax.
Proof. intros L. apply Z.mul_le_mono_nonneg_r; lia. Qed.

Lemma sound_later (k k' : nat) (dist : T -> option dval) :
  (k <= k')%nat -> sound k dist -> sound k' dist.
Proof.
  intros L [A B]. pose proof (steps_monotone k k' L). split; [|exact B].
  intros v d E. destruct (A v d E) as [W R]. split; [exact W|lia].
Qed.

Lemma dist_touch_sound (k : nat) (dist : T -> option dval) (x : T) :
  sound k dist -> sound k (dist_touch dist x).
Proof.
  intros [A B]. unfold dist_touch, dist_get. split.
  - intros v d E. unfold fupd in E. destruct (vertex_eq_dec v x) as [->|N].
    + destruct (dist x) as [dk|] eqn:K.
      * inversion E. subst dk. now apply A.
      * inversion E. pose proof (steps_monotone 0 k ltac:(lia)). split.
        -- right. split; [reflexivity|]. now apply B.
        -- simpl in *. lia.
    + now apply A.
  - intros v E. unfold fupd in E. destruct (vertex_eq_dec v x) as [->|N];
      [discriminate|now apply B].
Qed.

(** A relaxation of the first phase, while no sum is rounded. *)
Lemma relax_exact_sound (k : nat) (j : T) (dist : T -> option dval)
    (e : T * Z) :
  In j (um_keys (adj g)) ->
  edge g j (fst e) (snd e) ->
  Z.of_nat (S k) * Wmax <= 2 ^ 53 ->
  sound k dist -> sound (S k) (relax (fun d => d) j dist e).
Proof.
  intros K E Sm Sd. unfold relax.
  set (dist1 := dist_touch (dist_touch dist j) (fst e)).
  assert (S1 : sound k dist1) by (unfold dist1; now repeat apply dist_touch_sound).
  destruct (dval_ltb (dval_add (dist_get dist1 j) (snd e))
              (dist_get dist1 (fst e)));
    [|apply (sound_later k (S k)); [lia|exact S1]].
  destruct (sound_later k (S k) dist1 ltac:(lia) S1) as [A' B'].
  destruct S1 as [A B]. split.
  - intros v d Ev. unfold fupd in Ev.
    destruct (vertex_eq_dec v (fst e)) as [->|N]; [|now apply A'].
    inversion Ev as [Ed].
    unfold dist_get in Ed. destruct (dist1 j) as [[|dj|]|] eqn:Dj;
      simpl in Ed; try discriminate.
    + destruct (A j dj Dj) as [[W|(_ & _ & N)] R]; [|contradiction].
      pose proof (weights_within _ _ _ E) as Bw.
      assert (Sk : Z.of_nat (S k) * Wmax = Z.of_nat k * Wmax + Wmax) by lia.
      assert (P53 : 0 < 2 ^ 53) by reflexivity.
      rewrite double_add_exact in Ed by lia.
      inversion Ed. split; [|lia].
      left. eapply walk_step; [exact W|exact E].
    + apply B in Dj. tauto.
  - intros v Ev. unfold fupd in Ev.
    destruct (vertex_eq_dec v (fst e)); [discriminate|now apply B].
Qed.

(** A relaxation of the second phase writes no finite distance. *)
Lemma relax_marked_sound (k : nat) (j : T) (dist : T -> option dval)
    (e : T * Z) :
  sound k dist -> sound k (relax (fun _ => NegInf) j dist e).
Proof.
  intros S. unfold relax.
  set (dist1 := dist_touch (dist_touch dist j) (fst e)).
  assert (S1 : sound k dist1) by (unfold dist1; now repeat apply dist_touch_sound).
  destruct (dval_ltb (dval_add (dist_get dist1 j) (snd e))
              (dist_get dist1 (fst e))); [|exact S1].
  destruct S1 as [A B]. split.
  - intros v d Ev. unfold fupd in Ev.
    destruct (vertex_eq_dec v (fst e)) as [->|N]; [discriminate|now apply A].
  - intros v Ev. unfold fupd in Ev.
    destruct (vertex_eq_dec v (fst e)); [discriminate|now apply B].
Qed.

Lemma relax_all_exact_sound (k : nat) (dist : T -> option dval) :
  Z.of_nat (k + edge_count (adj g)) * Wmax <= 2 ^ 53 ->
  sound k dist ->
  sound (k + edge_count (adj g)) (relax_all (fun d => d) (adj g) dist).
Proof.
  unfold relax_all, edge_count.
  assert (Q : forall (j : T) (l : list (T * Z)),
             In j (um_keys (adj g)) ->
             (forall e, In e l -> In e (um_get [] j (adj g))) ->
             forall k dist,
               Z.of_nat (k + List.length l) * Wmax <= 2 ^ 53 ->
               sound k dist ->
               sound (k + List.length l)
                 (fold_left (relax (fun d => d) j) l dist)).
  { intros j l Kj. induction l as [|e l IHl]; intros Sub n d Sm Sd; simpl.
    - now rewrite Nat.add_0_r.
    - simpl in Sm. replace (n + S (List.length l))%nat
        with (S n + List.length l)%nat in * by lia.
      apply IHl; [intros e' Ie; apply Sub; now right|exact Sm|].
      apply relax_exact_sound; auto.
      + unfold edge. destruct e as [x w]. apply Sub. now left.
      + pose proof (steps_monotone (S n) (S n + List.length l) ltac:(lia)).
        lia. }
  assert (P : forall entries : list (T * list (T * Z)),
             (forall j, In j entries -> In (fst j) (um_keys (adj g))) ->
             forall k dist,
               Z.of_nat (k + List.length
                               (flat_map (fun j => um_get [] (fst j) (adj g))
                                  entries)) * Wmax <= 2 ^ 53 ->
               sound k dist ->
               sound (k + List.length
                            (flat_map (fun j => um_get [] (fst j) (adj g))
                               entries))
                 (fold_left
                    (fun dist j =>
                       fold_left (relax (fun d => d) (fst j))
                         (um_get [] (fst j) (adj g)) dist)
                    entries dist)).
  { induction entries as [|j entries IH]; intros K n d Sm Sd; simpl.
    - now rewrite Nat.add_0_r.
    - simpl in Sm. rewrite length_app in *.
      replace (n + (List.length (um_get [] (fst j) (adj g))
                    + List.length
                        (flat_map (fun j => um_get [] (fst j) (adj g))
                           entries)))%nat
        with (n + List.length (um_get [] (fst j) (adj g))
              + List.length
                  (flat_map (fun j => um_get [] (fst j) (adj g)) entries))%nat
        in * by lia.
      apply IH; [intros j' Ij; apply K; now right|exact Sm|].
      apply Q; auto.
      + apply K. now left.
      + match type of Sm with
        | Z.of_nat (?a + ?b) * _ <= _ =>
            pose proof (steps_monotone a (a + b) ltac:(lia))
        end.
        lia. }
  intros Sm S. apply P; auto.
  intros j Ij. unfold um_keys. now apply in_map.
Qed.

Lemma relax_all_marked_sound (k : nat) (dist : T -> option dval) :
  sound k dist -> sound k (relax_all (fun _ => NegInf) (adj g) dist).
Proof.
  unfold relax_all.
  assert (Q : forall (j : T) (l : list (T * Z)) dist,
             sound k dist ->
             sound k (fold_left (relax (fun _ => NegInf) j) l dist)).
  { intros j l. induction l as [|e l IHl]; intros d Sd; simpl; [exact Sd|].
    apply IHl. now apply relax_marked_sound. }
  assert (P : forall (entries : list (T * list (T * Z))) dist,
             sound k dist ->
             sound k (fold_left
                        (fun dist j =>
                           fold_left (relax (fun _ => NegInf) (fst j))
                             (um_get [] (fst j) (adj g)) dist)
                        entries dist)).
  { induction entries as [|j entries IH]; intros d Sd; simpl; [exact Sd|].
    apply IH. now apply Q. }
  apply P.
Qed.

Lemma rounds_exact_sound (n : nat) :
  forall (k : nat) dist,
    Z.of_nat (k + n * edge_count (adj g)) * Wmax <= 2 ^ 53 ->
    sound k dist ->
    sound (k + n * edge_count (adj g))
      (rounds n (fun d => d) (adj g) dist).
Proof.
  induction n as [|n IH]; intros k dist Sm S; simpl.
  - now rewrite Nat.add_0_r.
  - simpl in Sm.
    replace (k + (edge_count (adj g) + n * edge_count (adj g)))%nat
      with (k + edge_count (adj g) + n * edge_count (adj g))%nat in * by lia.
    apply IH; [exact Sm|]. apply relax_all_exact_sound; [|exact S].
    pose proof (steps_monotone (k + edge_count (adj g))
                  (k + edge_count (adj g) + n * edge_count (adj g))
                  ltac:(lia)).
    lia.
Qed.

Lemma rounds_marked_sound (n k : nat) :
  forall dist, sound k dist ->
               sound k (rounds n (fun _ => NegInf) (adj g) dist).
Proof.
  induction n as [|n IH]; intros dist S; simpl; [exact S|].
  apply IH. now apply relax_all_marked_sound.
Qed.

Lemma init_sound : sound 0 (bellman_ford_init (adj g) start).
Proof.
  split.
  - intros v d E. rewrite BellmanFordFacts.bellman_ford_init_spec in E.
    destruct (vertex_eq_dec v start) as [->|N].
    + inversion E. split; [left; constructor|simpl; lia].
    + destruct (in_dec vertex_eq_dec v (um_keys (adj g))); discriminate.
  - intros v E. rewrite BellmanFordFacts.bellman_ford_init_spec in E.
    destruct (vertex_eq_dec v start); [discriminate|].
    destruct (in_dec vertex_eq_dec v (um_keys (adj g))); [discriminate|].
    now split.
Qed.
End WithVertex.
End BellmanFordWalkFacts.

(** X28.  On a graph whose weights lie between [-W] and [W], where the
    number of keys of the adjacency map times the number of stored edges
    times [W] is at most 2^53 (no sum of the relaxation passes is
    rounded), every finite distance in the map [bellman_ford(start)]
    returns is the weight of a walk from [start] to that vertex along
    stored edges, or it is the 0 that [operator[]] inserts for a vertex
    other than [start] that is not a key of the adjacency map; and a
    vertex missing from the map is such a vertex.  This holds also with
    negative weights and negative cycles. *)
Theorem bellman_ford_finite_distances_are_walks :
  forall (T : Type) `(Vertex T) (g : WeightedGraph.weighted_graph T)
         (start v : T) (W : Z),
    (forall x y w, WeightedSpec.edge g x y w -> - W <= w <= W) ->
    Z.of_nat (List.length (WeightedGraph.adj g)
              * WeightedSpec.edge_count (WeightedGraph.adj g)) * W
    <= 2 ^ 53 ->
    (forall d, WeightedGraph.bellman_ford g start v = Some (Fin d) ->
       WeightedSpec.walk g start v d
       \/ (d = 0 /\ v <> start /\ ~ In v (um_keys (WeightedGraph.adj g))))
    /\ (WeightedGraph.bellman_ford g start v = None ->
        v <> start /\ ~ In v (um_keys (WeightedGraph.adj g))).
Proof.
  intros T VT g start v W Bw Bs. unfold WeightedGraph.bellman_ford.
  set (n := Z.to_nat (Z.of_nat (List.length (WeightedGraph.adj g)) - 1)).
  set (m := WeightedSpec.edge_count (WeightedGraph.adj g)).
  assert (Bw' : forall x y w, WeightedSpec.edge g x y w ->
                              - Z.max W 0 <= w <= Z.max W 0)
    by (intros x y w E; apply Bw in E; lia).
  assert (Bn : 0 <= Z.max W 0) by lia.
  assert (Sm : Z.of_nat (0 + n * m) * Z.max W 0 <= 2 ^ 53).
  { destruct (Z.max_spec W 0) as [[_ ->]|[P ->]];
      [rewrite Z.mul_0_r; discriminate|].
    assert (L : (0 + n * m <= List.length (WeightedGraph.adj g) * m)%nat).
    { apply Nat.mul_le_mono_r. unfold n. lia. }
    assert (Z.of_nat (0 + n * m) * W
            <= Z.of_nat (List.length (WeightedGraph.adj g) * m) * W)
      by (apply Z.mul_le_mono_nonneg_r; lia).
    fold m in Bs. lia. }
  pose proof (BellmanFordWalkFacts.rounds_marked_sound g start (Z.max W 0) Bn
                n (0 + n * m) _
                (BellmanFordWalkFacts.rounds_exact_sound g start (Z.max W 0)
                   Bw' Bn n 0 _ Sm
                   (BellmanFordWalkFacts.init_sound g start (Z.max W 0))))
    as [A B].
  split; [intros d E; exact (proj1 (A v d E))|apply B].
Qed.

Lemma bellman_ford_finite_distances_are_walks_witness :
  WeightedGraph.bellman_ford Scenario.chain Scenario.A Scenario.B
  = Some (Fin 5)
  /\ WeightedSpec.walk Scenario.chain Scenario.A Scenario.B 5.
Proof.
  split; [vm_compute; reflexivity|].
  destruct (proj1 (bellman_ford_finite_distances_are_walks Z Z_Vertex
                     Scenario.chain Scenario.A Scenario.B 5
                     ltac:(intros x y w E; apply edge_stored in E;
                           destruct E as (l & J & E); vm_compute in J;
                           destruct J as [J|[J|[]]]; inversion J; subst;
                           destruct E as [E|[]]; inversion E; lia)
                     ltac:(vm_compute; discriminate)) 5)
    as [W|(E & _)].
  - vm_compute. reflexivity.
  - exact W.
  - discriminate E.
Defined.

(** ** Kahn's algorithm on undirected graphs *)

Module UndirectedCycleFacts.
Import Graph GraphSpec.
Section WithVertex.
Context {T : Type} `{Vertex T}.

(** The state of an undirected graph as Kahn's algorithm sees it: every
    vertex has an edge into it from a vertex. *)
Local Abbreviation entered g :=
  (_type g = "undirected"%string
   /\ forall x, In x (_elements g) -> exists u, In u (_elements g) /\ edge g u x).

Lemma add_edge_entered (g : graph T) (u v : T) :
  entered g -> entered (add_edge g u v).
Proof.
  intros [M A]. split; [exact M|]. intros x Ix.
  apply EdgeFacts.add_edge_elements in Ix.
  assert (Iu : In u (_elements (add_edge g u v)))
    by (apply EdgeFacts.add_edge_elements; tauto).
  assert (Iv : In v (_elements (add_edge g u v)))
    by (apply EdgeFacts.add_edge_elements; tauto).
  destruct Ix as [->|[->|Ix]].
  - exists v. split; [exact Iv|]. apply EdgeFacts.add_edge_reads. tauto.
  - exists u. split; [exact Iu|]. apply EdgeFacts.add_edge_reads. tauto.
  - destruct (A x Ix) as (u0 & I0 & E0). exists u0. split.
    + apply EdgeFacts.add_edge_elements. tauto.
    + apply EdgeFacts.add_edge_reads. now left.
Qed.

Lemma run_entered (fuel : nat) (g g' : graph T) (o : operation) :
  entered g -> run fuel g o = Some g' -> entered g'.
Proof.
  intros [M A] R.
  destruct o as [u v|start end_| |start|start];
    try (apply SymmetryFacts.run_query in R;
         [|intros; discriminate|discriminate];
         destruct R as (R1 & R2 & R3); split; [congruence|];
         intros x Ix; rewrite R2 in Ix; destruct (A x Ix) as (u0 & I0 & E0);
         exists u0; rewrite R2; split; [exact I0|];
         unfold edge; rewrite R3; exact E0).
  - simpl in R. inversion R. now apply add_edge_entered.
  - simpl in R. inversion R. split; [exact M|]. intros x [].
Qed.

Lemma run_all_entered (fuel : nat) (ops : list operation) :
  forall g g' : graph T,
    entered g -> run_all fuel g ops = Some g' -> entered g'.
Proof.
  induction ops as [|o ops IH]; intros g g' E R; simpl in R.
  - inversion R. now subst.
  - destruct (run fuel g o) as [g1|] eqn:O; [|discriminate].
    eapply IH; [|exact R]. eapply run_entered; eauto.
Qed.

Lemma ctor_entered (adj_ : list (T * list T)) :
  entered (object (graph_ctor "undirected" adj_)).
Proof.
  unfold graph_ctor, ctor_try. simpl.
  match goal with
  | |- _type (fold_left ?f adj_ ?g0) = _ /\ _ =>
      assert (I0 : entered g0) by (split; [reflexivity|intros x []]);
      revert I0; generalize g0
  end.
  induction adj_ as [|[u l] adj_ IH]; intros g0 I0; simpl; [exact I0|].
  apply IH. clear IH. revert g0 I0.
  induction l as [|v l IHl]; intros g0 I0; simpl; [exact I0|].
  apply IHl. now apply add_edge_entered.
Qed.

Lemma entered_in_edges (g : graph T) :
  entered g ->
  forall x, In x (_elements g) -> in_edges (adj g) (_elements g) x <> 0.
Proof.
  intros [_ A] x Ix. destruct (A x Ix) as (u & Iu & E).
  now apply LeftOutFacts.in_edges_positive with (u := u).
Qed.
End WithVertex.
End UndirectedCycleFacts.

(** X29.  On a graph constructed as "undirected" and changed only through
    [add_edge], [has_edge], [clear], [dfs] and [bfs], [cycle()] answers
    [true] and [topological_sort()] returns the empty order, whatever the
    edges are (also for a single edge, or a tree): every vertex is entered
    by the reverse of an edge that leaves it, so Kahn's algorithm finds no
    vertex to start from. *)
Theorem cycle_is_true_on_undirected_graphs :
  forall (T : Type) `(Vertex T) (adj_ : list (T * list T)) (fuel : nat)
         (ops : list (GraphSpec.operation (T:=T))) (g : Graph.graph T),
    GraphSpec.run_all fuel (object (Graph.graph_ctor "undirected" adj_)) ops
    = Some g ->
    (List.length (Graph._elements g)
     + List.length (GraphSpec.targets (Graph.adj g)) < fuel)%nat ->
    (exists g', Graph.cycle fuel g = Some (true, g'))
    /\ (exists g', Graph.topological_sort fuel g = Some ([], g')).
Proof.
  intros T VT adj_ fuel ops g R L.
  pose proof (UndirectedCycleFacts.run_all_entered fuel ops _ g
                (UndirectedCycleFacts.ctor_entered adj_) R) as En.
  pose proof (UndirectedCycleFacts.entered_in_edges g En) as Nz.
  split.
  - destruct (CycleFacts.graph_cycle_total fuel g L) as (b & g' & C & _).
    exists g'. rewrite C. f_equal. f_equal.
    now apply (TopologicalFacts.cycle_answer fuel g g' b C).
  - unfold Graph.topological_sort.
    destruct (TopologicalFacts.indegrees_spec (Graph.adj g) (Graph._elements g))
      as [_ V].
    destruct (Graph.indegrees (Graph.adj g) (Graph._elements g)) as [indeg a].
    simpl in V.
    destruct (filter (fun x => indeg x =? 0) (Graph._elements g))
      as [|c q] eqn:F.
    + destruct fuel as [|fuel]; [lia|]. simpl. eexists. reflexivity.
    + exfalso. assert (I : In c (filter (fun x => indeg x =? 0)
                                   (Graph._elements g)))
        by (rewrite F; now left).
      apply filter_In in I. destruct I as [Ic Zc]. apply Z.eqb_eq in Zc.
      rewrite V in Zc. exact (Nz c Ic Zc).
Qed.

Lemma cycle_is_true_on_undirected_graphs_witness :
  (exists g', Graph.cycle 10 Scenario.one_edge = Some (true, g'))
  /\ (exists g', Graph.topological_sort 10 Scenario.one_edge = Some ([], g')).
Proof.
  apply (cycle_is_true_on_undirected_graphs Z Z_Vertex [(1, [2])] 10 []).
  - reflexivity.
  - vm_compute. lia.
Defined.

(** ** [bridge] returns, and reports stored edges *)

Module BridgeFacts.
Import Graph GraphSpec.
Section WithVertex.
Context {T : Type} `{Vertex T}.

Lemma unprocessed_monotone (U v v' : list T) :
  (forall y, In y v -> In y v') ->
  (List.length (unprocessed U v') <= List.length (unprocessed U v))%nat.
Proof.
  intros S. unfold unprocessed. induction U as [|u U IH]; simpl; [lia|].
  destruct (set_mem u v) eqn:M.
  - apply set_mem_true in M. apply S in M. apply set_mem_true in M.
    rewrite M. simpl. exact IH.
  - destruct (set_mem u v'); simpl; lia.
Qed.

Lemma unprocessed_strict (U v v' : list T) (x : T) :
  (forall y, In y v -> In y v') ->
  In x U -> ~ In x v -> In x v' ->
  (List.length (unprocessed U v') < List.length (unprocessed U v))%nat.
Proof.
  intros S I N I'. induction U as [|u U IH]; [destruct I|].
  pose proof (unprocessed_monotone U v v' S) as L.
  unfold unprocessed in *. simpl. destruct I as [->|I].
  - apply set_mem_false in N. apply set_mem_true in I'.
    rewrite N, I'. simpl. lia.
  - specialize (IH I). destruct (set_mem u v) eqn:M.
    + apply set_mem_true in M. apply S in M. apply set_mem_true in M.
      rewrite M. simpl. exact IH.
    + destruct (set_mem u v'); simpl; lia.
Qed.

Section Search.
Variable a0 : list (T * list T).

(** The state of the search: [adj] reads as at the start, and every pair
    reported so far is a stored edge, its far end first. *)
#[local, warnings="-inconsistent-scopes"]
Abbreviation good st :=
  (same_edges (b_adj st) a0
   /\ forall b, In b (b_bridges st) ->
        exists x p, b = [x; p] /\ In x (um_get [] p a0)).

Local Abbreviation left st :=
  (List.length (unprocessed (targets a0) (b_visited st))).

Lemma bridge_neighbours_total
    (child : T -> bridge_state -> option bridge_state) (n : nat)
    (start parent : T) :
  (forall x st,
      good st -> In x (targets a0) -> ~ In x (b_visited st) ->
      (left st <= n)%nat ->
      exists st', child x st = Some st' /\ good st'
                  /\ forall y, In y (b_visited st) -> In y (b_visited st')) ->
  forall xs st,
    (forall x, In x xs -> In x (um_get [] start a0)) ->
    good st -> (left st <= n)%nat ->
    exists st',
      bridge_neighbours child start parent xs st = Some st' /\ good st'
      /\ forall y, In y (b_visited st) -> In y (b_visited st').
Proof.
  intros C. induction xs as [|x xs IH]; intros st Sub G L; simpl.
  - exists st. auto.
  - assert (Sub' : forall y, In y xs -> In y (um_get [] start a0))
      by (intros y Iy; apply Sub; now right).
    assert (Ix : In x (um_get [] start a0)) by (apply Sub; now left).
    destruct (vertex_eq_dec x parent); [now apply IH|].
    destruct (set_mem x (b_visited st)) eqn:M.
    + destruct (IH (with_out st start
                      (Z.min (b_out st start) (b_out st x))) Sub')
        as (st' & E' & G' & V'); auto.
      exists st'. auto.
    + apply set_mem_false in M.
      destruct (C x st G (TopologicalFacts.graph_um_get_targets _ _ _ Ix) M L)
        as (st1 & E1 & G1 & V1).
      rewrite E1.
      assert (L1 : (left st1 <= n)%nat).
      { pose proof (unprocessed_monotone (targets a0) _ _ V1). lia. }
      destruct (b_out st1 x >? b_in st1 start).
      * destruct (IH (with_out (with_bridge st1 [x; start]) start
                        (Z.min (b_out (with_bridge st1 [x; start]) start)
                               (b_out (with_bridge st1 [x; start]) x))) Sub')
          as (st' & E' & G' & V'); auto.
        -- destruct G1 as [G1a G1b]. split; [exact G1a|]. simpl.
           intros b Ib. apply in_app_or in Ib.
           destruct Ib as [Ib|[<-|[]]]; [now apply G1b|].
           exists x, start. auto.
        -- exists st'. split; [exact E'|]. split; [exact G'|].
           intros y Iy. apply V'. simpl. now apply V1.
      * destruct (IH (with_out st1 start
                        (Z.min (b_out st1 start) (b_out st1 x))) Sub')
          as (st' & E' & G' & V'); auto.
        exists st'. split; [exact E'|]. split; [exact G'|].
        intros y Iy. apply V'. simpl. now apply V1.
Qed.

Lemma dfs_bridge_total :
  forall (fuel : nat) (start parent : T) (st : bridge_state),
    good st ->
    (List.length (unprocessed (targets a0)
                    (set_insert start (b_visited st))) < fuel)%nat ->
    exists st',
      dfs_bridge fuel start parent st = Some st' /\ good st'
      /\ forall y, In y (b_visited st) -> In y (b_visited st').
Proof.
  induction fuel as [|fuel IH]; intros start parent st [Ga Gb] L; [lia|].
  simpl.
  match goal with
  | |- context [bridge_neighbours ?c start parent ?xs ?s1] =>
      assert (R : exists st',
                 bridge_neighbours c start parent xs s1 = Some st'
                 /\ good st'
                 /\ forall y, In y (b_visited s1) -> In y (b_visited st'));
      [apply (bridge_neighbours_total c fuel start parent)
      |destruct R as (st' & E & G' & V')]
  end.
  - intros x s G Ix Nx Lx. apply IH; [exact G|].
    pose proof (unprocessed_strict (targets a0) (b_visited s)
                  (set_insert x (b_visited s)) x) as Q.
    assert (Q' : (List.length
                    (unprocessed (targets a0) (set_insert x (b_visited s)))
                  < left s)%nat).
    { apply Q; auto.
      - intros y Iy. apply set_insert_in. now right.
      - apply set_insert_in. now left. }
    lia.
  - simpl. intros x Ix. now rewrite um_get_touch, Ga in Ix.
  - simpl. split; [|exact Gb]. intros x. rewrite um_get_touch. apply Ga.
  - simpl. lia.
  - exists st'. split; [exact E|]. split; [exact G'|].
    intros y Iy. apply V'. simpl. apply set_insert_in. now right.
Qed.
End Search.
End WithVertex.
End BridgeFacts.

(** X30.  [graph<T>::bridge(start)] returns on every graph and for every
    [start] once the bound on the depth of its recursion exceeds the number
    of stored edges plus one; it leaves the vertex set and every adjacency
    list as they were, and every pair it reports is a stored edge, written
    with its far end first: [{x, p}] for an edge from [p] to [x]. *)
Theorem bridge_returns_stored_edges :
  forall (T : Type) `(NumericVertex T) (g : Graph.graph T) (start : T)
         (fuel : nat),
    (1 + List.length (GraphSpec.targets (Graph.adj g)) < fuel)%nat ->
    exists bridges g',
      Graph.bridge fuel g start = Some (bridges, g')
      /\ Graph._elements g' = Graph._elements g
      /\ GraphSpec.same_edges (Graph.adj g') (Graph.adj g)
      /\ forall b, In b bridges ->
           exists x p, b = [x; p] /\ GraphSpec.edge g p x.
Proof.
  intros T VT NT g start fuel L. unfold Graph.bridge.
  match goal with
  | |- context [Graph.dfs_bridge fuel start ?p ?st0] =>
      destruct (BridgeFacts.dfs_bridge_total (Graph.adj g) fuel start p st0)
        as (st' & E & [Ga Gb] & _)
  end.
  - split; [intros x; reflexivity|intros b []].
  - simpl.
    pose proof (filter_shorter
                  (fun u => negb (set_mem u (set_insert start [])))
                  (GraphSpec.targets (Graph.adj g))).
    unfold GraphSpec.unprocessed. lia.
  - rewrite E. eexists. eexists. split; [reflexivity|]. simpl.
    split; [reflexivity|]. split; [exact Ga|exact Gb].
Qed.

Lemma bridge_returns_stored_edges_witness :
  exists bridges g',
    Graph.bridge 10 Scenario.one_edge 1 = Some (bridges, g')
    /\ Graph._elements g' = Graph._elements Scenario.one_edge
    /\ GraphSpec.same_edges (Graph.adj g') (Graph.adj Scenario.one_edge)
    /\ forall b, In b bridges ->
         exists x p, b = [x; p] /\ GraphSpec.edge Scenario.one_edge p x.
Proof.
  apply (bridge_returns_stored_edges Z Z_NumericVertex Scenario.one_edge 1 10).
  vm_compute. lia.
Defined.
